(** * The INI cache of the ReactOS setup library (base/setup/lib/utils/inicache.c)

    A shallow embedding of the scanner, of the store of sections and keys
    (doubly linked lists in the process heap), of the loader and of the
    serializer, followed by the properties of the specification that were
    checked against them.

    Conventions of the embedding:
    - a character (CHAR or WCHAR) is its unsigned code, a [Z];
    - a pointer into the file buffer is the list of the characters that lie
      from it to the end of the allocation; reading through a pointer that
      has left the allocation is a [Fault];
    - a pointer to a key, a section or a cache header is an address
      ([positive]) in a heap of records, [None] is NULL; dereferencing NULL
      or an address that holds no record is a [Fault];
    - [RtlAllocateHeap] succeeds or fails according to a script carried by
      the heap; a block obtained for a string has the size that the code
      computed for it, and a copy that needs more is a [Fault]. *)

From Stdlib Require Import ZArith Lia String Ascii.
From stdpp Require Import gmap list.

Local Open Scope Z_scope.

(** ** Outcomes of a call *)

Inductive result (A : Type) : Type :=
| Ok (a : A)      (* the call returns [a] *)
| Fault           (* undefined behaviour: NULL or dangling dereference, read outside the buffer *)
| Diverge.        (* the loop never ends (a cyclic list) *)
Arguments Ok {A} a.
Arguments Fault {A}.
Arguments Diverge {A}.

Definition rbind {A B} (r : result A) (k : A → result B) : result B :=
  match r with
  | Ok a => k a
  | Fault => Fault
  | Diverge => Diverge
  end.

Notation "x <- e ;; k" := (rbind e (λ x, k))
  (at level 100, e at next level, right associativity).

(** ** Characters and the C library *)

Definition NUL : Z := 0.
Definition CR : Z := 13.
Definition LF : Z := 10.
Definition LBRACKET : Z := 91.   (* opening bracket *)
Definition RBRACKET : Z := 93.   (* closing bracket *)
Definition EQUALS : Z := 61.     (* equals sign *)
Definition SEMICOLON : Z := 59.  (* semicolon *)
Definition DQUOTE : Z := 34.     (* double quote *)

(** [isspace] of the C locale: space, \t, \n, \v, \f, \r. *)
Definition isspace (c : Z) : bool := ((9 <=? c) && (c <=? 13)) || (c =? 32).

(** ULONG arithmetic wraps at 2^32. *)
Definition ULONG (z : Z) : Z := z mod 2 ^ 32.

(** The conversions between the narrow and the wide representation and the
    case folding belong to the C runtime and the code page, not to this
    file: they are taken as an interface. [AnsiToUnicode] is what the
    [%S] of [_snwprintf] makes of one narrow character, [UnicodeToAnsi] what
    the [%S] of [sprintf] makes of one wide character, [towlower] the
    folding [_wcsicmp] applies to both operands. *)
Class CodePage : Type := {
  AnsiToUnicode : Z → Z;
  UnicodeToAnsi : Z → Z;
  towlower : Z → Z;
  towlower_NUL : towlower 0 = 0   (* the terminator is not a letter *)
}.

(** A NUL-terminated string held in a buffer of its own (a key name, a key
    value, a section name) is the list of its characters before the NUL. *)
Definition WSTR : Type := list Z.

Section Strings.
Context `{CodePage}.

(** [_wcsicmp]: fold both strings character by character until they differ
    or the first one ends; the sign of the result is not used by this
    file, only whether it is 0. The end of a string reads as NUL. *)
Fixpoint _wcsicmp (s1 s2 : WSTR) : Z :=
  let f := towlower (hd NUL s1) in
  let l := towlower (hd NUL s2) in
  match s1 with
  | [] => f - l
  | _ :: s1' => if (f =? 0) || negb (f =? l) then f - l else _wcsicmp s1' (tl s2)
  end.

End Strings.

(** ** The scanner *)

(** A (non-NULL) PCHAR into the file buffer. *)
Definition PCHAR : Type := list Z.

(** [*Ptr] *)
Definition deref (Ptr : PCHAR) : result Z :=
  match Ptr with
  | [] => Fault
  | c :: _ => Ok c
  end.

(** [Ptr++], after [*Ptr] has been read *)
Definition incr (Ptr : PCHAR) : PCHAR := tl Ptr.

(** [while (p( *Ptr )) Ptr++;] *)
Fixpoint skip_while (p : Z → bool) (Ptr : PCHAR) : result PCHAR :=
  match Ptr with
  | [] => Fault
  | c :: Ptr' => if p c then skip_while p Ptr' else Ok Ptr
  end.

(** [while (p( *Ptr )) { Size++; Ptr++; }] with [ULONG Size] *)
Fixpoint count_while (p : Z → bool) (Size : Z) (Ptr : PCHAR) : result (Z * PCHAR) :=
  match Ptr with
  | [] => Fault
  | c :: Ptr' => if p c then count_while p (ULONG (Size + 1)) Ptr' else Ok (Size, Ptr)
  end.

Definition neq (a b : Z) : bool := negb (a =? b).

(** The loop conditions of the scanner, named after what they stop at. *)
Definition is_blank (c : Z) : bool := neq c NUL && isspace c.
Definition in_line (c : Z) : bool := neq c NUL && neq c LF.
Definition in_section_name (c : Z) : bool := neq c NUL && neq c RBRACKET.
Definition is_blank_or_eol (c : Z) : bool := isspace c || (c =? LF) || (c =? CR).
Definition in_key_name (c : Z) : bool :=
  neq c NUL && negb (isspace c) && neq c EQUALS && neq c SEMICOLON.
Definition in_comment (c : Z) : bool := neq c NUL && neq c CR && neq c LF.
Definition in_quoted (c : Z) : bool := neq c DQUOTE.
Definition in_value (c : Z) : bool := neq c NUL && neq c CR && neq c SEMICOLON.

Definition IniCacheSkipWhitespace (Ptr : PCHAR) : result (option PCHAR) :=
  Ptr <- skip_while is_blank Ptr ;;
  c <- deref Ptr ;;
  Ok (if c =? NUL then None else Some Ptr).

(** The outer loop of [IniCacheSkipToNextSection]; every turn that does
    not leave the loop moves [Ptr], so [S (length Ptr)] turns are enough. *)
Fixpoint IniCacheSkipToNextSection_loop (turns : nat) (Ptr : PCHAR) : result PCHAR :=
  match turns with
  | O => Diverge
  | S turns =>
      c <- deref Ptr ;;
      if neq c NUL && neq c LBRACKET then
        Ptr <- skip_while in_line Ptr ;;
        let Ptr := incr Ptr in
        IniCacheSkipToNextSection_loop turns Ptr
      else Ok Ptr
  end.

Definition IniCacheSkipToNextSection (Ptr : PCHAR) : result (option PCHAR) :=
  Ptr <- IniCacheSkipToNextSection_loop (S (length Ptr)) Ptr ;;
  c <- deref Ptr ;;
  Ok (if c =? NUL then None else Some Ptr).

(** Returns the new [Ptr], [*NamePtr] and [*NameSize]. *)
Definition IniCacheGetSectionName (Ptr : PCHAR) : result (PCHAR * option PCHAR * Z) :=
  Ptr <- skip_while is_blank Ptr ;;
  let NamePtr := Ptr in
  r <- count_while in_section_name 0 Ptr ;;
  let '(Size, Ptr) := r in
  let Ptr := incr Ptr in
  Ptr <- skip_while in_line Ptr ;;
  let Ptr := incr Ptr in
  Ok (Ptr, Some NamePtr, Size).

(** The loop [while (Ptr && *Ptr)] of [IniCacheGetKeyName], entered with a
    non-NULL [Ptr]; [NamePtr] and [NameSize] are the out parameters as the
    previous turn left them. *)
Fixpoint IniCacheGetKeyName_loop (turns : nat) (Ptr : PCHAR)
    (NamePtr : option PCHAR) (NameSize : Z) : result (PCHAR * option PCHAR * Z) :=
  match turns with
  | O => Diverge
  | S turns =>
      c <- deref Ptr ;;
      if c =? NUL then Ok (Ptr, NamePtr, NameSize)
      else
        Ptr <- skip_while is_blank_or_eol Ptr ;;
        c <- deref Ptr ;;
        if c =? NUL then IniCacheGetKeyName_loop turns Ptr None 0
        else
          let NamePtr := Ptr in
          r <- count_while in_key_name 0 Ptr ;;
          let '(Size, Ptr) := r in
          c <- deref Ptr ;;
          if c =? SEMICOLON then
            Ptr <- skip_while in_comment Ptr ;;
            IniCacheGetKeyName_loop turns Ptr (Some NamePtr) 0
          else Ok (Ptr, Some NamePtr, Size)
  end.

Definition IniCacheGetKeyName (Ptr : option PCHAR) : result (option PCHAR * option PCHAR * Z) :=
  match Ptr with
  | None => Ok (None, None, 0)
  | Some Ptr =>
      r <- IniCacheGetKeyName_loop (S (length Ptr)) Ptr None 0 ;;
      let '(Ptr, NamePtr, NameSize) := r in
      Ok (Some Ptr, NamePtr, NameSize)
  end.

(** Returns the new [Ptr] (NULL when there is no [=]), [*DataPtr] and
    [*DataSize]. [String] is the quoted-value mode. *)
Definition IniCacheGetKeyValue (Ptr : option PCHAR) (String : bool)
    : result (option PCHAR * option PCHAR * Z) :=
  match Ptr with
  | None => Fault
  | Some Ptr =>
      Ptr <- skip_while is_blank Ptr ;;
      c <- deref Ptr ;;
      if neq c EQUALS then Ok (None, None, 0)
      else
        let Ptr := incr Ptr in
        Ptr <- skip_while is_blank Ptr ;;
        c <- deref Ptr ;;
        r <-
          (if (c =? DQUOTE) && String then
             let Ptr := incr Ptr in
             let DataPtr := Ptr in
             r <- count_while in_quoted 0 Ptr ;;
             let '(Size, Ptr) := r in
             let Ptr := incr Ptr in
             Ptr <- skip_while in_comment Ptr ;;
             Ok (DataPtr, Size, Ptr)
           else
             let DataPtr := Ptr in
             r <- count_while in_value 0 Ptr ;;
             let '(Size, Ptr) := r in
             Ok (DataPtr, Size, Ptr)) ;;
        let '(DataPtr, Size, Ptr) := r in
        c <- deref Ptr ;;
        let Ptr := if c =? CR then incr Ptr else Ptr in
        c <- deref Ptr ;;
        let Ptr := if c =? LF then incr Ptr else Ptr in
        Ok (Some Ptr, Some DataPtr, Size)
  end.

(** ** The heap: keys, sections and cache headers *)

(** [INSERTION_TYPE] of inicache.h *)
Inductive INSERTION_TYPE : Type :=
| INSERT_FIRST
| INSERT_BEFORE
| INSERT_AFTER
| INSERT_LAST.

Definition INSERTION_TYPE_eqb (a b : INSERTION_TYPE) : bool :=
  match a, b with
  | INSERT_FIRST, INSERT_FIRST | INSERT_BEFORE, INSERT_BEFORE
  | INSERT_AFTER, INSERT_AFTER | INSERT_LAST, INSERT_LAST => true
  | _, _ => false
  end.

(** [INI_KEYWORD]. A key is linked into a section only once its name and
    its data are both allocated, so the two buffers are given by value. *)
Record INI_KEYWORD : Type := {
  key_Name : WSTR;
  key_Data : WSTR;
  key_Next : option positive;
  key_Prev : option positive
}.

(** [INI_SECTION] *)
Record INI_SECTION : Type := {
  sec_Name : WSTR;
  FirstKey : option positive;
  LastKey : option positive;
  sec_Next : option positive;
  sec_Prev : option positive
}.

(** [INICACHE] *)
Record INICACHE : Type := {
  FirstSection : option positive;
  LastSection : option positive
}.

Record heap : Type := {
  keys : gmap positive INI_KEYWORD;
  sections : gmap positive INI_SECTION;
  caches : gmap positive INICACHE;
  allocs : list bool   (* the outcomes of the coming RtlAllocateHeap calls; when exhausted, success *)
}.

Definition with_Data (d : WSTR) (k : INI_KEYWORD) : INI_KEYWORD :=
  {| key_Name := key_Name k; key_Data := d; key_Next := key_Next k; key_Prev := key_Prev k |}.
Definition with_key_Next (n : option positive) (k : INI_KEYWORD) : INI_KEYWORD :=
  {| key_Name := key_Name k; key_Data := key_Data k; key_Next := n; key_Prev := key_Prev k |}.
Definition with_key_Prev (p : option positive) (k : INI_KEYWORD) : INI_KEYWORD :=
  {| key_Name := key_Name k; key_Data := key_Data k; key_Next := key_Next k; key_Prev := p |}.
Definition with_FirstKey (f : option positive) (s : INI_SECTION) : INI_SECTION :=
  {| sec_Name := sec_Name s; FirstKey := f; LastKey := LastKey s;
     sec_Next := sec_Next s; sec_Prev := sec_Prev s |}.
Definition with_LastKey (l : option positive) (s : INI_SECTION) : INI_SECTION :=
  {| sec_Name := sec_Name s; FirstKey := FirstKey s; LastKey := l;
     sec_Next := sec_Next s; sec_Prev := sec_Prev s |}.
Definition with_sec_Next (n : option positive) (s : INI_SECTION) : INI_SECTION :=
  {| sec_Name := sec_Name s; FirstKey := FirstKey s; LastKey := LastKey s;
     sec_Next := n; sec_Prev := sec_Prev s |}.
Definition with_sec_Prev (p : option positive) (s : INI_SECTION) : INI_SECTION :=
  {| sec_Name := sec_Name s; FirstKey := FirstKey s; LastKey := LastKey s;
     sec_Next := sec_Next s; sec_Prev := p |}.

Definition set_keys (ks : gmap positive INI_KEYWORD) (h : heap) : heap :=
  {| keys := ks; sections := sections h; caches := caches h; allocs := allocs h |}.
Definition set_sections (ss : gmap positive INI_SECTION) (h : heap) : heap :=
  {| keys := keys h; sections := ss; caches := caches h; allocs := allocs h |}.
Definition set_caches (cs : gmap positive INICACHE) (h : heap) : heap :=
  {| keys := keys h; sections := sections h; caches := cs; allocs := allocs h |}.
Definition set_allocs (a : list bool) (h : heap) : heap :=
  {| keys := keys h; sections := sections h; caches := caches h; allocs := a |}.

(** ** Code that runs on the heap *)

Definition M (A : Type) : Type := heap → result (A * heap).

Definition ret {A} (a : A) : M A := λ h, Ok (a, h).

Definition bind {A B} (m : M A) (k : A → M B) : M B :=
  λ h, match m h with
       | Ok (a, h') => k a h'
       | Fault => Fault
       | Diverge => Diverge
       end.

Notation "x <~ e ;; k" := (bind e (λ x, k))
  (at level 100, e at next level, right associativity).

Definition lift {A} (r : result A) : M A :=
  λ h, match r with
       | Ok a => Ok (a, h)
       | Fault => Fault
       | Diverge => Diverge
       end.

Definition fault {A} : M A := λ _, Fault.

(** [RtlAllocateHeap(ProcessHeap, ...)]: whether the block was obtained. *)
Definition RtlAllocateHeap : M bool :=
  λ h, Ok (hd true (allocs h), set_allocs (tl (allocs h)) h).

Definition read_key (p : positive) : M INI_KEYWORD :=
  λ h, match keys h !! p with
       | Some k => Ok (k, h)
       | None => Fault
       end.

(** An assignment to fields of [*p]. *)
Definition write_key (p : positive) (f : INI_KEYWORD → INI_KEYWORD) : M unit :=
  λ h, match keys h !! p with
       | Some k => Ok (tt, set_keys (<[p := f k]> (keys h)) h)
       | None => Fault
       end.

(** A block obtained for an [INI_KEYWORD], at an address not in use. *)
Definition new_key (k : INI_KEYWORD) : M positive :=
  λ h, let p := fresh (dom (keys h)) in Ok (p, set_keys (<[p := k]> (keys h)) h).

Definition read_section (p : positive) : M INI_SECTION :=
  λ h, match sections h !! p with
       | Some s => Ok (s, h)
       | None => Fault
       end.

Definition write_section (p : positive) (f : INI_SECTION → INI_SECTION) : M unit :=
  λ h, match sections h !! p with
       | Some s => Ok (tt, set_sections (<[p := f s]> (sections h)) h)
       | None => Fault
       end.

Definition new_section (s : INI_SECTION) : M positive :=
  λ h, let p := fresh (dom (sections h)) in Ok (p, set_sections (<[p := s]> (sections h)) h).

Definition read_cache (p : positive) : M INICACHE :=
  λ h, match caches h !! p with
       | Some c => Ok (c, h)
       | None => Fault
       end.

Definition write_cache (p : positive) (f : INICACHE → INICACHE) : M unit :=
  λ h, match caches h !! p with
       | Some c => Ok (tt, set_caches (<[p := f c]> (caches h)) h)
       | None => Fault
       end.

Definition new_cache (c : INICACHE) : M positive :=
  λ h, let p := fresh (dom (caches h)) in Ok (p, set_caches (<[p := c]> (caches h)) h).

Definition ptr_eqb (a b : option positive) : bool :=
  match a, b with
  | None, None => true
  | Some x, Some y => Pos.eqb x y
  | _, _ => false
  end.

Section Store.
Context `{CodePage}.

(** The string that [wcsncpy(Dst, Src, Length); Dst[Length] = 0] leaves in
    [Dst]: the characters of [Src] before its NUL, [Length] at most. *)
Fixpoint wcsncpy (Length : nat) (Src : PCHAR) : result WSTR :=
  match Length with
  | O => Ok []
  | S Length =>
      match Src with
      | [] => Fault
      | c :: Src => if c =? NUL then Ok [] else (r <- wcsncpy Length Src ;; Ok (c :: r))
      end
  end.

(** A buffer of wide characters read as a string ends at its first NUL. *)
Fixpoint cstring (s : list Z) : WSTR :=
  match s with
  | [] => []
  | c :: s => if c =? NUL then [] else c :: cstring s
  end.

(** The UNICODE copy of a name or a value into the block that
    [RtlAllocateHeap(ProcessHeap, 0, (Length + 1) * sizeof(WCHAR))] has just
    returned for it, [Length + 1] being computed in ULONG: "Copy the ...
    (ANSI or UNICODE)" ([wcsncpy] when [IsUnicode],
    [_snwprintf(Dst, Length, L"%.*S", Length, Src)] otherwise), then
    [Dst[Length] = UNICODE_NULL]. The block holds [ULONG (Length + 1)] wide
    characters and [Length + 1] are written: at [Length = 2^32 - 1] the
    size has wrapped to 0 and the copy leaves the block. *)
Definition CopyAorW (Src : PCHAR) (Length : Z) (IsUnicode : bool) : result WSTR :=
  if ULONG (Length + 1) <? Length + 1 then Fault
  else
    r <- wcsncpy (Z.to_nat Length) Src ;;
    Ok (if IsUnicode then r else cstring (map AnsiToUnicode r)).

(** The loop of [IniCacheFindSection]. A list without cycle has no more
    nodes than the heap has sections: a loop that needs more turns than
    that never ends. *)
Fixpoint IniCacheFindSection_loop (turns : nat) (ss : gmap positive INI_SECTION)
    (Section : option positive) (Name : WSTR) : result (option positive) :=
  match Section with
  | None => Ok None
  | Some s =>
      match turns with
      | O => Diverge
      | S turns =>
          match ss !! s with
          | None => Fault
          | Some sr =>
              if _wcsicmp (sec_Name sr) Name =? 0 then Ok (Some s)
              else IniCacheFindSection_loop turns ss (sec_Next sr) Name
          end
      end
  end.

Definition IniCacheFindSection (Cache : positive) (Name : WSTR) : M (option positive) :=
  c <~ read_cache Cache ;;
  λ h, lift (IniCacheFindSection_loop (S (size (sections h))) (sections h)
               (FirstSection c) Name) h.

Fixpoint IniCacheFindKey_loop (turns : nat) (ks : gmap positive INI_KEYWORD)
    (Key : option positive) (Name : WSTR) : result (option positive) :=
  match Key with
  | None => Ok None
  | Some k =>
      match turns with
      | O => Diverge
      | S turns =>
          match ks !! k with
          | None => Fault
          | Some kr =>
              if _wcsicmp (key_Name kr) Name =? 0 then Ok (Some k)
              else IniCacheFindKey_loop turns ks (key_Next kr) Name
          end
      end
  end.

Definition IniCacheFindKey (Section : positive) (Name : WSTR) : M (option positive) :=
  s <~ read_section Section ;;
  λ h, lift (IniCacheFindKey_loop (S (size (keys h))) (keys h) (FirstKey s) Name) h.

(** A pointer that the code dereferences without a test. *)
Definition nonnull {A} (p : option A) : M A :=
  match p with
  | Some a => ret a
  | None => fault
  end.

(** "Insert the key into section": the chain of tests that ends
    [IniCacheAddKeyAorW]. [s] is what [*Section] holds, [Key] the new key,
    whose links are still NULL. *)
Definition InsertKeyIntoSection (Section : positive) (s : INI_SECTION) (Key : positive)
    (AnchorKey : option positive) (InsertionType : INSERTION_TYPE) : M unit :=
  if ptr_eqb (FirstKey s) None then
    write_section Section (λ s, with_LastKey (Some Key) (with_FirstKey (Some Key) s))
  else if INSERTION_TYPE_eqb InsertionType INSERT_FIRST
          || (INSERTION_TYPE_eqb InsertionType INSERT_BEFORE
              && (ptr_eqb AnchorKey None || ptr_eqb AnchorKey (FirstKey s))) then
    (* Insert at the head of the list *)
    First <~ nonnull (FirstKey s) ;;
    _ <~ write_key First (with_key_Prev (Some Key)) ;;
    _ <~ write_key Key (with_key_Next (FirstKey s)) ;;
    write_section Section (with_FirstKey (Some Key))
  else if INSERTION_TYPE_eqb InsertionType INSERT_BEFORE
          && negb (ptr_eqb AnchorKey None) then
    (* Insert before the anchor key *)
    Anchor <~ nonnull AnchorKey ;;
    _ <~ write_key Key (with_key_Next AnchorKey) ;;
    a <~ read_key Anchor ;;
    _ <~ write_key Key (with_key_Prev (key_Prev a)) ;;
    Prev <~ nonnull (key_Prev a) ;;
    _ <~ write_key Prev (with_key_Next (Some Key)) ;;
    write_key Anchor (with_key_Prev (Some Key))
  else if INSERTION_TYPE_eqb InsertionType INSERT_LAST
          || (INSERTION_TYPE_eqb InsertionType INSERT_AFTER
              && (ptr_eqb AnchorKey None || ptr_eqb AnchorKey (LastKey s))) then
    Last <~ nonnull (LastKey s) ;;
    _ <~ write_key Last (with_key_Next (Some Key)) ;;
    _ <~ write_key Key (with_key_Prev (LastKey s)) ;;
    write_section Section (with_LastKey (Some Key))
  else if INSERTION_TYPE_eqb InsertionType INSERT_AFTER
          && negb (ptr_eqb AnchorKey None) then
    (* Insert after the anchor key *)
    Anchor <~ nonnull AnchorKey ;;
    a <~ read_key Anchor ;;
    _ <~ write_key Key (with_key_Next (key_Next a)) ;;
    _ <~ write_key Key (with_key_Prev AnchorKey) ;;
    Next <~ nonnull (key_Next a) ;;
    _ <~ write_key Next (with_key_Prev (Some Key)) ;;
    write_key Anchor (with_key_Next (Some Key))
  else ret tt.

(** The blocks of the name and of the data have
    [(NameLength + 1) * sizeof(WCHAR)] and [(DataLength + 1) * sizeof(WCHAR)]
    bytes, the sums in ULONG; [CopyAorW] is the copy into such a block and
    leaves it when the sum has wrapped. *)
Definition IniCacheAddKeyAorW (Section : option positive) (AnchorKey : option positive)
    (InsertionType : INSERTION_TYPE) (Name : option PCHAR) (NameLength : Z)
    (Data : option PCHAR) (DataLength : Z) (IsUnicode : bool) : M (option positive) :=
  match Section, Name, Data with
  | Some Section, Some Name, Some Data =>
      if (NameLength =? 0) || (DataLength =? 0) then ret None
      else
        (* Allocate the UNICODE key name: (NameLength + 1) * sizeof(WCHAR) bytes *)
        ok <~ RtlAllocateHeap ;;
        if negb ok then ret None
        else
          (* Copy the value name (ANSI or UNICODE) *)
          NameU <~ lift (CopyAorW Name NameLength IsUnicode) ;;
          Key <~ IniCacheFindKey Section NameU ;;
          match Key with
          | Some Key =>
              (* Modify the existing data *)
              (* Allocate the UNICODE data buffer: (DataLength + 1) * sizeof(WCHAR) bytes *)
              ok <~ RtlAllocateHeap ;;
              if negb ok then ret None
              else
                (* Copy the data (ANSI or UNICODE) *)
                DataU <~ lift (CopyAorW Data DataLength IsUnicode) ;;
                _ <~ write_key Key (with_Data DataU) ;;
                ret (Some Key)
          | None =>
              (* Allocate the key buffer and name *)
              ok <~ RtlAllocateHeap ;;
              if negb ok then ret None
              else
                (* Allocate the UNICODE data buffer: (DataLength + 1) * sizeof(WCHAR) bytes *)
                ok <~ RtlAllocateHeap ;;
                if negb ok then ret None
                else
                  (* Copy the data (ANSI or UNICODE) *)
                  DataU <~ lift (CopyAorW Data DataLength IsUnicode) ;;
                  Key <~ new_key {| key_Name := NameU; key_Data := DataU;
                                    key_Next := None; key_Prev := None |} ;;
                  (* Insert the key into section *)
                  s <~ read_section Section ;;
                  _ <~ InsertKeyIntoSection Section s Key AnchorKey InsertionType ;;
                  ret (Some Key)
          end
  | _, _, _ => ret None
  end.

(** "Append the section": [c] is what [*Cache] holds, [Section] the new
    section, whose links are still NULL. *)
Definition AppendSection (Cache : positive) (c : INICACHE) (Section : positive) : M unit :=
  if ptr_eqb (FirstSection c) None then
    write_cache Cache (λ _, {| FirstSection := Some Section; LastSection := Some Section |})
  else
    Last <~ nonnull (LastSection c) ;;
    _ <~ write_section Last (with_sec_Next (Some Section)) ;;
    _ <~ write_section Section (with_sec_Prev (LastSection c)) ;;
    write_cache Cache (λ c, {| FirstSection := FirstSection c; LastSection := Some Section |}).

(** The block of the name has [(NameLength + 1) * sizeof(WCHAR)] bytes, the
    sum in ULONG; [CopyAorW] is the copy into it and leaves it when the sum
    has wrapped. *)
Definition IniCacheAddSectionAorW (Cache : option positive) (Name : option PCHAR)
    (NameLength : Z) (IsUnicode : bool) : M (option positive) :=
  match Cache, Name with
  | Some Cache, Some Name =>
      if NameLength =? 0 then ret None
      else
        (* Allocate the UNICODE section name: (NameLength + 1) * sizeof(WCHAR) bytes *)
        ok <~ RtlAllocateHeap ;;
        if negb ok then ret None
        else
          (* Copy the section name (ANSI or UNICODE) *)
          NameU <~ lift (CopyAorW Name NameLength IsUnicode) ;;
          Section <~ IniCacheFindSection Cache NameU ;;
          match Section with
          | Some Section => ret (Some Section)
          | None =>
              (* Allocate the section buffer and name *)
              ok <~ RtlAllocateHeap ;;
              if negb ok then ret None
              else
                Section <~ new_section {| sec_Name := NameU; FirstKey := None; LastKey := None;
                                          sec_Next := None; sec_Prev := None |} ;;
                (* Append the section *)
                c <~ read_cache Cache ;;
                _ <~ AppendSection Cache c Section ;;
                ret (Some Section)
          end
  | _, _ => ret None
  end.

End Store.

(** ** NTSTATUS *)

Definition STATUS_SUCCESS : Z := 0.
Definition STATUS_INVALID_PARAMETER : Z := -1073741811.       (* 0xC000000D as a LONG *)
Definition STATUS_INSUFFICIENT_RESOURCES : Z := -1073741670.  (* 0xC000009A as a LONG *)
Definition NT_SUCCESS (Status : Z) : bool := 0 <=? Status.

(** ** The I/O layer

    What the NT calls answer for the file at hand. Only the statuses and
    the bytes matter to this file. *)
Record IO : Type := {
  NtOpenFile_Status : Z;
  NtCreateFile_Status : Z;
  NtQueryInformationFile_Status : Z;
  EndOfFile_LowPart : Z;          (* FileInfo.EndOfFile.u.LowPart *)
  NtReadFile_Status : Z;
  NtReadFile_Bytes : list Z;      (* what a successful read puts in the buffer *)
  NtWriteFile_Status : Z
}.

(** ** The public functions *)

(** A string argument (PCWSTR, PWCHAR) is [None] when NULL and otherwise
    the characters found at the pointer, the terminating NUL left out;
    as a pointer into memory it is [pointer_of]. *)
Definition pointer_of (s : list Z) : PCHAR := s ++ [NUL].

Section Public.
Context `{CodePage}.

(** [wcslen]: the number of characters before the first NUL. *)
Definition wcslen_of (s : list Z) : Z := Z.of_nat (length (cstring s)).

(** [!*Name] *)
Definition is_empty (s : list Z) : bool := hd NUL s =? NUL.

Definition IniGetSection (Cache : option positive) (Name : option (list Z))
    : M (option positive) :=
  match Cache, Name with
  | Some Cache, Some Name => IniCacheFindSection Cache Name
  | _, _ => ret None
  end.

(** [KeyData] is the out parameter: [None] when the pointer is NULL,
    otherwise what the caller's variable holds. The call returns the status
    and what the variable holds afterwards. *)
Definition IniGetKey (Section : option positive) (KeyName : option (list Z))
    (KeyData : option (option WSTR)) : M (Z * option (option WSTR)) :=
  match Section, KeyName, KeyData with
  | Some Section, Some KeyName, Some _ =>
      let KeyData := Some None in
      Key <~ IniCacheFindKey Section KeyName ;;
      match Key with
      | None => ret (STATUS_INVALID_PARAMETER, KeyData)
      | Some Key =>
          k <~ read_key Key ;;
          let KeyData := Some (Some (key_Data k)) in
          ret (STATUS_SUCCESS, KeyData)
      end
  | _, _, _ => ret (STATUS_INVALID_PARAMETER, KeyData)
  end.

Definition IniAddSection (Cache : option positive) (Name : option (list Z))
    : M (option positive) :=
  match Cache, Name with
  | Some _, Some Name' =>
      if is_empty Name' then ret None
      else IniCacheAddSectionAorW Cache (Some (pointer_of Name'))
             (ULONG (wcslen_of Name')) true
  | _, _ => ret None
  end.

Definition IniInsertKey (Section : option positive) (AnchorKey : option positive)
    (InsertionType : INSERTION_TYPE) (Name Data : option (list Z)) : M (option positive) :=
  match Section, Name, Data with
  | Some _, Some Name', Some Data' =>
      if is_empty Name' || is_empty Data' then ret None
      else IniCacheAddKeyAorW Section AnchorKey InsertionType
             (Some (pointer_of Name')) (ULONG (wcslen_of Name'))
             (Some (pointer_of Data')) (ULONG (wcslen_of Data')) true
  | _, _, _ => ret None
  end.

Definition IniAddKey (Section : option positive) (Name Data : option (list Z))
    : M (option positive) :=
  IniInsertKey Section None INSERT_LAST Name Data.

Definition IniCacheCreate : M (option positive) :=
  ok <~ RtlAllocateHeap ;;
  if negb ok then ret None
  else
    Cache <~ new_cache {| FirstSection := None; LastSection := None |} ;;
    ret (Some Cache).

(** The loop [while (Ptr != NULL && *Ptr != 0)] of [IniCacheLoadFromMemory].
    Every turn moves [Ptr] or ends the loop: [S (length FileBuffer)] turns
    are enough. *)
Fixpoint IniCacheLoadFromMemory_loop (turns : nat) (Cache : positive) (String : bool)
    (Section : option positive) (Ptr : option PCHAR) : M unit :=
  match Ptr with
  | None => ret tt
  | Some Ptr =>
      c <~ lift (deref Ptr) ;;
      if c =? NUL then ret tt
      else
        match turns with
        | O => λ _, Diverge
        | S turns =>
            Ptr <~ lift (IniCacheSkipWhitespace Ptr) ;;
            match Ptr with
            | None => IniCacheLoadFromMemory_loop turns Cache String Section None
            | Some Ptr =>
                c <~ lift (deref Ptr) ;;
                if c =? LBRACKET then
                  let Ptr := incr Ptr in
                  r <~ lift (IniCacheGetSectionName Ptr) ;;
                  let '(Ptr, SectionName, SectionNameSize) := r in
                  Section <~ IniCacheAddSectionAorW (Some Cache) SectionName
                               SectionNameSize false ;;
                  match Section with
                  | None =>
                      Ptr <~ lift (IniCacheSkipToNextSection Ptr) ;;
                      IniCacheLoadFromMemory_loop turns Cache String None Ptr
                  | Some _ =>
                      IniCacheLoadFromMemory_loop turns Cache String Section (Some Ptr)
                  end
                else
                  match Section with
                  | None =>
                      Ptr <~ lift (IniCacheSkipToNextSection Ptr) ;;
                      IniCacheLoadFromMemory_loop turns Cache String None Ptr
                  | Some _ =>
                      r <~ lift (IniCacheGetKeyName (Some Ptr)) ;;
                      let '(Ptr, KeyName, KeyNameSize) := r in
                      r <~ lift (IniCacheGetKeyValue Ptr String) ;;
                      let '(Ptr, KeyValue, KeyValueSize) := r in
                      Key <~ IniCacheAddKeyAorW Section None INSERT_LAST
                               KeyName KeyNameSize KeyValue KeyValueSize false ;;
                      IniCacheLoadFromMemory_loop turns Cache String Section Ptr
                  end
            end
        end
  end.

(** Returns the status and [*Cache]. [FileBuffer] is the whole allocation,
    terminator included; [FileLength] is not used by the function. *)
Definition IniCacheLoadFromMemory (FileBuffer : PCHAR) (FileLength : Z) (String : bool)
    : M (Z * option positive) :=
  (* Allocate inicache header *)
  ok <~ RtlAllocateHeap ;;
  if negb ok then ret (STATUS_INSUFFICIENT_RESOURCES, None)
  else
    Cache <~ new_cache {| FirstSection := None; LastSection := None |} ;;
    (* Parse ini file *)
    _ <~ IniCacheLoadFromMemory_loop (S (length FileBuffer)) Cache String None
           (Some FileBuffer) ;;
    ret (STATUS_SUCCESS, Some Cache).

Definition IniCacheLoadByHandle (FileHandle : IO) (String : bool) : M (Z * option positive) :=
  let Cache : option positive := None in
  (* Query file size *)
  let Status := NtQueryInformationFile_Status FileHandle in
  if negb (NT_SUCCESS Status) then ret (Status, Cache)
  else
    let FileLength := EndOfFile_LowPart FileHandle in
    (* Allocate file buffer with NULL-terminator *)
    ok <~ RtlAllocateHeap ;;
    if negb ok then ret (STATUS_INSUFFICIENT_RESOURCES, Cache)
    else if ULONG (FileLength + 1) <? FileLength + 1 then fault
    else
      (* Read file *)
      let Status := NtReadFile_Status FileHandle in
      (* Append NULL-terminator *)
      let FileBuffer := take (Z.to_nat FileLength) (NtReadFile_Bytes FileHandle) ++ [NUL] in
      if negb (NT_SUCCESS Status) then ret (Status, Cache)
      else IniCacheLoadFromMemory FileBuffer FileLength String.

Definition IniCacheLoad (FileName : IO) (String : bool) : M (Z * option positive) :=
  let Cache : option positive := None in
  (* Open the INI file *)
  let Status := NtOpenFile_Status FileName in
  if negb (NT_SUCCESS Status) then ret (Status, Cache)
  else IniCacheLoadByHandle FileName String.

(** *** The serializer *)

(** What [%S] prints for a wide string. *)
Definition print_S (s : WSTR) : list Z := map UnicodeToAnsi (cstring s).

(** "Calculate required buffer size": the loop over the keys of a section *)
Fixpoint size_keys (turns : nat) (ks : gmap positive INI_KEYWORD) (Key : option positive)
    (BufferSize : Z) : result Z :=
  match Key with
  | None => Ok BufferSize
  | Some k =>
      match turns with
      | O => Diverge
      | S turns =>
          match ks !! k with
          | None => Fault
          | Some kr =>
              let BufferSize :=
                ULONG (BufferSize + (wcslen_of (key_Name kr) + wcslen_of (key_Data kr) + 3)) in
              size_keys turns ks (key_Next kr) BufferSize
          end
      end
  end.

(** and the loop over the sections *)
Fixpoint size_sections (turns : nat) (h : heap) (Section : option positive)
    (BufferSize : Z) : result Z :=
  match Section with
  | None => Ok BufferSize
  | Some s =>
      match turns with
      | O => Diverge
      | S turns =>
          match sections h !! s with
          | None => Fault
          | Some sr =>
              let BufferSize := ULONG (BufferSize + (wcslen_of (sec_Name sr) + 4)) in
              BufferSize <- size_keys (S (size (keys h))) (keys h) (FirstKey sr) BufferSize ;;
              let Section := sec_Next sr in
              let BufferSize :=
                if negb (ptr_eqb Section None) then ULONG (BufferSize + 2) else BufferSize in
              size_sections turns h Section BufferSize
          end
      end
  end.

(** "Fill file buffer": the text that the [sprintf] calls have written
    from the start of the buffer when the loops end. *)
Fixpoint fill_keys (turns : nat) (ks : gmap positive INI_KEYWORD) (Key : option positive)
    (Text : list Z) : result (list Z) :=
  match Key with
  | None => Ok Text
  | Some k =>
      match turns with
      | O => Diverge
      | S turns =>
          match ks !! k with
          | None => Fault
          | Some kr =>
              (* sprintf(Ptr, "%S=%S\r\n", Key->Name, Key->Data) *)
              let Text := Text ++ print_S (key_Name kr) ++ [EQUALS]
                               ++ print_S (key_Data kr) ++ [CR; LF] in
              fill_keys turns ks (key_Next kr) Text
          end
      end
  end.

Fixpoint fill_sections (turns : nat) (h : heap) (Section : option positive)
    (Text : list Z) : result (list Z) :=
  match Section with
  | None => Ok Text
  | Some s =>
      match turns with
      | O => Diverge
      | S turns =>
          match sections h !! s with
          | None => Fault
          | Some sr =>
              (* sprintf(Ptr, "[%S]\r\n", Section->Name) *)
              let Text := Text ++ [LBRACKET] ++ print_S (sec_Name sr) ++ [RBRACKET; CR; LF] in
              Text <- fill_keys (S (size (keys h))) (keys h) (FirstKey sr) Text ;;
              let Section := sec_Next sr in
              let Text := if negb (ptr_eqb Section None) then Text ++ [CR; LF] else Text in
              fill_sections turns h Section Text
          end
      end
  end.

(** Returns the status and, when [NtWriteFile] was called, the bytes handed
    to it. The buffer has [BufferSize + 1] zeroed bytes; a text (with the
    NUL that [sprintf] appends) that does not fit there is written past the
    end of the allocation. *)
Definition IniCacheSaveByHandle (Cache : option positive) (FileHandle : IO)
    : M (Z * option (list Z)) :=
  Cache <~ nonnull Cache ;;
  c <~ read_cache Cache ;;
  (* Calculate required buffer size *)
  BufferSize <~ (λ h, lift (size_sections (S (size (sections h))) h (FirstSection c) 0) h) ;;
  (* Allocate file buffer with NULL-terminator *)
  ok <~ RtlAllocateHeap ;;
  if negb ok then ret (STATUS_INSUFFICIENT_RESOURCES, None)
  else
    (* Fill file buffer *)
    Text <~ (λ h, lift (fill_sections (S (size (sections h))) h (FirstSection c) []) h) ;;
    if ULONG (BufferSize + 1) <? Z.of_nat (length Text) + 1 then fault
    else
      (* Write to the INI file *)
      let Written := take (Z.to_nat BufferSize) (Text ++ replicate (Z.to_nat BufferSize) NUL) in
      let Status := NtWriteFile_Status FileHandle in
      if negb (NT_SUCCESS Status) then ret (Status, Some Written)
      else ret (STATUS_SUCCESS, Some Written).

Definition IniCacheSave (Cache : option positive) (FileName : IO) : M (Z * option (list Z)) :=
  (* Create the INI file *)
  let Status := NtCreateFile_Status FileName in
  if negb (NT_SUCCESS Status) then ret (Status, None)
  else IniCacheSaveByHandle Cache FileName.

End Public.

(** ** What a cache holds *)

(** The addresses met from [p] on by following [next], when the walk ends
    at NULL within [turns] nodes and meets only addresses in use. *)
Fixpoint walk {R : Type} (next : R → option positive) (m : gmap positive R)
    (turns : nat) (p : option positive) : option (list positive) :=
  match p with
  | None => Some []
  | Some a =>
      match turns with
      | O => None
      | S turns =>
          match m !! a with
          | None => None
          | Some r => option_map (cons a) (walk next m turns (next r))
          end
      end
  end.

(** The keys of a section, from [FirstKey] on. *)
Definition key_list (h : heap) (Section : positive) : option (list positive) :=
  match sections h !! Section with
  | None => None
  | Some s => walk key_Next (keys h) (S (size (keys h))) (FirstKey s)
  end.

(** The sections of a cache, from [FirstSection] on. *)
Definition section_list (h : heap) (Cache : positive) : option (list positive) :=
  match caches h !! Cache with
  | None => None
  | Some c => walk sec_Next (sections h) (S (size (sections h))) (FirstSection c)
  end.

Definition entry_of (h : heap) (Key : positive) : option (WSTR * WSTR) :=
  match keys h !! Key with
  | None => None
  | Some k => Some (key_Name k, key_Data k)
  end.

Fixpoint all_some {A : Type} (l : list (option A)) : option (list A) :=
  match l with
  | [] => Some []
  | Some a :: l => option_map (cons a) (all_some l)
  | None :: _ => None
  end.

(** The name of a section with its (key name, value) pairs in order. *)
Definition section_contents (h : heap) (Section : positive)
    : option (WSTR * list (WSTR * WSTR)) :=
  match sections h !! Section, key_list h Section with
  | Some s, Some ks =>
      option_map (pair (sec_Name s)) (all_some (map (entry_of h) ks))
  | _, _ => None
  end.

(** The ordered sequence of (section name, [(key name, value), ...]). *)
Definition contents (h : heap) (Cache : positive)
    : option (list (WSTR * list (WSTR * WSTR))) :=
  match section_list h Cache with
  | None => None
  | Some ss => all_some (map (section_contents h) ss)
  end.

(** ** A code page to run examples with: Latin-1, ASCII case folding *)

Definition Latin1 : CodePage := {|
  AnsiToUnicode := λ c, c;
  UnicodeToAnsi := λ c, if c <? 256 then c else 63;
  towlower := λ c, if (65 <=? c) && (c <=? 90) then c + 32 else c;
  towlower_NUL := eq_refl
|}.

(** The characters of a literal. *)
Definition chars (s : string) : list Z :=
  map (λ a, Z.of_N (N_of_ascii a)) (list_ascii_of_string s).

Definition CRLF : list Z := [CR; LF].

Definition empty_heap : heap :=
  {| keys := ∅; sections := ∅; caches := ∅; allocs := [] |}.

(** What loading a buffer into an empty heap gives: the status and the
    contents of the cache. *)
Definition load_contents `{CodePage} (text : list Z) (String : bool)
    : result (Z * option (list (WSTR * list (WSTR * WSTR)))) :=
  match IniCacheLoadFromMemory (text ++ [NUL]) (Z.of_nat (length text)) String empty_heap with
  | Ok ((Status, Some Cache), h) => Ok (Status, contents h Cache)
  | Ok ((Status, None), _) => Ok (Status, None)
  | Fault => Fault
  | Diverge => Diverge
  end.

(** ** Vocabulary of the properties *)

(** [chain next m p l]: following [next] from [p] meets exactly the
    addresses [l], all in use, and then NULL. *)
Fixpoint chain {R : Type} (next : R → option positive) (m : gmap positive R)
    (p : option positive) (l : list positive) : Prop :=
  match l with
  | [] => p = None
  | a :: l' => p = Some a ∧ ∃ r, m !! a = Some r ∧ chain next m (next r) l'
  end.

Section Matches.
Context `{CodePage}.

(** The key at [k] bears the name [Name], case folded. *)
Definition key_matches (ks : gmap positive INI_KEYWORD) (Name : WSTR) (k : positive)
    : bool :=
  match ks !! k with
  | Some kr => _wcsicmp (key_Name kr) Name =? 0
  | None => false
  end.

Definition section_matches (ss : gmap positive INI_SECTION) (Name : WSTR) (s : positive)
    : bool :=
  match ss !! s with
  | Some sr => _wcsicmp (sec_Name sr) Name =? 0
  | None => false
  end.

(** The text that the specification gives for a cache: for each section
    the line [[Name]], then one line [Name=Value] per key, every line
    ended by CR LF, and one empty line between two sections. Names and
    values are printed as they are, with nothing quoted or escaped. *)
Definition render_key (e : WSTR * WSTR) : list Z :=
  print_S (fst e) ++ [EQUALS] ++ print_S (snd e) ++ [CR; LF].

Definition render_section (s : WSTR * list (WSTR * WSTR)) : list Z :=
  [LBRACKET] ++ print_S (fst s) ++ [RBRACKET; CR; LF] ++ concat (map render_key (snd s)).

Fixpoint render (d : list (WSTR * list (WSTR * WSTR))) : list Z :=
  match d with
  | [] => []
  | s :: d' =>
      render_section s ++
      match d' with
      | [] => []
      | _ :: _ => [CR; LF] ++ render d'
      end
  end.

(** A name as [_wcsicmp] sees it: folded, up to the first NUL. *)
Definition folded (s : list Z) : list Z := cstring (map towlower s).

End Matches.

(** [h'] is [h] with the value of the key at [Key] replaced by [DataU]:
    no key list and no other key has changed. *)
Definition updated_in_place (h h' : heap) (Key : positive) (DataU : WSTR) : Prop :=
  ∃ kr, keys h !! Key = Some kr ∧
        keys h' = <[Key := with_Data DataU kr]> (keys h) ∧
        sections h' = sections h ∧ caches h' = caches h ∧
        (∀ s, key_list h' s = key_list h s) ∧
        (∀ k, k ≠ Key → keys h' !! k = keys h !! k) ∧
        entry_of h' Key = Some (key_Name kr, DataU).

(** [h'] holds the same keys, sections and cache headers as [h]: only the
    script of the allocator may differ. *)
Definition same_store (h h' : heap) : Prop :=
  keys h' = keys h ∧ sections h' = sections h ∧ caches h' = caches h.

(** The section at [Section] is sound: following [FirstKey] gives the
    keys [ks] and [LastKey] is the last of them. *)
Definition sound_section (h : heap) (Section : positive) (ks : list positive) : Prop :=
  key_list h Section = Some ks ∧ LastKey <$> sections h !! Section = Some (last ks).

(** The cache at [Cache] is sound: following [FirstSection] gives the
    sections [ss] and [LastSection] is the last of them. *)
Definition sound_cache (h : heap) (Cache : positive) (ss : list positive) : Prop :=
  section_list h Cache = Some ss ∧ LastSection <$> caches h !! Cache = Some (last ss).

(** The next [n] calls of [RtlAllocateHeap] succeed. *)
Definition allocations_succeed (n : nat) (h : heap) : Prop :=
  Forall (λ b, b = true) (take n (allocs h)).

(** ** Heaps to run examples in *)

(** The heap that a call leaves (the heap it found, if it does not return). *)
Definition heap_after {A : Type} (m : M A) (h : heap) : heap :=
  match m h with
  | Ok (_, h') => h'
  | _ => h
  end.

(** What a call returns, when it returns. *)
Definition returned {A : Type} (m : M A) (h : heap) : option A :=
  match m h with
  | Ok (a, _) => Some a
  | _ => None
  end.

Definition name_A : list Z := chars "A".
Definition name_B : list Z := chars "B".

(** Cache 1 with the sections [A] (x=1, y=2) and [B] (u=3, v=4), built
    with the public functions under [Latin1]. The sections are at the
    addresses 1 and 2, the keys at 1, 2 (in A) and 3, 4 (in B). *)
Definition two_sections : heap :=
  let _ := Latin1 in
  let h := heap_after IniCacheCreate empty_heap in
  let h := heap_after (IniAddSection (Some 1%positive) (Some name_A)) h in
  let h := heap_after (IniAddSection (Some 1%positive) (Some name_B)) h in
  let h := heap_after (IniAddKey (Some 1%positive) (Some (chars "x")) (Some (chars "1"))) h in
  let h := heap_after (IniAddKey (Some 1%positive) (Some (chars "y")) (Some (chars "2"))) h in
  let h := heap_after (IniAddKey (Some 2%positive) (Some (chars "u")) (Some (chars "3"))) h in
  heap_after (IniAddKey (Some 2%positive) (Some (chars "v")) (Some (chars "4"))) h.

(** The key [v=4] of [two_sections], at address 4. *)
Definition key_v : INI_KEYWORD :=
  {| key_Name := chars "v"; key_Data := chars "4";
     key_Next := None; key_Prev := Some 3%positive |}.

(** A section [A] with a line that has no equals sign, followed by a
    section [B] with one key. *)
Definition text_bad_key : list Z :=
  chars "[A]" ++ CRLF ++ chars "badkey" ++ CRLF ++ chars "[B]" ++ CRLF ++ chars "y=2" ++ CRLF.

(** The same without the bad line. *)
Definition text_good_keys : list Z :=
  chars "[A]" ++ CRLF ++ chars "[B]" ++ CRLF ++ chars "y=2" ++ CRLF.

(** A key line with a value that opens a quote and never closes it. *)
Definition text_open_quote : list Z := [EQUALS; DQUOTE] ++ chars "abc" ++ [NUL].

(** A section with a quoted value that holds a semicolon. *)
Definition text_quoted : list Z :=
  chars "[A]" ++ CRLF ++ chars "x=" ++ [DQUOTE] ++ chars "a;b" ++ [DQUOTE] ++ CRLF.

(** Two sections with a quoted value that needs no quotes. *)
Definition text_quoted_plain : list Z :=
  chars "[A]" ++ CRLF ++ chars "x=" ++ [DQUOTE] ++ chars "a b" ++ [DQUOTE] ++ CRLF
  ++ chars "[B]" ++ CRLF ++ chars "y=2" ++ CRLF.

(** Loading, saving and loading again in an empty heap: the contents after
    the first and after the second load. *)
Definition load_save_load `{CodePage} (text : list Z) (String : bool) (FileHandle : IO)
    : result (option (list (WSTR * list (WSTR * WSTR)))
              * option (list (WSTR * list (WSTR * WSTR)))) :=
  match IniCacheLoadFromMemory (text ++ [NUL]) (Z.of_nat (length text)) String empty_heap with
  | Ok ((_, Some Cache), h) =>
      match IniCacheSaveByHandle (Some Cache) FileHandle h with
      | Ok ((_, Some Written), h') =>
          match IniCacheLoadFromMemory (Written ++ [NUL]) (Z.of_nat (length Written))
                  String h' with
          | Ok ((_, Some Cache'), h'') => Ok (contents h Cache, contents h'' Cache')
          | Ok ((_, None), _) => Ok (contents h Cache, None)
          | Fault => Fault
          | Diverge => Diverge
          end
      | Ok ((_, None), _) => Ok (contents h Cache, None)
      | Fault => Fault
      | Diverge => Diverge
      end
  | Ok ((_, None), _) => Ok (None, None)
  | Fault => Fault
  | Diverge => Diverge
  end.

(** An I/O layer in which every call succeeds, for the file [bytes]. *)
Definition file_of (bytes : list Z) : IO :=
  {| NtOpenFile_Status := STATUS_SUCCESS;
     NtCreateFile_Status := STATUS_SUCCESS;
     NtQueryInformationFile_Status := STATUS_SUCCESS;
     EndOfFile_LowPart := ULONG (Z.of_nat (length bytes));
     NtReadFile_Status := STATUS_SUCCESS;
     NtReadFile_Bytes := bytes;
     NtWriteFile_Status := STATUS_SUCCESS |}.

(** ** The loader on contents

    The contents of a cache are a list of (section name, [(key name,
    value), ...]). What follows is what [IniCacheLoadFromMemory] does to
    the contents of the cache it builds when no allocation fails; the
    properties section proves that the code on the heap does just that. *)

Section Contents.
Context `{CodePage}.

(** The position of the first element that satisfies [f]. *)
Fixpoint find_index {A : Type} (f : A → bool) (l : list A) : option nat :=
  match l with
  | [] => None
  | x :: l => if f x then Some O else option_map S (find_index f l)
  end.

(** A stored name [n] answers to [Name]. *)
Definition bears (Name : WSTR) (n : WSTR) : bool := _wcsicmp n Name =? 0.

(** [IniCacheAddSectionAorW] on contents: the section of that name, or a
    new empty one at the end; with its position. *)
Definition add_section (d : list (WSTR * list (WSTR * WSTR))) (NameU : WSTR)
    : list (WSTR * list (WSTR * WSTR)) * nat :=
  match find_index (λ s, bears NameU (fst s)) d with
  | Some i => (d, i)
  | None => (d ++ [(NameU, [])], length d)
  end.

(** [IniCacheAddKeyAorW] with INSERT_LAST on the keys of a section: the
    first key of that name gets the value, or a new key goes to the end. *)
Fixpoint set_value (es : list (WSTR * WSTR)) (NameU DataU : WSTR) : list (WSTR * WSTR) :=
  match es with
  | [] => [(NameU, DataU)]
  | e :: es => if bears NameU (fst e) then (fst e, DataU) :: es
               else e :: set_value es NameU DataU
  end.

Definition set_key (d : list (WSTR * list (WSTR * WSTR))) (i : nat) (NameU DataU : WSTR)
    : list (WSTR * list (WSTR * WSTR)) :=
  alter (λ s, (fst s, set_value (snd s) NameU DataU)) i d.

Definition contents_AddSection (d : list (WSTR * list (WSTR * WSTR)))
    (Name : option PCHAR) (NameLength : Z)
    : result (list (WSTR * list (WSTR * WSTR)) * option nat) :=
  match Name with
  | Some Name =>
      if NameLength =? 0 then Ok (d, None)
      else
        NameU <- CopyAorW Name NameLength false ;;
        Ok (fst (add_section d NameU), Some (snd (add_section d NameU)))
  | None => Ok (d, None)
  end.

Definition contents_AddKey (d : list (WSTR * list (WSTR * WSTR))) (i : nat)
    (Name : option PCHAR) (NameLength : Z) (Data : option PCHAR) (DataLength : Z)
    : result (list (WSTR * list (WSTR * WSTR))) :=
  match Name, Data with
  | Some Name, Some Data =>
      if (NameLength =? 0) || (DataLength =? 0) then Ok d
      else
        NameU <- CopyAorW Name NameLength false ;;
        DataU <- CopyAorW Data DataLength false ;;
        Ok (set_key d i NameU DataU)
  | _, _ => Ok d
  end.

(** The loop of [IniCacheLoadFromMemory] on contents; [Section] is the
    position of the current section. *)
Fixpoint contents_loop (turns : nat) (String : bool)
    (d : list (WSTR * list (WSTR * WSTR))) (Section : option nat) (Ptr : option PCHAR)
    : result (list (WSTR * list (WSTR * WSTR))) :=
  match Ptr with
  | None => Ok d
  | Some Ptr =>
      c <- deref Ptr ;;
      if c =? NUL then Ok d
      else
        match turns with
        | O => Diverge
        | S turns =>
            Ptr <- IniCacheSkipWhitespace Ptr ;;
            match Ptr with
            | None => contents_loop turns String d Section None
            | Some Ptr =>
                c <- deref Ptr ;;
                if c =? LBRACKET then
                  let Ptr := incr Ptr in
                  r <- IniCacheGetSectionName Ptr ;;
                  let '(Ptr, SectionName, SectionNameSize) := r in
                  r <- contents_AddSection d SectionName SectionNameSize ;;
                  let '(d, Section) := r in
                  match Section with
                  | None =>
                      Ptr <- IniCacheSkipToNextSection Ptr ;;
                      contents_loop turns String d None Ptr
                  | Some _ => contents_loop turns String d Section (Some Ptr)
                  end
                else
                  match Section with
                  | None =>
                      Ptr <- IniCacheSkipToNextSection Ptr ;;
                      contents_loop turns String d None Ptr
                  | Some i =>
                      r <- IniCacheGetKeyName (Some Ptr) ;;
                      let '(Ptr, KeyName, KeyNameSize) := r in
                      r <- IniCacheGetKeyValue Ptr String ;;
                      let '(Ptr, KeyValue, KeyValueSize) := r in
                      d <- contents_AddKey d i KeyName KeyNameSize KeyValue KeyValueSize ;;
                      contents_loop turns String d Section Ptr
                  end
            end
        end
  end.

(** The contents that loading [FileBuffer] gives. *)
Definition loaded (FileBuffer : PCHAR) (String : bool)
    : result (list (WSTR * list (WSTR * WSTR))) :=
  contents_loop (S (length FileBuffer)) String [] None (Some FileBuffer).

End Contents.

(** No call of [RtlAllocateHeap] will fail. *)
Definition no_allocation_failure (h : heap) : Prop := Forall (λ b, b = true) (allocs h).

(** The heap holds the cache at [Cache] with the contents [d], in sound
    lists whose nodes are [D]: the address of each section with the
    addresses of its keys. No key is in two lists. *)
Record store_rep (h : heap) (Cache : positive) (D : list (positive * list positive))
    (d : list (WSTR * list (WSTR * WSTR))) : Prop := {
  rep_cache : sound_cache h Cache (D.*1);
  rep_sections : ∀ i x, D !! i = Some x → sound_section h x.1 x.2;
  rep_disjoint : ∀ i j x y k, D !! i = Some x → D !! j = Some y → i ≠ j →
                              k ∈ x.2 → k ∉ y.2;
  rep_contents : Forall2 (λ x y, sec_Name <$> sections h !! x.1 = Some y.1 ∧
                                 Forall2 (λ k e, entry_of h k = Some e) x.2 y.2) D d
}.

(** The current section of the loop, as a pointer and as a position. *)
Definition current (D : list (positive * list positive)) (Section : option positive)
    (i : option nat) : Prop :=
  match Section, i with
  | None, None => True
  | Some s, Some i => D.*1 !! i = Some s
  | _, _ => False
  end.

(** ** Contents that the loader reads back from their own text *)

Section Rereadable.
Context `{CodePage}.

(** A character of a file that the code page takes to a wide character
    and back to itself, and to the wide NUL only when it is NUL. *)
Definition convertible (c : Z) : Prop :=
  UnicodeToAnsi (AnsiToUnicode c) = c ∧ (AnsiToUnicode c = NUL → c = NUL).

(** A stored string that is printed and read back as itself: it holds no
    NUL and is the wide form of its narrow form. *)
Definition faithful (s : WSTR) : Prop :=
  cstring s = s ∧ map AnsiToUnicode (map UnicodeToAnsi s) = s.

(** A section name as the scanner delivers them: not empty, no closing
    bracket, no blank in front. *)
Definition section_name_ok (n : WSTR) : Prop :=
  faithful n ∧ n ≠ [] ∧
  Forall (λ c, in_section_name c = true) (map UnicodeToAnsi n) ∧
  is_blank (hd NUL (map UnicodeToAnsi n)) = false.

(** A key name as the scanner delivers them: not empty, without blank,
    equals sign or semicolon. *)
Definition key_name_ok (k : WSTR) : Prop :=
  faithful k ∧ k ≠ [] ∧ Forall (λ c, in_key_name c = true) (map UnicodeToAnsi k).

(** A value as the scanner delivers them outside quotes: not empty, without
    CR or semicolon, no blank in front. *)
Definition value_ok (v : WSTR) : Prop :=
  faithful v ∧ v ≠ [] ∧
  Forall (λ c, in_value c = true) (map UnicodeToAnsi v) ∧
  is_blank (hd NUL (map UnicodeToAnsi v)) = false.

(** What every load gives: names as the scanner delivers them, different
    from one another (case folded) among the sections and among the keys of
    a section, and faithful values. *)
Definition names_ok (d : list (WSTR * list (WSTR * WSTR))) : Prop :=
  Forall (λ s, section_name_ok (fst s)) d ∧
  NoDup (map (λ s, folded (fst s)) d) ∧
  Forall (λ s, Forall (λ e, key_name_ok (fst e) ∧ faithful (snd e)) (snd s) ∧
               NoDup (map (λ e, folded (fst e)) (snd s))) d.

Definition values_ok (d : list (WSTR * list (WSTR * WSTR))) : Prop :=
  Forall (λ s, Forall (λ e, value_ok (snd e)) (snd s)) d.

(** The two things that a load does not give by itself. A key name can
    begin with an opening bracket (when the line follows a comment line);
    written at the start of a line it would be read as a section header.
    In quoted mode a value can hold what only the quotes protected (a
    semicolon, a CR, a blank or a quote in front, nothing at all), and the
    serializer writes no quotes. *)
Definition plain_value (v : WSTR) : bool :=
  match print_S v with
  | [] => false
  | c :: b => forallb in_value (c :: b) && negb (is_blank c) && neq c DQUOTE
  end.

Definition rereadable (String : bool) (d : list (WSTR * list (WSTR * WSTR))) : bool :=
  forallb (λ s, forallb (λ e, neq (hd NUL (print_S (fst e))) LBRACKET
                              && (negb String || plain_value (snd e))) (snd s)) d.

(** An out parameter pair of the scanner: a size that is 0, or a pointer
    to characters that satisfy [Q] with the size that the loop on [p]
    counted from it. *)
Definition counted (p : Z → bool) (Q : Z → Prop) (NamePtr : option PCHAR) (Size : Z) : Prop :=
  Size = 0 ∨
  ∃ np rest, NamePtr = Some np ∧ Forall Q np ∧ count_while p 0 np = Ok (Size, rest).

(** Contents whose text is read back as they are. *)
Definition key_line_ok (String : bool) (e : WSTR * WSTR) : Prop :=
  key_name_ok (fst e) ∧ value_ok (snd e) ∧ hd NUL (print_S (fst e)) ≠ LBRACKET ∧
  (String = true → hd NUL (print_S (snd e)) ≠ DQUOTE).

Definition section_ok (String : bool) (s : WSTR * list (WSTR * WSTR)) : Prop :=
  section_name_ok (fst s) ∧ Forall (key_line_ok String) (snd s) ∧
  NoDup (map (λ e, folded (fst e)) (snd s)).

Definition canonical (String : bool) (d : list (WSTR * list (WSTR * WSTR))) : Prop :=
  Forall (section_ok String) d ∧ NoDup (map (λ s, folded (fst s)) d).

(** What follows the text of a section: the end of the file, or an empty
    line and the other sections. *)
Definition tail_text (d : list (WSTR * list (WSTR * WSTR))) : list Z :=
  match d with
  | [] => [NUL]
  | _ :: _ => [CR; LF] ++ render d ++ [NUL]
  end.

(** The number of lines of the text of [d] that bear a section or a key. *)
Definition lines (d : list (WSTR * list (WSTR * WSTR))) : nat :=
  length d + length (concat (map snd d)).

End Rereadable.


(** ** Freeing: [IniCacheFreeKey], [IniCacheFreeSection], [IniCacheDestroy] *)

(** [RtlFreeHeap(ProcessHeap, 0, p)] for the block of a key, of a section,
    of a cache header: the address holds no record afterwards. Freeing an
    address that holds no record (a second free) is a [Fault]. *)
Definition free_key (p : positive) : M unit :=
  λ h, match keys h !! p with
       | Some _ => Ok (tt, set_keys (delete p (keys h)) h)
       | None => Fault
       end.

Definition free_section (p : positive) : M unit :=
  λ h, match sections h !! p with
       | Some _ => Ok (tt, set_sections (delete p (sections h)) h)
       | None => Fault
       end.

Definition free_cache (p : positive) : M unit :=
  λ h, match caches h !! p with
       | Some _ => Ok (tt, set_caches (delete p (caches h)) h)
       | None => Fault
       end.

(** Returns [Key->Next]. The buffers of the name and of the data are held
    by value in the record of the key: they go with it. *)
Definition IniCacheFreeKey (Key : option positive) : M (option positive) :=
  match Key with
  | None => ret None
  | Some Key =>
      k <~ read_key Key ;;
      let Next := key_Next k in
      _ <~ free_key Key ;;
      ret Next
  end.

(** The loop [while (Section->FirstKey != NULL)] of [IniCacheFreeSection].
    Every turn that does not fault frees a key: a heap of [n] keys allows
    [n] turns. *)
Fixpoint IniCacheFreeSection_loop (turns : nat) (Section : positive) : M unit :=
  s <~ read_section Section ;;
  match FirstKey s with
  | None => ret tt
  | Some _ =>
      match turns with
      | O => λ _, Diverge
      | S turns =>
          Next <~ IniCacheFreeKey (FirstKey s) ;;
          _ <~ write_section Section (with_FirstKey Next) ;;
          IniCacheFreeSection_loop turns Section
      end
  end.

(** Returns [Section->Next]. *)
Definition IniCacheFreeSection (Section : option positive) : M (option positive) :=
  match Section with
  | None => ret None
  | Some Section =>
      s <~ read_section Section ;;
      let Next := sec_Next s in
      _ <~ (λ h, IniCacheFreeSection_loop (S (size (keys h))) Section h) ;;
      _ <~ write_section Section (with_LastKey None) ;;
      _ <~ free_section Section ;;
      ret Next
  end.

(** The loop [while (Cache->FirstSection != NULL)] of [IniCacheDestroy]. *)
Fixpoint IniCacheDestroy_loop (turns : nat) (Cache : positive) : M unit :=
  c <~ read_cache Cache ;;
  match FirstSection c with
  | None => ret tt
  | Some _ =>
      match turns with
      | O => λ _, Diverge
      | S turns =>
          Next <~ IniCacheFreeSection (FirstSection c) ;;
          _ <~ write_cache Cache (λ c, {| FirstSection := Next;
                                          LastSection := LastSection c |}) ;;
          IniCacheDestroy_loop turns Cache
      end
  end.

Definition IniCacheDestroy (Cache : option positive) : M unit :=
  match Cache with
  | None => ret tt
  | Some Cache =>
      _ <~ (λ h, IniCacheDestroy_loop (S (size (sections h))) Cache h) ;;
      _ <~ write_cache Cache (λ c, {| FirstSection := FirstSection c;
                                      LastSection := None |}) ;;
      free_cache Cache
  end.

(** The heap [h] without the cache at [Cache], the sections [ss] and the
    keys [ks]. *)
Definition without (h : heap) (Cache : positive) (ss ks : list positive) : heap :=
  {| keys := foldr delete (keys h) ks;
     sections := foldr delete (sections h) ss;
     caches := delete Cache (caches h);
     allocs := allocs h |}.

(** The nodes of a cache: each section of its list with the keys of its
    list. *)
Definition node_lists (h : heap) (Cache : positive)
    : option (list (positive * list positive)) :=
  match section_list h Cache with
  | None => None
  | Some ss => all_some (map (λ s, option_map (pair s) (key_list h s)) ss)
  end.

(** [two_sections] with a second cache, at address 2, that holds the
    section [C] (w=5), at address 3, with its key at address 5. *)
Definition two_caches : heap :=
  let _ := Latin1 in
  let h := heap_after IniCacheCreate two_sections in
  let h := heap_after (IniAddSection (Some 2%positive) (Some (chars "C"))) h in
  heap_after (IniAddKey (Some 3%positive) (Some (chars "w")) (Some (chars "5"))) h.

(** ** The iterators over the keys of a section *)

(** [INICACHEITERATOR] of inicache.h *)
Record INICACHEITERATOR : Type := {
  it_Section : option positive;
  it_Key : option positive
}.

(** The heap together with the blocks of the iterators. *)
Record iheap : Type := {
  store : heap;
  iterators : gmap positive INICACHEITERATOR
}.

Definition set_store (h : heap) (s : iheap) : iheap :=
  {| store := h; iterators := iterators s |}.
Definition set_iterators (its : gmap positive INICACHEITERATOR) (s : iheap) : iheap :=
  {| store := store s; iterators := its |}.

(** [KeyName] and [KeyData] are out parameters as in [IniGetKey]: [None]
    when the pointer is NULL, otherwise what the caller's variable holds.
    The call returns the iterator and what the two variables hold
    afterwards. *)
Definition IniFindFirstValue (Section : option positive)
    (KeyName KeyData : option (option WSTR)) (s : iheap)
    : result ((option positive * option (option WSTR) * option (option WSTR)) * iheap) :=
  match Section, KeyName, KeyData with
  | Some Section, Some _, Some _ =>
      r <- read_section Section (store s) ;;
      let sr := fst r in
      match FirstKey sr with
      | None => Ok ((None, KeyName, KeyData), s)
      | Some Key =>
          r <- read_key Key (store s) ;;
          let k := fst r in
          let KeyName := Some (Some (key_Name k)) in
          let KeyData := Some (Some (key_Data k)) in
          r <- RtlAllocateHeap (store s) ;;
          let '(ok, h) := r in
          if negb ok then Ok ((None, KeyName, KeyData), set_store h s)
          else
            let Iterator := fresh (dom (iterators s)) in
            Ok ((Some Iterator, KeyName, KeyData),
                {| store := h;
                   iterators := <[Iterator := {| it_Section := Some Section;
                                                 it_Key := Some Key |}]> (iterators s) |})
      end
  | _, _, _ => Ok ((None, KeyName, KeyData), s)
  end.

Definition IniFindNextValue (Iterator : option positive)
    (KeyName KeyData : option (option WSTR)) (s : iheap)
    : result ((bool * option (option WSTR) * option (option WSTR)) * iheap) :=
  match Iterator, KeyName, KeyData with
  | Some Iterator, Some _, Some _ =>
      match iterators s !! Iterator with
      | None => Fault
      | Some it =>
          match it_Key it with
          | None => Fault
          | Some Current =>
              r <- read_key Current (store s) ;;
              match key_Next (fst r) with
              | None => Ok ((false, KeyName, KeyData), s)
              | Some Key =>
                  r <- read_key Key (store s) ;;
                  let k := fst r in
                  let KeyName := Some (Some (key_Name k)) in
                  let KeyData := Some (Some (key_Data k)) in
                  Ok ((true, KeyName, KeyData),
                      set_iterators (<[Iterator := {| it_Section := it_Section it;
                                                      it_Key := Some Key |}]> (iterators s)) s)
              end
          end
      end
  | _, _, _ => Ok ((false, KeyName, KeyData), s)
  end.

Definition IniFindClose (Iterator : option positive) (s : iheap) : result (unit * iheap) :=
  match Iterator with
  | None => Ok (tt, s)
  | Some Iterator =>
      match iterators s !! Iterator with
      | Some _ => Ok (tt, set_iterators (delete Iterator (iterators s)) s)
      | None => Fault
      end
  end.

(** [two_sections] with no iterator. *)
Definition two_sections_i : iheap := {| store := two_sections; iterators := ∅ |}.

(** [two_sections] with an iterator, at address 1, on the first key of
    the section [A]. *)
Definition iterating : iheap :=
  {| store := two_sections;
     iterators := {[ 1%positive := {| it_Section := Some 1%positive;
                                      it_Key := Some 1%positive |} ]} |}.

(** ** The doubly linked list of the keys of a section *)

(** The section at [Section] holds the keys [ks], each once, linked in
    both directions: [FirstKey] and [LastKey] are the first and the last of
    them, [Next] of each is the one after it (NULL for the last), [Prev] the
    one before it (NULL for the first). *)
Definition well_linked (h : heap) (Section : positive) (ks : list positive) : Prop :=
  NoDup ks ∧
  (∃ sr, sections h !! Section = Some sr ∧ FirstKey sr = head ks ∧ LastKey sr = last ks) ∧
  ∀ i k, ks !! i = Some k →
         ∃ kr, keys h !! k = Some kr ∧ key_Next kr = ks !! S i ∧
               key_Prev kr = match i with
                             | O => None
                             | S j => ks !! j
                             end.

(** Where [IniCacheAddKeyAorW] puts a new key in a list of [n] keys;
    [anchor] is the position of the anchor key in the list, if any. *)
Definition insertion_point (InsertionType : INSERTION_TYPE) (anchor : option nat) (n : nat)
    : nat :=
  match InsertionType, anchor with
  | INSERT_FIRST, _ => 0
  | INSERT_BEFORE, Some i => i
  | INSERT_BEFORE, None => 0
  | INSERT_AFTER, Some i => S i
  | INSERT_AFTER, None => n
  | INSERT_LAST, _ => n
  end.

(** [AnchorKey] is NULL, or the key at position [i] of [ks]. *)
Definition anchor_at (ks : list positive) (AnchorKey : option positive) (anchor : option nat)
    : Prop :=
  match AnchorKey, anchor with
  | None, None => True
  | Some a, Some i => ks !! i = Some a
  | _, _ => False
  end.

(** What linking [Key] into the list [ks] of [Section] leaves alone: the
    caches, the allocator, the other sections, the name and the links of
    the section, the name and the data of every key, and the records of
    the keys that are not in the list. *)
Definition key_frame (h h' : heap) (Section : positive) (ks : list positive)
    (Key : positive) : Prop :=
  caches h' = caches h ∧ allocs h' = allocs h ∧
  (∀ s, s ≠ Section → sections h' !! s = sections h !! s) ∧
  (∀ sr, sections h !! Section = Some sr →
         ∃ sr', sections h' !! Section = Some sr' ∧ sec_Name sr' = sec_Name sr ∧
                sec_Next sr' = sec_Next sr ∧ sec_Prev sr' = sec_Prev sr) ∧
  (∀ k, entry_of h' k = entry_of h k) ∧
  (∀ k, k ∉ ks → k ≠ Key → keys h' !! k = keys h !! k).

(** ** Files in which a name comes more than once *)

Section Merging.
Context `{CodePage}.

(** What the loader makes of the key lines [es] read while the section at
    position [i] is the current one. *)
Definition load_keys (d : list (WSTR * list (WSTR * WSTR))) (i : nat)
    (es : list (WSTR * WSTR)) : list (WSTR * list (WSTR * WSTR)) :=
  fold_left (λ a e, set_key a i (fst e) (snd e)) es d.

(** What it makes of a header followed by key lines. *)
Definition load_section (d : list (WSTR * list (WSTR * WSTR)))
    (s : WSTR * list (WSTR * WSTR)) : list (WSTR * list (WSTR * WSTR)) :=
  load_keys (fst (add_section d (fst s))) (snd (add_section d (fst s))) (snd s).

(** The contents that a list of sections written one after the other is
    read as: a header whose name is already there opens that section
    again, a key whose name is already there in the section gets the new
    value. *)
Definition merged (d : list (WSTR * list (WSTR * WSTR))) : list (WSTR * list (WSTR * WSTR)) :=
  fold_left load_section d [].

(** Sections whose names, key names and values are as the scanner delivers
    them; the names need not differ. *)
Definition printable (String : bool) (d : list (WSTR * list (WSTR * WSTR))) : Prop :=
  Forall (λ s, section_name_ok (fst s) ∧ Forall (key_line_ok String) (snd s)) d.

End Merging.

(** Two sections [A] and one section [B], with the keys [x] and [X]. *)
Definition sections_A_B_a : list (WSTR * list (WSTR * WSTR)) :=
  [(chars "A", [(chars "x", chars "1")]);
   (chars "B", [(chars "u", chars "3")]);
   (chars "a", [(chars "X", chars "2"); (chars "y", chars "5")])].

(** ** Lines that the loader passes over *)

(** Comment lines: a semicolon, the comment, CR LF. *)
Definition comment_lines (cs : list (list Z)) : list Z :=
  concat (map (λ c, [SEMICOLON] ++ c ++ [CR; LF]) cs).

(** Lines ended by a line feed. *)
Definition text_lines (ls : list (list Z)) : list Z :=
  concat (map (λ l, l ++ [LF]) ls).

(** What follows a value on its line, and where the scanner stands after
    the value: a CR LF, which it passes, or a semicolon, at which it
    stays. *)
Definition line_end (tail tail' : list Z) : Prop :=
  tail = CR :: LF :: tail' ∨ (∃ R, tail = SEMICOLON :: R ∧ tail' = tail).
(** * Properties *)

Ltac hsimpl :=
  cbn [keys sections caches allocs set_keys set_sections set_caches set_allocs].
Ltac hsimpl_in H :=
  cbn [keys sections caches allocs set_keys set_sections set_caches set_allocs] in H.

Lemma bind_Ok {A B} (m : M A) (k : A → M B) h a h' :
  m h = Ok (a, h') → bind m k h = k a h'.
Proof. unfold bind. intros ->. reflexivity. Qed.

Lemma allocations_succeed_step n h :
  allocations_succeed (S n) h →
  hd true (allocs h) = true ∧ allocations_succeed n (set_allocs (tl (allocs h)) h).
Proof.
  unfold allocations_succeed. simpl. destruct (allocs h) as [|b a]; simpl.
  - intros _. split; [reflexivity|]. rewrite take_nil. constructor.
  - intros Hf. apply Forall_cons in Hf as [-> Hf]. auto.
Qed.

(** ** Linked lists in the heap *)

Section Chains.
Context {R : Type} (next : R → option positive).
Implicit Types (m : gmap positive R) (p : option positive) (l : list positive).

Lemma walk_chain m turns p l : walk next m turns p = Some l → chain next m p l.
Proof.
  revert p l. induction turns as [|t IH]; intros [a|] l Hw; simpl in *;
    try discriminate; try (injection Hw as <-; reflexivity).
  destruct (m !! a) as [r|] eqn:Ha; [|discriminate].
  destruct (walk next m t (next r)) as [l'|] eqn:Hl; [|discriminate].
  injection Hw as <-. simpl. split; [reflexivity|]. exists r. split; [assumption|].
  apply IH. assumption.
Qed.

Lemma chain_walk m turns p l :
  chain next m p l → (length l ≤ turns)%nat → walk next m turns p = Some l.
Proof.
  revert p turns. induction l as [|a l IH]; intros p turns Hc Hlen; simpl in Hc.
  - subst p. destruct turns; reflexivity.
  - destruct Hc as [-> (r & Ha & Hc)]. destruct turns as [|t]; [simpl in Hlen; lia|].
    simpl. rewrite Ha. rewrite (IH _ t Hc); [reflexivity | simpl in Hlen; lia].
Qed.

Lemma chain_det m p l1 l2 : chain next m p l1 → chain next m p l2 → l1 = l2.
Proof.
  revert p l2. induction l1 as [|a l1 IH]; intros p [|b l2] H1 H2; simpl in *.
  - reflexivity.
  - destruct H2 as [-> _]. discriminate.
  - destruct H1 as [-> _]. discriminate.
  - destruct H1 as [-> (r1 & Ha & H1)]. destruct H2 as [Heq (r2 & Hb & H2)].
    injection Heq as <-. rewrite Ha in Hb. injection Hb as <-.
    f_equal. eapply IH; eassumption.
Qed.

Lemma chain_in_use m p l a : chain next m p l → a ∈ l → is_Some (m !! a).
Proof.
  revert p. induction l as [|b l IH]; intros p Hc Hin.
  - inversion Hin.
  - simpl in Hc. destruct Hc as [-> (r & Hb & Hc)].
    apply elem_of_cons in Hin as [->|Hin]; [eauto | eapply IH; eassumption].
Qed.

Lemma chain_from_member m p l a :
  chain next m p l → a ∈ l → ∃ l1 l2, l = l1 ++ a :: l2 ∧ chain next m (Some a) (a :: l2).
Proof.
  revert p. induction l as [|b l IH]; intros p Hc Hin.
  - inversion Hin.
  - pose proof Hc as Hc'. simpl in Hc. destruct Hc as [-> (r & Hb & Hc)].
    apply elem_of_cons in Hin as [->|Hin].
    + exists [], l. split; [reflexivity | exact Hc'].
    + destruct (IH _ Hc Hin) as (l1 & l2 & -> & Hs).
      exists (b :: l1), l2. split; [reflexivity | exact Hs].
Qed.

Lemma chain_NoDup m p l : chain next m p l → NoDup l.
Proof.
  revert p. induction l as [|a l IH]; intros p Hc; [constructor|].
  pose proof Hc as Hc'. simpl in Hc. destruct Hc as [-> (r & Ha & Hc)].
  constructor; [|eapply IH; eassumption].
  intros Hin. destruct (chain_from_member _ _ _ _ Hc Hin) as (l1 & l2 & Hl & Hs).
  pose proof (chain_det _ _ _ _ Hc' Hs) as Heq. injection Heq as Heq.
  rewrite Heq in Hl. apply (f_equal length) in Hl. rewrite length_app in Hl.
  simpl in Hl. lia.
Qed.

Lemma chain_length m p l : chain next m p l → (length l ≤ size m)%nat.
Proof.
  intros Hc. rewrite <- size_dom. unfold size at 1, set_size. simpl.
  apply submseteq_length, NoDup_submseteq; [eapply chain_NoDup; eassumption|].
  intros a Ha. apply elem_of_elements, elem_of_dom. eapply chain_in_use; eassumption.
Qed.

(** The walk that the views make sees the whole list. *)
Lemma chain_walk_size m p l : chain next m p l → walk next m (S (size m)) p = Some l.
Proof.
  intros Hc. apply chain_walk; [assumption|]. pose proof (chain_length _ _ _ Hc). lia.
Qed.

(** A chain only depends on the [next] fields of its own nodes. *)
Lemma chain_frame m m' p l :
  (∀ a, a ∈ l → next <$> m' !! a = next <$> m !! a) →
  chain next m p l → chain next m' p l.
Proof.
  revert p. induction l as [|a l IH]; intros p Hsame Hc; simpl in *; [assumption|].
  destruct Hc as [-> (r & Ha & Hc)]. split; [reflexivity|].
  pose proof (Hsame a ltac:(left)) as Hn. rewrite Ha in Hn. simpl in Hn.
  destruct (m' !! a) as [r'|]; [|discriminate]. simpl in Hn. injection Hn as Hn.
  exists r'. split; [reflexivity|]. rewrite Hn. apply IH; [|assumption].
  intros b Hb. apply Hsame. right. assumption.
Qed.

(** Linking a new node behind the last one. *)
Lemma chain_snoc m m' p l z a :
  chain next m p l → last l = Some z → a ∉ l →
  (∀ k, k ∈ l → k ≠ z → next <$> m' !! k = next <$> m !! k) →
  next <$> m' !! z = Some (Some a) →
  next <$> m' !! a = Some None →
  chain next m' p (l ++ [a]).
Proof.
  intros Hc Hlast Ha Hsame Hz Hnew.
  pose proof (chain_NoDup _ _ _ Hc) as Hnd.
  revert p Hc Hlast Ha Hsame Hnd. induction l as [|b l IH]; intros p Hc Hlast Ha Hsame Hnd.
  - discriminate.
  - simpl in Hc. destruct Hc as [-> (r & Hb & Hc)]. simpl. split; [reflexivity|].
    apply NoDup_cons in Hnd as [Hbl Hnd].
    destruct l as [|c l].
    + simpl in Hlast. injection Hlast as ->.
      destruct (m' !! z) as [r'|]; [|discriminate]. simpl in Hz. injection Hz as Hz.
      exists r'. split; [reflexivity|]. rewrite Hz. simpl. split; [reflexivity|].
      destruct (m' !! a) as [ra|]; [|discriminate]. simpl in Hnew. injection Hnew as Hnew.
      exists ra. split; [reflexivity|]. assumption.
    + assert (Hbz : b ≠ z).
      { intros ->. apply Hbl. apply last_Some_elem_of. exact Hlast. }
      pose proof (Hsame b ltac:(left) Hbz) as Hn. rewrite Hb in Hn.
      destruct (m' !! b) as [r'|]; [|discriminate]. simpl in Hn. injection Hn as Hn.
      exists r'. split; [reflexivity|]. rewrite Hn. apply IH; auto.
      * intros Hin. apply Ha. right. assumption.
      * intros k Hk. apply Hsame. right. assumption.
Qed.

(** A walk only depends on the [next] fields. *)
Lemma walk_ext m m' turns p :
  (∀ a, next <$> m' !! a = next <$> m !! a) →
  walk next m' turns p = walk next m turns p.
Proof.
  intros Hsame. revert p. induction turns as [|t IH]; intros [a|]; simpl; try reflexivity.
  pose proof (Hsame a) as Hn.
  destruct (m !! a) as [r|], (m' !! a) as [r'|]; simpl in Hn; try discriminate; [|reflexivity].
  injection Hn as ->. rewrite IH. reflexivity.
Qed.

End Chains.

(** ** Lookup *)

Section Lookup.
Context `{CodePage}.

Lemma IniCacheFindKey_loop_walk h Name turns p l :
  walk key_Next (keys h) turns p = Some l →
  IniCacheFindKey_loop turns (keys h) p Name = Ok (List.find (key_matches (keys h) Name) l).
Proof.
  revert p l. induction turns as [|t IH]; intros [a|] l Hw; simpl in *;
    try discriminate; try (injection Hw as <-; reflexivity).
  destruct (keys h !! a) as [kr|] eqn:Ha; [|discriminate].
  destruct (walk key_Next (keys h) t (key_Next kr)) as [l'|] eqn:Hl; [|discriminate].
  injection Hw as <-. simpl. unfold key_matches at 1. rewrite Ha.
  destruct (_wcsicmp (key_Name kr) Name =? 0); [reflexivity|]. apply IH. exact Hl.
Qed.

Lemma IniCacheFindSection_loop_walk h Name turns p l :
  walk sec_Next (sections h) turns p = Some l →
  IniCacheFindSection_loop turns (sections h) p Name
  = Ok (List.find (section_matches (sections h) Name) l).
Proof.
  revert p l. induction turns as [|t IH]; intros [a|] l Hw; simpl in *;
    try discriminate; try (injection Hw as <-; reflexivity).
  destruct (sections h !! a) as [sr|] eqn:Ha; [|discriminate].
  destruct (walk sec_Next (sections h) t (sec_Next sr)) as [l'|] eqn:Hl; [|discriminate].
  injection Hw as <-. simpl. unfold section_matches at 1. rewrite Ha.
  destruct (_wcsicmp (sec_Name sr) Name =? 0); [reflexivity|]. apply IH. exact Hl.
Qed.

(** On a section whose key list is sound, [IniCacheFindKey] returns the
    first key of the list that bears the name. *)
Lemma IniCacheFindKey_first h Section Name ks :
  key_list h Section = Some ks →
  IniCacheFindKey Section Name h = Ok (List.find (key_matches (keys h) Name) ks, h).
Proof.
  unfold key_list, IniCacheFindKey, bind, read_section, lift. intros Hk.
  destruct (sections h !! Section) as [s|]; [|discriminate].
  rewrite (IniCacheFindKey_loop_walk _ _ _ _ _ Hk). reflexivity.
Qed.

Lemma IniCacheFindSection_first h Cache Name ss :
  section_list h Cache = Some ss →
  IniCacheFindSection Cache Name h = Ok (List.find (section_matches (sections h) Name) ss, h).
Proof.
  unfold section_list, IniCacheFindSection, bind, read_cache, lift. intros Hs.
  destruct (caches h !! Cache) as [c|]; [|discriminate].
  rewrite (IniCacheFindSection_loop_walk _ _ _ _ _ Hs). reflexivity.
Qed.

(** C10. [IniGetKey] has two statuses only. On a section whose key list is
    sound it returns STATUS_SUCCESS, with the data of the first key that
    bears the name in the out parameter, exactly when the three pointers
    are non-NULL and a key of the section bears the name (case folded);
    a NULL section, a NULL name, a NULL out pointer and a name that no key
    bears all give the same STATUS_INVALID_PARAMETER. *)
Theorem IniGetKey_statuses (h : heap) (Section : option positive)
    (KeyName : option (list Z)) (KeyData : option (option WSTR)) :
  (∀ s, Section = Some s → is_Some (key_list h s)) →
  ∃ Status out,
    IniGetKey Section KeyName KeyData h = Ok ((Status, out), h) ∧
    (Status = STATUS_SUCCESS ∨ Status = STATUS_INVALID_PARAMETER) ∧
    (Status = STATUS_SUCCESS ↔
       ∃ s n d ks k kr,
         Section = Some s ∧ KeyName = Some n ∧ KeyData = Some d ∧
         key_list h s = Some ks ∧ k ∈ ks ∧ keys h !! k = Some kr ∧
         _wcsicmp (key_Name kr) n = 0) ∧
    (Status = STATUS_SUCCESS →
       ∃ s n ks k kr,
         Section = Some s ∧ KeyName = Some n ∧ key_list h s = Some ks ∧
         List.find (key_matches (keys h) n) ks = Some k ∧ keys h !! k = Some kr ∧
         out = Some (Some (key_Data kr))) ∧
    (Status = STATUS_INVALID_PARAMETER →
       Section = None ∨ KeyName = None ∨ KeyData = None ∨
       ∃ s n ks, Section = Some s ∧ KeyName = Some n ∧ key_list h s = Some ks ∧
                 ∀ k kr, k ∈ ks → keys h !! k = Some kr → _wcsicmp (key_Name kr) n ≠ 0).
Proof.
  intros Hsound.
  assert (Hnull : Section = None ∨ KeyName = None ∨ KeyData = None →
            IniGetKey Section KeyName KeyData h
            = Ok ((STATUS_INVALID_PARAMETER, KeyData), h)).
  { intros Hn. destruct Section, KeyName, KeyData; try reflexivity;
      destruct Hn as [?|[?|?]]; discriminate. }
  destruct Section as [s|]; [|exists STATUS_INVALID_PARAMETER, KeyData;
    rewrite Hnull by auto; repeat split; auto; try discriminate;
    intros (? & ? & ? & ? & ? & ? & ? & _); discriminate].
  destruct KeyName as [n|]; [|exists STATUS_INVALID_PARAMETER, KeyData;
    rewrite Hnull by auto; repeat split; auto; try discriminate;
    intros (? & ? & ? & ? & ? & ? & _ & ? & _); discriminate].
  destruct KeyData as [d|]; [|exists STATUS_INVALID_PARAMETER, None;
    rewrite Hnull by auto; repeat split; auto; try discriminate;
    intros (? & ? & ? & ? & ? & ? & _ & _ & ? & _); discriminate].
  clear Hnull. destruct (Hsound s eq_refl) as [ks Hks].
  unfold IniGetKey, bind. rewrite (IniCacheFindKey_first _ _ _ _ Hks).
  destruct (List.find (key_matches (keys h) n) ks) as [k|] eqn:Hfind.
  - apply find_some in Hfind as Hk. destruct Hk as [Hin Hm].
    unfold key_matches in Hm. unfold read_key, ret.
    destruct (keys h !! k) as [kr|] eqn:Hkr; [|discriminate].
    apply Z.eqb_eq in Hm. apply list_elem_of_In in Hin.
    exists STATUS_SUCCESS, (Some (Some (key_Data kr))).
    repeat split; auto.
    + intros _. exists s, n, d, ks, k, kr. auto 10.
    + intros _. exists s, n, ks, k, kr. auto 10.
    + discriminate.
  - exists STATUS_INVALID_PARAMETER, (Some None). unfold ret.
    repeat split; auto; try discriminate.
    + intros (s' & n' & d' & ks' & k & kr & Hs & Hn & _ & Hks' & Hin & Hkr & Hm).
      injection Hs as <-. injection Hn as <-. rewrite Hks in Hks'. injection Hks' as <-.
      apply list_elem_of_In in Hin.
      pose proof (find_none _ _ Hfind _ Hin) as Hno. unfold key_matches in Hno.
      rewrite Hkr in Hno. apply Z.eqb_neq in Hno. contradiction.
    + intros _. right. right. right. exists s, n, ks. repeat split; auto.
      intros k kr Hin Hkr Hm. apply list_elem_of_In in Hin.
      pose proof (find_none _ _ Hfind _ Hin) as Hno. unfold key_matches in Hno.
      rewrite Hkr in Hno. apply Z.eqb_neq in Hno. contradiction.
Qed.

End Lookup.

(** ** Calls that fail *)

Section Failure.
Context `{CodePage}.

Lemma RtlAllocateHeap_inv h b h' :
  RtlAllocateHeap h = Ok (b, h') →
  keys h' = keys h ∧ sections h' = sections h ∧ caches h' = caches h.
Proof.
  unfold RtlAllocateHeap. intros Heq; injection Heq as <- <-; auto.
Qed.

Lemma lift_inv {A} (r : result A) h a h' : lift r h = Ok (a, h') → r = Ok a ∧ h' = h.
Proof. unfold lift. destruct r; intros Heq; try discriminate. injection Heq as <- <-. auto. Qed.

Lemma IniCacheFindKey_inv Section Name h r h' :
  IniCacheFindKey Section Name h = Ok (r, h') → h' = h.
Proof.
  unfold IniCacheFindKey, bind, read_section. destruct (sections h !! Section); [|discriminate].
  intros Heq. apply lift_inv in Heq as [_ ->]. reflexivity.
Qed.

Lemma IniCacheFindSection_inv Cache Name h r h' :
  IniCacheFindSection Cache Name h = Ok (r, h') → h' = h.
Proof.
  unfold IniCacheFindSection, bind, read_cache. destruct (caches h !! Cache); [|discriminate].
  intros Heq. apply lift_inv in Heq as [_ ->]. reflexivity.
Qed.

Lemma IniCacheAddKeyAorW_NULL Section AnchorKey InsertionType Name NameLength Data
    DataLength IsUnicode h h' :
  IniCacheAddKeyAorW Section AnchorKey InsertionType Name NameLength Data DataLength
    IsUnicode h = Ok (None, h') →
  keys h' = keys h ∧ sections h' = sections h ∧ caches h' = caches h.
Proof.
  unfold IniCacheAddKeyAorW.
  destruct Section as [s|], Name as [n|], Data as [d|];
    try (intros Heq; injection Heq as <-; auto).
  destruct ((NameLength =? 0) || (DataLength =? 0)); [intros Heq; injection Heq as <-; auto|].
  unfold bind at 1. destruct (RtlAllocateHeap h) as [[ok h1]| |] eqn:Ha1; try discriminate.
  apply RtlAllocateHeap_inv in Ha1 as (Hk1 & Hs1 & Hc1).
  destruct ok; simpl; [|intros Heq; injection Heq as <-; auto].
  unfold bind at 1. destruct (lift (CopyAorW n NameLength IsUnicode) h1) as [[NameU h2]| |] eqn:Hn;
    try discriminate.
  apply lift_inv in Hn as [_ ->].
  unfold bind at 1. destruct (IniCacheFindKey s NameU h1) as [[Key h2]| |] eqn:Hf; try discriminate.
  apply IniCacheFindKey_inv in Hf as ->.
  destruct Key as [Key|].
  - unfold bind at 1. destruct (RtlAllocateHeap h1) as [[ok h2]| |] eqn:Ha2; try discriminate.
    apply RtlAllocateHeap_inv in Ha2 as (Hk2 & Hs2 & Hc2).
    destruct ok; simpl; [|intros Heq; injection Heq as <-; repeat split; congruence].
    unfold bind at 1. destruct (lift (CopyAorW d DataLength IsUnicode) h2) as [[DataU h3]| |];
      try discriminate.
    unfold bind at 1. destruct (write_key Key (with_Data DataU) h3) as [[u h4]| |];
      discriminate.
  - unfold bind at 1. destruct (RtlAllocateHeap h1) as [[ok h2]| |] eqn:Ha2; try discriminate.
    apply RtlAllocateHeap_inv in Ha2 as (Hk2 & Hs2 & Hc2).
    destruct ok; simpl; [|intros Heq; injection Heq as <-; repeat split; congruence].
    unfold bind at 1. destruct (RtlAllocateHeap h2) as [[ok h3]| |] eqn:Ha3; try discriminate.
    apply RtlAllocateHeap_inv in Ha3 as (Hk3 & Hs3 & Hc3).
    destruct ok; simpl; [|intros Heq; injection Heq as <-; repeat split; congruence].
    unfold bind at 1. destruct (lift (CopyAorW d DataLength IsUnicode) h3) as [[DataU h4]| |];
      try discriminate.
    unfold bind at 1. destruct (new_key _ h4) as [[Key h5]| |]; try discriminate.
    unfold bind at 1. destruct (read_section s h5) as [[sr h6]| |]; try discriminate.
    unfold bind at 1. destruct (InsertKeyIntoSection _ _ _ _ _ h6) as [[u h7]| |];
      discriminate.
Qed.

Lemma IniCacheAddSectionAorW_NULL Cache Name NameLength IsUnicode h h' :
  IniCacheAddSectionAorW Cache Name NameLength IsUnicode h = Ok (None, h') →
  keys h' = keys h ∧ sections h' = sections h ∧ caches h' = caches h.
Proof.
  unfold IniCacheAddSectionAorW.
  destruct Cache as [c|], Name as [n|]; try (intros Heq; injection Heq as <-; auto).
  destruct (NameLength =? 0); [intros Heq; injection Heq as <-; auto|].
  unfold bind at 1. destruct (RtlAllocateHeap h) as [[ok h1]| |] eqn:Ha1; try discriminate.
  apply RtlAllocateHeap_inv in Ha1 as (Hk1 & Hs1 & Hc1).
  destruct ok; simpl; [|intros Heq; injection Heq as <-; auto].
  unfold bind at 1. destruct (lift (CopyAorW n NameLength IsUnicode) h1) as [[NameU h2]| |] eqn:Hn;
    try discriminate.
  apply lift_inv in Hn as [_ ->].
  unfold bind at 1. destruct (IniCacheFindSection c NameU h1) as [[S h2]| |] eqn:Hf;
    try discriminate.
  destruct S as [S|]; [discriminate|].
  apply IniCacheFindSection_inv in Hf as ->.
  unfold bind at 1. destruct (RtlAllocateHeap h1) as [[ok h2]| |] eqn:Ha2; try discriminate.
  apply RtlAllocateHeap_inv in Ha2 as (Hk2 & Hs2 & Hc2).
  destruct ok; simpl; [|intros Heq; injection Heq as <-; repeat split; congruence].
  unfold bind at 1. destruct (new_section _ h2) as [[S h3]| |]; try discriminate.
  unfold bind at 1. destruct (read_cache c h3) as [[cr h4]| |]; try discriminate.
  unfold bind at 1. destruct (AppendSection _ _ _ h4) as [[u h5]| |]; discriminate.
Qed.

End Failure.

(** With the same store, every view is the same. *)
Lemma same_store_views h h' :
  same_store h h' →
  (∀ s, key_list h' s = key_list h s) ∧
  (∀ c, section_list h' c = section_list h c) ∧
  (∀ c, contents h' c = contents h c).
Proof.
  intros (Hk & Hs & Hc).
  assert (Hkl : ∀ s, key_list h' s = key_list h s).
  { intros s. unfold key_list. rewrite Hk, Hs. reflexivity. }
  assert (Hsl : ∀ c, section_list h' c = section_list h c).
  { intros c. unfold section_list. rewrite Hs, Hc. reflexivity. }
  repeat split; auto. intros c. unfold contents. rewrite Hsl.
  destruct (section_list h c) as [ss|]; [|reflexivity]. f_equal.
  apply map_ext. intros s. unfold section_contents. rewrite Hkl, Hs.
  destruct (sections h !! s); [|reflexivity]. destruct (key_list h s); [|reflexivity].
  f_equal. f_equal. apply map_ext. intros k. unfold entry_of. rewrite Hk. reflexivity.
Qed.

(** ** Strings handed to the store *)

Section Copies.
Context `{CodePage}.

Lemma ULONG_small z : 0 <= z < 2 ^ 32 → ULONG z = z.
Proof. intros Hz. unfold ULONG. apply Z.mod_small. assumption. Qed.

Lemma wcsncpy_pointer_of (s : list Z) :
  wcsncpy (length (cstring s)) (pointer_of s) = Ok (cstring s).
Proof.
  unfold pointer_of. induction s as [|c s IH]; simpl; [reflexivity|].
  destruct (c =? NUL) eqn:Hc; simpl; [reflexivity|]. rewrite Hc, IH. reflexivity.
Qed.

(** A block of [Length + 1] wide characters holds the copy when
    [Length + 1] does not wrap. *)
Lemma CopyAorW_fits (Src : PCHAR) (Length : Z) (IsUnicode : bool) :
  0 <= Length < 2 ^ 32 - 1 →
  CopyAorW Src Length IsUnicode
  = (r <- wcsncpy (Z.to_nat Length) Src ;;
     Ok (if IsUnicode then r else cstring (map AnsiToUnicode r))).
Proof.
  intros Hlen. unfold CopyAorW. rewrite ULONG_small by lia.
  rewrite (proj2 (Z.ltb_ge _ _)) by lia. reflexivity.
Qed.

Lemma CopyAorW_Ok (Src : PCHAR) (Length : Z) (IsUnicode : bool) (s : WSTR) :
  CopyAorW Src Length IsUnicode = Ok s →
  (r <- wcsncpy (Z.to_nat Length) Src ;;
   Ok (if IsUnicode then r else cstring (map AnsiToUnicode r))) = Ok s.
Proof.
  unfold CopyAorW. destruct (ULONG (Length + 1) <? Length + 1); [discriminate|auto].
Qed.

Lemma CopyAorW_pointer_of (s : list Z) :
  wcslen_of s < 2 ^ 32 - 1 →
  CopyAorW (pointer_of s) (ULONG (wcslen_of s)) true = Ok (cstring s).
Proof.
  intros Hlen. unfold wcslen_of in *. rewrite ULONG_small by lia.
  rewrite CopyAorW_fits by lia.
  rewrite Nat2Z.id, wcsncpy_pointer_of. reflexivity.
Qed.

Lemma is_empty_wcslen_of (s : list Z) : is_empty s = false → wcslen_of s ≠ 0.
Proof.
  unfold is_empty, wcslen_of. destruct s as [|c s]; simpl; [discriminate|].
  intros ->. simpl. lia.
Qed.

(** [_wcsicmp] reads its second operand up to the first NUL only. *)
Lemma _wcsicmp_cstring (a b : list Z) : _wcsicmp a (cstring b) = _wcsicmp a b.
Proof.
  revert b. induction a as [|x a IH]; intros [|y b]; simpl; try reflexivity.
  - destruct (y =? NUL) eqn:Hy; [|reflexivity]. apply Z.eqb_eq in Hy. subst y.
    reflexivity.
  - destruct (y =? NUL) eqn:Hy; simpl; [|rewrite IH; reflexivity].
    apply Z.eqb_eq in Hy. subst y. unfold NUL. rewrite towlower_NUL.
    destruct (towlower x =? 0) eqn:Hx; simpl; [reflexivity|]. reflexivity.
Qed.

Lemma _wcsicmp_folded (a b : list Z) : _wcsicmp a b = 0 ↔ folded a = folded b.
Proof.
  unfold folded. revert b. induction a as [|x a IH]; intros b.
  - simpl. unfold NUL. rewrite towlower_NUL. destruct b as [|y b]; simpl.
    + rewrite towlower_NUL. split; reflexivity.
    + destruct (towlower y =? NUL) eqn:Hy.
      * apply Z.eqb_eq in Hy. unfold NUL in Hy. rewrite Hy. split; reflexivity.
      * apply Z.eqb_neq in Hy. unfold NUL in Hy. split; [lia | discriminate].
  - simpl. destruct (towlower x =? 0) eqn:Hx.
    + simpl. apply Z.eqb_eq in Hx. rewrite Hx. change (0 =? NUL) with true. cbv iota.
      destruct b as [|y b]; simpl.
      * unfold NUL. rewrite towlower_NUL. split; reflexivity.
      * destruct (towlower y =? NUL) eqn:Hy.
        -- apply Z.eqb_eq in Hy. unfold NUL in Hy. rewrite Hy. split; reflexivity.
        -- apply Z.eqb_neq in Hy. unfold NUL in Hy. split; [lia | discriminate].
    + simpl. change (towlower x =? NUL) with (towlower x =? 0). rewrite Hx.
      apply Z.eqb_neq in Hx.
      destruct b as [|y b]; simpl.
      * unfold NUL. rewrite towlower_NUL.
        destruct (towlower x =? 0) eqn:Hx'; [apply Z.eqb_eq in Hx'; contradiction|].
        simpl. split; [lia | discriminate].
      * destruct (towlower x =? towlower y) eqn:Hxy; simpl.
        -- apply Z.eqb_eq in Hxy. rewrite <- Hxy.
           destruct (towlower x =? NUL) eqn:Hx'; [apply Z.eqb_eq in Hx'; contradiction|].
           rewrite IH. split; [intros ->; reflexivity | intros Heq; injection Heq; auto].
        -- apply Z.eqb_neq in Hxy. split; [lia|].
           destruct (towlower y =? NUL); [discriminate|]. intros Heq. injection Heq.
           intros _ Hc. contradiction.
Qed.

Lemma folded_cstring (s : list Z) : folded (cstring s) = folded s.
Proof.
  unfold folded. induction s as [|c s IH]; [reflexivity|]. simpl.
  destruct (c =? NUL) eqn:Hc.
  - apply Z.eqb_eq in Hc. subst c. simpl. unfold NUL. rewrite towlower_NUL. reflexivity.
  - simpl. rewrite IH. reflexivity.
Qed.

End Copies.

(** ** A name that the section already has *)

Section Update.
Context `{CodePage}.

Lemma IniCacheAddKeyAorW_existing h Section AnchorKey InsertionType Name NameLength
    Data DataLength IsUnicode ks NameU Key :
  key_list h Section = Some ks →
  NameLength ≠ 0 → DataLength ≠ 0 →
  hd true (allocs h) = true →
  CopyAorW Name NameLength IsUnicode = Ok NameU →
  List.find (key_matches (keys h) NameU) ks = Some Key →
  IniCacheAddKeyAorW (Some Section) AnchorKey InsertionType (Some Name) NameLength
    (Some Data) DataLength IsUnicode h
  = if hd true (tl (allocs h)) then
      match CopyAorW Data DataLength IsUnicode with
      | Ok DataU =>
          match keys h !! Key with
          | Some kr => Ok (Some Key, set_keys (<[Key := with_Data DataU kr]> (keys h))
                                       (set_allocs (tl (tl (allocs h))) h))
          | None => Fault
          end
      | Fault => Fault
      | Diverge => Diverge
      end
    else Ok (None, set_allocs (tl (tl (allocs h))) h).
Proof.
  intros Hks HN HD Ha Hcopy Hfind. unfold IniCacheAddKeyAorW.
  apply Z.eqb_neq in HN, HD. rewrite HN, HD. cbn [orb]. cbv iota.
  erewrite bind_Ok by reflexivity. rewrite Ha. cbn [negb]. cbv iota.
  erewrite bind_Ok by (rewrite Hcopy; reflexivity).
  erewrite bind_Ok
    by exact (IniCacheFindKey_first (set_allocs (tl (allocs h)) h) Section NameU ks Hks).
  hsimpl. rewrite Hfind. cbv iota.
  erewrite bind_Ok by reflexivity. hsimpl.
  destruct (hd true (tl (allocs h))); cbn [negb]; cbv iota; [|reflexivity].
  destruct (CopyAorW Data DataLength IsUnicode) as [DataU| |]; try reflexivity.
  erewrite bind_Ok by reflexivity.
  unfold bind, write_key. hsimpl.
  destruct (keys h !! Key) as [kr|]; reflexivity.
Qed.

Lemma find_key_in_use h Name ks Key :
  List.find (key_matches (keys h) Name) ks = Some Key →
  ∃ kr, keys h !! Key = Some kr ∧ _wcsicmp (key_Name kr) Name = 0.
Proof.
  intros Hfind. apply find_some in Hfind as [_ Hm]. unfold key_matches in Hm.
  destruct (keys h !! Key) as [kr|]; [|discriminate]. apply Z.eqb_eq in Hm. eauto.
Qed.

Lemma key_list_with_Data h h' Key kr DataU :
  keys h !! Key = Some kr →
  keys h' = <[Key := with_Data DataU kr]> (keys h) →
  sections h' = sections h →
  ∀ s, key_list h' s = key_list h s.
Proof.
  intros Hkr Hkeys Hsec s. unfold key_list. rewrite Hsec, Hkeys.
  destruct (sections h !! s) as [sr|]; [|reflexivity].
  rewrite map_size_insert_Some by eauto. apply walk_ext.
  intros a. destruct (decide (a = Key)) as [->|Hne].
  - rewrite lookup_insert_eq, Hkr. reflexivity.
  - rewrite lookup_insert_ne by congruence. reflexivity.
Qed.

Lemma updated_in_place_intro h Key kr DataU a :
  keys h !! Key = Some kr →
  updated_in_place h (set_keys (<[Key := with_Data DataU kr]> (keys h)) (set_allocs a h))
    Key DataU.
Proof.
  intros Hkr. exists kr. repeat split; try reflexivity; try assumption.
  - apply (key_list_with_Data h _ Key kr DataU Hkr); reflexivity.
  - intros k Hne. hsimpl. rewrite lookup_insert_ne by congruence. reflexivity.
  - unfold entry_of. hsimpl. rewrite lookup_insert_eq. reflexivity.
Qed.

(** C4. When the section already has a key named [Name] (case folded), a
    call with a non-empty name and value whose two allocations succeed
    returns that key, whatever the anchor and the insertion type; in the
    heap it leaves, the value of the key is the new one and nothing else
    has changed: every key list is the one it was (same keys, same
    order), every other key is the one it was. So it is for
    [IniCacheAddKeyAorW] when the two copies stay within their blocks
    ([CopyAorW] returns: the lengths are below 2^32 - 1 and the source holds
    that many characters or a NUL before), and for [IniInsertKey] and
    [IniAddKey], which call it, on a name and a value shorter than
    2^32 - 1 characters. *)
Theorem existing_key_is_updated_in_place (h : heap) (Section : positive)
    (ks : list positive) (Key : positive) :
  key_list h Section = Some ks →
  allocations_succeed 2 h →
  (∀ Name NameLength Data DataLength IsUnicode NameU DataU,
      NameLength ≠ 0 → DataLength ≠ 0 →
      CopyAorW Name NameLength IsUnicode = Ok NameU →
      CopyAorW Data DataLength IsUnicode = Ok DataU →
      List.find (key_matches (keys h) NameU) ks = Some Key →
      ∃ h', updated_in_place h h' Key DataU ∧
            ∀ AnchorKey InsertionType,
              IniCacheAddKeyAorW (Some Section) AnchorKey InsertionType (Some Name)
                NameLength (Some Data) DataLength IsUnicode h = Ok (Some Key, h')) ∧
  (∀ Name Data,
      is_empty Name = false → is_empty Data = false →
      wcslen_of Name < 2 ^ 32 - 1 → wcslen_of Data < 2 ^ 32 - 1 →
      List.find (key_matches (keys h) Name) ks = Some Key →
      ∃ h', updated_in_place h h' Key (cstring Data) ∧
            IniAddKey (Some Section) (Some Name) (Some Data) h = Ok (Some Key, h') ∧
            ∀ AnchorKey InsertionType,
              IniInsertKey (Some Section) AnchorKey InsertionType (Some Name) (Some Data) h
              = Ok (Some Key, h')).
Proof.
  intros Hks Hal.
  apply allocations_succeed_step in Hal as [Ha1 Hal].
  apply allocations_succeed_step in Hal as [Ha2 _]. hsimpl_in Ha2.
  assert (Hgen : ∀ Name NameLength Data DataLength IsUnicode NameU DataU,
      NameLength ≠ 0 → DataLength ≠ 0 →
      CopyAorW Name NameLength IsUnicode = Ok NameU →
      CopyAorW Data DataLength IsUnicode = Ok DataU →
      List.find (key_matches (keys h) NameU) ks = Some Key →
      ∃ h', updated_in_place h h' Key DataU ∧
            ∀ AnchorKey InsertionType,
              IniCacheAddKeyAorW (Some Section) AnchorKey InsertionType (Some Name)
                NameLength (Some Data) DataLength IsUnicode h = Ok (Some Key, h')).
  { intros Name NameLength Data DataLength IsUnicode NameU DataU HN HD Hn Hd Hfind.
    destruct (find_key_in_use _ _ _ _ Hfind) as (kr & Hkr & _).
    eexists. split; [apply (updated_in_place_intro h Key kr DataU), Hkr|].
    intros AnchorKey InsertionType.
    rewrite (IniCacheAddKeyAorW_existing h Section AnchorKey InsertionType Name NameLength
               Data DataLength IsUnicode ks NameU Key Hks HN HD Ha1 Hn Hfind).
    rewrite Ha2, Hd, Hkr. reflexivity. }
  split; [exact Hgen|].
  intros Name Data HeN HeD HlN HlD Hfind.
  assert (Hfind' : List.find (key_matches (keys h) (cstring Name)) ks = Some Key).
  { rewrite <- Hfind. clear. induction ks as [|k ks IH]; [reflexivity|]. simpl.
    rewrite IH. unfold key_matches.
    destruct (keys h !! k); [|reflexivity]. rewrite _wcsicmp_cstring. reflexivity. }
  destruct (Hgen (pointer_of Name) (ULONG (wcslen_of Name)) (pointer_of Data)
              (ULONG (wcslen_of Data)) true (cstring Name) (cstring Data)) as (h' & Hup & Hcall).
  - pose proof (is_empty_wcslen_of _ HeN). unfold wcslen_of in *. rewrite ULONG_small; lia.
  - pose proof (is_empty_wcslen_of _ HeD). unfold wcslen_of in *. rewrite ULONG_small; lia.
  - apply CopyAorW_pointer_of. assumption.
  - apply CopyAorW_pointer_of. assumption.
  - exact Hfind'.
  - exists h'. split; [exact Hup|].
    unfold IniAddKey, IniInsertKey. rewrite HeN, HeD. cbn [orb]. cbv iota.
    split; [apply Hcall | intros; apply Hcall].
Qed.

End Update.

(** ** C7 *)

Section NoPartialMutation.
Context `{CodePage}.

(** C7. A mutation call that fails has mutated nothing.
    [IniInsertKey] and [IniAddKey] with a NULL or empty name or value return
    NULL and leave the heap as it is. Whenever [IniCacheAddKeyAorW] (hence
    [IniInsertKey], [IniAddKey]) or [IniCacheAddSectionAorW] returns NULL,
    the heap it leaves holds the same keys, sections and cache headers:
    every key list, every name and every value is the one it was. This
    covers the update of an existing key whose new value buffer cannot be
    allocated: the call returns NULL and the key keeps its value. *)
Theorem failed_mutation_changes_nothing :
  (∀ Section AnchorKey InsertionType Name Data h,
      Section = None ∨ Name = None ∨ Data = None ∨
      (∃ n, Name = Some n ∧ is_empty n = true) ∨
      (∃ d, Data = Some d ∧ is_empty d = true) →
      IniInsertKey Section AnchorKey InsertionType Name Data h = Ok (None, h) ∧
      IniAddKey Section Name Data h = Ok (None, h)) ∧
  (∀ Section AnchorKey InsertionType Name NameLength Data DataLength IsUnicode h h',
      IniCacheAddKeyAorW Section AnchorKey InsertionType Name NameLength Data DataLength
        IsUnicode h = Ok (None, h') →
      same_store h h' ∧ ∀ c, contents h' c = contents h c) ∧
  (∀ Section AnchorKey InsertionType Name Data h h',
      IniInsertKey Section AnchorKey InsertionType Name Data h = Ok (None, h') →
      same_store h h' ∧ ∀ c, contents h' c = contents h c) ∧
  (∀ Cache Name NameLength IsUnicode h h',
      IniCacheAddSectionAorW Cache Name NameLength IsUnicode h = Ok (None, h') →
      same_store h h' ∧ ∀ c, contents h' c = contents h c) ∧
  (∀ h Section ks Key AnchorKey InsertionType Name NameLength Data DataLength IsUnicode
     NameU,
      key_list h Section = Some ks →
      NameLength ≠ 0 → DataLength ≠ 0 →
      CopyAorW Name NameLength IsUnicode = Ok NameU →
      List.find (key_matches (keys h) NameU) ks = Some Key →
      hd true (allocs h) = true → hd true (tl (allocs h)) = false →
      ∃ h', IniCacheAddKeyAorW (Some Section) AnchorKey InsertionType (Some Name)
              NameLength (Some Data) DataLength IsUnicode h = Ok (None, h') ∧
            same_store h h' ∧ entry_of h' Key = entry_of h Key).
Proof.
  assert (Hkey : ∀ Section AnchorKey InsertionType Name NameLength Data DataLength
                   IsUnicode h h',
      IniCacheAddKeyAorW Section AnchorKey InsertionType Name NameLength Data DataLength
        IsUnicode h = Ok (None, h') →
      same_store h h' ∧ ∀ c, contents h' c = contents h c).
  { intros * Hcall. apply IniCacheAddKeyAorW_NULL in Hcall.
    split; [exact Hcall | apply same_store_views, Hcall]. }
  assert (Hrefl : ∀ h, same_store h h ∧ ∀ c, contents h c = contents h c).
  { intros h. repeat split; reflexivity. }
  split; [|split; [exact Hkey|split; [|split]]].
  - intros Section AnchorKey InsertionType Name Data h Hbad. unfold IniAddKey, IniInsertKey.
    destruct Section as [s|], Name as [n|], Data as [d|]; auto.
    destruct Hbad as [?|[?|[?|[(n' & Hn & He)|(d' & Hd & He)]]]]; try discriminate.
    + injection Hn as <-. rewrite He. auto.
    + injection Hd as <-. rewrite He, orb_true_r. auto.
  - intros Section AnchorKey InsertionType Name Data h h'. unfold IniInsertKey.
    destruct Section as [s|], Name as [n|], Data as [d|];
      try (intros Heq; injection Heq as <-; apply Hrefl).
    destruct (is_empty n || is_empty d); [intros Heq; injection Heq as <-; apply Hrefl|].
    apply Hkey.
  - intros * Hcall. apply IniCacheAddSectionAorW_NULL in Hcall.
    split; [exact Hcall | apply same_store_views, Hcall].
  - intros h Section ks Key AnchorKey InsertionType Name NameLength Data DataLength
      IsUnicode NameU Hks HN HD Hcopy Hfind Ha1 Ha2.
    eexists. split; [|split].
    + rewrite (IniCacheAddKeyAorW_existing h Section AnchorKey InsertionType Name NameLength
                 Data DataLength IsUnicode ks NameU Key Hks HN HD Ha1 Hcopy Hfind).
      rewrite Ha2. reflexivity.
    + repeat split; reflexivity.
    + reflexivity.
Qed.

End NoPartialMutation.

(** ** A name that the section does not have yet *)

Section Insert.
Context `{CodePage}.

Lemma IniCacheAddKeyAorW_new h Section AnchorKey InsertionType Name NameLength
    Data DataLength IsUnicode ks NameU sr :
  key_list h Section = Some ks →
  sections h !! Section = Some sr →
  NameLength ≠ 0 → DataLength ≠ 0 →
  allocations_succeed 3 h →
  CopyAorW Name NameLength IsUnicode = Ok NameU →
  List.find (key_matches (keys h) NameU) ks = None →
  IniCacheAddKeyAorW (Some Section) AnchorKey InsertionType (Some Name) NameLength
    (Some Data) DataLength IsUnicode h
  = match CopyAorW Data DataLength IsUnicode with
    | Ok DataU =>
        let Key := fresh (dom (keys h)) in
        match InsertKeyIntoSection Section sr Key AnchorKey InsertionType
                (set_keys (<[Key := {| key_Name := NameU; key_Data := DataU;
                                       key_Next := None; key_Prev := None |}]> (keys h))
                   (set_allocs (tl (tl (tl (allocs h)))) h)) with
        | Ok (_, h') => Ok (Some Key, h')
        | Fault => Fault
        | Diverge => Diverge
        end
    | Fault => Fault
    | Diverge => Diverge
    end.
Proof.
  intros Hks Hsr HN HD Hal Hn Hfind. unfold IniCacheAddKeyAorW.
  apply allocations_succeed_step in Hal as [Ha1 Hal].
  apply allocations_succeed_step in Hal as [Ha2 Hal].
  apply allocations_succeed_step in Hal as [Ha3 _]. hsimpl_in Ha2. hsimpl_in Ha3.
  apply Z.eqb_neq in HN, HD. rewrite HN, HD. cbn [orb]. cbv iota.
  erewrite bind_Ok by reflexivity. rewrite Ha1. cbn [negb]. cbv iota.
  erewrite bind_Ok by (rewrite Hn; reflexivity).
  erewrite bind_Ok
    by exact (IniCacheFindKey_first (set_allocs (tl (allocs h)) h) Section NameU ks Hks).
  hsimpl. rewrite Hfind. cbv iota.
  erewrite bind_Ok by reflexivity. hsimpl. rewrite Ha2. cbn [negb]. cbv iota.
  erewrite bind_Ok by reflexivity. hsimpl. rewrite Ha3. cbn [negb]. cbv iota.
  destruct (CopyAorW Data DataLength IsUnicode) as [DataU| |]; try reflexivity.
  erewrite bind_Ok by reflexivity.
  erewrite bind_Ok by reflexivity. hsimpl.
  erewrite bind_Ok by (unfold read_section; hsimpl; rewrite Hsr; reflexivity).
  unfold bind. reflexivity.
Qed.

Lemma key_list_frame h h' s ks :
  key_list h s = Some ks →
  FirstKey <$> sections h' !! s = FirstKey <$> sections h !! s →
  (∀ k, k ∈ ks → key_Next <$> keys h' !! k = key_Next <$> keys h !! k) →
  key_list h' s = Some ks.
Proof.
  unfold key_list. intros Hks Hs Hsame.
  destruct (sections h !! s) as [sr|]; [|discriminate].
  destruct (sections h' !! s) as [sr'|]; [|discriminate].
  simpl in Hs. injection Hs as ->.
  apply chain_walk_size. eapply chain_frame; [exact Hsame|].
  eapply walk_chain. exact Hks.
Qed.

Lemma fresh_key_not_in_use h : keys h !! fresh (dom (keys h)) = None.
Proof. apply not_elem_of_dom, is_fresh. Qed.

Lemma key_list_in_use h s ks k : key_list h s = Some ks → k ∈ ks → is_Some (keys h !! k).
Proof.
  unfold key_list. destruct (sections h !! s); [|discriminate]. intros Hw Hin.
  eapply chain_in_use; [eapply walk_chain; exact Hw | exact Hin].
Qed.

Lemma key_list_first h s sr ks :
  key_list h s = Some ks → sections h !! s = Some sr → FirstKey sr = head ks.
Proof.
  unfold key_list. intros Hw Hsr. rewrite Hsr in Hw. apply walk_chain in Hw.
  destruct ks as [|k ks]; simpl in Hw; [assumption | destruct Hw as [-> _]; reflexivity].
Qed.

(** INSERT_BEFORE with an anchor that is not the first key of the section:
    the key is linked between the anchor and its predecessor, whatever
    list they are in. *)
Lemma InsertKeyIntoSection_before h Section sr Key knew f a ar p pr :
  keys h !! Key = Some knew →
  FirstKey sr = Some f → a ≠ f →
  a ≠ Key → keys h !! a = Some ar →
  key_Prev ar = Some p →
  p ≠ Key → keys h !! p = Some pr →
  ∃ h', InsertKeyIntoSection Section sr Key (Some a) INSERT_BEFORE h = Ok (tt, h') ∧
        sections h' = sections h ∧ caches h' = caches h ∧
        keys h' !! Key = Some (with_key_Prev (Some p) (with_key_Next (Some a) knew)) ∧
        key_Next <$> keys h' !! p = Some (Some Key) ∧
        key_Prev <$> keys h' !! a = Some (Some Key) ∧
        (∀ k, k ≠ Key → k ≠ p → key_Next <$> keys h' !! k = key_Next <$> keys h !! k).
Proof.
  intros HK Hf Haf HaK Ha Hp HpK Hpr. unfold InsertKeyIntoSection.
  rewrite Hf. cbn [ptr_eqb INSERTION_TYPE_eqb orb andb negb].
  rewrite (proj2 (Pos.eqb_neq a f) Haf). cbv iota.
  erewrite bind_Ok by reflexivity.
  erewrite bind_Ok by (unfold write_key; rewrite HK; reflexivity).
  erewrite bind_Ok
    by (unfold read_key; hsimpl; rewrite lookup_insert_ne by congruence; rewrite Ha;
        reflexivity).
  erewrite bind_Ok by (unfold write_key; hsimpl; rewrite lookup_insert_eq; reflexivity).
  rewrite Hp. erewrite bind_Ok by reflexivity.
  erewrite bind_Ok
    by (unfold write_key; hsimpl; rewrite !lookup_insert_ne by congruence; rewrite Hpr;
        reflexivity).
  unfold write_key. hsimpl. rewrite insert_insert_eq.
  destruct (decide (a = p)) as [->|Hap].
  - rewrite lookup_insert_eq. eexists. split; [reflexivity|]. hsimpl.
    rewrite insert_insert_eq.
    repeat split; try reflexivity.
    + rewrite lookup_insert_ne by congruence. rewrite lookup_insert_eq. reflexivity.
    + rewrite lookup_insert_eq. reflexivity.
    + rewrite lookup_insert_eq. reflexivity.
    + intros k HkK Hkp. rewrite !lookup_insert_ne by congruence. reflexivity.
  - rewrite !lookup_insert_ne by congruence. rewrite Ha.
    eexists. split; [reflexivity|]. hsimpl.
    repeat split; try reflexivity.
    + rewrite !lookup_insert_ne by congruence. rewrite lookup_insert_eq. reflexivity.
    + rewrite lookup_insert_ne by congruence. rewrite lookup_insert_eq. reflexivity.
    + rewrite lookup_insert_eq. reflexivity.
    + intros k HkK Hkp. destruct (decide (k = a)) as [->|Hka].
      * rewrite lookup_insert_eq, Ha. reflexivity.
      * rewrite !lookup_insert_ne by congruence. reflexivity.
Qed.

Lemma InsertKeyIntoSection_before_NULL h Section sr Key knew f a ar :
  keys h !! Key = Some knew →
  FirstKey sr = Some f → a ≠ f →
  a ≠ Key → keys h !! a = Some ar →
  key_Prev ar = None →
  InsertKeyIntoSection Section sr Key (Some a) INSERT_BEFORE h = Fault.
Proof.
  intros HK Hf Haf HaK Ha Hp. unfold InsertKeyIntoSection.
  rewrite Hf. cbn [ptr_eqb INSERTION_TYPE_eqb orb andb negb].
  rewrite (proj2 (Pos.eqb_neq a f) Haf). cbv iota.
  erewrite bind_Ok by reflexivity.
  erewrite bind_Ok by (unfold write_key; rewrite HK; reflexivity).
  erewrite bind_Ok
    by (unfold read_key; hsimpl; rewrite lookup_insert_ne by congruence; rewrite Ha;
        reflexivity).
  erewrite bind_Ok by (unfold write_key; hsimpl; rewrite lookup_insert_eq; reflexivity).
  rewrite Hp. reflexivity.
Qed.

(** INSERT_AFTER with an anchor that is not the last key of the section. *)
Lemma InsertKeyIntoSection_after h Section sr Key knew f a ar q qr :
  keys h !! Key = Some knew →
  FirstKey sr = Some f → LastKey sr ≠ Some a →
  a ≠ Key → keys h !! a = Some ar →
  key_Next ar = Some q →
  q ≠ Key → keys h !! q = Some qr →
  ∃ h', InsertKeyIntoSection Section sr Key (Some a) INSERT_AFTER h = Ok (tt, h') ∧
        sections h' = sections h ∧ caches h' = caches h ∧
        keys h' !! Key = Some (with_key_Prev (Some a) (with_key_Next (Some q) knew)) ∧
        key_Next <$> keys h' !! a = Some (Some Key) ∧
        key_Prev <$> keys h' !! q = Some (Some Key) ∧
        (∀ k, k ≠ Key → k ≠ a → key_Next <$> keys h' !! k = key_Next <$> keys h !! k).
Proof.
  intros HK Hf Hl HaK Ha Hq HqK Hqr. unfold InsertKeyIntoSection.
  assert (Hne : ptr_eqb (Some a) (LastKey sr) = false).
  { destruct (LastKey sr) as [l|]; [|reflexivity]. simpl. apply Pos.eqb_neq. congruence. }
  rewrite Hf, Hne. cbn [ptr_eqb INSERTION_TYPE_eqb orb andb negb]. cbv iota.
  erewrite bind_Ok by reflexivity.
  erewrite bind_Ok by (unfold read_key; rewrite Ha; reflexivity).
  erewrite bind_Ok by (unfold write_key; rewrite HK; reflexivity).
  erewrite bind_Ok by (unfold write_key; hsimpl; rewrite lookup_insert_eq; reflexivity).
  rewrite Hq. erewrite bind_Ok by reflexivity.
  erewrite bind_Ok
    by (unfold write_key; hsimpl; rewrite !lookup_insert_ne by congruence; rewrite Hqr;
        reflexivity).
  unfold write_key. hsimpl. rewrite insert_insert_eq.
  destruct (decide (a = q)) as [->|Haq].
  - rewrite lookup_insert_eq. eexists. split; [reflexivity|]. hsimpl.
    rewrite insert_insert_eq.
    repeat split; try reflexivity.
    + rewrite lookup_insert_ne by congruence. rewrite lookup_insert_eq. reflexivity.
    + rewrite lookup_insert_eq. reflexivity.
    + rewrite lookup_insert_eq. reflexivity.
    + intros k HkK Hkq. rewrite !lookup_insert_ne by congruence. reflexivity.
  - rewrite !lookup_insert_ne by congruence. rewrite Ha.
    eexists. split; [reflexivity|]. hsimpl.
    repeat split; try reflexivity.
    + rewrite !lookup_insert_ne by congruence. rewrite lookup_insert_eq. reflexivity.
    + rewrite lookup_insert_eq. reflexivity.
    + rewrite lookup_insert_ne by congruence. rewrite lookup_insert_eq. reflexivity.
    + intros k HkK Hka. destruct (decide (k = q)) as [->|Hkq].
      * rewrite lookup_insert_ne by congruence. rewrite lookup_insert_eq, Hqr. reflexivity.
      * rewrite !lookup_insert_ne by congruence. reflexivity.
Qed.

Lemma InsertKeyIntoSection_after_NULL h Section sr Key knew f a ar :
  keys h !! Key = Some knew →
  FirstKey sr = Some f → LastKey sr ≠ Some a →
  a ≠ Key → keys h !! a = Some ar →
  key_Next ar = None →
  InsertKeyIntoSection Section sr Key (Some a) INSERT_AFTER h = Fault.
Proof.
  intros HK Hf Hl HaK Ha Hq. unfold InsertKeyIntoSection.
  assert (Hne : ptr_eqb (Some a) (LastKey sr) = false).
  { destruct (LastKey sr) as [l|]; [|reflexivity]. simpl. apply Pos.eqb_neq. congruence. }
  rewrite Hf, Hne. cbn [ptr_eqb INSERTION_TYPE_eqb orb andb negb]. cbv iota.
  erewrite bind_Ok by reflexivity.
  erewrite bind_Ok by (unfold read_key; rewrite Ha; reflexivity).
  erewrite bind_Ok by (unfold write_key; rewrite HK; reflexivity).
  erewrite bind_Ok by (unfold write_key; hsimpl; rewrite lookup_insert_eq; reflexivity).
  rewrite Hq. reflexivity.
Qed.

Lemma key_list_chain h s sr ks :
  key_list h s = Some ks → sections h !! s = Some sr →
  chain key_Next (keys h) (FirstKey sr) ks.
Proof.
  unfold key_list. intros Hw Hsr. rewrite Hsr in Hw. eapply walk_chain. exact Hw.
Qed.

Lemma chain_key_list h s sr ks :
  sections h !! s = Some sr →
  chain key_Next (keys h) (FirstKey sr) ks →
  key_list h s = Some ks.
Proof.
  unfold key_list. intros Hsr Hc. rewrite Hsr. apply chain_walk_size. exact Hc.
Qed.

(** INSERT_LAST in a sound section. [h] is the heap in which the new key
    has just been allocated at [Key]. *)
Lemma InsertKeyIntoSection_last h Section sr ks Key new :
  sound_section h Section ks →
  sections h !! Section = Some sr →
  keys h !! Key = Some new → key_Next new = None →
  Key ∉ ks →
  ∃ h', InsertKeyIntoSection Section sr Key None INSERT_LAST h = Ok (tt, h') ∧
        caches h' = caches h ∧ allocs h' = allocs h ∧
        sound_section h' Section (ks ++ [Key]) ∧
        (∀ s, s ≠ Section → sections h' !! s = sections h !! s) ∧
        (∃ sr', sections h' !! Section = Some sr' ∧ sec_Name sr' = sec_Name sr ∧
                sec_Next sr' = sec_Next sr) ∧
        (∀ k, entry_of h' k = entry_of h k) ∧
        (∀ k, k ∉ ks → k ≠ Key → keys h' !! k = keys h !! k) ∧
        (∀ k, k ∈ ks → Some k ≠ last ks →
              key_Next <$> keys h' !! k = key_Next <$> keys h !! k).
Proof.
  intros [Hkl Hlast] Hsr HK Hnext HKks. rewrite Hsr in Hlast. simpl in Hlast.
  injection Hlast as Hlast.
  pose proof (key_list_chain _ _ _ _ Hkl Hsr) as Hc.
  unfold InsertKeyIntoSection. destruct ks as [|f ks'].
  - simpl in Hc. rewrite Hc. cbn [ptr_eqb]. cbv iota.
    unfold write_section. rewrite Hsr. eexists. split; [reflexivity|]. hsimpl.
    repeat apply conj; try reflexivity.
    + eapply chain_key_list; [hsimpl; apply lookup_insert_eq|]. hsimpl. simpl.
      split; [reflexivity|]. exists new. rewrite Hnext. auto.
    + hsimpl. rewrite lookup_insert_eq. reflexivity.
    + intros s Hs. rewrite lookup_insert_ne by congruence. reflexivity.
    + eexists. split; [apply lookup_insert_eq|]. auto.
  - set (ks := f :: ks') in *.
    assert (Hf : FirstKey sr = Some f) by (simpl in Hc; tauto).
    destruct (last ks) as [l|] eqn:Hl; [|apply last_None in Hl; discriminate].
    assert (Hlin : l ∈ ks) by (apply last_Some_elem_of; exact Hl).
    destruct (chain_in_use _ _ _ _ _ Hc Hlin) as [lr Hlr].
    assert (HlK : l ≠ Key) by (intros ->; contradiction).
    rewrite Hf, Hlast. cbn [ptr_eqb INSERTION_TYPE_eqb orb andb negb]. cbv iota.
    erewrite bind_Ok by reflexivity.
    erewrite bind_Ok by (unfold write_key; rewrite Hlr; reflexivity).
    erewrite bind_Ok
      by (unfold write_key; hsimpl; rewrite lookup_insert_ne by congruence;
          rewrite HK; reflexivity).
    unfold write_section. hsimpl. rewrite Hsr. eexists. split; [reflexivity|]. hsimpl.
    repeat apply conj; try reflexivity.
    + eapply chain_key_list; [hsimpl; apply lookup_insert_eq|]. hsimpl.
      change (FirstKey (with_LastKey (Some Key) sr)) with (FirstKey sr).
      apply (chain_snoc key_Next (keys h) _ _ ks l Key Hc Hl HKks).
      * intros k Hk Hkl'. rewrite !lookup_insert_ne; [reflexivity| |congruence].
        intros <-. contradiction.
      * rewrite lookup_insert_ne by congruence. rewrite lookup_insert_eq. reflexivity.
      * rewrite lookup_insert_eq. simpl. rewrite Hnext. reflexivity.
    + hsimpl. rewrite lookup_insert_eq. rewrite last_snoc. reflexivity.
    + intros s Hs. rewrite lookup_insert_ne by congruence. reflexivity.
    + eexists. split; [apply lookup_insert_eq|]. auto.
    + intros k. unfold entry_of. hsimpl.
      destruct (decide (k = Key)) as [->|HkK].
      * rewrite lookup_insert_eq, HK. reflexivity.
      * rewrite lookup_insert_ne by congruence.
        destruct (decide (k = l)) as [->|Hkl'].
        -- rewrite lookup_insert_eq, Hlr. reflexivity.
        -- rewrite lookup_insert_ne by congruence. reflexivity.
    + intros k Hk HkK. rewrite !lookup_insert_ne; [reflexivity| |congruence].
      intros <-. contradiction.
    + intros k Hk Hkl'. rewrite !lookup_insert_ne; [reflexivity| |].
      * intros <-. congruence.
      * intros <-. contradiction.
Qed.

(** INSERT_FIRST in a sound section. [h] is the heap in which the new key
    has just been allocated at [Key]. *)
Lemma InsertKeyIntoSection_first h Section sr ks Key new :
  sound_section h Section ks →
  sections h !! Section = Some sr →
  keys h !! Key = Some new → key_Next new = None →
  Key ∉ ks →
  ∃ h', InsertKeyIntoSection Section sr Key None INSERT_FIRST h = Ok (tt, h') ∧
        caches h' = caches h ∧ allocs h' = allocs h ∧
        sound_section h' Section (Key :: ks) ∧
        (∀ s, s ≠ Section → sections h' !! s = sections h !! s) ∧
        (∀ k, entry_of h' k = entry_of h k) ∧
        (∀ k, k ∉ ks → k ≠ Key → keys h' !! k = keys h !! k).
Proof.
  intros [Hkl Hlast] Hsr HK Hnext HKks. rewrite Hsr in Hlast. simpl in Hlast.
  injection Hlast as Hlast.
  pose proof (key_list_chain _ _ _ _ Hkl Hsr) as Hc.
  unfold InsertKeyIntoSection. destruct ks as [|f ks'].
  - simpl in Hc. rewrite Hc. cbn [ptr_eqb]. cbv iota.
    unfold write_section. rewrite Hsr. eexists. split; [reflexivity|]. hsimpl.
    repeat apply conj; try reflexivity.
    + eapply chain_key_list; [hsimpl; apply lookup_insert_eq|]. hsimpl. simpl.
      split; [reflexivity|]. exists new. rewrite Hnext. auto.
    + hsimpl. rewrite lookup_insert_eq. reflexivity.
    + intros s Hs. rewrite lookup_insert_ne by congruence. reflexivity.
  - set (ks := f :: ks') in *.
    assert (Hf : FirstKey sr = Some f) by (simpl in Hc; tauto).
    destruct (chain_in_use _ _ _ _ _ Hc ltac:(left)) as [fr Hfr].
    assert (HfK : f ≠ Key) by (intros ->; apply HKks; left).
    rewrite Hf. cbn [ptr_eqb INSERTION_TYPE_eqb orb andb negb]. cbv iota.
    erewrite bind_Ok by reflexivity.
    erewrite bind_Ok by (unfold write_key; rewrite Hfr; reflexivity).
    erewrite bind_Ok
      by (unfold write_key; hsimpl; rewrite lookup_insert_ne by congruence;
          rewrite HK; reflexivity).
    unfold write_section. hsimpl. rewrite Hsr. eexists. split; [reflexivity|]. hsimpl.
    repeat apply conj; try reflexivity.
    + eapply chain_key_list; [hsimpl; apply lookup_insert_eq|]. hsimpl.
      change (FirstKey (with_FirstKey (Some Key) sr)) with (Some Key).
      split; [reflexivity|]. eexists. split; [apply lookup_insert_eq|].
      change (key_Next (with_key_Next (Some f) new)) with (Some f). rewrite <- Hf.
      apply (chain_frame key_Next (keys h)); [|exact Hc].
      intros k Hk. assert (HkK : k ≠ Key) by (intros ->; contradiction).
      rewrite lookup_insert_ne by congruence.
      destruct (decide (k = f)) as [->|Hkf].
      * rewrite lookup_insert_eq, Hfr. reflexivity.
      * rewrite lookup_insert_ne by congruence. reflexivity.
    + hsimpl. rewrite lookup_insert_eq. simpl. rewrite Hlast. reflexivity.
    + intros s Hs. rewrite lookup_insert_ne by congruence. reflexivity.
    + intros k. unfold entry_of. hsimpl.
      destruct (decide (k = Key)) as [->|HkK].
      * rewrite lookup_insert_eq, HK. reflexivity.
      * rewrite lookup_insert_ne by congruence.
        destruct (decide (k = f)) as [->|Hkf].
        -- rewrite lookup_insert_eq, Hfr. reflexivity.
        -- rewrite lookup_insert_ne by congruence. reflexivity.
    + intros k Hk HkK. rewrite !lookup_insert_ne; [reflexivity| |congruence].
      intros <-. apply Hk. left.
Qed.

Lemma sound_section_frame h h' s ks :
  sections h' !! s = sections h !! s →
  (∀ k, k ∈ ks → key_Next <$> keys h' !! k = key_Next <$> keys h !! k) →
  sound_section h s ks → sound_section h' s ks.
Proof.
  intros Hs Hk [Hl Hlast]. split; [|rewrite Hs; exact Hlast].
  apply (key_list_frame h h' s ks Hl); [rewrite Hs; reflexivity | exact Hk].
Qed.

End Insert.

(** ** C3 *)

Section Anchors.
Context `{CodePage}.

Lemma find_key_matches_cstring (m : gmap positive INI_KEYWORD) (Name : list Z) ks :
  List.find (key_matches m (cstring Name)) ks = List.find (key_matches m Name) ks.
Proof.
  induction ks as [|k ks IH]; [reflexivity|]. simpl. rewrite IH. unfold key_matches.
  destruct (m !! k); [|reflexivity]. rewrite _wcsicmp_cstring. reflexivity.
Qed.

(** What [IniInsertKey] does with a new name in a section that is sound. *)
Lemma IniInsertKey_new h Section sr ks AnchorKey InsertionType Name Data :
  key_list h Section = Some ks →
  sections h !! Section = Some sr →
  is_empty Name = false → is_empty Data = false →
  wcslen_of Name < 2 ^ 32 - 1 → wcslen_of Data < 2 ^ 32 - 1 →
  List.find (key_matches (keys h) Name) ks = None →
  allocations_succeed 3 h →
  IniInsertKey (Some Section) AnchorKey InsertionType (Some Name) (Some Data) h
  = let Key := fresh (dom (keys h)) in
    match InsertKeyIntoSection Section sr Key AnchorKey InsertionType
            (set_keys (<[Key := {| key_Name := cstring Name; key_Data := cstring Data;
                                   key_Next := None; key_Prev := None |}]> (keys h))
               (set_allocs (tl (tl (tl (allocs h)))) h)) with
    | Ok (_, h') => Ok (Some Key, h')
    | Fault => Fault
    | Diverge => Diverge
    end.
Proof.
  intros Hks Hsr HeN HeD HlN HlD Hfind Hal. unfold IniInsertKey.
  rewrite HeN, HeD. cbn [orb]. cbv iota.
  rewrite (IniCacheAddKeyAorW_new h Section AnchorKey InsertionType _ _ _ _ true ks
             (cstring Name) sr); auto.
  - rewrite (CopyAorW_pointer_of Data HlD). reflexivity.
  - pose proof (is_empty_wcslen_of _ HeN). unfold wcslen_of in *. rewrite ULONG_small; lia.
  - pose proof (is_empty_wcslen_of _ HeD). unfold wcslen_of in *. rewrite ULONG_small; lia.
  - apply CopyAorW_pointer_of. assumption.
  - rewrite find_key_matches_cstring. assumption.
Qed.

(** C3, as amended. With a NULL anchor INSERT_BEFORE is INSERT_FIRST and
    INSERT_AFTER is INSERT_LAST, on every heap and for all arguments; and
    for a new name in a sound section (name and value non-empty and
    shorter than 2^32 - 1 characters, the three allocations succeeding)
    the new key is put at the head of the key list of the section by
    INSERT_BEFORE as by INSERT_FIRST, and at its tail by INSERT_AFTER as by
    INSERT_LAST, with the name and the value of the call. A non-NULL anchor
    that is not a key of the section is not recognised as such and there
    is no fallback to the head or the tail: for a new name in a sound,
    non-empty section, INSERT_BEFORE links the new key between the anchor
    and the anchor's predecessor (and dereferences NULL when the anchor has
    none), INSERT_AFTER links it between the anchor and the anchor's
    successor (and dereferences NULL when the anchor has none); the key
    list of the section itself is left as it was, without the new key. *)
Theorem anchor_fallback_for_NULL_only :
  (∀ Section Name Data h,
      IniInsertKey Section None INSERT_BEFORE Name Data h
      = IniInsertKey Section None INSERT_FIRST Name Data h ∧
      IniInsertKey Section None INSERT_AFTER Name Data h
      = IniInsertKey Section None INSERT_LAST Name Data h) ∧
  (∀ h Section ks Name Data,
      sound_section h Section ks →
      is_empty Name = false → is_empty Data = false →
      wcslen_of Name < 2 ^ 32 - 1 → wcslen_of Data < 2 ^ 32 - 1 →
      List.find (key_matches (keys h) Name) ks = None →
      allocations_succeed 3 h →
      ∃ Key h1 h2,
        keys h !! Key = None ∧
        IniInsertKey (Some Section) None INSERT_BEFORE (Some Name) (Some Data) h
        = Ok (Some Key, h1) ∧
        IniInsertKey (Some Section) None INSERT_FIRST (Some Name) (Some Data) h
        = Ok (Some Key, h1) ∧
        sound_section h1 Section (Key :: ks) ∧
        entry_of h1 Key = Some (cstring Name, cstring Data) ∧
        IniInsertKey (Some Section) None INSERT_AFTER (Some Name) (Some Data) h
        = Ok (Some Key, h2) ∧
        IniInsertKey (Some Section) None INSERT_LAST (Some Name) (Some Data) h
        = Ok (Some Key, h2) ∧
        sound_section h2 Section (ks ++ [Key]) ∧
        entry_of h2 Key = Some (cstring Name, cstring Data)) ∧
  (∀ h Section ks Anchor ar Name Data,
      sound_section h Section ks → ks ≠ [] →
      Anchor ∉ ks → keys h !! Anchor = Some ar →
      is_empty Name = false → is_empty Data = false →
      wcslen_of Name < 2 ^ 32 - 1 → wcslen_of Data < 2 ^ 32 - 1 →
      List.find (key_matches (keys h) Name) ks = None →
      allocations_succeed 3 h →
      match key_Prev ar with
      | None =>
          IniInsertKey (Some Section) (Some Anchor) INSERT_BEFORE (Some Name) (Some Data) h
          = Fault
      | Some p =>
          is_Some (keys h !! p) → p ∉ ks →
          ∃ Key h',
            IniInsertKey (Some Section) (Some Anchor) INSERT_BEFORE (Some Name) (Some Data) h
            = Ok (Some Key, h') ∧
            key_list h' Section = Some ks ∧ (Key ∉ ks) ∧
            keys h' !! Key = Some {| key_Name := cstring Name; key_Data := cstring Data;
                                     key_Next := Some Anchor; key_Prev := Some p |} ∧
            key_Next <$> keys h' !! p = Some (Some Key) ∧
            key_Prev <$> keys h' !! Anchor = Some (Some Key)
      end ∧
      match key_Next ar with
      | None =>
          IniInsertKey (Some Section) (Some Anchor) INSERT_AFTER (Some Name) (Some Data) h
          = Fault
      | Some q =>
          is_Some (keys h !! q) →
          ∃ Key h',
            IniInsertKey (Some Section) (Some Anchor) INSERT_AFTER (Some Name) (Some Data) h
            = Ok (Some Key, h') ∧
            key_list h' Section = Some ks ∧ (Key ∉ ks) ∧
            keys h' !! Key = Some {| key_Name := cstring Name; key_Data := cstring Data;
                                     key_Next := Some q; key_Prev := Some Anchor |} ∧
            key_Next <$> keys h' !! Anchor = Some (Some Key) ∧
            key_Prev <$> keys h' !! q = Some (Some Key)
      end).
Proof.
  split; [intros; split; reflexivity|]. split.
  { intros h Section ks Name Data Hsound HeN HeD HlN HlD Hfind Hal.
    pose proof Hsound as [Hks _].
    destruct (sections h !! Section) as [sr|] eqn:Hsr;
      [|unfold key_list in Hks; rewrite Hsr in Hks; discriminate].
    set (Key := fresh (dom (keys h))).
    pose proof (fresh_key_not_in_use h) as HK. fold Key in HK.
    assert (HKks : Key ∉ ks).
    { intros Hin. destruct (key_list_in_use _ _ _ _ Hks Hin) as [? Hu]. congruence. }
    pose proof (IniInsertKey_new h Section sr ks) as Hnew.
    set (knew := {| key_Name := cstring Name; key_Data := cstring Data;
                    key_Next := None; key_Prev := None |}) in *.
    set (h0 := set_keys (<[Key := knew]> (keys h)) (set_allocs (tl (tl (tl (allocs h)))) h))
      in *.
    assert (H0K : keys h0 !! Key = Some knew) by apply lookup_insert_eq.
    assert (Hsound0 : sound_section h0 Section ks).
    { apply (sound_section_frame h); [reflexivity| |exact Hsound].
      intros k Hk. unfold h0. hsimpl. rewrite lookup_insert_ne; [reflexivity|].
      intros <-. contradiction. }
    assert (Hentry : ∀ h', (∀ k, entry_of h' k = entry_of h0 k) →
              entry_of h' Key = Some (cstring Name, cstring Data)).
    { intros h' He. rewrite He. unfold entry_of. rewrite H0K. reflexivity. }
    destruct (InsertKeyIntoSection_first h0 Section sr ks Key knew Hsound0 Hsr H0K
                eq_refl HKks) as (h1 & Hrun1 & _ & _ & Hs1 & _ & He1 & _).
    destruct (InsertKeyIntoSection_last h0 Section sr ks Key knew Hsound0 Hsr H0K
                eq_refl HKks) as (h2 & Hrun2 & _ & _ & Hs2 & _ & _ & He2 & _).
    assert (Hfirst : IniInsertKey (Some Section) None INSERT_FIRST (Some Name) (Some Data) h
                     = Ok (Some Key, h1)).
    { rewrite (Hnew None INSERT_FIRST Name Data) by assumption.
      cbv zeta. fold Key knew h0. rewrite Hrun1. reflexivity. }
    assert (Hlast : IniInsertKey (Some Section) None INSERT_LAST (Some Name) (Some Data) h
                    = Ok (Some Key, h2)).
    { rewrite (Hnew None INSERT_LAST Name Data) by assumption.
      cbv zeta. fold Key knew h0. rewrite Hrun2. reflexivity. }
    exists Key, h1, h2.
    split; [exact HK|]. split; [exact Hfirst|]. split; [exact Hfirst|].
    split; [exact Hs1|]. split; [apply Hentry, He1|].
    split; [exact Hlast|]. split; [exact Hlast|].
    split; [exact Hs2|]. apply Hentry, He2. }
  intros h Section ks Anchor ar Name Data [Hks Hlast] Hne Hforeign Ha HeN HeD HlN HlD
    Hfind Hal.
  destruct (sections h !! Section) as [sr|] eqn:Hsr; [|discriminate].
  simpl in Hlast. injection Hlast as Hlast.
  pose proof (key_list_first _ _ _ _ Hks Hsr) as Hfirst.
  destruct ks as [|f ks']; [congruence|]. simpl in Hfirst.
  set (ks := f :: ks') in *.
  set (Key := fresh (dom (keys h))).
  pose proof (fresh_key_not_in_use h) as HK. fold Key in HK.
  assert (HKks : Key ∉ ks).
  { intros Hin. destruct (key_list_in_use _ _ _ _ Hks Hin) as [? Hu]. congruence. }
  assert (HaK : Anchor ≠ Key) by congruence.
  assert (Haf : Anchor ≠ f). { intros ->. apply Hforeign. left. }
  assert (Hal' : LastKey sr ≠ Some Anchor).
  { rewrite Hlast. intros Hl. apply Hforeign. apply last_Some_elem_of. assumption. }
  pose proof (IniInsertKey_new h Section sr ks) as Hnew.
  set (knew := {| key_Name := cstring Name; key_Data := cstring Data;
                  key_Next := None; key_Prev := None |}) in *.
  set (h1 := set_keys (<[Key := knew]> (keys h)) (set_allocs (tl (tl (tl (allocs h)))) h))
    in *.
  assert (H1K : keys h1 !! Key = Some knew) by apply lookup_insert_eq.
  assert (H1a : keys h1 !! Anchor = Some ar).
  { unfold h1. hsimpl. rewrite lookup_insert_ne by congruence. assumption. }
  assert (Hframe : ∀ h', sections h' = sections h1 →
            (∀ k, k ∈ ks → key_Next <$> keys h' !! k = key_Next <$> keys h1 !! k) →
            key_list h' Section = Some ks).
  { intros h' Hs Hk. apply (key_list_frame h h' Section ks Hks).
    - rewrite Hs. reflexivity.
    - intros k Hin. rewrite (Hk k Hin). unfold h1. hsimpl.
      rewrite lookup_insert_ne; [reflexivity|]. intros <-. contradiction. }
  split.
  - destruct (key_Prev ar) as [p|] eqn:Hp.
    + intros [pr Hpr] Hpks.
      assert (HpK : p ≠ Key) by congruence.
      assert (H1p : keys h1 !! p = Some pr).
      { unfold h1. hsimpl. rewrite lookup_insert_ne by congruence. assumption. }
      destruct (InsertKeyIntoSection_before h1 Section sr Key knew f Anchor ar p pr
                  H1K Hfirst Haf HaK H1a Hp HpK H1p)
        as (h' & Hrun & Hs & _ & HkK & Hkp & Hka & Hrest).
      exists Key, h'. rewrite (Hnew (Some Anchor) INSERT_BEFORE Name Data) by assumption.
      cbv zeta. fold Key knew h1. rewrite Hrun.
      repeat split; auto. apply Hframe; [assumption|].
      intros k Hin. apply Hrest; intros ->; contradiction.
    + rewrite (Hnew (Some Anchor) INSERT_BEFORE Name Data) by assumption.
      cbv zeta. fold Key knew h1.
      rewrite (InsertKeyIntoSection_before_NULL h1 Section sr Key knew f Anchor ar); auto.
  - destruct (key_Next ar) as [q|] eqn:Hq.
    + intros [qr Hqr].
      assert (HqK : q ≠ Key) by congruence.
      assert (H1q : keys h1 !! q = Some qr).
      { unfold h1. hsimpl. rewrite lookup_insert_ne by congruence. assumption. }
      destruct (InsertKeyIntoSection_after h1 Section sr Key knew f Anchor ar q qr
                  H1K Hfirst Hal' HaK H1a Hq HqK H1q)
        as (h' & Hrun & Hs & _ & HkK & Hka & Hkq & Hrest).
      exists Key, h'. rewrite (Hnew (Some Anchor) INSERT_AFTER Name Data) by assumption.
      cbv zeta. fold Key knew h1. rewrite Hrun.
      repeat split; auto. apply Hframe; [assumption|].
      intros k Hin. apply Hrest; intros ->; contradiction.
    + rewrite (Hnew (Some Anchor) INSERT_AFTER Name Data) by assumption.
      cbv zeta. fold Key knew h1.
      rewrite (InsertKeyIntoSection_after_NULL h1 Section sr Key knew f Anchor ar); auto.
Qed.

End Anchors.

(** ** Sections *)

Section AddSection.
Context `{CodePage}.

Lemma IniCacheAddSectionAorW_existing h Cache Name NameLength IsUnicode ss NameU S :
  section_list h Cache = Some ss →
  NameLength ≠ 0 →
  hd true (allocs h) = true →
  CopyAorW Name NameLength IsUnicode = Ok NameU →
  List.find (section_matches (sections h) NameU) ss = Some S →
  IniCacheAddSectionAorW (Some Cache) (Some Name) NameLength IsUnicode h
  = Ok (Some S, set_allocs (tl (allocs h)) h).
Proof.
  intros Hss HN Ha Hcopy Hfind. unfold IniCacheAddSectionAorW.
  apply Z.eqb_neq in HN. rewrite HN. cbv iota.
  erewrite bind_Ok by reflexivity. rewrite Ha. cbn [negb]. cbv iota.
  erewrite bind_Ok by (rewrite Hcopy; reflexivity).
  erewrite bind_Ok
    by exact (IniCacheFindSection_first (set_allocs (tl (allocs h)) h) Cache NameU ss Hss).
  hsimpl. rewrite Hfind. reflexivity.
Qed.

Lemma IniCacheAddSectionAorW_new h Cache cr Name NameLength IsUnicode ss NameU :
  section_list h Cache = Some ss →
  caches h !! Cache = Some cr →
  NameLength ≠ 0 →
  allocations_succeed 2 h →
  CopyAorW Name NameLength IsUnicode = Ok NameU →
  List.find (section_matches (sections h) NameU) ss = None →
  IniCacheAddSectionAorW (Some Cache) (Some Name) NameLength IsUnicode h
  = let S := fresh (dom (sections h)) in
    match AppendSection Cache cr S
            (set_sections (<[S := {| sec_Name := NameU; FirstKey := None; LastKey := None;
                                     sec_Next := None; sec_Prev := None |}]> (sections h))
               (set_allocs (tl (tl (allocs h))) h)) with
    | Ok (_, h') => Ok (Some S, h')
    | Fault => Fault
    | Diverge => Diverge
    end.
Proof.
  intros Hss Hcr HN Hal Hcopy Hfind. unfold IniCacheAddSectionAorW.
  apply allocations_succeed_step in Hal as [Ha1 Hal].
  apply allocations_succeed_step in Hal as [Ha2 _]. hsimpl_in Ha2.
  apply Z.eqb_neq in HN. rewrite HN. cbv iota.
  erewrite bind_Ok by reflexivity. rewrite Ha1. cbn [negb]. cbv iota.
  erewrite bind_Ok by (rewrite Hcopy; reflexivity).
  erewrite bind_Ok
    by exact (IniCacheFindSection_first (set_allocs (tl (allocs h)) h) Cache NameU ss Hss).
  hsimpl. rewrite Hfind. cbv iota.
  erewrite bind_Ok by reflexivity. hsimpl. rewrite Ha2. cbn [negb]. cbv iota.
  erewrite bind_Ok by reflexivity. hsimpl.
  erewrite bind_Ok by (unfold read_cache; hsimpl; rewrite Hcr; reflexivity).
  unfold bind. reflexivity.
Qed.

Lemma section_list_chain h Cache cr ss :
  section_list h Cache = Some ss → caches h !! Cache = Some cr →
  chain sec_Next (sections h) (FirstSection cr) ss.
Proof.
  unfold section_list. intros Hw Hcr. rewrite Hcr in Hw. eapply walk_chain. exact Hw.
Qed.

Lemma chain_section_list h Cache cr ss :
  caches h !! Cache = Some cr →
  chain sec_Next (sections h) (FirstSection cr) ss →
  section_list h Cache = Some ss.
Proof.
  unfold section_list. intros Hcr Hc. rewrite Hcr. apply chain_walk_size. exact Hc.
Qed.

(** Appending a new section to a sound cache. [h] is the heap in which
    the new section has just been allocated at [S]. *)
Lemma AppendSection_sound h Cache cr ss S new :
  sound_cache h Cache ss →
  caches h !! Cache = Some cr →
  sections h !! S = Some new → sec_Next new = None →
  S ∉ ss →
  ∃ h', AppendSection Cache cr S h = Ok (tt, h') ∧
        keys h' = keys h ∧
        sound_cache h' Cache (ss ++ [S]) ∧
        sections h' !! S = Some (if decide (ss = []) then new
                                 else with_sec_Prev (last ss) new) ∧
        (∀ s, s ≠ S → sections h' !! s = sections h !! s ∨
                      ∃ sr, sections h !! s = Some sr ∧
                            sections h' !! s = Some (with_sec_Next (Some S) sr)) ∧
        (∀ c, c ≠ Cache → caches h' !! c = caches h !! c).
Proof.
  intros [Hss Hlast] Hcr HS Hnext HSss. rewrite Hcr in Hlast. simpl in Hlast.
  injection Hlast as Hlast.
  pose proof (section_list_chain _ _ _ _ Hss Hcr) as Hc.
  unfold AppendSection. destruct ss as [|f ss'].
  - simpl in Hc. rewrite Hc. cbn [ptr_eqb]. cbv iota.
    unfold write_cache. rewrite Hcr. eexists. split; [reflexivity|]. hsimpl.
    split; [reflexivity|]. split; [|split; [|split]].
    + split.
      * eapply chain_section_list; [hsimpl; apply lookup_insert_eq|]. hsimpl.
        simpl. split; [reflexivity|]. exists new. rewrite Hnext. auto.
      * hsimpl. rewrite lookup_insert_eq. reflexivity.
    + rewrite decide_True by reflexivity. assumption.
    + intros s _. left. reflexivity.
    + intros c Hne. rewrite lookup_insert_ne by congruence. reflexivity.
  - set (ss := f :: ss') in *.
    assert (Hf : FirstSection cr = Some f) by (simpl in Hc; tauto).
    rewrite Hf. cbn [ptr_eqb]. cbv iota.
    destruct (last ss) as [l|] eqn:Hl; [|apply last_None in Hl; discriminate].
    assert (Hlin : l ∈ ss) by (apply last_Some_elem_of; exact Hl).
    destruct (chain_in_use _ _ _ _ _ Hc Hlin) as [lr Hlr].
    assert (HlS : l ≠ S) by (intros ->; contradiction).
    rewrite Hlast. erewrite bind_Ok by reflexivity.
    erewrite bind_Ok by (unfold write_section; rewrite Hlr; reflexivity).
    erewrite bind_Ok
      by (unfold write_section; hsimpl; rewrite lookup_insert_ne by congruence;
          rewrite HS; reflexivity).
    unfold write_cache. hsimpl. rewrite Hcr. eexists. split; [reflexivity|]. hsimpl.
    split; [reflexivity|]. split; [|split; [|split]].
    + split.
      * eapply chain_section_list; [hsimpl; apply lookup_insert_eq|]. hsimpl.
        rewrite Hf. fold ss. rewrite <- Hf.
        apply (chain_snoc sec_Next (sections h) _ _ ss l S Hc Hl HSss).
        -- intros k Hk Hkl. rewrite !lookup_insert_ne; [reflexivity| |congruence].
           intros <-. contradiction.
        -- rewrite lookup_insert_ne by congruence. rewrite lookup_insert_eq. reflexivity.
        -- rewrite lookup_insert_eq. simpl. rewrite Hnext. reflexivity.
      * hsimpl. rewrite lookup_insert_eq. rewrite last_snoc. reflexivity.
    + rewrite lookup_insert_eq. rewrite decide_False by discriminate. reflexivity.
    + intros s Hs. rewrite lookup_insert_ne by congruence.
      destruct (decide (s = l)) as [->|Hsl].
      * right. exists lr. rewrite lookup_insert_eq. auto.
      * left. rewrite lookup_insert_ne by congruence. reflexivity.
    + intros c Hne. rewrite lookup_insert_ne by congruence. reflexivity.
Qed.


Lemma folded_matches (x a b : list Z) :
  folded a = folded b → (_wcsicmp x a =? 0) = (_wcsicmp x b =? 0).
Proof.
  intros Hab.
  destruct (_wcsicmp x a =? 0) eqn:Ha, (_wcsicmp x b =? 0) eqn:Hb; try reflexivity.
  - apply Z.eqb_eq, _wcsicmp_folded in Ha. apply Z.eqb_neq in Hb.
    exfalso. apply Hb. apply _wcsicmp_folded. congruence.
  - apply Z.eqb_eq, _wcsicmp_folded in Hb. apply Z.eqb_neq in Ha.
    exfalso. apply Ha. apply _wcsicmp_folded. congruence.
Qed.

Lemma find_section_matches_folded (m : gmap positive INI_SECTION) (a b : list Z) ss :
  folded a = folded b →
  List.find (section_matches m a) ss = List.find (section_matches m b) ss.
Proof.
  intros Hab. induction ss as [|s ss IH]; [reflexivity|]. simpl. rewrite IH.
  unfold section_matches. destruct (m !! s); [|reflexivity].
  rewrite (folded_matches _ a b Hab). reflexivity.
Qed.

Lemma find_snoc {A} (f : A → bool) l a :
  List.find f (l ++ [a])
  = match List.find f l with
    | Some x => Some x
    | None => if f a then Some a else None
    end.
Proof. induction l as [|b l IH]; simpl; [reflexivity|]. destruct (f b); auto. Qed.

Lemma find_same {A} (f g : A → bool) l :
  (∀ x, x ∈ l → f x = g x) → List.find f l = List.find g l.
Proof.
  induction l as [|b l IH]; intros Hfg; [reflexivity|]. simpl.
  rewrite (Hfg b) by left. rewrite IH; [reflexivity|]. intros x Hx. apply Hfg. right. exact Hx.
Qed.

Lemma all_some_app {A} (l1 l2 : list (option A)) :
  all_some (l1 ++ l2)
  = match all_some l1, all_some l2 with
    | Some a, Some b => Some (a ++ b)
    | _, _ => None
    end.
Proof.
  induction l1 as [|[x|] l1 IH]; simpl.
  - destruct (all_some l2); reflexivity.
  - rewrite IH. destruct (all_some l1), (all_some l2); reflexivity.
  - reflexivity.
Qed.

(** What appending a section does to the heap, in one statement. *)
Lemma IniCacheAddSectionAorW_appends h Cache ss Name NameLength IsUnicode NameU :
  sound_cache h Cache ss →
  NameLength ≠ 0 →
  allocations_succeed 2 h →
  CopyAorW Name NameLength IsUnicode = Ok NameU →
  List.find (section_matches (sections h) NameU) ss = None →
  ∃ S h',
    IniCacheAddSectionAorW (Some Cache) (Some Name) NameLength IsUnicode h
    = Ok (Some S, h') ∧
    (S ∉ ss) ∧ sections h !! S = None ∧
    sound_cache h' Cache (ss ++ [S]) ∧
    (∃ sr, sections h' !! S = Some sr ∧ sec_Name sr = NameU ∧
           FirstKey sr = None ∧ LastKey sr = None) ∧
    keys h' = keys h ∧ allocs h' = tl (tl (allocs h)) ∧
    (∀ s sr, sections h !! s = Some sr →
             ∃ sr', sections h' !! s = Some sr' ∧ sec_Name sr' = sec_Name sr ∧
                    FirstKey sr' = FirstKey sr ∧ LastKey sr' = LastKey sr) ∧
    (∀ c, c ≠ Cache → caches h' !! c = caches h !! c).
Proof.
  intros Hsound HN Hal Hcopy Hfind. pose proof Hsound as [Hss Hlast].
  destruct (caches h !! Cache) as [cr|] eqn:Hcr; [|discriminate].
  set (S := fresh (dom (sections h))).
  assert (HS : sections h !! S = None) by apply not_elem_of_dom, is_fresh.
  assert (HSss : S ∉ ss).
  { intros Hin.
    destruct (chain_in_use _ _ _ _ _ (section_list_chain _ _ _ _ Hss Hcr) Hin) as [? Hu].
    congruence. }
  set (new := {| sec_Name := NameU; FirstKey := None; LastKey := None;
                 sec_Next := None; sec_Prev := None |}).
  set (h1 := set_sections (<[S := new]> (sections h)) (set_allocs (tl (tl (allocs h))) h)).
  assert (Hsound1 : sound_cache h1 Cache ss).
  { split.
    - eapply chain_section_list; [exact Hcr|]. unfold h1. hsimpl.
      eapply chain_frame; [|exact (section_list_chain _ _ _ _ Hss Hcr)].
      intros a Ha. rewrite lookup_insert_ne; [reflexivity|]. intros <-. contradiction.
    - unfold h1. hsimpl. rewrite Hcr. exact Hlast. }
  destruct (AppendSection_sound h1 Cache cr ss S new Hsound1 Hcr) as
    (h' & Hrun & Hkeys & Hsound' & HS' & Hrest & Hcaches); auto.
  { apply lookup_insert_eq. }
  exists S, h'.
  rewrite (IniCacheAddSectionAorW_new h Cache cr Name NameLength IsUnicode ss NameU)
    by assumption.
  cbv zeta. fold S new h1. rewrite Hrun.
  repeat split; auto.
  - apply Hsound'.
  - apply Hsound'.
  - eexists. split; [exact HS'|]. destruct (decide (ss = [])); auto.
  - unfold AppendSection in Hrun. clear -Hrun.
    destruct (ptr_eqb (FirstSection cr) None).
    + unfold write_cache in Hrun. destruct (caches h1 !! Cache); [|discriminate].
      injection Hrun as <-. reflexivity.
    + unfold bind, nonnull, ret, fault, write_section, write_cache in Hrun.
      destruct (LastSection cr) as [l|]; [|discriminate].
      destruct (sections h1 !! l); [|discriminate]. hsimpl_in Hrun.
      destruct (<[l:=with_sec_Next (Some S) i]> (sections h1) !! S); [|discriminate].
      hsimpl_in Hrun. destruct (caches h1 !! Cache); [|discriminate].
      injection Hrun as <-. reflexivity.
  - intros s sr Hs. assert (HsS : s ≠ S) by congruence.
    destruct (Hrest s HsS) as [Hsame|(sr1 & Hs1 & Hs')].
    + exists sr. rewrite Hsame. unfold h1. hsimpl.
      rewrite lookup_insert_ne by congruence. auto.
    + unfold h1 in Hs1. hsimpl_in Hs1. rewrite lookup_insert_ne in Hs1 by congruence.
      rewrite Hs in Hs1. injection Hs1 as <-. eexists. split; [exact Hs'|]. auto.
Qed.

(** C5. Sections are looked up and created by name, case folded, without
    duplicates. On a cache whose section list is [ss], a call with a
    non-empty name (allocations succeeding, the copy of the name staying
    within its block: [CopyAorW] returns, the length is below 2^32 - 1)
    returns the first section of [ss] that bears the name and creates
    nothing when there is one; otherwise it allocates a section that it
    links behind the last one, so that the list becomes [ss ++ [S]], the
    other sections keeping their names and keys. Hence a section added by
    [IniAddSection] under a name shorter than 2^32 - 1 characters is the
    one that [IniGetSection] returns for any name with the same folding. *)
Theorem sections_are_unique_by_folded_name :
  (∀ h Cache ss Name NameLength IsUnicode NameU S,
      section_list h Cache = Some ss →
      NameLength ≠ 0 →
      hd true (allocs h) = true →
      CopyAorW Name NameLength IsUnicode = Ok NameU →
      List.find (section_matches (sections h) NameU) ss = Some S →
      ∃ h', IniCacheAddSectionAorW (Some Cache) (Some Name) NameLength IsUnicode h
            = Ok (Some S, h') ∧
            same_store h h' ∧ section_list h' Cache = Some ss) ∧
  (∀ h Cache ss Name NameLength IsUnicode NameU,
      sound_cache h Cache ss →
      NameLength ≠ 0 →
      allocations_succeed 2 h →
      CopyAorW Name NameLength IsUnicode = Ok NameU →
      List.find (section_matches (sections h) NameU) ss = None →
      ∃ S h',
        IniCacheAddSectionAorW (Some Cache) (Some Name) NameLength IsUnicode h
        = Ok (Some S, h') ∧
        (S ∉ ss) ∧ sound_cache h' Cache (ss ++ [S]) ∧
        (∃ sr, sections h' !! S = Some sr ∧ sec_Name sr = NameU ∧
               FirstKey sr = None ∧ LastKey sr = None) ∧
        keys h' = keys h ∧
        (∀ s sr, sections h !! s = Some sr →
                 ∃ sr', sections h' !! s = Some sr' ∧ sec_Name sr' = sec_Name sr ∧
                        FirstKey sr' = FirstKey sr ∧ LastKey sr' = LastKey sr)) ∧
  (∀ h Cache ss Name Name' S h',
      sound_cache h Cache ss →
      allocations_succeed 2 h →
      wcslen_of Name < 2 ^ 32 - 1 →
      IniAddSection (Some Cache) (Some Name) h = Ok (Some S, h') →
      _wcsicmp Name Name' = 0 →
      IniGetSection (Some Cache) (Some Name') h' = Ok (Some S, h')).
Proof.
  split; [|split].
  - intros h Cache ss Name NameLength IsUnicode NameU S Hss HN Ha Hcopy Hfind.
    eexists. split; [|split].
    + apply (IniCacheAddSectionAorW_existing h Cache Name NameLength IsUnicode ss NameU S);
        assumption.
    + repeat split; reflexivity.
    + exact Hss.
  - intros h Cache ss Name NameLength IsUnicode NameU Hsound HN Hal Hcopy Hfind.
    destruct (IniCacheAddSectionAorW_appends h Cache ss Name NameLength IsUnicode NameU)
      as (S & h' & Hcall & HS & _ & Hsound' & Hnew & Hkeys & _ & Hold & _); auto.
    exists S, h'. repeat split; auto; apply Hsound'.
  - intros h Cache ss Name Name' S h' Hsound Hal Hlen Hadd Hfold.
    apply _wcsicmp_folded in Hfold.
    unfold IniAddSection in Hadd.
    destruct (is_empty Name) eqn:He; [discriminate|].
    pose proof (is_empty_wcslen_of _ He) as Hne.
    assert (HN : ULONG (wcslen_of Name) ≠ 0).
    { unfold wcslen_of in *. rewrite ULONG_small; lia. }
    pose proof (CopyAorW_pointer_of Name Hlen) as Hcopy.
    pose proof Hsound as [Hss _].
    assert (Hfold' : folded Name' = folded (cstring Name)).
    { rewrite folded_cstring. congruence. }
    unfold IniGetSection.
    destruct (List.find (section_matches (sections h) (cstring Name)) ss) as [S0|] eqn:Hfind.
    + pose proof Hal as Hal'. apply allocations_succeed_step in Hal' as [Ha1 _].
      rewrite (IniCacheAddSectionAorW_existing h Cache _ _ true ss (cstring Name) S0)
        in Hadd by assumption.
      injection Hadd as <- <-.
      rewrite (IniCacheFindSection_first (set_allocs (tl (allocs h)) h) Cache Name' ss Hss).
      hsimpl. rewrite (find_section_matches_folded _ _ _ ss Hfold'), Hfind. reflexivity.
    + destruct (IniCacheAddSectionAorW_appends h Cache ss (pointer_of Name)
                  (ULONG (wcslen_of Name)) true (cstring Name))
        as (S1 & h1 & Hcall & HS & HSnew & Hsound' & (sr & Hsr & Hname & _) & _ & _ & Hold & _);
        auto.
      rewrite Hcall in Hadd. injection Hadd as <- <-.
      destruct Hsound' as [Hss' _].
      rewrite (IniCacheFindSection_first h1 Cache Name' _ Hss').
      rewrite find_snoc.
      assert (Hnone : List.find (section_matches (sections h1) Name') ss = None).
      { rewrite <- Hfind. rewrite (find_section_matches_folded _ _ _ ss Hfold').
        apply find_same. intros s Hs. unfold section_matches.
        destruct (sections h !! s) as [sr0|] eqn:Hs0.
        - destruct (Hold s sr0 Hs0) as (sr' & -> & -> & _). reflexivity.
        - exfalso.
          destruct (caches h !! Cache) as [cr|] eqn:Hcr;
            [|unfold section_list in Hss; rewrite Hcr in Hss; discriminate].
          destruct (chain_in_use _ _ _ _ _ (section_list_chain _ _ _ _ Hss Hcr) Hs)
            as [? Hu].
          congruence. }
      rewrite Hnone. unfold section_matches at 1. rewrite Hsr, Hname.
      assert (Hm : _wcsicmp (cstring Name) Name' = 0).
      { apply _wcsicmp_folded. congruence. }
      rewrite Hm. reflexivity.
Qed.

End AddSection.

(** ** The serializer *)

Section Serializer.
Context `{CodePage}.

Lemma ULONG_range z : 0 <= ULONG z < 2 ^ 32.
Proof. unfold ULONG. apply Z.mod_pos_bound. lia. Qed.

Lemma ULONG_add z k : ULONG (ULONG z + k) = ULONG (z + k).
Proof. unfold ULONG. apply Zplus_mod_idemp_l. Qed.

Lemma ULONG_eq_add a b c : ULONG a = ULONG b → ULONG (a + c) = ULONG (b + c).
Proof. intros Hab. rewrite <- (ULONG_add a), Hab, ULONG_add. reflexivity. Qed.

Lemma all_some_cons_inv {A} (x : option A) l r :
  all_some (x :: l) = Some r → ∃ a r', x = Some a ∧ all_some l = Some r' ∧ r = a :: r'.
Proof.
  simpl. destruct x as [a|]; [|discriminate]. destruct (all_some l) as [r'|]; [|discriminate].
  simpl. intros Heq. injection Heq as <-. eauto.
Qed.

Lemma length_render_key e :
  Z.of_nat (length (render_key e)) = wcslen_of (fst e) + wcslen_of (snd e) + 3.
Proof.
  unfold render_key, print_S, wcslen_of. rewrite !length_app, !length_map. simpl. lia.
Qed.

Lemma fill_keys_text h turns p l es Text :
  walk key_Next (keys h) turns p = Some l →
  all_some (map (entry_of h) l) = Some es →
  fill_keys turns (keys h) p Text = Ok (Text ++ concat (map render_key es)).
Proof.
  revert p l es Text. induction turns as [|t IH]; intros [a|] l es Text Hw He; simpl in *;
    try discriminate.
  - injection Hw as <-. simpl in He. injection He as <-. simpl. rewrite app_nil_r. reflexivity.
  - destruct (keys h !! a) as [kr|] eqn:Ha; [|discriminate].
    destruct (walk key_Next (keys h) t (key_Next kr)) as [l'|] eqn:Hl; [|discriminate].
    injection Hw as <-. apply all_some_cons_inv in He as (e & es' & He & Hes & ->).
    unfold entry_of in He. rewrite Ha in He. injection He as <-.
    rewrite (IH _ _ _ _ Hl Hes). simpl. unfold render_key. simpl.
    rewrite <- !app_assoc. reflexivity.
  - injection Hw as <-. simpl in He. injection He as <-. simpl. rewrite app_nil_r. reflexivity.
Qed.

Lemma size_keys_text h turns p l es BufferSize :
  walk key_Next (keys h) turns p = Some l →
  all_some (map (entry_of h) l) = Some es →
  ∃ B, size_keys turns (keys h) p BufferSize = Ok B ∧
       ULONG B = ULONG (BufferSize + Z.of_nat (length (concat (map render_key es)))) ∧
       (0 <= BufferSize < 2 ^ 32 → 0 <= B < 2 ^ 32).
Proof.
  revert p l es BufferSize.
  induction turns as [|t IH]; intros [a|] l es B0 Hw He; simpl in *; try discriminate.
  - injection Hw as <-. simpl in He. injection He as <-. exists B0. simpl. rewrite Z.add_0_r. auto.
  - destruct (keys h !! a) as [kr|] eqn:Ha; [|discriminate].
    destruct (walk key_Next (keys h) t (key_Next kr)) as [l'|] eqn:Hl; [|discriminate].
    injection Hw as <-. apply all_some_cons_inv in He as (e & es' & He & Hes & ->).
    unfold entry_of in He. rewrite Ha in He. injection He as <-.
    destruct (IH _ _ _ (ULONG (B0 + (wcslen_of (key_Name kr) + wcslen_of (key_Data kr) + 3)))
                Hl Hes) as (B & Hrun & Hmod & Hrange).
    exists B. split; [exact Hrun|]. split.
    + rewrite Hmod, ULONG_add. apply (f_equal ULONG). simpl concat.
      rewrite length_app, Nat2Z.inj_add, length_render_key. simpl. lia.
    + intros _. apply Hrange. apply ULONG_range.
  - injection Hw as <-. simpl in He. injection He as <-. exists B0. simpl. rewrite Z.add_0_r. auto.
Qed.

Lemma section_contents_inv h s x :
  section_contents h s = Some x →
  ∃ sr ks es, sections h !! s = Some sr ∧
              walk key_Next (keys h) (S (size (keys h))) (FirstKey sr) = Some ks ∧
              all_some (map (entry_of h) ks) = Some es ∧ x = (sec_Name sr, es).
Proof.
  unfold section_contents, key_list. destruct (sections h !! s) as [sr|]; [|discriminate].
  destruct (walk key_Next (keys h) _ (FirstKey sr)) as [ks|] eqn:Hks; [|discriminate].
  destruct (all_some (map (entry_of h) ks)) as [es|] eqn:Hes; [|discriminate].
  unfold option_map. intros Heq. injection Heq as <-. exists sr, ks, es. auto.
Qed.

Lemma walk_nil_iff {R} (next : R → option positive) (m : gmap positive R) turns p l :
  walk next m turns p = Some l → (p = None ↔ l = []).
Proof.
  destruct turns, p as [a|]; simpl; try discriminate.
  - intros Heq. injection Heq as <-. tauto.
  - destruct (m !! a) as [r|]; [|discriminate].
    destruct (walk next m turns (next r)); [|discriminate].
    simpl. intros Heq. injection Heq as <-. split; discriminate.
  - intros Heq. injection Heq as <-. tauto.
Qed.

Lemma fill_sections_text h turns p ss d Text :
  walk sec_Next (sections h) turns p = Some ss →
  all_some (map (section_contents h) ss) = Some d →
  fill_sections turns h p Text = Ok (Text ++ render d).
Proof.
  revert p ss d Text. induction turns as [|t IH]; intros [a|] ss d Text Hw Hd;
    cbn [walk] in Hw; cbn [fill_sections]; try discriminate.
  - injection Hw as <-. simpl in Hd. injection Hd as <-. simpl. rewrite app_nil_r. reflexivity.
  - destruct (sections h !! a) as [sr|] eqn:Ha; [|discriminate].
    destruct (walk sec_Next (sections h) t (sec_Next sr)) as [ss'|] eqn:Hss; [|discriminate].
    injection Hw as <-. apply all_some_cons_inv in Hd as (x & d' & Hx & Hd' & ->).
    apply section_contents_inv in Hx as (sr' & ks & es & Ha' & Hks & Hes & ->).
    rewrite Ha in Ha'. injection Ha' as <-.
    rewrite (fill_keys_text h _ _ _ _ _ Hks Hes). simpl.
    pose proof (walk_nil_iff _ _ _ _ _ Hss) as Hnil.
    destruct (sec_Next sr) as [n|] eqn:Hn.
    + cbn [ptr_eqb negb]. rewrite (IH _ _ _ _ Hss Hd').
      destruct d' as [|y d'].
      * destruct ss' as [|? ?]; [destruct Hnil as [_ Hnil]; discriminate (Hnil eq_refl)|].
        apply all_some_cons_inv in Hd' as (? & ? & _ & _ & ?). discriminate.
      * unfold render_section. simpl. rewrite <- !app_assoc. simpl.
        rewrite <- !app_assoc. reflexivity.
    + cbn [ptr_eqb negb]. rewrite (IH _ _ _ _ Hss Hd').
      destruct Hnil as [Hnil _]. rewrite (Hnil eq_refl) in Hd'. injection Hd' as <-.
      unfold render_section. simpl. rewrite <- !app_assoc. simpl.
      rewrite <- !app_assoc. reflexivity.
  - injection Hw as <-. simpl in Hd. injection Hd as <-. simpl. rewrite app_nil_r. reflexivity.
Qed.

Lemma size_sections_text h turns p ss d BufferSize :
  walk sec_Next (sections h) turns p = Some ss →
  all_some (map (section_contents h) ss) = Some d →
  ∃ B, size_sections turns h p BufferSize = Ok B ∧
       ULONG B = ULONG (BufferSize + Z.of_nat (length (render d))) ∧
       (0 <= BufferSize < 2 ^ 32 → 0 <= B < 2 ^ 32).
Proof.
  revert p ss d BufferSize.
  induction turns as [|t IH]; intros [a|] ss d B0 Hw Hd;
    cbn [walk] in Hw; cbn [size_sections]; try discriminate.
  - injection Hw as <-. simpl in Hd. injection Hd as <-. exists B0. simpl. rewrite Z.add_0_r. auto.
  - destruct (sections h !! a) as [sr|] eqn:Ha; [|discriminate].
    destruct (walk sec_Next (sections h) t (sec_Next sr)) as [ss'|] eqn:Hss; [|discriminate].
    injection Hw as <-. apply all_some_cons_inv in Hd as (x & d' & Hx & Hd' & ->).
    apply section_contents_inv in Hx as (sr' & ks & es & Ha' & Hks & Hes & ->).
    rewrite Ha in Ha'. injection Ha' as <-.
    destruct (size_keys_text h _ _ _ _ (ULONG (B0 + (wcslen_of (sec_Name sr) + 4))) Hks Hes)
      as (B1 & Hrun1 & Hmod1 & Hrange1).
    rewrite Hrun1. cbn [rbind].
    specialize (Hrange1 (ULONG_range _)).
    pose proof (walk_nil_iff _ _ _ _ _ Hss) as Hnil.
    assert (Hlen : Z.of_nat (length (render_section (sec_Name sr, es)))
                   = wcslen_of (sec_Name sr) + 4
                     + Z.of_nat (length (concat (map render_key es)))).
    { unfold render_section, print_S, wcslen_of. cbn [fst snd].
      rewrite !length_app, !length_map. simpl length. lia. }
    destruct (sec_Next sr) as [n|] eqn:Hn.
    + cbn [ptr_eqb negb].
      destruct (IH _ _ _ (ULONG (B1 + 2)) Hss Hd') as (B & Hrun & Hmod & Hrange).
      exists B. split; [exact Hrun|]. split; [|intros _; apply Hrange, ULONG_range].
      rewrite Hmod, ULONG_add. rewrite ULONG_add in Hmod1.
      destruct d' as [|y d'].
      * destruct ss' as [|? ?]; [destruct Hnil as [_ Hnil]; discriminate (Hnil eq_refl)|].
        apply all_some_cons_inv in Hd' as (? & ? & _ & _ & ?). discriminate.
      * rewrite <- Z.add_assoc.
        rewrite (ULONG_eq_add _ _ (2 + Z.of_nat (length (render (y :: d')))) Hmod1).
        apply (f_equal ULONG).
        change (render ((sec_Name sr, es) :: y :: d'))
          with (render_section (sec_Name sr, es) ++ [CR; LF] ++ render (y :: d')).
        rewrite (length_app (render_section (sec_Name sr, es))
                   ([CR; LF] ++ render (y :: d'))).
        rewrite Nat2Z.inj_add, Hlen, (length_app [CR; LF] (render (y :: d'))).
        rewrite Nat2Z.inj_add. simpl length. lia.
    + cbn [ptr_eqb negb].
      destruct (IH _ _ _ B1 Hss Hd') as (B & Hrun & Hmod & Hrange).
      exists B. split; [exact Hrun|]. split; [|intros _; apply Hrange, Hrange1].
      destruct Hnil as [Hnil _]. rewrite (Hnil eq_refl) in Hd'. simpl in Hd'.
      injection Hd' as <-.
      rewrite Hmod.
      change (render [(sec_Name sr, es)]) with (render_section (sec_Name sr, es) ++ []).
      cbn [render length]. rewrite app_nil_r, Z.add_0_r, Hmod1, ULONG_add, Hlen.
      apply (f_equal ULONG). lia.
  - injection Hw as <-. simpl in Hd. injection Hd as <-. exists B0. simpl.
    rewrite Z.add_0_r. auto.
Qed.

(** What the serializer hands to [NtWriteFile]. *)
Lemma IniCacheSaveByHandle_render (h : heap) (Cache : positive) (FileHandle : IO)
    (d : list (WSTR * list (WSTR * WSTR))) :
  contents h Cache = Some d →
  hd true (allocs h) = true →
  Z.of_nat (length (render d)) < 2 ^ 32 - 1 →
  IniCacheSaveByHandle (Some Cache) FileHandle h
  = Ok ((if NT_SUCCESS (NtWriteFile_Status FileHandle) then STATUS_SUCCESS
         else NtWriteFile_Status FileHandle, Some (render d)),
        set_allocs (tl (allocs h)) h).
Proof.
  intros Hd Ha Hlen.
  unfold contents, section_list in Hd.
  destruct (caches h !! Cache) as [cr|] eqn:Hcr; [|discriminate].
  destruct (walk sec_Next (sections h) _ (FirstSection cr)) as [ss|] eqn:Hss; [|discriminate].
  unfold IniCacheSaveByHandle.
  erewrite bind_Ok by reflexivity.
  erewrite bind_Ok by (unfold read_cache; rewrite Hcr; reflexivity).
  destruct (size_sections_text h _ _ _ _ 0 Hss Hd) as (B & Hrun & Hmod & Hrange).
  assert (HB : B = Z.of_nat (length (render d))).
  { specialize (Hrange ltac:(lia)). rewrite !ULONG_small in Hmod by lia. lia. }
  subst B.
  erewrite bind_Ok by (rewrite Hrun; reflexivity).
  erewrite bind_Ok by reflexivity. rewrite Ha. cbn [negb]. cbv iota.
  pose proof (fill_sections_text (set_allocs (tl (allocs h)) h)
                (S (size (sections (set_allocs (tl (allocs h)) h)))) (FirstSection cr)
                ss d [] Hss Hd) as Hfill.
  erewrite bind_Ok by (cbv beta; rewrite Hfill; reflexivity).
  cbn [app]. rewrite ULONG_small by lia.
  rewrite (proj2 (Z.ltb_ge _ _)) by lia.
  rewrite Nat2Z.id, take_app_length.
  destruct (NT_SUCCESS (NtWriteFile_Status FileHandle)); reflexivity.
Qed.

(** C6. For a cache whose contents are [d], the serializer hands to
    [NtWriteFile] exactly the text [render d] of the specification, when
    the buffer can be allocated and the text has fewer than 2^32 - 1
    characters: [[Name]] CR LF for each section in order, [Name=Value]
    CR LF for each of its keys in order, one CR LF between two sections and
    none after the last one, names and values printed as they are. *)
Theorem serializer_writes_render (h : heap) (Cache : positive) (FileHandle : IO)
    (d : list (WSTR * list (WSTR * WSTR))) :
  contents h Cache = Some d →
  hd true (allocs h) = true →
  Z.of_nat (length (render d)) < 2 ^ 32 - 1 →
  IniCacheSaveByHandle (Some Cache) FileHandle h
  = Ok ((if NT_SUCCESS (NtWriteFile_Status FileHandle) then STATUS_SUCCESS
         else NtWriteFile_Status FileHandle, Some (render d)),
        set_allocs (tl (allocs h)) h) ∧
  render [] = [] ∧
  (∀ s, render [s] = render_section s) ∧
  (∀ s s' d', render (s :: s' :: d') = render_section s ++ [CR; LF] ++ render (s' :: d')) ∧
  (∀ Name es, render_section (Name, es)
              = [LBRACKET] ++ print_S Name ++ [RBRACKET; CR; LF]
                ++ concat (map (λ e, print_S (fst e) ++ [EQUALS] ++ print_S (snd e)
                                      ++ [CR; LF]) es)).
Proof.
  intros Hd Ha Hlen. split; [|repeat split; intros; simpl; rewrite ?app_nil_r; reflexivity].
  apply IniCacheSaveByHandle_render; assumption.
Qed.

End Serializer.

(** ** Reading past the terminator, and the line without an equals sign *)

Section Defects.

#[local] Existing Instance Latin1.

(** Every loop of the unquoted path of [IniCacheGetKeyValue] tests for the
    terminator: on a buffer that holds a NUL the scan of an unquoted value
    never leaves the buffer. *)
Lemma skip_while_terminated (p : Z → bool) (Ptr : PCHAR) :
  p NUL = false → NUL ∈ Ptr →
  ∃ Ptr', skip_while p Ptr = Ok Ptr' ∧ NUL ∈ Ptr' ∧ Ptr' ≠ [].
Proof.
  intros Hp. induction Ptr as [|c Ptr IH]; intros Hin; [inversion Hin|].
  simpl. destruct (p c) eqn:Hc.
  - apply elem_of_cons in Hin as [<-|Hin]; [congruence|]. apply IH. assumption.
  - exists (c :: Ptr). auto.
Qed.

Lemma count_while_terminated (p : Z → bool) (Size : Z) (Ptr : PCHAR) :
  p NUL = false → NUL ∈ Ptr →
  ∃ Size' Ptr', count_while p Size Ptr = Ok (Size', Ptr') ∧ NUL ∈ Ptr' ∧ Ptr' ≠ [].
Proof.
  intros Hp. revert Size. induction Ptr as [|c Ptr IH]; intros Size Hin; [inversion Hin|].
  simpl. destruct (p c) eqn:Hc.
  - apply elem_of_cons in Hin as [<-|Hin]; [congruence|]. apply IH. assumption.
  - exists Size, (c :: Ptr). auto.
Qed.

Lemma incr_terminated (c : Z) (Ptr : PCHAR) :
  c ≠ NUL → NUL ∈ c :: Ptr → NUL ∈ incr (c :: Ptr).
Proof. intros Hc Hin. apply elem_of_cons in Hin as [<-|Hin]; [congruence | exact Hin]. Qed.

Lemma IniCacheGetKeyValue_unquoted_in_bounds (Ptr : PCHAR) :
  NUL ∈ Ptr → IniCacheGetKeyValue (Some Ptr) false ≠ Fault.
Proof.
  intros Hin. unfold IniCacheGetKeyValue.
  destruct (skip_while_terminated is_blank Ptr eq_refl Hin) as (P1 & -> & Hin1 & Hne1).
  cbn [rbind]. destruct P1 as [|c P1]; [congruence|]. cbn [deref rbind].
  destruct (neq c EQUALS) eqn:Hc; [discriminate|].
  assert (HcN : c ≠ NUL).
  { intros ->. discriminate. }
  pose proof (incr_terminated _ _ HcN Hin1) as Hin2. cbn [incr tl] in *.
  destruct (skip_while_terminated is_blank P1 eq_refl Hin2) as (P2 & -> & Hin3 & Hne3).
  cbn [rbind]. destruct P2 as [|c2 P2]; [congruence|]. cbn [deref rbind].
  rewrite andb_false_r.
  destruct (count_while_terminated in_value 0 (c2 :: P2) eq_refl Hin3)
    as (Size & P3 & -> & Hin4 & Hne4).
  cbn [rbind]. destruct P3 as [|c3 P3]; [congruence|]. cbn [deref rbind].
  destruct (c3 =? CR) eqn:Hc3.
  - apply Z.eqb_eq in Hc3. subst c3.
    assert (Hin5 : NUL ∈ P3) by (apply (incr_terminated CR); [discriminate | assumption]).
    cbn [incr tl]. destruct P3 as [|c4 P3]; [inversion Hin5|]. cbn [deref rbind].
    destruct (c4 =? LF); discriminate.
  - cbn [deref rbind]. destruct (c3 =? LF); discriminate.
Qed.

(** In quoted mode the scan for the closing quote has no such test: when
    no quote follows the opening one it runs through the terminator and
    off the end of the buffer. *)
Lemma count_while_in_quoted_overruns (Size : Z) (Ptr : PCHAR) :
  DQUOTE ∉ Ptr → count_while in_quoted Size Ptr = Fault.
Proof.
  revert Size. induction Ptr as [|c Ptr IH]; intros Size Hq; [reflexivity|]. simpl.
  apply not_elem_of_cons in Hq as [Hc Hq]. unfold in_quoted, neq.
  rewrite (proj2 (Z.eqb_neq c DQUOTE)) by congruence. simpl. apply IH. assumption.
Qed.

(** C9 fails on the code. The buffer holds an equals sign, an opening
    quote, [abc] and the terminator: in quoted mode [IniCacheGetKeyValue]
    reads past the terminator and leaves the buffer, while the same buffer
    is scanned within bounds when the mode is off. *)
Theorem open_quote_is_scanned_past_the_terminator :
  last text_open_quote = Some NUL ∧
  IniCacheGetKeyValue (Some text_open_quote) true = Fault ∧
  IniCacheGetKeyValue (Some text_open_quote) false
  = Ok (Some [NUL], Some ([DQUOTE] ++ chars "abc" ++ [NUL]), 4).
Proof. vm_compute. repeat split; reflexivity. Qed.

(** C2 fails on the code. A key line without an equals sign makes
    [IniCacheGetKeyValue] return NULL for the new position, and the loop of
    [IniCacheLoadFromMemory], which goes on while the position is not NULL,
    ends there: section [B] and its key are never read, although the same
    text without the bad line gives both sections. *)
Theorem line_without_equals_ends_the_load :
  load_contents text_bad_key false = Ok (STATUS_SUCCESS, Some [(chars "A", [])]) ∧
  load_contents text_good_keys false
  = Ok (STATUS_SUCCESS, Some [(chars "A", []); (chars "B", [(chars "y", chars "2")])]) ∧
  IniCacheGetKeyValue (Some (CRLF ++ chars "[B]" ++ CRLF ++ chars "y=2" ++ CRLF ++ [NUL])) false
  = Ok (None, None, 0).
Proof. vm_compute. repeat split; reflexivity. Qed.

(** C8 fails on the code. A file that holds the single character [x] (no
    section header, no line end) is read without error by the I/O layer;
    [IniCacheSkipToNextSection] then steps over the terminator and
    [IniCacheLoadFromMemory] reads outside the buffer instead of returning
    STATUS_SUCCESS with an empty cache. With a line end after the [x] the
    load returns STATUS_SUCCESS and the empty cache, and a failed read
    returns the status of the read and no cache. *)
Theorem text_without_line_end_is_read_past_the_terminator :
  IniCacheLoadFromMemory (chars "x" ++ [NUL]) 1 false empty_heap = Fault ∧
  IniCacheLoadByHandle (file_of (chars "x")) false empty_heap = Fault ∧
  IniCacheSkipToNextSection (chars "x" ++ [NUL]) = Fault ∧
  load_contents (chars "x" ++ [LF]) false = Ok (STATUS_SUCCESS, Some []).
Proof. vm_compute. repeat split; reflexivity. Qed.

End Defects.

(** ** The loader on the heap and the loader on contents *)

Section Simulation.
Context `{CodePage}.

Lemma no_allocation_failure_succeed h n :
  no_allocation_failure h → allocations_succeed n h.
Proof. unfold no_allocation_failure, allocations_succeed. apply Forall_take. Qed.

Lemma no_allocation_failure_allocs h h' k :
  allocs h' = Nat.iter k tl (allocs h) →
  no_allocation_failure h → no_allocation_failure h'.
Proof.
  unfold no_allocation_failure. intros ->. induction k as [|k IH]; simpl; [auto|].
  intros Hf. specialize (IH Hf). destruct (Nat.iter k tl (allocs h)); simpl; [constructor|].
  eapply Forall_cons_1, IH.
Qed.

Lemma find_fmap {A B} (g : A → B) (f : B → bool) (l : list A) :
  List.find f (g <$> l) = g <$> List.find (λ a, f (g a)) l.
Proof. induction l as [|a l IH]; simpl; [reflexivity|]. destruct (f (g a)); auto. Qed.

(** Looking a name up in the list of the heap and in the contents. *)
Lemma find_index_Forall2 {A B} (R : A → B → Prop) (f : A → bool) (g : B → bool) l k :
  Forall2 R l k → (∀ a b, R a b → f a = g b) →
  match find_index g k with
  | Some i => ∃ a b, l !! i = Some a ∧ k !! i = Some b ∧ g b = true ∧ List.find f l = Some a
  | None => List.find f l = None
  end.
Proof.
  intros HR Hfg. induction HR as [|a b l k Hab HR IH]; simpl; [reflexivity|].
  rewrite (Hfg a b Hab). destruct (g b) eqn:Hg.
  - exists a, b. auto.
  - destruct (find_index g k) as [i|]; simpl; [|exact IH].
    destruct IH as (a' & b' & ? & ? & ? & ?). exists a', b'. auto.
Qed.

Lemma find_index_None_Forall {A} (g : A → bool) (k : list A) :
  find_index g k = None → Forall (λ b, g b = false) k.
Proof.
  induction k as [|b k IH]; simpl; [constructor|]. destruct (g b) eqn:Hg; [discriminate|].
  destruct (find_index g k); [discriminate|]. intros _. constructor; auto.
Qed.

Lemma find_index_Some_first {A} (g : A → bool) (k : list A) i :
  find_index g k = Some i →
  ∃ b, k !! i = Some b ∧ g b = true ∧ ∀ j c, (j < i)%nat → k !! j = Some c → g c = false.
Proof.
  revert i. induction k as [|b k IH]; intros i; simpl; [discriminate|].
  destruct (g b) eqn:Hg.
  - intros Heq. injection Heq as <-. exists b. repeat apply conj; auto. intros j c Hj. lia.
  - destruct (find_index g k) as [i'|]; [|discriminate]. simpl. intros Heq.
    injection Heq as <-. destruct (IH i' eq_refl) as (b' & Hb' & Hgb' & Hfirst).
    exists b'. repeat apply conj; auto. intros [|j] c Hj Hc.
    + injection Hc as <-. exact Hg.
    + simpl in Hc. apply (Hfirst j c); [lia | exact Hc].
Qed.

(** The views of a heap with the same store. *)
Lemma store_rep_same_store h h' Cache D d :
  same_store h h' → store_rep h Cache D d → store_rep h' Cache D d.
Proof.
  intros (Hk & Hs & Hc) [Hcache Hsec Hdis Hcont].
  assert (Hkl : ∀ s, key_list h' s = key_list h s).
  { intros s. unfold key_list. rewrite Hk, Hs. reflexivity. }
  split.
  - destruct Hcache as [Hsl Hl]. split.
    + unfold section_list in *. rewrite Hs, Hc. exact Hsl.
    + rewrite Hc. exact Hl.
  - intros i x Hx. destruct (Hsec i x Hx) as [Hl Hlast]. split.
    + rewrite Hkl. exact Hl.
    + rewrite Hs. exact Hlast.
  - exact Hdis.
  - eapply Forall2_impl; [exact Hcont|]. intros x y [Hn He]. split.
    + rewrite Hs. exact Hn.
    + eapply Forall2_impl; [exact He|]. intros k e Hke. unfold entry_of in *.
      rewrite Hk. exact Hke.
Qed.

(** The contents of a represented cache. *)
Lemma all_some_Forall2 {A B} (f : A → option B) l k :
  Forall2 (λ a b, f a = Some b) l k → all_some (map f l) = Some k.
Proof.
  induction 1 as [|a b l k Hab _ IH]; simpl; [reflexivity|]. rewrite Hab, IH. reflexivity.
Qed.

Lemma store_rep_contents h Cache D d : store_rep h Cache D d → contents h Cache = Some d.
Proof.
  intros [[Hsl _] Hsec _ Hcont]. unfold contents. rewrite Hsl.
  apply all_some_Forall2. apply Forall2_fmap_l.
  apply Forall2_same_length_lookup_2; [eapply Forall2_length; exact Hcont|].
  intros i x y Hx Hy.
  destruct (Forall2_lookup_lr _ _ _ _ _ _ Hcont Hx Hy) as [Hn He].
  destruct (Hsec i x Hx) as [Hkl _].
  unfold compose, section_contents. rewrite Hkl.
  destruct (sections h !! x.1) as [sr|]; [|discriminate].
  simpl in Hn. injection Hn as Hn. rewrite (all_some_Forall2 _ _ _ He). simpl.
  rewrite Hn. destruct y; reflexivity.
Qed.

Lemma sound_section_same h h' s ks :
  keys h' = keys h →
  (∀ sr, sections h !! s = Some sr →
         ∃ sr', sections h' !! s = Some sr' ∧ FirstKey sr' = FirstKey sr ∧
                LastKey sr' = LastKey sr) →
  sound_section h s ks → sound_section h' s ks.
Proof.
  intros Hk Hs [Hl Hlast]. unfold sound_section, key_list in *.
  destruct (sections h !! s) as [sr|]; [|discriminate].
  destruct (Hs sr eq_refl) as (sr' & -> & Hf & Hla). rewrite Hk, Hf. simpl in *.
  rewrite Hla. auto.
Qed.

Lemma AddSection_sim h Cache D d Name NameLength :
  store_rep h Cache D d → no_allocation_failure h →
  match contents_AddSection d Name NameLength with
  | Ok (d', i') =>
      ∃ h' D' S',
        IniCacheAddSectionAorW (Some Cache) Name NameLength false h = Ok (S', h') ∧
        store_rep h' Cache D' d' ∧ no_allocation_failure h' ∧ current D' S' i'
  | Fault => IniCacheAddSectionAorW (Some Cache) Name NameLength false h = Fault
  | Diverge => IniCacheAddSectionAorW (Some Cache) Name NameLength false h = Diverge
  end.
Proof.
  intros Hrep Hal. unfold contents_AddSection.
  destruct Name as [Name|]; [|exists h, D, None; simpl; auto].
  destruct (NameLength =? 0) eqn:HN;
    [exists h, D, None; unfold IniCacheAddSectionAorW; rewrite HN; simpl; auto|].
  pose proof (no_allocation_failure_succeed h 2 Hal) as Hal2.
  pose proof Hal2 as Hal2'. apply allocations_succeed_step in Hal2' as [Ha1 _].
  destruct (CopyAorW Name NameLength false) as [NameU| |] eqn:Hcopy; cbn [rbind].
  - pose proof Hrep as [Hcache Hsec Hdis Hcont].
    pose proof (find_index_Forall2 _
                  (λ x : positive * list positive,
                     section_matches (sections h) NameU x.1)
                  (λ s : WSTR * list (WSTR * WSTR), bears NameU (fst s)) D d Hcont) as Hfind.
    unfold add_section.
    destruct (find_index (λ s, bears NameU (fst s)) d) as [i|] eqn:Hfi; cbn [fst snd].
    + destruct Hfind as (x & y & Hx & Hy & _ & Hfound).
      { intros a b [Hn _]. unfold section_matches, bears.
        destruct (sections h !! a.1); [|discriminate]. simpl in Hn. injection Hn as ->.
        reflexivity. }
      exists (set_allocs (tl (allocs h)) h), D, (Some x.1).
      repeat apply conj.
      * apply (IniCacheAddSectionAorW_existing h Cache Name NameLength false (D.*1) NameU);
          auto.
        -- apply Hcache.
        -- apply Z.eqb_neq. exact HN.
        -- rewrite find_fmap, Hfound. reflexivity.
      * apply (store_rep_same_store h); [repeat split; reflexivity | exact Hrep].
      * apply (no_allocation_failure_allocs h _ 1); [reflexivity | exact Hal].
      * simpl. rewrite list_lookup_fmap, Hx. reflexivity.
    + destruct (IniCacheAddSectionAorW_appends h Cache (D.*1) Name NameLength false NameU)
        as (S & h' & Hcall & HS & HSfree & Hsound' & (sr & Hsr & Hname & HF & HL) & Hkeys
            & Hallocs & Hold & _); auto.
      { apply Z.eqb_neq. exact HN. }
      { rewrite find_fmap, Hfind; [reflexivity|].
        intros a b [Hn _]. unfold section_matches, bears.
        destruct (sections h !! a.1); [|discriminate]. simpl in Hn. injection Hn as ->.
        reflexivity. }
      assert (Hold' : ∀ i x, D !! i = Some x →
                sound_section h' x.1 x.2 ∧ sections h !! x.1 ≠ None).
      { intros i x Hx. destruct (Hsec i x Hx) as [Hl Hlast]. split.
        - apply (sound_section_same h); auto; [|split; assumption].
          intros sr0 Hsr0. destruct (Hold _ _ Hsr0) as (sr' & ? & _ & ? & ?). eauto.
        - destruct (sections h !! x.1); [discriminate|]. discriminate. }
      exists h', (D ++ [(S, [])]), (Some S). repeat apply conj.
      * exact Hcall.
      * split.
        -- rewrite fmap_app. exact Hsound'.
        -- intros i x Hx. apply lookup_app_Some in Hx as [Hx|[_ Hx]].
           ++ apply (Hold' i x Hx).
           ++ apply list_lookup_singleton_Some in Hx as [_ <-]. simpl.
              split; [unfold key_list; rewrite Hsr, HF; reflexivity|].
              rewrite Hsr. simpl. rewrite HL. reflexivity.
        -- intros i j x y k Hx Hy Hij Hk.
           apply lookup_app_Some in Hx as [Hx|[_ Hx]];
             apply lookup_app_Some in Hy as [Hy|[_ Hy]].
           ++ apply (Hdis i j x y k); assumption.
           ++ apply list_lookup_singleton_Some in Hy as [_ <-]. simpl. apply not_elem_of_nil.
           ++ apply list_lookup_singleton_Some in Hx as [_ <-]. simpl in Hk. inversion Hk.
           ++ apply list_lookup_singleton_Some in Hx as [_ <-]. simpl in Hk. inversion Hk.
        -- apply Forall2_app.
           ++ apply Forall2_same_length_lookup_2; [eapply Forall2_length; exact Hcont|].
              intros i x y Hx Hy.
              destruct (Forall2_lookup_lr _ _ _ _ _ _ Hcont Hx Hy) as [Hn He]. split.
              ** destruct (sections h !! x.1) as [sr0|] eqn:Hsr0; [|discriminate].
                 destruct (Hold _ _ Hsr0) as (sr' & -> & Hn' & _). simpl in *.
                 rewrite Hn'. exact Hn.
              ** eapply Forall2_impl; [exact He|]. intros k e Hke. unfold entry_of in *.
                 rewrite Hkeys. exact Hke.
           ++ constructor; [|constructor]. simpl. split; [|constructor].
              rewrite Hsr. simpl. rewrite Hname. reflexivity.
      * apply (no_allocation_failure_allocs h _ 2); [exact Hallocs | exact Hal].
      * simpl. rewrite fmap_app. rewrite lookup_app_r; rewrite length_fmap;
          rewrite (Forall2_length _ _ _ Hcont); [|lia].
        rewrite Nat.sub_diag. reflexivity.
  - unfold IniCacheAddSectionAorW. rewrite HN.
    erewrite bind_Ok by reflexivity. rewrite Ha1. cbn [negb]. cbv iota.
    unfold bind. rewrite Hcopy. reflexivity.
  - unfold IniCacheAddSectionAorW. rewrite HN.
    erewrite bind_Ok by reflexivity. rewrite Ha1. cbn [negb]. cbv iota.
    unfold bind. rewrite Hcopy. reflexivity.
Qed.

Lemma sound_cache_frame h h' Cache ss :
  caches h' !! Cache = caches h !! Cache →
  (∀ s, s ∈ ss → sec_Next <$> sections h' !! s = sec_Next <$> sections h !! s) →
  sound_cache h Cache ss → sound_cache h' Cache ss.
Proof.
  intros Hc Hs [Hsl Hlast]. split; [|rewrite Hc; exact Hlast].
  destruct (caches h !! Cache) as [cr|] eqn:Hcr; [|discriminate].
  eapply chain_section_list; [rewrite Hc; reflexivity|].
  eapply chain_frame; [exact Hs|]. eapply section_list_chain; eassumption.
Qed.

Lemma sound_section_in_use h s ks k : sound_section h s ks → k ∈ ks → is_Some (keys h !! k).
Proof. intros [Hl _]. apply (key_list_in_use _ _ _ _ Hl). Qed.

Lemma sound_section_NoDup h s ks : sound_section h s ks → NoDup ks.
Proof.
  intros [Hl _]. unfold key_list in Hl. destruct (sections h !! s); [|discriminate].
  eapply chain_NoDup, walk_chain. exact Hl.
Qed.

Lemma store_rep_NoDup h Cache D d : store_rep h Cache D d → NoDup (D.*1).
Proof.
  intros [[Hsl _] _ _ _]. unfold section_list in Hsl.
  destruct (caches h !! Cache); [|discriminate]. eapply chain_NoDup, walk_chain. exact Hsl.
Qed.

Lemma set_value_found (es : list (WSTR * WSTR)) NameU DataU j e :
  find_index (λ e, bears NameU (fst e)) es = Some j → es !! j = Some e →
  set_value es NameU DataU = <[j := (fst e, DataU)]> es.
Proof.
  revert j. induction es as [|e0 es IH]; intros j; simpl; [discriminate|].
  destruct (bears NameU (fst e0)).
  - intros Heq. injection Heq as <-. simpl. intros Heq. injection Heq as <-. reflexivity.
  - destruct (find_index _ es) as [j'|]; [|discriminate]. simpl. intros Heq.
    injection Heq as <-. simpl. intros He. rewrite (IH j' eq_refl He). reflexivity.
Qed.

Lemma set_value_new (es : list (WSTR * WSTR)) NameU DataU :
  find_index (λ e, bears NameU (fst e)) es = None →
  set_value es NameU DataU = es ++ [(NameU, DataU)].
Proof.
  induction es as [|e0 es IH]; simpl; [reflexivity|].
  destruct (bears NameU (fst e0)); [discriminate|].
  destruct (find_index _ es); [discriminate|]. intros _. rewrite IH; reflexivity.
Qed.

Lemma entry_matches h NameU k e :
  entry_of h k = Some e → key_matches (keys h) NameU k = bears NameU (fst e).
Proof.
  unfold entry_of, key_matches, bears. destruct (keys h !! k) as [kr|]; [|discriminate].
  intros Heq. injection Heq as <-. reflexivity.
Qed.

(** The value of an existing key is replaced. *)
Lemma store_rep_update h Cache D d i s ks j Key kr a NameU DataU :
  store_rep h Cache D d →
  D !! i = Some (s, ks) → ks !! j = Some Key →
  keys h !! Key = Some kr →
  (∀ n es, d !! i = Some (n, es) →
           find_index (λ e, bears NameU (fst e)) es = Some j) →
  store_rep (set_keys (<[Key := with_Data DataU kr]> (keys h)) (set_allocs a h)) Cache D
    (set_key d i NameU DataU).
Proof.
  intros Hrep Hi Hj Hkr Hfind. pose proof Hrep as [Hcache Hsec Hdis Hcont].
  set (h' := set_keys (<[Key := with_Data DataU kr]> (keys h)) (set_allocs a h)).
  destruct (updated_in_place_intro h Key kr DataU a Hkr)
    as (kr' & Hkr' & Hkeys & Hsecs & Hcaches & Hkl & Hother & Hentry).
  fold h' in Hkeys, Hsecs, Hcaches, Hkl, Hother, Hentry.
  rewrite Hkr in Hkr'. injection Hkr' as <-.
  assert (Hentry' : ∀ k, k ≠ Key → entry_of h' k = entry_of h k).
  { intros k Hk. unfold entry_of. rewrite (Hother k Hk). reflexivity. }
  split.
  - destruct Hcache as [Hsl Hl]. split; [exact Hsl | exact Hl].
  - intros i' x Hx. destruct (Hsec i' x Hx) as [Hl Hlast]. split.
    + rewrite Hkl. exact Hl.
    + exact Hlast.
  - exact Hdis.
  - apply Forall2_same_length_lookup_2.
    { unfold set_key. rewrite length_alter. eapply Forall2_length. exact Hcont. }
    intros i' x y' Hx Hy'. unfold set_key in Hy'.
    destruct (decide (i = i')) as [<-|Hne].
    + rewrite list_lookup_alter_eq in Hy'.
      destruct (d !! i) as [[n es]|] eqn:Hd; [|discriminate]. simpl in Hy'.
      injection Hy' as <-. rewrite Hi in Hx. injection Hx as <-.
      destruct (Forall2_lookup_lr _ _ _ _ _ _ Hcont Hi Hd) as [Hn He]. simpl in *.
      split; [exact Hn|].
      specialize (Hfind n es eq_refl).
      destruct (find_index_Some_first _ _ _ Hfind) as (e & Hej & _ & _).
      rewrite (set_value_found es NameU DataU j e Hfind Hej).
      pose proof (Forall2_lookup_lr _ _ _ _ _ _ He Hj Hej) as Hke.
      apply Forall2_same_length_lookup_2.
      { rewrite length_insert. eapply Forall2_length. exact He. }
      intros j' k e' Hk He'.
      destruct (decide (j = j')) as [<-|Hjne].
      * rewrite Hj in Hk. injection Hk as <-.
        rewrite list_lookup_insert_eq in He' by (eapply lookup_lt_Some; exact Hej).
        injection He' as <-. rewrite Hentry. unfold entry_of in Hke. rewrite Hkr in Hke.
        injection Hke as <-. reflexivity.
      * rewrite list_lookup_insert_ne in He' by exact Hjne.
        rewrite Hentry'; [exact (Forall2_lookup_lr _ _ _ _ _ _ He Hk He')|].
        intros ->. apply Hjne.
        eapply NoDup_lookup; [eapply sound_section_NoDup, (Hsec i _ Hi) | exact Hj | exact Hk].
    + rewrite list_lookup_alter_ne in Hy' by exact Hne.
      destruct (Forall2_lookup_lr _ _ _ _ _ _ Hcont Hx Hy') as [Hn He].
      split; [exact Hn|].
      apply Forall2_same_length_lookup_2; [eapply Forall2_length; exact He|].
      intros j' k e' Hk He'.
      rewrite Hentry'; [exact (Forall2_lookup_lr _ _ _ _ _ _ He Hk He')|].
      intros ->. apply (Hdis i i' (s, ks) x Key Hi Hx Hne).
      * simpl. eapply list_elem_of_lookup_2. exact Hj.
      * eapply list_elem_of_lookup_2. exact Hk.
Qed.

(** A new key is linked behind the last one. *)
Lemma store_rep_append h h1 h' Cache D d i s ks Key NameU DataU :
  store_rep h Cache D d →
  D !! i = Some (s, ks) →
  keys h !! Key = None →
  keys h1 = <[Key := {| key_Name := NameU; key_Data := DataU;
                        key_Next := None; key_Prev := None |}]> (keys h) →
  sections h1 = sections h → caches h1 = caches h →
  caches h' = caches h1 →
  sound_section h' s (ks ++ [Key]) →
  (∀ s', s' ≠ s → sections h' !! s' = sections h1 !! s') →
  (∃ sr sr', sections h1 !! s = Some sr ∧ sections h' !! s = Some sr' ∧
             sec_Name sr' = sec_Name sr ∧ sec_Next sr' = sec_Next sr) →
  (∀ k, entry_of h' k = entry_of h1 k) →
  (∀ k, k ∉ ks → k ≠ Key → keys h' !! k = keys h1 !! k) →
  (∀ n es, d !! i = Some (n, es) →
           find_index (λ e, bears NameU (fst e)) es = None) →
  store_rep h' Cache (<[i := (s, ks ++ [Key])]> D) (set_key d i NameU DataU).
Proof.
  intros Hrep Hi HK Hkeys1 Hsecs1 Hcaches1 Hcaches' Hsound' Hother (sr & sr' & Hsr & Hsr' & Hname & Hnext)
    Hentry Hkeys' Hfind.
  pose proof Hrep as [Hcache Hsec Hdis Hcont].
  pose proof (store_rep_NoDup _ _ _ _ Hrep) as Hnd.
  assert (Hfst : (<[i := (s, ks ++ [Key])]> D).*1 = D.*1).
  { rewrite list_fmap_insert. simpl. apply list_insert_id.
    rewrite list_lookup_fmap, Hi. reflexivity. }
  assert (Hfresh : ∀ i' x k, D !! i' = Some x → k ∈ x.2 → k ≠ Key).
  { intros i' x k Hx Hk ->. destruct (sound_section_in_use _ _ _ _ (Hsec i' x Hx) Hk) as [? Hu].
    congruence. }
  assert (Hentry1 : ∀ k, k ≠ Key → entry_of h' k = entry_of h k).
  { intros k Hk. rewrite Hentry. unfold entry_of. rewrite Hkeys1.
    rewrite lookup_insert_ne by congruence. reflexivity. }
  split.
  - rewrite Hfst. apply (sound_cache_frame h); [congruence| |exact Hcache].
    intros s' _. destruct (decide (s' = s)) as [->|Hs'].
    + rewrite Hsr', <- Hsecs1, Hsr. simpl. rewrite Hnext. reflexivity.
    + rewrite (Hother s' Hs'), Hsecs1. reflexivity.
  - intros i' x Hx. destruct (decide (i = i')) as [<-|Hne].
    + rewrite list_lookup_insert_eq in Hx by (eapply lookup_lt_Some; exact Hi).
      injection Hx as <-. exact Hsound'.
    + rewrite list_lookup_insert_ne in Hx by exact Hne.
      assert (Hxs : x.1 ≠ s).
      { intros Heq. apply Hne.
        eapply (NoDup_lookup _ i i' s Hnd); rewrite list_lookup_fmap.
        - rewrite Hi. reflexivity.
        - rewrite Hx. simpl. rewrite Heq. reflexivity. }
      apply (sound_section_frame h); [rewrite (Hother _ Hxs), Hsecs1; reflexivity| |
                                      exact (Hsec i' x Hx)].
      intros k Hk. rewrite Hkeys'.
      * rewrite Hkeys1, lookup_insert_ne; [reflexivity|].
        intros <-. exact (Hfresh i' x _ Hx Hk eq_refl).
      * intros Hin. exact (Hdis i' i x (s, ks) k Hx Hi (not_eq_sym Hne) Hk Hin).
      * exact (Hfresh i' x k Hx Hk).
  - intros i1 i2 x y k Hx Hy Hne Hk.
    destruct (decide (i = i1)) as [<-|Hne1].
    + rewrite list_lookup_insert_eq in Hx by (eapply lookup_lt_Some; exact Hi).
      injection Hx as <-. rewrite list_lookup_insert_ne in Hy by exact Hne.
      simpl in Hk. apply elem_of_app in Hk as [Hk|Hk].
      * exact (Hdis i i2 (s, ks) y k Hi Hy Hne Hk).
      * apply list_elem_of_singleton in Hk as ->. intros Hin.
        exact (Hfresh i2 y Key Hy Hin eq_refl).
    + rewrite list_lookup_insert_ne in Hx by exact Hne1.
      destruct (decide (i = i2)) as [<-|Hne2].
      * rewrite list_lookup_insert_eq in Hy by (eapply lookup_lt_Some; exact Hi).
        injection Hy as <-. simpl. intros Hin. apply elem_of_app in Hin as [Hin|Hin].
        -- exact (Hdis i1 i x (s, ks) k Hx Hi Hne Hk Hin).
        -- apply list_elem_of_singleton in Hin as ->. exact (Hfresh i1 x Key Hx Hk eq_refl).
      * rewrite list_lookup_insert_ne in Hy by exact Hne2.
        exact (Hdis i1 i2 x y k Hx Hy Hne Hk).
  - apply Forall2_same_length_lookup_2.
    { unfold set_key. rewrite length_alter, length_insert. eapply Forall2_length. exact Hcont. }
    intros i' x y' Hx Hy'. unfold set_key in Hy'.
    destruct (decide (i = i')) as [<-|Hne].
    + rewrite list_lookup_insert_eq in Hx by (eapply lookup_lt_Some; exact Hi).
      injection Hx as <-.
      rewrite list_lookup_alter_eq in Hy'.
      destruct (d !! i) as [[n es]|] eqn:Hd; [|discriminate]. simpl in Hy'.
      injection Hy' as <-.
      destruct (Forall2_lookup_lr _ _ _ _ _ _ Hcont Hi Hd) as [Hn He]. simpl in *.
      split.
      * rewrite Hsr'. simpl. rewrite Hname. rewrite <- Hsecs1, Hsr in Hn. exact Hn.
      * rewrite (set_value_new es NameU DataU (Hfind n es eq_refl)).
        apply Forall2_app.
        -- eapply Forall2_same_length_lookup_2; [eapply Forall2_length; exact He|].
           intros j k e Hk He'. rewrite Hentry1.
           ++ exact (Forall2_lookup_lr _ _ _ _ _ _ He Hk He').
           ++ apply (Hfresh i (s, ks) k Hi). simpl. eapply list_elem_of_lookup_2. exact Hk.
        -- constructor; [|constructor]. rewrite Hentry. unfold entry_of.
           rewrite Hkeys1, lookup_insert_eq. reflexivity.
    + rewrite list_lookup_insert_ne in Hx by exact Hne.
      rewrite list_lookup_alter_ne in Hy' by exact Hne.
      destruct (Forall2_lookup_lr _ _ _ _ _ _ Hcont Hx Hy') as [Hn He].
      assert (Hxs : x.1 ≠ s).
      { intros Heq. apply Hne.
        eapply (NoDup_lookup _ i i' s Hnd); rewrite list_lookup_fmap.
        - rewrite Hi. reflexivity.
        - rewrite Hx. simpl. rewrite Heq. reflexivity. }
      split; [rewrite (Hother _ Hxs), Hsecs1; exact Hn|].
      apply Forall2_same_length_lookup_2; [eapply Forall2_length; exact He|].
      intros j k e Hk He'. rewrite Hentry1.
      * exact (Forall2_lookup_lr _ _ _ _ _ _ He Hk He').
      * apply (Hfresh i' x k Hx). eapply list_elem_of_lookup_2. exact Hk.
Qed.

Lemma AddKey_sim h Cache D d s i Name NameLength Data DataLength :
  store_rep h Cache D d → no_allocation_failure h →
  D.*1 !! i = Some s →
  match contents_AddKey d i Name NameLength Data DataLength with
  | Ok d' =>
      ∃ h' D' Key,
        IniCacheAddKeyAorW (Some s) None INSERT_LAST Name NameLength Data DataLength
          false h = Ok (Key, h') ∧
        store_rep h' Cache D' d' ∧ no_allocation_failure h' ∧ D'.*1 = D.*1
  | Fault =>
      IniCacheAddKeyAorW (Some s) None INSERT_LAST Name NameLength Data DataLength false h
      = Fault
  | Diverge =>
      IniCacheAddKeyAorW (Some s) None INSERT_LAST Name NameLength Data DataLength false h
      = Diverge
  end.
Proof.
  intros Hrep Hal Hs. unfold contents_AddKey.
  destruct Name as [Name|]; [|exists h, D, None; simpl; auto].
  destruct Data as [Data|]; [|exists h, D, None; simpl; auto].
  destruct ((NameLength =? 0) || (DataLength =? 0)) eqn:Hz;
    [exists h, D, None; unfold IniCacheAddKeyAorW; rewrite Hz; simpl; auto|].
  apply orb_false_elim in Hz as [HN HD].
  pose proof (no_allocation_failure_succeed h 3 Hal) as Hal3.
  pose proof Hal3 as Hal3'. apply allocations_succeed_step in Hal3' as [Ha1 Hal2'].
  apply allocations_succeed_step in Hal2' as [Ha2 _]. hsimpl_in Ha2.
  rewrite list_lookup_fmap in Hs.
  destruct (D !! i) as [[s' ks]|] eqn:Hi; [|discriminate]. simpl in Hs. injection Hs as ->.
  pose proof Hrep as [Hcache Hsec Hdis Hcont].
  destruct (Forall2_lookup_l _ _ _ _ _ Hcont Hi) as ([n es] & Hd & Hn & He). simpl in Hn, He.
  pose proof (Hsec i _ Hi) as Hsound. simpl in Hsound. pose proof Hsound as [Hkl Hlast].
  destruct (sections h !! s) as [sr|] eqn:Hsr; [|discriminate].
  destruct (CopyAorW Name NameLength false) as [NameU| |] eqn:Hcopy; cbn [rbind].
  - pose proof (find_index_Forall2 _ (key_matches (keys h) NameU)
                  (λ e : WSTR * WSTR, bears NameU (fst e)) ks es He
                  (λ k e, entry_matches h NameU k e)) as Hfind.
    destruct (find_index (λ e, bears NameU (fst e)) es) as [j|] eqn:Hfi.
    + destruct Hfind as (Key & e & Hj & Hej & _ & Hfound).
      rewrite (IniCacheAddKeyAorW_existing h s None INSERT_LAST Name NameLength Data
                 DataLength false ks NameU Key Hkl); auto;
        [|apply Z.eqb_neq; exact HN|apply Z.eqb_neq; exact HD].
      rewrite Ha2.
      destruct (CopyAorW Data DataLength false) as [DataU| |]; cbn [rbind]; try reflexivity.
      destruct (find_key_in_use _ _ _ _ Hfound) as (kr & Hkr & _). rewrite Hkr.
      eexists _, D, (Some Key). repeat apply conj; [reflexivity| | |reflexivity].
      * apply (store_rep_update h Cache D d i s ks j Key kr); auto.
        intros n' es' Hd'. rewrite Hd in Hd'. injection Hd' as <- <-. exact Hfi.
      * apply (no_allocation_failure_allocs h _ 2); [reflexivity | exact Hal].
    + rewrite (IniCacheAddKeyAorW_new h s None INSERT_LAST Name NameLength Data DataLength
                 false ks NameU sr Hkl Hsr); auto;
        [|apply Z.eqb_neq; exact HN|apply Z.eqb_neq; exact HD].
      destruct (CopyAorW Data DataLength false) as [DataU| |]; cbn [rbind]; try reflexivity.
      cbv zeta.
      set (Key := fresh (dom (keys h))).
      set (new := {| key_Name := NameU; key_Data := DataU;
                     key_Next := None; key_Prev := None |}).
      set (h1 := set_keys (<[Key := new]> (keys h)) (set_allocs (tl (tl (tl (allocs h)))) h)).
      pose proof (fresh_key_not_in_use h) as HK. fold Key in HK.
      assert (HKks : Key ∉ ks).
      { intros Hin. destruct (sound_section_in_use _ _ _ _ Hsound Hin) as [? Hu]. congruence. }
      assert (Hsound1 : sound_section h1 s ks).
      { apply (sound_section_frame h); [reflexivity| |exact Hsound].
        intros k Hk. unfold h1. hsimpl. rewrite lookup_insert_ne; [reflexivity|].
        intros <-. contradiction. }
      destruct (InsertKeyIntoSection_last h1 s sr ks Key new Hsound1 Hsr)
        as (h' & Hrun & Hcaches & Hallocs & Hsound' & Hother & (sr' & Hsr' & Hname & Hnext)
            & Hentry & Hkeys' & _); auto.
      { apply lookup_insert_eq. }
      rewrite Hrun. exists h', (<[i := (s, ks ++ [Key])]> D), (Some Key).
      repeat apply conj; [reflexivity| | |].
      * apply (store_rep_append h h1 h' Cache D d i s ks Key NameU DataU); auto.
        -- exists sr, sr'. auto.
        -- intros n' es' Hd'. rewrite Hd in Hd'. injection Hd' as <- <-. exact Hfi.
      * apply (no_allocation_failure_allocs h _ 3); [rewrite Hallocs; reflexivity | exact Hal].
      * rewrite list_fmap_insert. simpl. apply list_insert_id.
        rewrite list_lookup_fmap, Hi. reflexivity.
  - unfold IniCacheAddKeyAorW. rewrite HN, HD. cbn [orb]. cbv iota.
    erewrite bind_Ok by reflexivity. rewrite Ha1. cbn [negb]. cbv iota.
    unfold bind. rewrite Hcopy. reflexivity.
  - unfold IniCacheAddKeyAorW. rewrite HN, HD. cbn [orb]. cbv iota.
    erewrite bind_Ok by reflexivity. rewrite Ha1. cbn [negb]. cbv iota.
    unfold bind. rewrite Hcopy. reflexivity.
Qed.

Lemma bind_lift {A B} (r : result A) (k : A → M B) h :
  bind (lift r) k h = match r with
                      | Ok a => k a h
                      | Fault => Fault
                      | Diverge => Diverge
                      end.
Proof. unfold bind, lift. destruct r; reflexivity. Qed.

Lemma bind_Fault {A B} (m : M A) (k : A → M B) h : m h = Fault → bind m k h = Fault.
Proof. unfold bind. intros ->. reflexivity. Qed.

Lemma bind_Diverge {A B} (m : M A) (k : A → M B) h : m h = Diverge → bind m k h = Diverge.
Proof. unfold bind. intros ->. reflexivity. Qed.

Lemma current_same_sections D D' Section i :
  D'.*1 = D.*1 → current D Section i → current D' Section i.
Proof. unfold current. intros ->. auto. Qed.

(** The loop on the heap does to the contents what [contents_loop] says,
    and leaves the buffer or runs out of turns when [contents_loop] does. *)
Lemma IniCacheLoadFromMemory_loop_sim turns Cache String :
  ∀ h D d Section i Ptr,
    store_rep h Cache D d → no_allocation_failure h → current D Section i →
    match contents_loop turns String d i Ptr with
    | Ok d' =>
        ∃ h' D', IniCacheLoadFromMemory_loop turns Cache String Section Ptr h = Ok (tt, h') ∧
                 store_rep h' Cache D' d' ∧ no_allocation_failure h'
    | Fault => IniCacheLoadFromMemory_loop turns Cache String Section Ptr h = Fault
    | Diverge => IniCacheLoadFromMemory_loop turns Cache String Section Ptr h = Diverge
    end.
Proof.
  induction turns as [|turns IH]; intros h D d Section i Ptr Hrep Hal Hcur.
  - destruct Ptr as [Ptr|]; cbn [contents_loop IniCacheLoadFromMemory_loop];
      [|exists h, D; auto].
    rewrite bind_lift. destruct (deref Ptr) as [c| |]; cbn [rbind]; try reflexivity.
    destruct (c =? NUL); [exists h, D; auto | reflexivity].
  - destruct Ptr as [Ptr|]; cbn [contents_loop IniCacheLoadFromMemory_loop];
      [|exists h, D; auto].
    rewrite bind_lift. destruct (deref Ptr) as [c| |]; cbn [rbind]; try reflexivity.
    destruct (c =? NUL); [exists h, D; auto|].
    rewrite bind_lift.
    destruct (IniCacheSkipWhitespace Ptr) as [[Ptr1|]| |]; cbn [rbind]; try reflexivity;
      [|apply (IH h D d Section i None); assumption].
    rewrite bind_lift. destruct (deref Ptr1) as [c1| |]; cbn [rbind]; try reflexivity.
    destruct (c1 =? LBRACKET).
    + rewrite bind_lift.
      destruct (IniCacheGetSectionName (incr Ptr1)) as [[[Ptr2 SectionName] Size]| |];
        cbn [rbind]; try reflexivity.
      pose proof (AddSection_sim h Cache D d SectionName Size Hrep Hal) as Hadd.
      destruct (contents_AddSection d SectionName Size) as [[d1 i1]| |]; cbn [rbind].
      * destruct Hadd as (h1 & D1 & S1 & Hcall & Hrep1 & Hal1 & Hcur1).
        erewrite bind_Ok by exact Hcall.
        destruct S1 as [S1|], i1 as [i1|]; try contradiction.
        -- apply (IH h1 D1 d1 (Some S1) (Some i1) (Some Ptr2)); assumption.
        -- rewrite bind_lift.
           destruct (IniCacheSkipToNextSection Ptr2) as [Ptr3| |]; cbn [rbind];
             try reflexivity.
           apply (IH h1 D1 d1 None None Ptr3); auto.
      * unfold bind. rewrite Hadd. reflexivity.
      * unfold bind. rewrite Hadd. reflexivity.
    + destruct Section as [s|], i as [i|]; try contradiction.
      * rewrite bind_lift.
        destruct (IniCacheGetKeyName (Some Ptr1)) as [[[Ptr2 KeyName] KeyNameSize]| |];
          cbn [rbind]; try reflexivity.
        rewrite bind_lift.
        destruct (IniCacheGetKeyValue Ptr2 String) as [[[Ptr3 KeyValue] KeyValueSize]| |];
          cbn [rbind]; try reflexivity.
        pose proof (AddKey_sim h Cache D d s i KeyName KeyNameSize KeyValue KeyValueSize
                      Hrep Hal Hcur) as Hadd.
        destruct (contents_AddKey d i KeyName KeyNameSize KeyValue KeyValueSize)
          as [d1| |]; cbn [rbind].
        -- destruct Hadd as (h1 & D1 & K & Hcall & Hrep1 & Hal1 & Hfst).
           erewrite bind_Ok by exact Hcall.
           apply (IH h1 D1 d1 (Some s) (Some i) Ptr3); auto.
           apply (current_same_sections D); assumption.
        -- unfold bind. rewrite Hadd. reflexivity.
        -- unfold bind. rewrite Hadd. reflexivity.
      * rewrite bind_lift.
        destruct (IniCacheSkipToNextSection Ptr1) as [Ptr3| |]; cbn [rbind];
          try reflexivity.
        apply (IH h D d None None Ptr3); auto.
Qed.

(** A cache header just allocated represents the empty contents. *)
Lemma store_rep_new_cache h a :
  store_rep (set_caches (<[fresh (dom (caches h)) := {| FirstSection := None;
                                                       LastSection := None |}]> (caches h))
               (set_allocs a h))
    (fresh (dom (caches h))) [] [].
Proof.
  split.
  - split; unfold section_list; hsimpl; rewrite lookup_insert_eq; reflexivity.
  - intros i x Hx. inversion Hx.
  - intros i j x y k Hx. inversion Hx.
  - constructor.
Qed.

(** [IniCacheLoadFromMemory], when no allocation fails, builds a sound
    cache with the contents [loaded FileBuffer String], and leaves the
    buffer exactly when [loaded] does. *)
Lemma IniCacheLoadFromMemory_loaded FileBuffer FileLength String h :
  no_allocation_failure h →
  match loaded FileBuffer String with
  | Ok d =>
      ∃ h' D,
        IniCacheLoadFromMemory FileBuffer FileLength String h
        = Ok ((STATUS_SUCCESS, Some (fresh (dom (caches h)))), h') ∧
        store_rep h' (fresh (dom (caches h))) D d ∧ no_allocation_failure h'
  | Fault => IniCacheLoadFromMemory FileBuffer FileLength String h = Fault
  | Diverge => IniCacheLoadFromMemory FileBuffer FileLength String h = Diverge
  end.
Proof.
  intros Hal. unfold loaded, IniCacheLoadFromMemory.
  pose proof (no_allocation_failure_succeed h 1 Hal) as Hal1.
  apply allocations_succeed_step in Hal1 as [Ha1 _].
  erewrite bind_Ok by reflexivity. rewrite Ha1. cbn [negb]. cbv iota.
  erewrite bind_Ok by reflexivity.
  set (Cache := fresh (dom (caches h))).
  set (h0 := set_caches _ _).
  pose proof (IniCacheLoadFromMemory_loop_sim (S (length FileBuffer)) Cache String h0 [] []
                None None (Some FileBuffer) (store_rep_new_cache h _)) as Hloop.
  destruct (contents_loop (S (length FileBuffer)) String [] None (Some FileBuffer))
    as [d| |].
  - destruct Hloop as (h' & D & Hrun & Hrep & Hal'); [|exact I|].
    { apply (no_allocation_failure_allocs h _ 1); [reflexivity | exact Hal]. }
    exists h', D. erewrite bind_Ok by exact Hrun. auto.
  - apply bind_Fault, Hloop; [|exact I].
    apply (no_allocation_failure_allocs h _ 1); [reflexivity | exact Hal].
  - apply bind_Diverge, Hloop; [|exact I].
    apply (no_allocation_failure_allocs h _ 1); [reflexivity | exact Hal].
Qed.

End Simulation.

(** ** Reading back the text of a cache *)

Section Reread.
Context `{CodePage}.

Lemma skip_while_app p l1 l2 :
  Forall (λ c, p c = true) l1 → skip_while p (l1 ++ l2) = skip_while p l2.
Proof. induction 1 as [|c l1 Hc _ IH]; simpl; [reflexivity|]. rewrite Hc. exact IH. Qed.

Lemma skip_while_stop p c l : p c = false → skip_while p (c :: l) = Ok (c :: l).
Proof. intros Hc. simpl. rewrite Hc. reflexivity. Qed.

Lemma count_while_app p l1 l2 Size :
  Forall (λ c, p c = true) l1 → 0 <= Size → Size + Z.of_nat (length l1) < 2 ^ 32 →
  count_while p Size (l1 ++ l2) = count_while p (Size + Z.of_nat (length l1)) l2.
Proof.
  intros Hp. revert Size. induction Hp as [|c l1 Hc _ IH]; intros Size H0 Hlt.
  - simpl. rewrite Z.add_0_r. reflexivity.
  - cbn [app count_while]. rewrite Hc. rewrite ULONG_small by (cbn [length] in Hlt; lia).
    rewrite IH by (cbn [length] in Hlt; lia). f_equal. cbn [length]. lia.
Qed.

Lemma count_while_stop p c l Size : p c = false → count_while p Size (c :: l) = Ok (Size, c :: l).
Proof. intros Hc. simpl. rewrite Hc. reflexivity. Qed.

Lemma wcsncpy_app l1 l2 :
  Forall (λ c, c ≠ NUL) l1 → wcsncpy (length l1) (l1 ++ l2) = Ok l1.
Proof.
  induction 1 as [|c l1 Hc _ IH]; simpl; [reflexivity|].
  apply Z.eqb_neq in Hc. rewrite Hc, IH. reflexivity.
Qed.

Lemma cstring_id s : Forall (λ c, c ≠ NUL) s → cstring s = s.
Proof.
  induction 1 as [|c s Hc _ IH]; simpl; [reflexivity|].
  apply Z.eqb_neq in Hc. rewrite Hc, IH. reflexivity.
Qed.

Lemma cstring_no_NUL s : Forall (λ c, c ≠ NUL) (cstring s).
Proof.
  induction s as [|c s IH]; simpl; [constructor|].
  destruct (c =? NUL) eqn:Hc; [constructor|]. constructor; [|exact IH].
  apply Z.eqb_neq. exact Hc.
Qed.

Lemma print_S_faithful s : faithful s → print_S s = map UnicodeToAnsi s.
Proof. intros [Hs _]. unfold print_S. rewrite Hs. reflexivity. Qed.

(** The copy that the loader makes of a printed string. *)
Lemma CopyAorW_printed s rest :
  Z.of_nat (length (print_S s)) < 2 ^ 32 - 1 →
  faithful s → Forall (λ c, c ≠ NUL) (print_S s) →
  CopyAorW (print_S s ++ rest) (Z.of_nat (length (print_S s))) false = Ok s.
Proof.
  intros Hlen Hs Hn. rewrite CopyAorW_fits by lia.
  rewrite Nat2Z.id, wcsncpy_app by exact Hn.
  cbn [rbind]. rewrite (print_S_faithful s Hs). destruct Hs as [Hc Hm].
  rewrite Hm, Hc. reflexivity.
Qed.

Lemma Forall_weaken_bool (p q : Z → bool) l :
  (∀ c, p c = true → q c = true) → Forall (λ c, p c = true) l → Forall (λ c, q c = true) l.
Proof. intros Hpq Hl. eapply Forall_impl; [exact Hl|exact Hpq]. Qed.

Lemma neq_true a b : neq a b = true ↔ a ≠ b.
Proof. unfold neq. rewrite negb_true_iff. apply Z.eqb_neq. Qed.

Lemma neq_false a b : neq a b = false ↔ a = b.
Proof. unfold neq. rewrite negb_false_iff. apply Z.eqb_eq. Qed.

Lemma in_section_name_no_NUL c : in_section_name c = true → c ≠ NUL.
Proof. unfold in_section_name. intros Hc. apply andb_prop in Hc as [Hc _]. apply neq_true, Hc. Qed.

Lemma in_key_name_no_NUL c : in_key_name c = true → c ≠ NUL.
Proof.
  unfold in_key_name. intros Hc. repeat (apply andb_prop in Hc as [Hc _]). apply neq_true, Hc.
Qed.

Lemma in_value_no_NUL c : in_value c = true → c ≠ NUL.
Proof.
  unfold in_value. intros Hc. repeat (apply andb_prop in Hc as [Hc _]). apply neq_true, Hc.
Qed.

Lemma in_key_name_not_blank c : in_key_name c = true → is_blank_or_eol c = false ∧ is_blank c = false.
Proof.
  unfold in_key_name, is_blank_or_eol, is_blank. intros Hc.
  apply andb_prop in Hc as [Hc _]. apply andb_prop in Hc as [Hc _].
  apply andb_prop in Hc as [_ Hs]. apply negb_true_iff in Hs. rewrite Hs.
  split; [|apply andb_false_r]. unfold isspace in Hs. unfold LF, CR.
  destruct (c =? 10) eqn:H10; [apply Z.eqb_eq in H10; subst c; discriminate Hs|].
  destruct (c =? 13) eqn:H13; [apply Z.eqb_eq in H13; subst c; discriminate Hs|].
  reflexivity.
Qed.

Lemma blank_no_NUL c : is_blank c = true → (c =? NUL) = false.
Proof.
  unfold is_blank. intros Hc. apply andb_prop in Hc as [Hc _].
  apply negb_true_iff in Hc. exact Hc.
Qed.

(** One turn of the loop on a section header whose name is new. *)
Lemma contents_loop_header t String d cur pre n R :
  Forall (λ c, is_blank c = true) pre →
  section_name_ok n →
  Z.of_nat (length (print_S n)) < 2 ^ 32 - 1 →
  find_index (λ s, bears n (fst s)) d = None →
  contents_loop (S t) String d cur
    (Some (pre ++ [LBRACKET] ++ print_S n ++ [RBRACKET; CR; LF] ++ R))
  = contents_loop t String (d ++ [(n, [])]) (Some (length d)) (Some R).
Proof.
  intros Hpre (Hf & Hne & Hin & Hhd) Hlen Hfind.
  pose proof (CopyAorW_printed n ([RBRACKET; CR; LF] ++ R) Hlen Hf) as Hcopy.
  rewrite <- (print_S_faithful n Hf) in Hin, Hhd.
  assert (Hb : print_S n ≠ []).
  { rewrite (print_S_faithful n Hf). destruct n; [congruence|discriminate]. }
  destruct (print_S n) as [|c b] eqn:Hpr; [congruence|]. clear Hb.
  assert (Hnn : Forall (λ c, c ≠ NUL) (c :: b)).
  { eapply Forall_impl; [exact Hin|]. exact in_section_name_no_NUL. }
  specialize (Hcopy Hnn).
  assert (Hd : ∃ c0, deref (pre ++ [LBRACKET] ++ (c :: b) ++ [RBRACKET; CR; LF] ++ R) = Ok c0
                     ∧ (c0 =? NUL) = false).
  { destruct Hpre as [|c0 pre Hc0 _]; simpl; eexists; (split; [reflexivity|]);
      [reflexivity|apply blank_no_NUL, Hc0]. }
  destruct Hd as (c0 & Hd & Hc0).
  cbn [contents_loop]. rewrite Hd. cbn [rbind]. rewrite Hc0.
  unfold IniCacheSkipWhitespace. rewrite skip_while_app by exact Hpre.
  cbn [app]. rewrite skip_while_stop by reflexivity. cbn [rbind deref].
  change (LBRACKET =? NUL) with false. cbv iota. cbn [rbind deref].
  change (LBRACKET =? LBRACKET) with true. cbv iota.
  unfold IniCacheGetSectionName, incr. cbn [tl].
  rewrite skip_while_stop by exact Hhd. cbn [rbind].
  change (c :: b ++ RBRACKET :: CR :: LF :: R) with ((c :: b) ++ RBRACKET :: CR :: LF :: R).
  rewrite count_while_app by (try exact Hin; lia).
  rewrite count_while_stop by reflexivity. cbn [rbind tl].
  cbn [skip_while]. change (in_line CR) with true. change (in_line LF) with false.
  cbv iota. cbn [rbind tl].
  unfold contents_AddSection.
  replace (0 + Z.of_nat (length (c :: b)) =? 0) with false
    by (symmetry; apply Z.eqb_neq; cbn [length]; lia).
  rewrite Z.add_0_l.
  change ([RBRACKET; CR; LF] ++ R) with (RBRACKET :: CR :: LF :: R) in Hcopy. rewrite Hcopy. cbn [rbind].
  unfold add_section. rewrite Hfind. cbn [fst snd]. reflexivity.
Qed.

(** One turn of the loop on the line of a key. *)
Lemma contents_loop_key t String d i k v R :
  key_name_ok k → value_ok v →
  hd NUL (print_S k) ≠ LBRACKET →
  (String = true → hd NUL (print_S v) ≠ DQUOTE) →
  Z.of_nat (length (print_S k)) < 2 ^ 32 - 1 →
  Z.of_nat (length (print_S v)) < 2 ^ 32 - 1 →
  contents_loop (S t) String d (Some i)
    (Some (print_S k ++ [EQUALS] ++ print_S v ++ [CR; LF] ++ R))
  = contents_loop t String (set_key d i k v) (Some i) (Some R).
Proof.
  intros (Hfk & Hnek & Hink) (Hfv & Hnev & Hinv & Hhdv) Hbr Hq Hlk Hlv.
  pose proof (CopyAorW_printed k ([EQUALS] ++ print_S v ++ [CR; LF] ++ R) Hlk Hfk) as Hck.
  pose proof (CopyAorW_printed v ([CR; LF] ++ R) Hlv Hfv) as Hcv.
  rewrite <- (print_S_faithful k Hfk) in Hink.
  rewrite <- (print_S_faithful v Hfv) in Hinv, Hhdv.
  assert (Hbk : print_S k ≠ []).
  { rewrite (print_S_faithful k Hfk). destruct k; [congruence|discriminate]. }
  assert (Hbv : print_S v ≠ []).
  { rewrite (print_S_faithful v Hfv). destruct v; [congruence|discriminate]. }
  destruct (print_S k) as [|a kb] eqn:Hpk; [congruence|]. clear Hbk.
  destruct (print_S v) as [|b vb] eqn:Hpv; [congruence|]. clear Hbv.
  assert (Hnk : Forall (λ c, c ≠ NUL) (a :: kb)).
  { eapply Forall_impl; [exact Hink|]. exact in_key_name_no_NUL. }
  assert (Hnv : Forall (λ c, c ≠ NUL) (b :: vb)).
  { eapply Forall_impl; [exact Hinv|]. exact in_value_no_NUL. }
  specialize (Hck Hnk). specialize (Hcv Hnv).
  pose proof (Forall_inv Hink) as Ha. pose proof (Forall_inv Hnk) as Ha0.
  pose proof (Forall_inv Hnv) as Hb0.
  destruct (in_key_name_not_blank a Ha) as [Hae Hab].
  apply Z.eqb_neq in Ha0, Hb0. cbn [hd] in Hbr, Hq, Hhdv. apply Z.eqb_neq in Hbr.
  (* the head of the loop *)
  cbn [contents_loop app deref rbind]. rewrite Ha0.
  unfold IniCacheSkipWhitespace. rewrite skip_while_stop by exact Hab.
  cbn [rbind deref]. rewrite Ha0. cbv iota. cbn [rbind deref]. rewrite Hbr.
  (* the name *)
  unfold IniCacheGetKeyName. cbn [IniCacheGetKeyName_loop deref rbind]. rewrite Ha0.
  rewrite skip_while_stop by exact Hae. cbn [rbind deref]. rewrite Ha0.
  change (a :: kb ++ EQUALS :: b :: vb ++ CR :: LF :: R)
    with ((a :: kb) ++ EQUALS :: (b :: vb) ++ CR :: LF :: R).
  rewrite count_while_app by (try exact Hink; lia).
  rewrite count_while_stop by reflexivity. cbn [rbind deref].
  change (EQUALS =? SEMICOLON) with false. cbv iota. cbn [rbind].
  (* the value *)
  unfold IniCacheGetKeyValue. rewrite skip_while_stop by reflexivity.
  cbn [rbind deref]. change (neq EQUALS EQUALS) with false. cbv iota.
  unfold incr. cbn [tl app]. rewrite skip_while_stop by exact Hhdv. cbn [rbind deref].
  replace ((b =? DQUOTE) && String) with false.
  2:{ symmetry. destruct String; [|apply andb_false_r]. rewrite andb_true_r.
      apply Z.eqb_neq. apply Hq. reflexivity. }
  change (b :: vb ++ CR :: LF :: R) with ((b :: vb) ++ CR :: LF :: R).
  rewrite count_while_app by (try exact Hinv; lia).
  rewrite count_while_stop by reflexivity. cbn [rbind deref].
  change (CR =? CR) with true. cbv iota. cbn [tl rbind deref].
  change (LF =? LF) with true. cbv iota. cbn [tl rbind].
  (* the store *)
  unfold contents_AddKey. rewrite !Z.add_0_l.
  replace (Z.of_nat (length (a :: kb)) =? 0) with false
    by (symmetry; apply Z.eqb_neq; cbn [length]; lia).
  replace (Z.of_nat (length (b :: vb)) =? 0) with false
    by (symmetry; apply Z.eqb_neq; cbn [length]; lia).
  cbn [orb].
  change ([EQUALS] ++ (b :: vb) ++ [CR; LF] ++ R)
    with (EQUALS :: (b :: vb) ++ CR :: LF :: R) in Hck.
  change ([CR; LF] ++ R) with (CR :: LF :: R) in Hcv.
  change ((a :: kb) ++ EQUALS :: (b :: vb) ++ CR :: LF :: R)
    with (a :: kb ++ EQUALS :: (b :: vb) ++ CR :: LF :: R) in Hck.
  rewrite Hck. cbn [rbind]. rewrite Hcv. cbn [rbind]. reflexivity.
Qed.

Lemma find_index_fresh {B} (l : list (WSTR * B)) Name :
  folded Name ∉ map (λ s, folded (fst s)) l →
  find_index (λ s, bears Name (fst s)) l = None.
Proof.
  induction l as [|x l IH]; intros Hn; [reflexivity|]. simpl.
  cbn [map] in Hn. apply not_elem_of_cons in Hn as [Hx Hl].
  unfold bears at 1. destruct (_wcsicmp x.1 Name =? 0) eqn:Hc.
  - apply Z.eqb_eq, _wcsicmp_folded in Hc. exfalso. apply Hx. symmetry. exact Hc.
  - rewrite (IH Hl). reflexivity.
Qed.

Lemma set_key_fresh (d : list (WSTR * list (WSTR * WSTR))) i (n : WSTR)
    (es : list (WSTR * WSTR)) (k v : WSTR) :
  d !! i = Some (n, es) → folded k ∉ map (λ e, folded (fst e)) es →
  set_key d i k v = <[i := (n, es ++ [(k, v)])]> d.
Proof.
  intros Hi Hk. unfold set_key. apply list_eq. intros j.
  destruct (decide (j = i)) as [->|Hne].
  - rewrite list_lookup_alter_eq, Hi. cbn [fmap option_fmap option_map fst snd].
    rewrite (set_value_new es k v (find_index_fresh es k Hk)).
    rewrite list_lookup_insert_eq by (eapply lookup_lt_Some; exact Hi). reflexivity.
  - rewrite list_lookup_alter_ne, list_lookup_insert_ne by congruence. reflexivity.
Qed.

(** The lines of the keys of a section, read one per turn. *)
Lemma contents_loop_keys String (es : list (WSTR * WSTR)) :
  ∀ t (d : list (WSTR * list (WSTR * WSTR))) i (n : WSTR) (es0 : list (WSTR * WSTR)) R,
  d !! i = Some (n, es0) →
  Forall (key_line_ok String) es →
  NoDup (map (λ e, folded (fst e)) (es0 ++ es)) →
  Z.of_nat (length (concat (map render_key es))) < 2 ^ 32 →
  contents_loop (length es + t) String d (Some i) (Some (concat (map render_key es) ++ R))
  = contents_loop t String (<[i := (n, es0 ++ es)]> d) (Some i) (Some R).
Proof.
  induction es as [|[k v] es IH]; intros t d i n es0 R Hi Hok Hnd Hlen.
  - cbn [length Nat.add map concat app]. rewrite app_nil_r.
    rewrite list_insert_id by exact Hi. reflexivity.
  - apply Forall_cons in Hok as [(Hk & Hv & Hbr & Hq) Hok].
    cbn [fst snd] in Hk, Hv, Hbr, Hq.
    cbn [map concat] in Hlen |- *. unfold render_key at 1 in Hlen. unfold render_key at 1.
    cbn [fst snd] in Hlen |- *. rewrite !length_app in Hlen.
    rewrite <- !app_assoc. cbn [length Nat.add].
    rewrite contents_loop_key by (try assumption; cbn [length] in Hlen; lia).
    assert (Hfresh : folded k ∉ map (λ e, folded (fst e)) es0).
    { rewrite map_app in Hnd. apply NoDup_app in Hnd as (_ & Hd & _).
      intros Hin. apply (Hd _ Hin). cbn [map fst]. left. }
    rewrite (set_key_fresh d i n es0 k v Hi Hfresh).
    assert (Hlt : (i < length d)%nat) by (eapply lookup_lt_Some; exact Hi).
    rewrite (IH t _ i n (es0 ++ [(k, v)]) R).
    + rewrite list_insert_insert_eq, <- app_assoc. reflexivity.
    + apply list_lookup_insert_eq. exact Hlt.
    + exact Hok.
    + rewrite <- app_assoc. exact Hnd.
    + lia.
Qed.

(** The text of a section whose name is new, read in one turn for the
    header and one per key. *)
Lemma contents_loop_section t String (d1 : list (WSTR * list (WSTR * WSTR))) cur pre
    (s : WSTR * list (WSTR * WSTR)) R :
  Forall (λ c, is_blank c = true) pre →
  section_ok String s →
  folded (fst s) ∉ map (λ s, folded (fst s)) d1 →
  Z.of_nat (length (render_section s)) < 2 ^ 32 →
  contents_loop (S (length (snd s) + t)) String d1 cur (Some (pre ++ render_section s ++ R))
  = contents_loop t String (d1 ++ [s]) (Some (length d1)) (Some R).
Proof.
  intros Hpre (Hn & Hks & Hnd) Hfresh Hlen. destruct s as [n es]. cbn [fst snd] in *.
  unfold render_section in *. cbn [fst snd] in *. rewrite !length_app in Hlen.
  cbn [length] in Hlen. rewrite <- !app_assoc.
  rewrite contents_loop_header
    by (try assumption; try lia; apply find_index_fresh; exact Hfresh).
  rewrite (contents_loop_keys String es t (d1 ++ [(n, [])]) (length d1) n [] R).
  - rewrite insert_app_r_alt by lia. rewrite Nat.sub_diag. reflexivity.
  - rewrite lookup_app_r by lia. rewrite Nat.sub_diag. reflexivity.
  - exact Hks.
  - exact Hnd.
  - lia.
Qed.

Lemma render_tail (s : WSTR * list (WSTR * WSTR)) d :
  render (s :: d) ++ [NUL] = render_section s ++ tail_text d.
Proof.
  destruct d; cbn [render tail_text].
  - rewrite app_nil_r. reflexivity.
  - rewrite <- !app_assoc. reflexivity.
Qed.

(** The sections that follow, each after an empty line. *)
Lemma contents_loop_sections String (d2 : list (WSTR * list (WSTR * WSTR))) : ∀ t d1 cur,
  canonical String (d1 ++ d2) →
  Forall (λ s, Z.of_nat (length (render_section s)) < 2 ^ 32) d2 →
  contents_loop (lines d2 + t) String d1 cur (Some (tail_text d2)) = Ok (d1 ++ d2).
Proof.
  induction d2 as [|s d2 IH]; intros t d1 cur [Hok Hnd] Hlen.
  - rewrite app_nil_r. destruct (lines [] + t)%nat; reflexivity.
  - apply Forall_cons in Hlen as [Hs Hlen].
    change (tail_text (s :: d2)) with ([CR; LF] ++ render (s :: d2) ++ [NUL]).
    rewrite render_tail.
    replace (lines (s :: d2) + t)%nat with (S (length (snd s) + (lines d2 + t)))
      by (unfold lines; cbn [length map concat]; rewrite length_app; lia).
    rewrite contents_loop_section.
    + rewrite IH; [rewrite <- app_assoc; reflexivity| |exact Hlen].
      rewrite <- app_assoc. split; assumption.
    + repeat constructor.
    + apply Forall_app in Hok as [_ Hok]. apply Forall_cons in Hok as [Hok _]. exact Hok.
    + rewrite map_app in Hnd. apply NoDup_app in Hnd as (_ & Hd & _).
      intros Hin. apply (Hd _ Hin). cbn [map]. left.
    + exact Hs.
Qed.

Lemma length_concat_render_key (es : list (WSTR * WSTR)) :
  (length es ≤ length (concat (map render_key es)))%nat.
Proof.
  induction es as [|e es IH]; [reflexivity|]. cbn [map concat length].
  unfold render_key at 1. rewrite !length_app. cbn [length]. lia.
Qed.

Lemma lines_le_tail (d : list (WSTR * list (WSTR * WSTR))) : (lines d ≤ length (tail_text d))%nat.
Proof.
  assert (Hr : (lines d ≤ length (render d))%nat).
  { induction d as [|[n es] d IH]; [reflexivity|].
    unfold lines in *. cbn [length map concat snd render]. rewrite !length_app.
    unfold render_section. cbn [fst snd]. rewrite !length_app.
    pose proof (length_concat_render_key es). cbn [length].
    destruct d as [|x d]; [simpl in *; lia|]. rewrite (length_app [CR; LF]). cbn [length].
    cbn [length] in IH. lia. }
  destruct d; cbn [tail_text]; [unfold lines; cbn; lia|].
  rewrite !length_app. cbn [length]. lia.
Qed.

Lemma render_section_le (d : list (WSTR * list (WSTR * WSTR))) s :
  s ∈ d → (length (render_section s) ≤ length (render d))%nat.
Proof.
  induction d as [|x d IH]; intros Hin; [inversion Hin|].
  cbn [render]. rewrite length_app. apply elem_of_cons in Hin as [->|Hin]; [lia|].
  specialize (IH Hin). destruct d; [inversion Hin|]. rewrite length_app. lia.
Qed.

(** The loader reads the text of canonical contents back as they are. *)
Lemma loaded_render String (d : list (WSTR * list (WSTR * WSTR))) :
  canonical String d → Z.of_nat (length (render d)) < 2 ^ 32 →
  loaded (render d ++ [NUL]) String = Ok d.
Proof.
  intros Hc Hlen.
  assert (Hall : Forall (λ s, Z.of_nat (length (render_section s)) < 2 ^ 32) d).
  { apply Forall_forall. intros s Hs. pose proof (render_section_le d s Hs). lia. }
  destruct d as [|s d]; [reflexivity|].
  unfold loaded. rewrite render_tail.
  apply Forall_cons in Hall as [Hs Hall].
  pose proof (lines_le_tail d) as Hl.
  pose proof (length_concat_render_key (snd s)) as Hk.
  assert (Hfuel : ∃ t, S (length (render_section s ++ tail_text d))
                       = S (length (snd s) + (lines d + t))).
  { exists (length (render_section s ++ tail_text d) - length (snd s) - lines d)%nat.
    rewrite length_app. unfold render_section. rewrite !length_app. cbn [length]. lia. }
  destruct Hfuel as [t ->].
  change (render_section s ++ tail_text d) with ([] ++ render_section s ++ tail_text d).
  rewrite contents_loop_section.
  - apply (contents_loop_sections String d t [s]); assumption.
  - constructor.
  - destruct Hc as [Hok _]. apply Forall_cons in Hok as [Hok _]. exact Hok.
  - cbn [map]. apply not_elem_of_nil.
  - exact Hs.
Qed.

End Reread.

(** ** What the scanner delivers *)

Section Scanned.
Context `{CodePage}.

Lemma skip_while_spec p Ptr Ptr' :
  skip_while p Ptr = Ok Ptr' →
  ∃ pre, Ptr = pre ++ Ptr' ∧ Forall (λ c, p c = true) pre ∧
         p (hd NUL Ptr') = false ∧ Ptr' ≠ [].
Proof.
  induction Ptr as [|c Ptr IH]; simpl; [discriminate|].
  destruct (p c) eqn:Hc.
  - intros Hs. destruct (IH Hs) as (pre & -> & Hpre & Hhd & Hne).
    exists (c :: pre). repeat apply conj; auto.
  - intros Heq. injection Heq as <-. exists []. repeat apply conj; auto; try discriminate.
Qed.

Lemma ULONG_succ_range z : 0 <= z → 0 <= ULONG (z + 1) <= z + 1.
Proof.
  intros Hz. unfold ULONG. split.
  - apply Z.mod_pos_bound. lia.
  - apply Z.mod_le; lia.
Qed.

Lemma count_while_spec p Ptr : ∀ Size0 Size Ptr',
  count_while p Size0 Ptr = Ok (Size, Ptr') → 0 <= Size0 →
  ∃ pre, Ptr = pre ++ Ptr' ∧ Forall (λ c, p c = true) pre ∧
         0 <= Size <= Size0 + Z.of_nat (length pre) ∧ Ptr' ≠ [].
Proof.
  induction Ptr as [|c Ptr IH]; intros Size0 Size Ptr'; simpl; [discriminate|].
  destruct (p c) eqn:Hc.
  - intros Hs H0. pose proof (ULONG_succ_range Size0 H0) as Hu.
    destruct (IH _ _ _ Hs ltac:(lia)) as (pre & -> & Hpre & Hsz & Hne).
    exists (c :: pre). repeat apply conj; auto; cbn [length]; lia.
  - intros Heq H0. injection Heq as <- <-. exists []. repeat apply conj; auto; try discriminate.
    cbn [length]. lia.
Qed.

Lemma wcsncpy_cstring k : ∀ Ptr r, wcsncpy k Ptr = Ok r → r = cstring (take k Ptr).
Proof.
  induction k as [|k IH]; intros Ptr r; simpl.
  - intros Heq. injection Heq as <-. reflexivity.
  - destruct Ptr as [|c Ptr]; [discriminate|]. simpl.
    destruct (c =? NUL); [intros Heq; injection Heq as <-; reflexivity|].
    destruct (wcsncpy k Ptr) as [r'| |] eqn:Hr; simpl; try discriminate.
    intros Heq. injection Heq as <-. rewrite (IH _ _ Hr). reflexivity.
Qed.

Lemma Forall_cstring (Q : Z → Prop) s : Forall Q s → Forall Q (cstring s).
Proof.
  induction 1 as [|c s Hc _ IH]; simpl; [constructor|].
  destruct (c =? NUL); constructor; assumption.
Qed.

(** The wide copy of convertible characters without NUL. *)
Lemma faithful_copy r :
  Forall convertible r → Forall (λ c, c ≠ NUL) r →
  cstring (map AnsiToUnicode r) = map AnsiToUnicode r ∧
  map UnicodeToAnsi (map AnsiToUnicode r) = r.
Proof.
  intros Hc Hn. induction Hc as [|c r [Hback Hnul] _ IH]; [split; reflexivity|].
  apply Forall_cons in Hn as [Hc0 Hn]. destruct (IH Hn) as [IH1 IH2].
  cbn [map cstring]. destruct (AnsiToUnicode c =? NUL) eqn:Hz.
  - apply Z.eqb_eq in Hz. exfalso. apply Hc0, Hnul, Hz.
  - rewrite IH1, Hback, IH2. split; reflexivity.
Qed.

Lemma CopyAorW_spec Ptr L w :
  CopyAorW Ptr L false = Ok w →
  w = cstring (map AnsiToUnicode (cstring (take (Z.to_nat L) Ptr))).
Proof.
  intros Hw. apply CopyAorW_Ok in Hw. revert Hw.
  destruct (wcsncpy _ Ptr) as [r| |] eqn:Hr; simpl; try discriminate.
  intros Heq. injection Heq as <-. rewrite (wcsncpy_cstring _ _ _ Hr). reflexivity.
Qed.

Lemma CopyAorW_faithful Ptr L w :
  Forall convertible Ptr → CopyAorW Ptr L false = Ok w → faithful w.
Proof.
  intros Hc Hw. apply CopyAorW_spec in Hw. subst w.
  set (r := cstring (take (Z.to_nat L) Ptr)).
  assert (Hr : Forall convertible r) by (apply Forall_cstring, Forall_take, Hc).
  destruct (faithful_copy r Hr (cstring_no_NUL _)) as [H1 H2].
  unfold faithful. rewrite !H1, H2. split; reflexivity.
Qed.

(** The copy of a name or a value whose size was counted by the scanner. *)
Lemma CopyAorW_scanned (p : Z → bool) NP Size rest w :
  Forall convertible NP → (∀ c, p c = true → c ≠ NUL) →
  count_while p 0 NP = Ok (Size, rest) → Size ≠ 0 →
  CopyAorW NP Size false = Ok w →
  faithful w ∧ w ≠ [] ∧ Forall (λ c, p c = true) (map UnicodeToAnsi w) ∧
  hd NUL (map UnicodeToAnsi w) = hd NUL NP.
Proof.
  intros Hc Hp Hcount Hsz Hw. pose proof (CopyAorW_faithful _ _ _ Hc Hw) as Hf.
  apply CopyAorW_spec in Hw.
  destruct (count_while_spec _ _ _ _ _ Hcount ltac:(lia)) as (pre & -> & Hpre & Hrange & _).
  assert (Hk : (0 < Z.to_nat Size ≤ length pre)%nat) by lia.
  rewrite take_app_le in Hw by lia.
  assert (Hpk : Forall (λ c, p c = true) (take (Z.to_nat Size) pre)) by apply Forall_take, Hpre.
  assert (Hnk : Forall (λ c, c ≠ NUL) (take (Z.to_nat Size) pre)).
  { eapply Forall_impl; [exact Hpk|exact Hp]. }
  rewrite (cstring_id _ Hnk) in Hw.
  assert (Hck : Forall convertible (take (Z.to_nat Size) pre)).
  { apply Forall_take. apply Forall_app in Hc as [Hc _]. exact Hc. }
  destruct (faithful_copy _ Hck Hnk) as [H1 H2]. rewrite H1 in Hw. subst w.
  rewrite H2. split; [exact Hf|]. split; [|split; [exact Hpk|]].
  - destruct pre as [|c pre]; [cbn [length] in Hk; lia|].
    destruct (Z.to_nat Size); [lia|]. cbn. discriminate.
  - destruct pre as [|c pre]; [cbn [length] in Hk; lia|].
    destruct (Z.to_nat Size); [lia|]. reflexivity.
Qed.

Lemma rbind_Ok {A B} (r : result A) (k : A → result B) b :
  rbind r k = Ok b → ∃ a, r = Ok a ∧ k a = Ok b.
Proof. destruct r as [a| |]; simpl; try discriminate. intros Hk. exists a. auto. Qed.

Lemma Forall_incr (Q : Z → Prop) Ptr : Forall Q Ptr → Forall Q (incr Ptr).
Proof. intros HQ. destruct HQ; [constructor|assumption]. Qed.

Lemma skip_while_Forall (Q : Z → Prop) p Ptr Ptr' :
  skip_while p Ptr = Ok Ptr' → Forall Q Ptr → Forall Q Ptr'.
Proof.
  intros Hs HQ. destruct (skip_while_spec _ _ _ Hs) as (pre & -> & _).
  apply Forall_app in HQ as [_ HQ]. exact HQ.
Qed.

Lemma count_while_Forall (Q : Z → Prop) p Size0 Ptr Size Ptr' :
  count_while p Size0 Ptr = Ok (Size, Ptr') → Forall Q Ptr → Forall Q Ptr'.
Proof.
  revert Size0. induction Ptr as [|c Ptr IH]; intros Size0; simpl; [discriminate|].
  destruct (p c).
  - intros Hs HQ. apply Forall_cons in HQ as [_ HQ]. eapply IH; eassumption.
  - intros Heq. injection Heq as <- <-. auto.
Qed.

Section Pointers.
Variable Q : Z → Prop.

Lemma IniCacheSkipWhitespace_spec Ptr Ptr' :
  IniCacheSkipWhitespace Ptr = Ok (Some Ptr') → Forall Q Ptr → Forall Q Ptr'.
Proof.
  unfold IniCacheSkipWhitespace. intros Hs HQ.
  apply rbind_Ok in Hs as (P1 & H1 & Hs). apply rbind_Ok in Hs as (c & _ & Hs).
  destruct (c =? NUL); [discriminate|]. injection Hs as <-.
  eapply skip_while_Forall; eassumption.
Qed.

Lemma IniCacheSkipToNextSection_loop_spec turns : ∀ Ptr Ptr',
  IniCacheSkipToNextSection_loop turns Ptr = Ok Ptr' → Forall Q Ptr → Forall Q Ptr'.
Proof.
  induction turns as [|turns IH]; intros Ptr Ptr'; simpl; [discriminate|].
  intros Hs HQ. apply rbind_Ok in Hs as (c & _ & Hs).
  destruct (neq c NUL && neq c LBRACKET).
  - apply rbind_Ok in Hs as (P1 & H1 & Hs). apply (IH _ _ Hs).
    apply Forall_incr. eapply skip_while_Forall; eassumption.
  - injection Hs as <-. exact HQ.
Qed.

Lemma IniCacheSkipToNextSection_spec Ptr Ptr' :
  IniCacheSkipToNextSection Ptr = Ok (Some Ptr') → Forall Q Ptr → Forall Q Ptr'.
Proof.
  unfold IniCacheSkipToNextSection. intros Hs HQ.
  apply rbind_Ok in Hs as (P1 & H1 & Hs). apply rbind_Ok in Hs as (c & _ & Hs).
  destruct (c =? NUL); [discriminate|]. injection Hs as <-.
  eapply IniCacheSkipToNextSection_loop_spec; eassumption.
Qed.

Lemma IniCacheGetSectionName_spec Ptr Ptr' NamePtr Size :
  IniCacheGetSectionName Ptr = Ok (Ptr', NamePtr, Size) → Forall Q Ptr →
  Forall Q Ptr' ∧
  ∃ np rest, NamePtr = Some np ∧ Forall Q np ∧ is_blank (hd NUL np) = false ∧
             count_while in_section_name 0 np = Ok (Size, rest).
Proof.
  unfold IniCacheGetSectionName. intros Hs HQ.
  apply rbind_Ok in Hs as (P1 & H1 & Hs). apply rbind_Ok in Hs as ([Size1 P2] & H2 & Hs).
  cbn beta iota in Hs. apply rbind_Ok in Hs as (P3 & H3 & Hs).
  injection Hs as <- <- <-.
  pose proof (skip_while_Forall Q _ _ _ H1 HQ) as HQ1.
  pose proof (count_while_Forall Q _ _ _ _ _ H2 HQ1) as HQ2.
  pose proof (skip_while_Forall Q _ _ _ H3 (Forall_incr _ _ HQ2)) as HQ3.
  split; [apply Forall_incr, HQ3|].
  destruct (skip_while_spec _ _ _ H1) as (_ & _ & _ & Hb & _).
  exists P1, P2. auto.
Qed.

Lemma IniCacheGetKeyName_loop_spec turns : ∀ Ptr NP0 S0 Ptr' NamePtr Size,
  IniCacheGetKeyName_loop turns Ptr NP0 S0 = Ok (Ptr', NamePtr, Size) →
  Forall Q Ptr → counted in_key_name Q NP0 S0 →
  Forall Q Ptr' ∧ counted in_key_name Q NamePtr Size.
Proof.
  induction turns as [|turns IH]; intros Ptr NP0 S0 Ptr' NamePtr Size; simpl; [discriminate|].
  intros Hs HQ H0. apply rbind_Ok in Hs as (c & _ & Hs).
  destruct (c =? NUL); [injection Hs as <- <- <-; auto|].
  apply rbind_Ok in Hs as (P1 & H1 & Hs). apply rbind_Ok in Hs as (c1 & _ & Hs).
  pose proof (skip_while_Forall Q _ _ _ H1 HQ) as HQ1.
  destruct (c1 =? NUL); [apply (IH _ _ _ _ _ _ Hs HQ1); left; reflexivity|].
  apply rbind_Ok in Hs as ([Size1 P2] & H2 & Hs). cbn beta iota in Hs.
  apply rbind_Ok in Hs as (c2 & _ & Hs).
  pose proof (count_while_Forall Q _ _ _ _ _ H2 HQ1) as HQ2.
  destruct (c2 =? SEMICOLON).
  - apply rbind_Ok in Hs as (P3 & H3 & Hs).
    apply (IH _ _ _ _ _ _ Hs); [|left; reflexivity].
    eapply skip_while_Forall; eassumption.
  - injection Hs as <- <- <-. split; [exact HQ2|]. right. exists P1, P2. auto.
Qed.

Lemma IniCacheGetKeyName_spec Ptr Ptr' NamePtr Size :
  IniCacheGetKeyName (Some Ptr) = Ok (Ptr', NamePtr, Size) → Forall Q Ptr →
  (∃ p, Ptr' = Some p ∧ Forall Q p) ∧ counted in_key_name Q NamePtr Size.
Proof.
  unfold IniCacheGetKeyName. intros Hs HQ.
  apply rbind_Ok in Hs as ([[P1 NP] Size1] & H1 & Hs). cbn beta iota in Hs.
  injection Hs as <- <- <-.
  destruct (IniCacheGetKeyName_loop_spec _ _ _ _ _ _ _ H1 HQ) as [HQ1 Hc];
    [left; reflexivity|].
  split; [exists P1; auto|exact Hc].
Qed.

Lemma IniCacheGetKeyValue_spec Ptr String Ptr' DataPtr Size :
  IniCacheGetKeyValue (Some Ptr) String = Ok (Ptr', DataPtr, Size) → Forall Q Ptr →
  (∀ p, Ptr' = Some p → Forall Q p) ∧
  (Size = 0 ∨ ∃ dp, DataPtr = Some dp ∧ Forall Q dp ∧
     (String = false → is_blank (hd NUL dp) = false ∧
                       ∃ rest, count_while in_value 0 dp = Ok (Size, rest))).
Proof.
  unfold IniCacheGetKeyValue. intros Hs HQ.
  apply rbind_Ok in Hs as (P1 & H1 & Hs). apply rbind_Ok in Hs as (c & _ & Hs).
  destruct (neq c EQUALS).
  { injection Hs as <- <- <-. split; [discriminate|left; reflexivity]. }
  apply rbind_Ok in Hs as (P2 & H2 & Hs). apply rbind_Ok in Hs as (c2 & _ & Hs).
  apply rbind_Ok in Hs as ([[DP Size1] P3] & H3 & Hs). cbn beta iota in Hs.
  apply rbind_Ok in Hs as (c3 & _ & Hs). apply rbind_Ok in Hs as (c4 & _ & Hs).
  injection Hs as <- <- <-.
  pose proof (skip_while_Forall Q _ _ _ H1 HQ) as HQ1.
  pose proof (skip_while_Forall Q _ _ _ H2 (Forall_incr _ _ HQ1)) as HQ2.
  destruct (skip_while_spec _ _ _ H2) as (_ & _ & _ & Hb & _).
  assert (H3' : Forall Q DP ∧ Forall Q P3 ∧
                (String = false → DP = P2 ∧ ∃ rest, count_while in_value 0 DP
                                                   = Ok (Size1, rest))).
  { destruct ((c2 =? DQUOTE) && String) eqn:Hq.
    - apply rbind_Ok in H3 as ([Size2 P4] & H4 & H3). cbn beta iota in H3.
      apply rbind_Ok in H3 as (P5 & H5 & H3). injection H3 as <- <- <-.
      pose proof (Forall_incr _ _ HQ2) as HQd.
      pose proof (count_while_Forall Q _ _ _ _ _ H4 HQd) as HQ4.
      pose proof (skip_while_Forall Q _ _ _ H5 (Forall_incr _ _ HQ4)) as HQ5.
      repeat apply conj; auto. intros ->. rewrite andb_false_r in Hq. discriminate.
    - apply rbind_Ok in H3 as ([Size2 P4] & H4 & H3). cbn beta iota in H3.
      injection H3 as <- <- <-.
      pose proof (count_while_Forall Q _ _ _ _ _ H4 HQ2) as HQ4.
      repeat apply conj; auto. intros _. split; [reflexivity|]. exists P4. exact H4. }
  destruct H3' as (HQd & HQ3 & Hplain). split.
  - intros p Hp. injection Hp as <-.
    assert (HQ3' : Forall Q (if c3 =? CR then incr P3 else P3))
      by (destruct (c3 =? CR); [apply Forall_incr|]; exact HQ3).
    destruct (c4 =? LF); [apply Forall_incr|]; exact HQ3'.
  - right. exists DP. repeat apply conj; auto.
    intros Hstr. destruct (Hplain Hstr) as [-> Hc]. split; [exact Hb|exact Hc].
Qed.

End Pointers.

(** *** What the loader stores *)

Lemma find_index_None_fresh {B} (l : list (WSTR * B)) Name :
  find_index (λ s, bears Name (fst s)) l = None →
  folded Name ∉ map (λ s, folded (fst s)) l.
Proof.
  intros Hf. apply find_index_None_Forall in Hf.
  induction Hf as [|x l Hx _ IH]; cbn [map]; [apply not_elem_of_nil|].
  apply not_elem_of_cons. split; [|exact IH].
  unfold bears in Hx. apply Z.eqb_neq in Hx. intros Heq. apply Hx.
  apply _wcsicmp_folded. symmetry. exact Heq.
Qed.

Lemma set_value_cases (es : list (WSTR * WSTR)) k v :
  (∃ j e, es !! j = Some e ∧ set_value es k v = <[j := (fst e, v)]> es) ∨
  ((folded k ∉ map (λ e, folded (fst e)) es) ∧ set_value es k v = es ++ [(k, v)]).
Proof.
  destruct (find_index (λ e, bears k (fst e)) es) as [j|] eqn:Hf.
  - left. destruct (find_index_Some_first _ _ _ Hf) as (e & He & _).
    exists j, e. split; [exact He|]. apply set_value_found; assumption.
  - right. split; [apply find_index_None_fresh, Hf|apply set_value_new, Hf].
Qed.

Lemma set_value_Forall (P : WSTR → WSTR → Prop) (es : list (WSTR * WSTR)) k v :
  (∀ k', P k' v) ∨ (P k v ∧ (∀ k' v', P k' v' → P k' v)) →
  Forall (λ e, P (fst e) (snd e)) es →
  Forall (λ e, P (fst e) (snd e)) (set_value es k v).
Proof.
  intros Hv. induction 1 as [|e es He Hes IH]; cbn [set_value].
  - constructor; [|constructor]. destruct Hv as [Hv|[Hv _]]; [apply Hv|exact Hv].
  - destruct (bears k (fst e)); constructor; auto.
    destruct Hv as [Hv|[_ Hv]]; [apply Hv|eapply Hv, He].
Qed.

Lemma set_value_NoDup (es : list (WSTR * WSTR)) k v :
  NoDup (map (λ e, folded (fst e)) es) →
  NoDup (map (λ e, folded (fst e)) (set_value es k v)).
Proof.
  intros Hnd. destruct (set_value_cases es k v) as [(j & e & He & ->)|[Hfresh ->]].
  - change (map (λ e, folded (fst e))) with (fmap (M := list) (λ e : WSTR * WSTR, folded (fst e))).
    rewrite list_fmap_insert. cbn [fst]. rewrite list_insert_id; [exact Hnd|].
    rewrite list_lookup_fmap, He. reflexivity.
  - rewrite map_app. apply NoDup_app. repeat apply conj; auto.
    + intros x Hx Hin. cbn [map] in Hin. apply list_elem_of_singleton in Hin. subst x.
      apply Hfresh, Hx.
    + cbn [map]. apply NoDup_singleton.
Qed.

Lemma names_ok_set_key (d : list (WSTR * list (WSTR * WSTR))) i k v :
  names_ok d → key_name_ok k → faithful v → names_ok (set_key d i k v).
Proof.
  intros (Hs & Hnd & Hk) Hkn Hv. unfold set_key.
  assert (Hnames : ∀ j (d : list (WSTR * list (WSTR * WSTR))),
             map (λ s, fst s) (alter (λ s, (fst s, set_value (snd s) k v)) j d)
             = map (λ s, fst s) d).
  { intros j d0. revert j. induction d0 as [|x d0 IH]; intros [|j]; cbn; try reflexivity.
    f_equal. apply IH. }
  repeat apply conj.
  - apply Forall_alter; [exact Hs|]. intros x _ Hx. exact Hx.
  - rewrite <- (map_map fst folded) in Hnd |- *. rewrite Hnames. exact Hnd.
  - apply Forall_alter; [exact Hk|]. intros x _ [Hx1 Hx2]. cbn [snd]. split.
    + apply (set_value_Forall (λ k' v', key_name_ok k' ∧ faithful v')); [|exact Hx1].
      right. split; [auto|]. intros k' v' [Hk' _]. auto.
    + apply set_value_NoDup, Hx2.
Qed.

Lemma values_ok_set_key (d : list (WSTR * list (WSTR * WSTR))) i k v :
  values_ok d → value_ok v → values_ok (set_key d i k v).
Proof.
  intros Hd Hv. unfold set_key, values_ok. apply Forall_alter; [exact Hd|].
  intros x _ Hx. cbn [snd].
  apply (set_value_Forall (λ _ v', value_ok v')); [left; auto|exact Hx].
Qed.

Lemma contents_AddSection_ok d np Size rest d' sec :
  contents_AddSection d (Some np) Size = Ok (d', sec) →
  Forall convertible np → is_blank (hd NUL np) = false →
  count_while in_section_name 0 np = Ok (Size, rest) →
  names_ok d → names_ok d' ∧ (values_ok d → values_ok d').
Proof.
  unfold contents_AddSection. intros Hs HQ Hb Hc Hd.
  destruct (Size =? 0) eqn:Hz; [injection Hs as <- <-; auto|]. apply Z.eqb_neq in Hz.
  apply rbind_Ok in Hs as (w & Hw & Hs). injection Hs as <- <-.
  destruct (CopyAorW_scanned in_section_name _ _ _ _ HQ in_section_name_no_NUL Hc Hz Hw)
    as (Hf & Hne & Hin & Hhd).
  unfold add_section. destruct (find_index _ d) as [j|] eqn:Hfind; cbn [fst]; [auto|].
  destruct Hd as (Hs & Hnd & Hk). split.
  - repeat apply conj.
    + apply Forall_app. split; [exact Hs|]. constructor; [|constructor].
      cbn [fst]. refine (conj Hf (conj Hne (conj Hin _))). rewrite Hhd. exact Hb.
    + rewrite map_app. apply NoDup_app. repeat apply conj; auto.
      * intros x Hx Hin'. cbn [map fst] in Hin'. apply list_elem_of_singleton in Hin'. subst x.
        exact (find_index_None_fresh _ _ Hfind Hx).
      * cbn [map]. apply NoDup_singleton.
    + apply Forall_app. split; [exact Hk|]. constructor; [|constructor].
      cbn [snd map]. split; constructor.
  - intros Hv. apply Forall_app. split; [exact Hv|]. repeat constructor.
Qed.

Lemma contents_AddKey_ok String d i NamePtr NameSize DataPtr DataSize d' :
  contents_AddKey d i NamePtr NameSize DataPtr DataSize = Ok d' →
  counted in_key_name convertible NamePtr NameSize →
  (DataSize = 0 ∨ ∃ dp, DataPtr = Some dp ∧ Forall convertible dp ∧
     (String = false → is_blank (hd NUL dp) = false ∧
                       ∃ rest, count_while in_value 0 dp = Ok (DataSize, rest))) →
  names_ok d → (String = false → values_ok d) →
  names_ok d' ∧ (String = false → values_ok d').
Proof.
  unfold contents_AddKey. intros Hs Hn Hv Hd Hvd.
  destruct NamePtr as [np|]; [|injection Hs as <-; auto].
  destruct DataPtr as [dp|]; [|injection Hs as <-; auto].
  destruct (NameSize =? 0) eqn:Hzn; [injection Hs as <-; auto|].
  destruct (DataSize =? 0) eqn:Hzd; [injection Hs as <-; auto|]. cbn [orb] in Hs.
  apply Z.eqb_neq in Hzn, Hzd.
  destruct Hn as [Hn|(np' & rest & Heq & HQn & Hcn)]; [contradiction|]. injection Heq as <-.
  destruct Hv as [Hv|(dp' & Heq & HQd & Hplain)]; [contradiction|]. injection Heq as <-.
  apply rbind_Ok in Hs as (k & Hk & Hs). apply rbind_Ok in Hs as (v & Hw & Hs).
  injection Hs as <-.
  destruct (CopyAorW_scanned in_key_name _ _ _ _ HQn in_key_name_no_NUL Hcn Hzn Hk)
    as (Hfk & Hnek & Hink & _).
  pose proof (CopyAorW_faithful _ _ _ HQd Hw) as Hfv. split.
  - apply names_ok_set_key; auto. exact (conj Hfk (conj Hnek Hink)).
  - intros Hstr. destruct (Hplain Hstr) as (Hb & rest' & Hcv).
    destruct (CopyAorW_scanned in_value _ _ _ _ HQd in_value_no_NUL Hcv Hzd Hw)
      as (_ & Hnev & Hinv & Hhd).
    apply values_ok_set_key; auto. refine (conj Hfv (conj Hnev (conj Hinv _))).
    rewrite Hhd. exact Hb.
Qed.

(** Every load gives names as the scanner delivers them, distinct within
    their list, and faithful values; outside the quoted mode also values as
    the scanner delivers them. *)
Lemma contents_loop_ok String turns : ∀ d cur Ptr d',
  contents_loop turns String d cur Ptr = Ok d' →
  (∀ p, Ptr = Some p → Forall convertible p) →
  names_ok d → (String = false → values_ok d) →
  names_ok d' ∧ (String = false → values_ok d').
Proof.
  induction turns as [|turns IH]; intros d cur Ptr d' Hs HQ Hd Hv.
  - destruct Ptr as [Ptr|]; cbn [contents_loop] in Hs; [|injection Hs as <-; auto].
    apply rbind_Ok in Hs as (c & _ & Hs).
    destruct (c =? NUL); [injection Hs as <-; auto|discriminate].
  - destruct Ptr as [Ptr|]; cbn [contents_loop] in Hs; [|injection Hs as <-; auto].
    specialize (HQ Ptr eq_refl).
    apply rbind_Ok in Hs as (c & _ & Hs). destruct (c =? NUL); [injection Hs as <-; auto|].
    apply rbind_Ok in Hs as (P1 & H1 & Hs). destruct P1 as [P1|].
    2:{ apply (IH _ _ _ _ Hs); auto. discriminate. }
    pose proof (IniCacheSkipWhitespace_spec _ _ _ H1 HQ) as HQ1.
    apply rbind_Ok in Hs as (c1 & _ & Hs). destruct (c1 =? LBRACKET).
    + apply rbind_Ok in Hs as ([[P2 SN] SS] & H2 & Hs). cbn beta iota in Hs.
      apply rbind_Ok in Hs as ([d1 sec] & H3 & Hs). cbn beta iota in Hs.
      destruct (IniCacheGetSectionName_spec _ _ _ _ _ H2 (Forall_incr _ _ HQ1))
        as (HQ2 & np & rest & -> & HQn & Hb & Hc).
      destruct (contents_AddSection_ok _ _ _ _ _ _ H3 HQn Hb Hc Hd) as [Hd1 Hv1].
      destruct sec as [i|].
      * apply (IH _ _ _ _ Hs); auto. intros p Hp. injection Hp as <-. exact HQ2.
      * apply rbind_Ok in Hs as (P3 & H4 & Hs). apply (IH _ _ _ _ Hs); auto.
        intros p ->. eapply IniCacheSkipToNextSection_spec; eassumption.
    + destruct cur as [i|].
      * apply rbind_Ok in Hs as ([[P2 KN] KS] & H2 & Hs). cbn beta iota in Hs.
        apply rbind_Ok in Hs as ([[P3 KV] VS] & H3 & Hs). cbn beta iota in Hs.
        apply rbind_Ok in Hs as (d1 & H4 & Hs).
        destruct (IniCacheGetKeyName_spec _ _ _ _ _ H2 HQ1) as [(p2 & -> & HQ2) Hcn].
        destruct (IniCacheGetKeyValue_spec _ _ _ _ _ _ H3 HQ2) as [HQ3 Hcv].
        destruct (contents_AddKey_ok String _ _ _ _ _ _ _ H4 Hcn Hcv Hd Hv) as [Hd1 Hv1].
        apply (IH _ _ _ _ Hs); auto.
      * apply rbind_Ok in Hs as (P3 & H4 & Hs). apply (IH _ _ _ _ Hs); auto.
        intros p ->. eapply IniCacheSkipToNextSection_spec; eassumption.
Qed.

Lemma loaded_ok FileBuffer String d :
  Forall convertible FileBuffer → loaded FileBuffer String = Ok d →
  names_ok d ∧ (String = false → values_ok d).
Proof.
  intros HQ Hl. unfold loaded in Hl. apply (contents_loop_ok _ _ _ _ _ _ Hl).
  - intros p Hp. injection Hp as <-. exact HQ.
  - repeat apply conj; constructor.
  - intros _. constructor.
Qed.

End Scanned.

(** ** Load, save, load *)

Section Roundtrip.
Context `{CodePage}.

Lemma plain_value_ok v : faithful v → plain_value v = true →
  value_ok v ∧ hd NUL (print_S v) ≠ DQUOTE.
Proof.
  intros Hf Hp. unfold plain_value in Hp. pose proof (print_S_faithful v Hf) as Hpr.
  destruct (print_S v) as [|c b] eqn:Hb; [discriminate|].
  apply andb_prop in Hp as [Hp Hq]. apply andb_prop in Hp as [Hin Hbl].
  apply negb_true_iff in Hbl. apply neq_true in Hq. split; [|exact Hq].
  refine (conj Hf (conj _ _)).
  - intros ->. discriminate Hpr.
  - rewrite <- Hpr. split; [|exact Hbl]. apply Forall_forall. intros x Hx.
    apply list_elem_of_In in Hx. exact (proj1 (forallb_forall _ _) Hin x Hx).
Qed.

Lemma keys_ok_of String (es : list (WSTR * WSTR)) :
  Forall (λ e, key_name_ok (fst e) ∧ faithful (snd e)) es →
  (String = false → Forall (λ e, value_ok (snd e)) es) →
  forallb (λ e, neq (hd NUL (print_S (fst e))) LBRACKET
                && (negb String || plain_value (snd e))) es = true →
  Forall (key_line_ok String) es.
Proof.
  induction es as [|e es IH]; intros Hn Hv Hr; [constructor|].
  apply Forall_cons in Hn as [[Hk Hf] Hn]. cbn [forallb] in Hr.
  apply andb_prop in Hr as [He Hr]. apply andb_prop in He as [Hbr Hpl].
  apply neq_true in Hbr. constructor.
  - destruct String.
    + cbn [negb orb] in Hpl. destruct (plain_value_ok _ Hf Hpl) as [Hvo Hq].
      exact (conj Hk (conj Hvo (conj Hbr (λ _, Hq)))).
    + specialize (Hv eq_refl). apply Forall_cons in Hv as [Hvo _].
      refine (conj Hk (conj Hvo (conj Hbr _))). discriminate.
  - apply IH; [exact Hn| |exact Hr]. intros Hs. specialize (Hv Hs).
    apply Forall_cons in Hv as [_ Hv]. exact Hv.
Qed.

(** The contents of a load that hold no key name with an opening bracket
    in front and, in quoted mode, only plain values, are canonical. *)
Lemma canonical_of String (d : list (WSTR * list (WSTR * WSTR))) :
  names_ok d → (String = false → values_ok d) → rereadable String d = true →
  canonical String d.
Proof.
  intros (Hs & Hnd & Hk) Hv Hr. split; [|exact Hnd]. clear Hnd.
  induction d as [|s d IH]; [constructor|].
  apply Forall_cons in Hs as [Hs1 Hs]. apply Forall_cons in Hk as [[Hk1 Hk1'] Hk].
  unfold rereadable in Hr. cbn [forallb] in Hr. apply andb_prop in Hr as [Hr1 Hr].
  constructor.
  - refine (conj Hs1 (conj _ Hk1')). apply keys_ok_of; [exact Hk1| |exact Hr1].
    intros Hstr. specialize (Hv Hstr). apply Forall_cons in Hv as [Hv _]. exact Hv.
  - apply IH; [exact Hs|exact Hk| |exact Hr]. intros Hstr. specialize (Hv Hstr).
    apply Forall_cons in Hv as [_ Hv]. exact Hv.
Qed.

(** C1, amended. Take a buffer of characters that the code page converts
    faithfully, a heap in which no allocation fails, and a load of the
    buffer that returns a cache, of contents [d]. When no key name of [d]
    begins with an opening bracket, every value of [d] is plain in quoted
    mode (not empty, no CR, no semicolon, neither a blank nor a double quote
    in front), and the text of [d] has fewer than 2^32 - 1 characters, then
    [IniCacheSaveByHandle] writes the text of [d], and loading that text
    (with its terminator) succeeds and gives a cache of the same contents
    [d]: the same sections in the same order, each with the same keys
    and values in the same order. *)
Theorem load_save_load_same_contents (FileBuffer : PCHAR) (FileLength : Z) (String : bool)
    (FileHandle : IO) (h h1 : heap) (Status : Z) (Cache : positive)
    (d : list (WSTR * list (WSTR * WSTR))) :
  Forall convertible FileBuffer →
  no_allocation_failure h →
  IniCacheLoadFromMemory FileBuffer FileLength String h = Ok ((Status, Some Cache), h1) →
  contents h1 Cache = Some d →
  rereadable String d = true →
  Z.of_nat (length (render d)) < 2 ^ 32 - 1 →
  ∃ Status' Written h2 Cache' h3,
    IniCacheSaveByHandle (Some Cache) FileHandle h1 = Ok ((Status', Some Written), h2) ∧
    Written = render d ∧
    IniCacheLoadFromMemory (Written ++ [NUL]) (Z.of_nat (length Written)) String h2
    = Ok ((STATUS_SUCCESS, Some Cache'), h3) ∧
    contents h3 Cache' = Some d.
Proof.
  intros HQ Hna Hload Hd Hr Hlen.
  pose proof (IniCacheLoadFromMemory_loaded FileBuffer FileLength String h Hna) as Hsim.
  destruct (loaded FileBuffer String) as [d0| |] eqn:Hl; [|congruence|congruence].
  destruct Hsim as (h' & D & Hload' & Hrep & Hna1).
  rewrite Hload in Hload'. injection Hload' as _ -> ->.
  pose proof (store_rep_contents _ _ _ _ Hrep) as Hd0. rewrite Hd in Hd0.
  injection Hd0 as <-.
  destruct (loaded_ok _ _ _ HQ Hl) as [Hnames Hvalues].
  pose proof (canonical_of String d Hnames Hvalues Hr) as Hcan.
  pose proof (loaded_render String d Hcan ltac:(lia)) as Hre.
  assert (Ha : hd true (allocs h') = true).
  { unfold no_allocation_failure in Hna1. destruct Hna1; [reflexivity|assumption]. }
  pose proof (IniCacheSaveByHandle_render h' _ FileHandle d Hd Ha Hlen) as Hsave.
  set (h2 := set_allocs (tl (allocs h')) h') in *.
  assert (Hna2 : no_allocation_failure h2).
  { unfold no_allocation_failure in *. subst h2. cbn [allocs set_allocs].
    destruct Hna1; [constructor|assumption]. }
  pose proof (IniCacheLoadFromMemory_loaded (render d ++ [NUL]) (Z.of_nat (length (render d)))
                String h2 Hna2) as Hsim2.
  rewrite Hre in Hsim2. destruct Hsim2 as (h3 & D3 & Hload3 & Hrep3 & _).
  eexists _, (render d), h2, _, h3. split; [exact Hsave|]. split; [reflexivity|].
  split; [exact Hload3|]. exact (store_rep_contents _ _ _ _ Hrep3).
Qed.

End Roundtrip.

(** Under [Latin1] every character below 256 is convertible: a buffer of
    bytes is. *)
Lemma Latin1_convertible (l : list Z) :
  forallb (λ c, c <? 256) l = true → Forall (@convertible Latin1) l.
Proof.
  intros Hl. apply Forall_forall. intros c Hc. apply list_elem_of_In in Hc.
  pose proof (proj1 (forallb_forall _ _) Hl c Hc) as Hlt. unfold convertible.
  cbn [AnsiToUnicode UnicodeToAnsi Latin1]. rewrite Hlt. split; [reflexivity|auto].
Qed.

(** ** Freeing a cache *)

Section Destroy.

Lemma lookup_foldr_delete {A} (m : gmap positive A) (l : list positive) (k : positive) :
  foldr delete m l !! k = if decide (k ∈ l) then None else m !! k.
Proof.
  induction l as [|a l IH]; cbn [foldr].
  - destruct (decide (k ∈ [])) as [Hin|_]; [inversion Hin|reflexivity].
  - destruct (decide (k = a)) as [->|Hne].
    + rewrite lookup_delete_eq. destruct (decide (a ∈ a :: l)) as [_|Hn]; [reflexivity|].
      exfalso. apply Hn. left.
    + rewrite lookup_delete_ne by congruence. rewrite IH.
      destruct (decide (k ∈ l)) as [Hin|Hn], (decide (k ∈ a :: l)) as [Hin'|Hn'];
        try reflexivity.
      * exfalso. apply Hn'. right. exact Hin.
      * exfalso. apply elem_of_cons in Hin' as [?|?]; [congruence|contradiction].
Qed.

Lemma foldr_delete_delete {A} (m : gmap positive A) (l : list positive) (k : positive) :
  foldr delete (delete k m) l = delete k (foldr delete m l).
Proof.
  induction l as [|a l IH]; cbn [foldr]; [reflexivity|].
  rewrite IH. apply delete_delete.
Qed.

Lemma with_FirstKey_None sr : FirstKey sr = None → with_FirstKey None sr = sr.
Proof. destruct sr. simpl. intros ->. reflexivity. Qed.

(** The loop of [IniCacheFreeSection] frees the keys of the list of the
    section, each once, and leaves [FirstKey] NULL. *)
Lemma IniCacheFreeSection_loop_chain ks : ∀ turns h Section sr,
  sections h !! Section = Some sr →
  chain key_Next (keys h) (FirstKey sr) ks →
  (length ks ≤ turns)%nat →
  IniCacheFreeSection_loop turns Section h
  = Ok (tt, set_sections (<[Section := with_FirstKey None sr]> (sections h))
              (set_keys (foldr delete (keys h) ks) h)).
Proof.
  induction ks as [|k ks IH]; intros turns h Section sr Hs Hc Hlen.
  - cbn [chain] in Hc. cbn [foldr].
    assert (Hloop : IniCacheFreeSection_loop turns Section h = Ok (tt, h)).
    { destruct turns; cbn [IniCacheFreeSection_loop]; unfold bind, read_section;
        rewrite Hs, Hc; reflexivity. }
    rewrite Hloop. rewrite (with_FirstKey_None sr Hc), insert_id by exact Hs.
    destruct h; reflexivity.
  - cbn [chain] in Hc. destruct Hc as (Hf & kr & Hk & Hc).
    destruct turns as [|turns]; [cbn [length] in Hlen; lia|].
    cbn [IniCacheFreeSection_loop]. unfold bind at 1. unfold read_section at 1.
    rewrite Hs, Hf. unfold IniCacheFreeKey.
    unfold bind at 1. unfold bind at 1. unfold read_key. rewrite Hk.
    unfold bind at 1. unfold free_key. rewrite Hk. unfold ret.
    unfold bind at 1. unfold write_section. cbn [sections set_keys]. rewrite Hs.
    assert (Hnd : k ∉ ks).
    { assert (Hnd : NoDup (k :: ks)).
      { apply (chain_NoDup key_Next (keys h) (Some k)). cbn [chain]. eauto. }
      apply NoDup_cons in Hnd as [Hnd _]. exact Hnd. }
    rewrite (IH turns _ Section (with_FirstKey (key_Next kr) sr)).
    + cbn [sections keys set_sections set_keys]. rewrite insert_insert_eq.
      rewrite foldr_delete_delete. reflexivity.
    + cbn [sections set_sections]. apply lookup_insert_eq.
    + cbn [keys set_sections set_keys FirstKey with_FirstKey].
      eapply chain_frame; [|exact Hc]. intros a Ha.
      rewrite lookup_delete_ne; [reflexivity|]. intros ->. contradiction.
    + cbn [length] in Hlen. lia.
Qed.

Lemma elem_of_concat {A} (a : A) (l : list A) (ls : list (list A)) :
  a ∈ l → l ∈ ls → a ∈ concat ls.
Proof.
  intros Ha Hl. induction Hl as [l ls|l l' ls _ IH]; cbn [concat]; apply elem_of_app; auto.
Qed.

Lemma foldr_delete_comm {A} (m : gmap positive A) (l1 l2 : list positive) :
  foldr delete (foldr delete m l1) l2 = foldr delete (foldr delete m l2) l1.
Proof.
  induction l1 as [|a l1 IH]; cbn [foldr]; [reflexivity|].
  rewrite foldr_delete_delete, IH. reflexivity.
Qed.

(** [IniCacheFreeSection] frees the keys of the section and the section. *)
Lemma IniCacheFreeSection_chain h Section sr ks :
  sections h !! Section = Some sr →
  chain key_Next (keys h) (FirstKey sr) ks →
  IniCacheFreeSection (Some Section) h
  = Ok (sec_Next sr, set_sections (delete Section (sections h))
                       (set_keys (foldr delete (keys h) ks) h)).
Proof.
  intros Hs Hc. unfold IniCacheFreeSection.
  erewrite bind_Ok by (unfold read_section; rewrite Hs; reflexivity).
  pose proof (chain_length _ _ _ _ Hc) as Hlen.
  erewrite bind_Ok
    by (cbv beta; apply (IniCacheFreeSection_loop_chain ks _ h Section sr Hs Hc); lia).
  erewrite bind_Ok
    by (unfold write_section; cbn [sections set_sections]; rewrite lookup_insert_eq;
        reflexivity).
  cbn [sections set_sections]. rewrite insert_insert_eq.
  erewrite bind_Ok
    by (unfold free_section; cbn [sections set_sections]; rewrite lookup_insert_eq;
        reflexivity).
  cbn [sections set_sections]. rewrite delete_insert_eq. reflexivity.
Qed.

Lemma all_some_inv {A B} (f : A → option B) (l : list A) (k : list B) :
  all_some (map f l) = Some k → Forall2 (λ a b, f a = Some b) l k.
Proof.
  revert k. induction l as [|a l IH]; intros k Hk.
  - injection Hk as <-. constructor.
  - cbn [map] in Hk. apply all_some_cons_inv in Hk as (b & k' & Hb & Hk' & ->).
    constructor; auto.
Qed.

(** The loop of [IniCacheDestroy] frees the sections of the list and their
    keys, each once, when no key is in two lists. *)
Lemma IniCacheDestroy_loop_chain (D : list (positive * list positive)) :
  ∀ turns h Cache c,
    caches h !! Cache = Some c →
    chain sec_Next (sections h) (FirstSection c) (D.*1) →
    Forall (λ x, ∃ sr, sections h !! x.1 = Some sr ∧
                       chain key_Next (keys h) (FirstKey sr) x.2) D →
    NoDup (concat (D.*2)) →
    (length D ≤ turns)%nat →
    IniCacheDestroy_loop turns Cache h
    = Ok (tt, set_caches (<[Cache := {| FirstSection := None;
                                        LastSection := LastSection c |}]> (caches h))
                (set_sections (foldr delete (sections h) (D.*1))
                   (set_keys (foldr delete (keys h) (concat (D.*2))) h))).
Proof.
  induction D as [|[s ks] D IH]; intros turns h Cache c Hcache Hc Hall Hnd Hlen.
  - cbn [fmap list_fmap chain] in Hc. cbn [fmap list_fmap concat foldr].
    assert (Hloop : IniCacheDestroy_loop turns Cache h = Ok (tt, h)).
    { destruct turns; cbn [IniCacheDestroy_loop]; unfold bind, read_cache;
        rewrite Hcache, Hc; reflexivity. }
    rewrite Hloop. f_equal. f_equal. destruct h as [hk hs hc ha]. unfold set_caches, set_sections,
      set_keys. cbn. f_equal. symmetry. apply insert_id. cbn in Hcache. rewrite Hcache.
    destruct c. cbn in Hc. subst. reflexivity.
  - cbn [fmap list_fmap fst chain] in Hc. destruct Hc as (Hf & sr & Hs & Hc).
    apply Forall_cons in Hall as [(sr' & Hs' & Hks) Hall]. cbn [fst snd] in Hs', Hks.
    rewrite Hs in Hs'. injection Hs' as <-.
    cbn [fmap list_fmap snd concat] in Hnd. apply NoDup_app in Hnd as (_ & Hdis & Hnd).
    assert (Hss : NoDup (s :: D.*1)).
    { apply (chain_NoDup sec_Next (sections h) (Some s)). cbn [chain]. eauto. }
    apply NoDup_cons in Hss as [Hs1 _].
    destruct turns as [|turns]; [cbn [length] in Hlen; lia|].
    cbn [IniCacheDestroy_loop].
    erewrite bind_Ok by (unfold read_cache; rewrite Hcache; reflexivity).
    rewrite Hf.
    erewrite bind_Ok by (apply (IniCacheFreeSection_chain h s sr ks Hs Hks)).
    erewrite bind_Ok
      by (unfold write_cache; cbn [caches set_sections set_keys]; rewrite Hcache; reflexivity).
    rewrite (IH turns _ Cache {| FirstSection := sec_Next sr; LastSection := LastSection c |}).
    + cbn [caches sections keys set_caches set_sections set_keys LastSection
           fmap list_fmap fst snd concat foldr].
      rewrite insert_insert_eq, foldr_delete_delete, foldr_app, foldr_delete_comm.
      reflexivity.
    + cbn [caches set_caches]. apply lookup_insert_eq.
    + cbn [sections set_caches set_sections set_keys FirstSection].
      eapply chain_frame; [|exact Hc]. intros a Ha.
      rewrite lookup_delete_ne; [reflexivity|]. intros ->. contradiction.
    + cbn [sections keys set_caches set_sections set_keys].
      apply Forall_forall. intros x Hx.
      destruct (proj1 (Forall_forall _ _) Hall x Hx) as (srx & Hsx & Hkx).
      exists srx. split.
      * rewrite lookup_delete_ne; [exact Hsx|]. intros ->. apply Hs1.
        apply list_elem_of_fmap. exists x. auto.
      * eapply chain_frame; [|exact Hkx]. intros a Ha. rewrite lookup_foldr_delete.
        destruct (decide (a ∈ ks)) as [Hin|_]; [|reflexivity].
        exfalso. apply (Hdis a Hin). apply (elem_of_concat a x.2); [exact Ha|].
        apply list_elem_of_fmap. exists x. auto.
    + exact Hnd.
    + cbn [length] in Hlen. lia.
Qed.

Lemma node_lists_inv h Cache D :
  node_lists h Cache = Some D →
  ∃ c, caches h !! Cache = Some c ∧ section_list h Cache = Some (D.*1) ∧
       Forall (λ x, key_list h x.1 = Some x.2) D.
Proof.
  unfold node_lists. destruct (section_list h Cache) as [ss|] eqn:Hss; [|discriminate].
  intros Hall. apply all_some_inv in Hall.
  assert (Hc : ∃ c, caches h !! Cache = Some c).
  { unfold section_list in Hss. destruct (caches h !! Cache); [eauto|discriminate]. }
  destruct Hc as [c Hc]. exists c. split; [exact Hc|].
  assert (HD : D.*1 = ss ∧ Forall (λ x, key_list h x.1 = Some x.2) D).
  { clear Hss. induction Hall as [|s x ss D Hx _ [IH1 IH2]]; [split; constructor|].
    destruct (key_list h s) as [ks|] eqn:Hks; [|discriminate]. injection Hx as <-.
    cbn [fmap list_fmap fst]. split; [f_equal; exact IH1|]. constructor; assumption. }
  destruct HD as [-> HD]. auto.
Qed.

Lemma node_lists_intro h Cache D :
  section_list h Cache = Some (D.*1) → Forall (λ x, key_list h x.1 = Some x.2) D →
  node_lists h Cache = Some D.
Proof.
  unfold node_lists. intros -> HD. rewrite <- list_fmap_compose. apply all_some_Forall2.
  induction HD as [|[s ks] D Hx _ IH]; constructor; [|exact IH].
  cbn [compose fst snd] in *. rewrite Hx. reflexivity.
Qed.

Lemma IniCacheDestroy_loop_frees (h : heap) (Cache : positive)
    (D : list (positive * list positive)) :
  node_lists h Cache = Some D → NoDup (concat (D.*2)) →
  IniCacheDestroy (Some Cache) h = Ok (tt, without h Cache (D.*1) (concat (D.*2))).
Proof.
  intros HD Hnd. destruct (node_lists_inv _ _ _ HD) as (c & Hc & Hss & Hks).
  pose proof (section_list_chain _ _ _ _ Hss Hc) as Hchain.
  assert (Hall : Forall (λ x, ∃ sr, sections h !! x.1 = Some sr ∧
                                    chain key_Next (keys h) (FirstKey sr) x.2) D).
  { eapply Forall_impl; [exact Hks|]. intros x Hx. cbv beta in Hx.
    destruct (sections h !! x.1) as [sr|] eqn:Hs;
      [|unfold key_list in Hx; rewrite Hs in Hx; discriminate].
    exists sr. split; [reflexivity|]. eapply key_list_chain; eassumption. }
  pose proof (chain_length _ _ _ _ Hchain) as Hlen. rewrite length_fmap in Hlen.
  unfold IniCacheDestroy.
  erewrite bind_Ok
    by (cbv beta; apply (IniCacheDestroy_loop_chain D _ h Cache c Hc Hchain Hall Hnd); lia).
  erewrite bind_Ok
    by (unfold write_cache; cbn [caches set_caches]; rewrite lookup_insert_eq; reflexivity).
  unfold free_cache. cbn [caches set_caches]. rewrite lookup_insert_eq.
  rewrite insert_insert_eq, delete_insert_eq. reflexivity.
Qed.

(** X1. [IniCacheDestroy] frees the header of the cache, every section of
    its list and every key of the lists of these sections, each once, and
    nothing else, when no key is in two lists: the heap it leaves is the
    heap it found without these nodes, and none of them holds a record
    any more. A NULL cache is left alone. *)
Theorem IniCacheDestroy_frees_every_node (h : heap) (Cache : positive)
    (D : list (positive * list positive)) :
  node_lists h Cache = Some D → NoDup (concat (D.*2)) →
  IniCacheDestroy (Some Cache) h = Ok (tt, without h Cache (D.*1) (concat (D.*2))) ∧
  caches (without h Cache (D.*1) (concat (D.*2))) !! Cache = None ∧
  (∀ s, s ∈ D.*1 → sections (without h Cache (D.*1) (concat (D.*2))) !! s = None) ∧
  (∀ k, k ∈ concat (D.*2) → keys (without h Cache (D.*1) (concat (D.*2))) !! k = None) ∧
  (∀ s, s ∉ D.*1 → sections (without h Cache (D.*1) (concat (D.*2))) !! s
                   = sections h !! s) ∧
  (∀ k, k ∉ concat (D.*2) → keys (without h Cache (D.*1) (concat (D.*2))) !! k
                            = keys h !! k) ∧
  IniCacheDestroy None h = Ok (tt, h).
Proof.
  intros HD Hnd. split; [apply IniCacheDestroy_loop_frees; assumption|].
  unfold without. cbn [caches sections keys].
  split; [apply lookup_delete_eq|].
  repeat split; intros a Ha; rewrite lookup_foldr_delete;
    destruct (decide _) as [Hin|Hn]; try reflexivity; contradiction.
Qed.

(** The views of a cache only depend on its header, on the sections of
    its list and on the keys of their lists. *)
Lemma views_frame h h' Cache D :
  node_lists h Cache = Some D →
  caches h' !! Cache = caches h !! Cache →
  (∀ s, s ∈ D.*1 → sections h' !! s = sections h !! s) →
  (∀ k, k ∈ concat (D.*2) → keys h' !! k = keys h !! k) →
  node_lists h' Cache = Some D ∧ contents h' Cache = contents h Cache.
Proof.
  intros HD Hcache Hsec Hkey. destruct (node_lists_inv _ _ _ HD) as (c & Hc & Hss & Hks).
  assert (Hss' : section_list h' Cache = Some (D.*1)).
  { apply (chain_section_list h' Cache c); [congruence|].
    eapply chain_frame; [|eapply section_list_chain; eassumption].
    intros a Ha. rewrite (Hsec a Ha). reflexivity. }
  assert (Hks' : Forall (λ x, key_list h' x.1 = Some x.2) D).
  { apply Forall_forall. intros x Hx. pose proof (proj1 (Forall_forall _ _) Hks x Hx) as Hkx.
    assert (Hx1 : x.1 ∈ D.*1) by (apply list_elem_of_fmap; exists x; auto).
    eapply key_list_frame; [exact Hkx|rewrite (Hsec _ Hx1); reflexivity|].
    intros k Hk. rewrite Hkey; [reflexivity|]. apply (elem_of_concat k x.2); [exact Hk|].
    apply list_elem_of_fmap. exists x. auto. }
  split; [apply node_lists_intro; assumption|].
  unfold contents. rewrite Hss, Hss'. f_equal. apply map_ext_in. intros s Hs.
  apply list_elem_of_In, list_elem_of_fmap in Hs as (x & -> & Hx).
  pose proof (proj1 (Forall_forall _ _) Hks x Hx) as Hkx.
  pose proof (proj1 (Forall_forall _ _) Hks' x Hx) as Hkx'.
  assert (Hx1 : x.1 ∈ D.*1) by (apply list_elem_of_fmap; exists x; auto).
  unfold section_contents. rewrite Hkx, Hkx', (Hsec _ Hx1).
  destruct (sections h !! x.1) as [sr|]; [|reflexivity]. f_equal. f_equal.
  apply map_ext_in. intros k Hk. apply list_elem_of_In in Hk. unfold entry_of.
  rewrite Hkey; [reflexivity|]. apply (elem_of_concat k x.2); [exact Hk|].
  apply list_elem_of_fmap. exists x. auto.
Qed.

(** X2. Destroying a cache leaves every other cache as it was: a cache
    that shares no section and no key with the destroyed one keeps its
    lists and its contents, and the destroyed header is gone. *)
Theorem IniCacheDestroy_keeps_other_caches (h : heap) (Cache Cache2 : positive)
    (D D2 : list (positive * list positive)) :
  node_lists h Cache = Some D → NoDup (concat (D.*2)) →
  node_lists h Cache2 = Some D2 → Cache2 ≠ Cache →
  Forall (λ s, s ∉ D2.*1) (D.*1) →
  Forall (λ k, k ∉ concat (D2.*2)) (concat (D.*2)) →
  ∃ h', IniCacheDestroy (Some Cache) h = Ok (tt, h') ∧
        node_lists h' Cache2 = Some D2 ∧
        contents h' Cache2 = contents h Cache2 ∧
        caches h' !! Cache = None.
Proof.
  intros HD Hnd HD2 Hne Hsec Hkey.
  pose proof (proj1 (Forall_forall _ _) Hsec) as Hsec'.
  pose proof (proj1 (Forall_forall _ _) Hkey) as Hkey'. cbv beta in Hsec', Hkey'.
  clear Hsec Hkey. rename Hsec' into Hsec, Hkey' into Hkey. eexists. split.
  { apply IniCacheDestroy_loop_frees; eassumption. }
  assert (Hv : node_lists (without h Cache (D.*1) (concat (D.*2))) Cache2 = Some D2 ∧
               contents (without h Cache (D.*1) (concat (D.*2))) Cache2 = contents h Cache2).
  { apply views_frame; [exact HD2| | |]; unfold without; cbn [caches sections keys].
    - apply lookup_delete_ne. congruence.
    - intros s Hs. rewrite lookup_foldr_delete.
      destruct (decide (s ∈ D.*1)) as [Hin|_]; [|reflexivity]. exfalso. exact (Hsec s Hin Hs).
    - intros k Hk. rewrite lookup_foldr_delete.
      destruct (decide (k ∈ concat (D.*2))) as [Hin|_]; [|reflexivity].
      exfalso. exact (Hkey k Hin Hk). }
  destruct Hv as [Hv1 Hv2]. split; [exact Hv1|]. split; [exact Hv2|].
  unfold without. cbn [caches]. apply lookup_delete_eq.
Qed.

End Destroy.

(** ** Iterators *)

Section Iterators.

Lemma chain_lookup_next {R} (next : R → option positive) (m : gmap positive R) l :
  ∀ p i a, chain next m p l → l !! i = Some a →
           ∃ r, m !! a = Some r ∧ next r = l !! S i.
Proof.
  induction l as [|b l IH]; intros p i a Hc Hi; [discriminate|].
  cbn [chain] in Hc. destruct Hc as (_ & r & Hb & Hc). destruct i as [|i].
  - injection Hi as <-. exists r. split; [exact Hb|]. cbn. destruct l as [|c l].
    + exact Hc.
    + cbn [chain] in Hc. destruct Hc as [Hc _]. exact Hc.
  - cbn in Hi. destruct (IH _ _ _ Hc Hi) as (r' & Hr' & Hn). exists r'. auto.
Qed.

(** X3. [IniFindFirstValue] on a section with a well-formed key list.
    With a NULL argument or an empty section it returns NULL and touches
    nothing (no block is requested). Otherwise it stores the name and the
    data of the first key in the caller's variables and then requests the
    iterator: when that fails it returns NULL although the variables are
    already overwritten; when it succeeds the iterator is a new block that
    stands on the first key. The keys, sections and caches are never
    changed. *)
Theorem IniFindFirstValue_cases (s : iheap) (Section : positive) (ks : list positive)
    (n d : option WSTR) :
  key_list (store s) Section = Some ks →
  (∀ KeyName KeyData,
      IniFindFirstValue None KeyName KeyData s = Ok ((None, KeyName, KeyData), s) ∧
      IniFindFirstValue (Some Section) None KeyData s = Ok ((None, None, KeyData), s) ∧
      IniFindFirstValue (Some Section) KeyName None s = Ok ((None, KeyName, None), s)) ∧
  match ks with
  | [] => IniFindFirstValue (Some Section) (Some n) (Some d) s = Ok ((None, Some n, Some d), s)
  | k :: _ =>
      ∃ kr, keys (store s) !! k = Some kr ∧
        IniFindFirstValue (Some Section) (Some n) (Some d) s
        = if hd true (allocs (store s)) then
            Ok ((Some (fresh (dom (iterators s))),
                 Some (Some (key_Name kr)), Some (Some (key_Data kr))),
                {| store := set_allocs (tl (allocs (store s))) (store s);
                   iterators := <[fresh (dom (iterators s)) :=
                                    {| it_Section := Some Section; it_Key := Some k |}]>
                                  (iterators s) |})
          else
            Ok ((None, Some (Some (key_Name kr)), Some (Some (key_Data kr))),
                set_store (set_allocs (tl (allocs (store s))) (store s)) s)
  end.
Proof.
  intros Hks. split.
  { intros KeyName KeyData. repeat apply conj; try reflexivity.
    - destruct KeyName; reflexivity. }
  destruct (sections (store s) !! Section) as [sr|] eqn:Hs;
    [|unfold key_list in Hks; rewrite Hs in Hks; discriminate].
  pose proof (key_list_first _ _ _ _ Hks Hs) as Hfirst.
  unfold IniFindFirstValue, read_section. rewrite Hs. cbn [rbind fst]. rewrite Hfirst.
  destruct ks as [|k ks]; [reflexivity|]. cbn [head].
  destruct (key_list_in_use _ _ _ k Hks ltac:(left)) as [kr Hk]. exists kr.
  split; [exact Hk|]. unfold read_key. rewrite Hk. cbn [rbind fst].
  unfold RtlAllocateHeap. cbn [rbind]. destruct (hd true (allocs (store s))); reflexivity.
Qed.

(** X4. [IniFindNextValue] walks the key list in order. An iterator that
    stands on the key at position [i] of a well-formed list moves to the
    key at position [i + 1], stores its name and data in the caller's
    variables and returns TRUE; on the last key it returns FALSE and
    leaves the variables and the iterator as they are. *)
Theorem IniFindNextValue_advances (s : iheap) (Section : positive) (ks : list positive)
    (Iterator : positive) (sec : option positive) (i : nat) (k : positive)
    (n d : option WSTR) :
  key_list (store s) Section = Some ks →
  iterators s !! Iterator = Some {| it_Section := sec; it_Key := Some k |} →
  ks !! i = Some k →
  match ks !! S i with
  | Some k' =>
      ∃ kr', keys (store s) !! k' = Some kr' ∧
        IniFindNextValue (Some Iterator) (Some n) (Some d) s
        = Ok ((true, Some (Some (key_Name kr')), Some (Some (key_Data kr'))),
              set_iterators (<[Iterator := {| it_Section := sec; it_Key := Some k' |}]>
                               (iterators s)) s)
  | None =>
      IniFindNextValue (Some Iterator) (Some n) (Some d) s = Ok ((false, Some n, Some d), s)
  end.
Proof.
  intros Hks Hit Hi.
  destruct (sections (store s) !! Section) as [sr|] eqn:Hs;
    [|unfold key_list in Hks; rewrite Hs in Hks; discriminate].
  pose proof (key_list_chain _ _ _ _ Hks Hs) as Hc.
  destruct (chain_lookup_next _ _ _ _ _ _ Hc Hi) as (kr & Hk & Hn).
  unfold IniFindNextValue. rewrite Hit. cbn [it_Key it_Section].
  unfold read_key. rewrite Hk. cbn [rbind fst]. rewrite Hn.
  destruct (ks !! S i) as [k'|] eqn:Hi'; [|reflexivity].
  destruct (key_list_in_use _ _ _ k' Hks) as [kr' Hk'].
  { eapply list_elem_of_lookup_2. exact Hi'. }
  exists kr'. split; [exact Hk'|]. rewrite Hk'. reflexivity.
Qed.

(** X5. An iterator is released by [IniFindClose]: closing the iterator
    that [IniFindFirstValue] returned leaves the blocks of the iterators
    as they were before it was opened, and the keys, sections and caches
    untouched. [IniFindClose(NULL)] does nothing; closing an iterator a
    second time frees a freed block. *)
Theorem IniFindClose_releases (s s1 : iheap) (Section : option positive)
    (KeyName KeyData n d : option (option WSTR)) (Iterator : positive) :
  IniFindFirstValue Section KeyName KeyData s = Ok ((Some Iterator, n, d), s1) →
  ∃ s2, IniFindClose (Some Iterator) s1 = Ok (tt, s2) ∧
        iterators s2 = iterators s ∧ same_store (store s) (store s2) ∧
        IniFindClose (Some Iterator) s2 = Fault ∧
        IniFindClose None s2 = Ok (tt, s2).
Proof.
  unfold IniFindFirstValue. intros Hf.
  destruct Section as [Section|]; [|discriminate].
  destruct KeyName as [KeyName|]; [|discriminate].
  destruct KeyData as [KeyData|]; [|discriminate].
  destruct (read_section Section (store s)) as [[sr h0]| |]; try discriminate.
  cbn [rbind fst] in Hf. destruct (FirstKey sr) as [Key|]; [|discriminate].
  destruct (read_key Key (store s)) as [[kr h1]| |]; try discriminate.
  cbn [rbind fst] in Hf. unfold RtlAllocateHeap in Hf. cbn [rbind] in Hf.
  destruct (hd true (allocs (store s))); cbn [negb] in Hf; [|discriminate].
  injection Hf as <- <- <- <-.
  assert (Hfresh : iterators s !! fresh (dom (iterators s)) = None)
    by apply not_elem_of_dom, is_fresh.
  unfold IniFindClose. cbn [iterators]. rewrite lookup_insert_eq.
  eexists. split; [reflexivity|]. unfold set_iterators. cbn [iterators store].
  rewrite delete_insert_eq, (delete_id _ _ Hfresh), Hfresh.
  repeat apply conj; reflexivity.
Qed.

End Iterators.

Lemma NoDup_concat_disjoint {A} (L : list (list A)) :
  NoDup (concat L) →
  ∀ i j x y k, L !! i = Some x → L !! j = Some y → i ≠ j → k ∈ x → k ∉ y.
Proof.
  induction L as [|l L IH]; intros Hnd i j x y k Hx Hy Hij Hkx Hky; [discriminate|].
  cbn [concat] in Hnd. apply NoDup_app in Hnd as (_ & Hdis & Hnd).
  destruct i as [|i], j as [|j]; cbn in Hx, Hy.
  - congruence.
  - injection Hx as <-. apply (Hdis k Hkx). apply (elem_of_concat k y); [exact Hky|].
    eapply list_elem_of_lookup_2. exact Hy.
  - injection Hy as <-. apply (Hdis k Hky). apply (elem_of_concat k x); [exact Hkx|].
    eapply list_elem_of_lookup_2. exact Hx.
  - apply (IH Hnd i j x y k); auto.
Qed.

(** A cache is well formed when its list of sections and the lists of
    keys of its sections are sound and no key is in two lists. *)
Lemma store_rep_intro h Cache D d :
  sound_cache h Cache (D.*1) →
  Forall (λ x, sound_section h x.1 x.2) D →
  NoDup (concat (D.*2)) →
  contents h Cache = Some d →
  store_rep h Cache D d.
Proof.
  intros Hc Hs Hnd Hd. split.
  - exact Hc.
  - intros i x Hx. eapply (proj1 (Forall_forall _ _) Hs). eapply list_elem_of_lookup_2.
    exact Hx.
  - intros i j x y k Hx Hy Hij. apply (NoDup_concat_disjoint (D.*2) Hnd i j); auto.
    + rewrite list_lookup_fmap, Hx. reflexivity.
    + rewrite list_lookup_fmap, Hy. reflexivity.
  - unfold contents in Hd. destruct Hc as [Hsl _]. rewrite Hsl in Hd.
    apply all_some_inv in Hd. clear Hsl Hnd. revert d Hd.
    induction Hs as [|x D [Hkl _] _ IH]; intros d Hd.
    + inversion Hd. constructor.
    + cbn [fmap list_fmap] in Hd. inversion Hd as [|? y ? d' Hy Hd']. subst.
      constructor; [|apply IH; exact Hd'].
      unfold section_contents in Hy. rewrite Hkl in Hy.
      destruct (sections h !! x.1) as [sr|]; [|discriminate].
      destruct (all_some (map (entry_of h) x.2)) as [es|] eqn:Hes; [|discriminate].
      injection Hy as <-. split; [reflexivity|]. apply all_some_inv. exact Hes.
Qed.

(** ** The public mutators on a well-formed cache *)

Section Mutators.
Context `{CodePage}.

(** [IniCacheAddKeyAorW] with INSERT_LAST on the section at position [i]
    of a well-formed cache: the cache stays well formed and its contents
    become [set_key d i NameU DataU]. *)
Lemma IniCacheAddKeyAorW_rep h Cache D d s i Name NameLength Data DataLength IsUnicode
    NameU DataU :
  store_rep h Cache D d → allocations_succeed 3 h →
  D.*1 !! i = Some s →
  NameLength ≠ 0 → DataLength ≠ 0 →
  CopyAorW Name NameLength IsUnicode = Ok NameU →
  CopyAorW Data DataLength IsUnicode = Ok DataU →
  ∃ h' D' Key,
    IniCacheAddKeyAorW (Some s) None INSERT_LAST (Some Name) NameLength (Some Data)
      DataLength IsUnicode h = Ok (Some Key, h') ∧
    store_rep h' Cache D' (set_key d i NameU DataU) ∧ D'.*1 = D.*1 ∧
    (∃ ks, D' !! i = Some (s, ks) ∧ Key ∈ ks) ∧
    entry_of h' Key = Some (match d !! i with
                            | Some (_, es) =>
                                match List.find (λ e, bears NameU (fst e)) es with
                                | Some e => fst e
                                | None => NameU
                                end
                            | None => NameU
                            end, DataU).
Proof.
  intros Hrep Hal3 Hs HN HD Hcopy HcopyD.
  pose proof Hal3 as Hal3'. apply allocations_succeed_step in Hal3' as [Ha1 Hal2'].
  apply allocations_succeed_step in Hal2' as [Ha2 _]. hsimpl_in Ha2.
  rewrite list_lookup_fmap in Hs.
  destruct (D !! i) as [[s' ks]|] eqn:Hi; [|discriminate]. simpl in Hs. injection Hs as ->.
  pose proof Hrep as [Hcache Hsec Hdis Hcont].
  destruct (Forall2_lookup_l _ _ _ _ _ Hcont Hi) as ([n es] & Hd & Hn & He). simpl in Hn, He.
  pose proof (Hsec i _ Hi) as Hsound. simpl in Hsound. pose proof Hsound as [Hkl Hlast].
  destruct (sections h !! s) as [sr|] eqn:Hsr; [|discriminate].
  pose proof (find_index_Forall2 _ (key_matches (keys h) NameU)
                (λ e : WSTR * WSTR, bears NameU (fst e)) ks es He
                (λ k e, entry_matches h NameU k e)) as Hfind.
  rewrite Hd.
  destruct (find_index (λ e, bears NameU (fst e)) es) as [j|] eqn:Hfi.
  - destruct Hfind as (Key & e & Hj & Hej & Hbe & Hfound).
    rewrite (IniCacheAddKeyAorW_existing h s None INSERT_LAST Name NameLength Data
               DataLength IsUnicode ks NameU Key Hkl); auto.
    rewrite Ha2, HcopyD.
    destruct (find_key_in_use _ _ _ _ Hfound) as (kr & Hkr & _). rewrite Hkr.
    eexists _, D, Key. repeat apply conj; [reflexivity| |reflexivity| |].
    + apply (store_rep_update h Cache D d i s ks j Key kr); auto.
      intros n' es' Hd'. rewrite Hd in Hd'. injection Hd' as <- <-. exact Hfi.
    + exists ks. split; [exact Hi|]. eapply list_elem_of_lookup_2. exact Hj.
    + unfold entry_of. hsimpl. rewrite lookup_insert_eq. cbn [with_Data key_Name key_Data].
      pose proof (Forall2_lookup_lr _ _ _ _ _ _ He Hj Hej) as Hent. unfold entry_of in Hent.
      rewrite Hkr in Hent. injection Hent as Hent.
      assert (Hfe : List.find (λ e, bears NameU (fst e)) es = Some e).
      { clear - Hfi Hej. revert j Hfi Hej. induction es as [|e0 es IH]; intros j; simpl;
          [discriminate|]. destruct (bears NameU (fst e0)).
        - intros Heq. injection Heq as <-. simpl. congruence.
        - destruct (find_index _ es) as [j'|]; [|discriminate]. simpl. intros Heq.
          injection Heq as <-. simpl. apply IH. reflexivity. }
      rewrite Hfe, <- Hent. reflexivity.
  - rewrite (IniCacheAddKeyAorW_new h s None INSERT_LAST Name NameLength Data DataLength
               IsUnicode ks NameU sr Hkl Hsr); auto.
    rewrite HcopyD. cbv zeta.
    set (Key := fresh (dom (keys h))).
    set (new := {| key_Name := NameU; key_Data := DataU;
                   key_Next := None; key_Prev := None |}).
    set (h1 := set_keys (<[Key := new]> (keys h)) (set_allocs (tl (tl (tl (allocs h)))) h)).
    pose proof (fresh_key_not_in_use h) as HK. fold Key in HK.
    assert (HKks : Key ∉ ks).
    { intros Hin. destruct (sound_section_in_use _ _ _ _ Hsound Hin) as [? Hu]. congruence. }
    assert (Hsound1 : sound_section h1 s ks).
    { apply (sound_section_frame h); [reflexivity| |exact Hsound].
      intros k Hk. unfold h1. hsimpl. rewrite lookup_insert_ne; [reflexivity|].
      intros <-. contradiction. }
    destruct (InsertKeyIntoSection_last h1 s sr ks Key new Hsound1 Hsr)
      as (h' & Hrun & Hcaches & Hallocs & Hsound' & Hother & (sr' & Hsr' & Hname & Hnext)
          & Hentry & Hkeys' & _); auto.
    { apply lookup_insert_eq. }
    rewrite Hrun. exists h', (<[i := (s, ks ++ [Key])]> D), Key.
    assert (Hlt : (i < length D)%nat) by (eapply lookup_lt_Some; exact Hi).
    repeat apply conj; [reflexivity| | | |].
    + apply (store_rep_append h h1 h' Cache D d i s ks Key NameU DataU); auto.
      * exists sr, sr'. auto.
      * intros n' es' Hd'. rewrite Hd in Hd'. injection Hd' as <- <-. exact Hfi.
    + rewrite list_fmap_insert. simpl. apply list_insert_id.
      rewrite list_lookup_fmap, Hi. reflexivity.
    + exists (ks ++ [Key]). split; [apply list_lookup_insert_eq; exact Hlt|].
      apply elem_of_app. right. left.
    + rewrite Hentry. unfold entry_of, h1. hsimpl. rewrite lookup_insert_eq.
      assert (Hfe : List.find (λ e, bears NameU (fst e)) es = None).
      { clear - Hfi. induction es as [|e0 es IH]; simpl in *; [reflexivity|].
        destruct (bears NameU (fst e0)); [discriminate|].
        destruct (find_index _ es); [discriminate|]. auto. }
      rewrite Hfe. reflexivity.
Qed.

(** [IniCacheAddSectionAorW] on a well-formed cache: the cache stays well
    formed, its contents become those of [add_section] and the section
    returned is the one at the position that [add_section] gives. *)
Lemma IniCacheAddSectionAorW_rep h Cache D d Name NameLength IsUnicode NameU :
  store_rep h Cache D d → allocations_succeed 2 h →
  NameLength ≠ 0 →
  CopyAorW Name NameLength IsUnicode = Ok NameU →
  ∃ h' D' S',
    IniCacheAddSectionAorW (Some Cache) (Some Name) NameLength IsUnicode h
    = Ok (Some S', h') ∧
    store_rep h' Cache D' (fst (add_section d NameU)) ∧
    D'.*1 !! snd (add_section d NameU) = Some S' ∧
    length D' = length (fst (add_section d NameU)) ∧
    (snd (add_section d NameU) < length D')%nat.
Proof.
  intros Hrep Hal2 HN Hcopy.
  pose proof Hal2 as Hal2'. apply allocations_succeed_step in Hal2' as [Ha1 _].
  pose proof Hrep as [Hcache Hsec Hdis Hcont].
  pose proof (find_index_Forall2 _
                (λ x : positive * list positive,
                   section_matches (sections h) NameU x.1)
                (λ s : WSTR * list (WSTR * WSTR), bears NameU (fst s)) D d Hcont) as Hfind.
  unfold add_section.
  destruct (find_index (λ s, bears NameU (fst s)) d) as [i|] eqn:Hfi; cbn [fst snd].
  + destruct Hfind as (x & y & Hx & Hy & _ & Hfound).
    { intros a b [Hn _]. unfold section_matches, bears.
      destruct (sections h !! a.1); [|discriminate]. simpl in Hn. injection Hn as ->.
      reflexivity. }
    exists (set_allocs (tl (allocs h)) h), D, x.1.
    repeat apply conj.
    * apply (IniCacheAddSectionAorW_existing h Cache Name NameLength IsUnicode (D.*1) NameU);
        auto.
      -- apply Hcache.
      -- rewrite find_fmap, Hfound. reflexivity.
    * apply (store_rep_same_store h); [repeat split; reflexivity | exact Hrep].
    * simpl. rewrite list_lookup_fmap, Hx. reflexivity.
    * eapply Forall2_length. exact Hcont.
    * eapply lookup_lt_Some. exact Hx.
  + destruct (IniCacheAddSectionAorW_appends h Cache (D.*1) Name NameLength IsUnicode NameU)
      as (S & h' & Hcall & HS & HSfree & Hsound' & (sr & Hsr & Hname & HF & HL) & Hkeys
          & Hallocs & Hold & _); auto.
    { rewrite find_fmap, Hfind; [reflexivity|].
      intros a b [Hn _]. unfold section_matches, bears.
      destruct (sections h !! a.1); [|discriminate]. simpl in Hn. injection Hn as ->.
      reflexivity. }
    assert (Hold' : ∀ i x, D !! i = Some x →
              sound_section h' x.1 x.2 ∧ sections h !! x.1 ≠ None).
    { intros i x Hx. destruct (Hsec i x Hx) as [Hl Hlast]. split.
      - apply (sound_section_same h); auto; [|split; assumption].
        intros sr0 Hsr0. destruct (Hold _ _ Hsr0) as (sr' & ? & _ & ? & ?). eauto.
      - destruct (sections h !! x.1); [discriminate|]. discriminate. }
    exists h', (D ++ [(S, [])]), S. repeat apply conj.
    * exact Hcall.
    * split.
      -- rewrite fmap_app. exact Hsound'.
      -- intros i x Hx. apply lookup_app_Some in Hx as [Hx|[_ Hx]].
         ++ apply (Hold' i x Hx).
         ++ apply list_lookup_singleton_Some in Hx as [_ <-]. simpl.
            split; [unfold key_list; rewrite Hsr, HF; reflexivity|].
            rewrite Hsr. simpl. rewrite HL. reflexivity.
      -- intros i j x y k Hx Hy Hij Hk.
         apply lookup_app_Some in Hx as [Hx|[_ Hx]];
           apply lookup_app_Some in Hy as [Hy|[_ Hy]].
         ++ apply (Hdis i j x y k); assumption.
         ++ apply list_lookup_singleton_Some in Hy as [_ <-]. simpl. apply not_elem_of_nil.
         ++ apply list_lookup_singleton_Some in Hx as [_ <-]. simpl in Hk. inversion Hk.
         ++ apply list_lookup_singleton_Some in Hx as [_ <-]. simpl in Hk. inversion Hk.
      -- apply Forall2_app.
         ++ apply Forall2_same_length_lookup_2; [eapply Forall2_length; exact Hcont|].
            intros i x y Hx Hy.
            destruct (Forall2_lookup_lr _ _ _ _ _ _ Hcont Hx Hy) as [Hn He]. split.
            ** destruct (sections h !! x.1) as [sr0|] eqn:Hsr0; [|discriminate].
               destruct (Hold _ _ Hsr0) as (sr' & -> & Hn' & _). simpl in *.
               rewrite Hn'. exact Hn.
            ** eapply Forall2_impl; [exact He|]. intros k e Hke. unfold entry_of in *.
               rewrite Hkeys. exact Hke.
         ++ constructor; [|constructor]. simpl. split; [|constructor].
            rewrite Hsr. simpl. rewrite Hname. reflexivity.
    * simpl. rewrite fmap_app. rewrite lookup_app_r; rewrite length_fmap;
        rewrite (Forall2_length _ _ _ Hcont); [|lia].
      rewrite Nat.sub_diag. reflexivity.
    * rewrite !length_app. cbn [length]. rewrite (Forall2_length _ _ _ Hcont). reflexivity.
    * rewrite length_app. cbn [length]. rewrite (Forall2_length _ _ _ Hcont). lia.
Qed.

Lemma ULONG_wcslen_of (s : list Z) :
  is_empty s = false → wcslen_of s < 2 ^ 32 - 1 → ULONG (wcslen_of s) ≠ 0.
Proof.
  intros He Hl. pose proof (is_empty_wcslen_of _ He). unfold wcslen_of in *.
  rewrite ULONG_small; lia.
Qed.

Lemma IniAddKey_rep h Cache D d i s Name Data :
  store_rep h Cache D d → D.*1 !! i = Some s → allocations_succeed 3 h →
  is_empty Name = false → is_empty Data = false →
  wcslen_of Name < 2 ^ 32 - 1 → wcslen_of Data < 2 ^ 32 - 1 →
  ∃ h' D' Key,
    IniAddKey (Some s) (Some Name) (Some Data) h = Ok (Some Key, h') ∧
    store_rep h' Cache D' (set_key d i (cstring Name) (cstring Data)) ∧
    D'.*1 = D.*1.
Proof.
  intros Hrep Hs Hal HeN HeD HlN HlD.
  destruct (IniCacheAddKeyAorW_rep h Cache D d s i (pointer_of Name) (ULONG (wcslen_of Name))
              (pointer_of Data) (ULONG (wcslen_of Data)) true (cstring Name) (cstring Data)
              Hrep Hal Hs (ULONG_wcslen_of _ HeN HlN) (ULONG_wcslen_of _ HeD HlD)
              (CopyAorW_pointer_of _ HlN) (CopyAorW_pointer_of _ HlD))
    as (h' & D' & Key & Hcall & Hrep' & HD' & _).
  exists h', D', Key. unfold IniAddKey, IniInsertKey. rewrite HeN, HeD. cbn [orb]. cbv iota.
  auto.
Qed.

(** X6. [IniAddKey] on a section of a well-formed cache, with non-empty
    name and value, each shorter than 2^32 - 1 characters (so that its
    copy stays within its block), when the allocations succeed: it returns
    a key, the cache stays well formed with the same sections in the same
    order, and its contents change in that section only: the first key
    that bears the name (case folded) gets the value and keeps its place
    and its spelling, or else the pair goes to the end of the section. *)
Theorem IniAddKey_on_contents (h : heap) (Cache : positive)
    (D : list (positive * list positive)) (d : list (WSTR * list (WSTR * WSTR)))
    (i : nat) (s : positive) (Name Data : list Z) :
  store_rep h Cache D d → D.*1 !! i = Some s → allocations_succeed 3 h →
  is_empty Name = false → is_empty Data = false →
  wcslen_of Name < 2 ^ 32 - 1 → wcslen_of Data < 2 ^ 32 - 1 →
  ∃ h' D' Key n es,
    IniAddKey (Some s) (Some Name) (Some Data) h = Ok (Some Key, h') ∧
    store_rep h' Cache D' (<[i := (n, set_value es (cstring Name) (cstring Data))]> d) ∧
    contents h' Cache = Some (<[i := (n, set_value es (cstring Name) (cstring Data))]> d) ∧
    d !! i = Some (n, es) ∧
    D'.*1 = D.*1.
Proof.
  intros Hrep Hs Hal HeN HeD HlN HlD.
  destruct (IniAddKey_rep h Cache D d i s Name Data Hrep Hs Hal HeN HeD HlN HlD)
    as (h' & D' & Key & Hcall & Hrep' & HD').
  assert (Hd : ∃ n es, d !! i = Some (n, es)).
  { rewrite list_lookup_fmap in Hs. destruct (D !! i) as [x|] eqn:Hx; [|discriminate].
    destruct (Forall2_lookup_l _ _ _ _ _ (rep_contents _ _ _ _ Hrep) Hx) as ([n es] & Hd & _).
    eauto. }
  destruct Hd as (n & es & Hd).
  assert (Hset : set_key d i (cstring Name) (cstring Data)
                 = <[i := (n, set_value es (cstring Name) (cstring Data))]> d).
  { unfold set_key. apply list_eq. intros j. destruct (decide (j = i)) as [->|Hne].
    - rewrite list_lookup_alter_eq, Hd.
      rewrite list_lookup_insert_eq by (eapply lookup_lt_Some; exact Hd). reflexivity.
    - rewrite list_lookup_alter_ne, list_lookup_insert_ne by congruence. reflexivity. }
  rewrite Hset in Hrep'. exists h', D', Key, n, es.
  repeat apply conj; auto. apply (store_rep_contents _ _ _ _ Hrep').
Qed.

Lemma set_value_first (es : list (WSTR * WSTR)) (k k2 v : WSTR) :
  folded k2 = folded k →
  ∃ j n, find_index (λ e, bears k2 (fst e)) (set_value es k v) = Some j ∧
         set_value es k v !! j = Some (n, v).
Proof.
  intros Hf.
  assert (Hb : ∀ x, bears k2 x = bears k x).
  { intros x. unfold bears. apply folded_matches. exact Hf. }
  induction es as [|e es IH]; cbn [set_value].
  - exists 0%nat, k. cbn [find_index fst]. rewrite Hb.
    assert (Hkk : bears k k = true).
    { unfold bears. apply Z.eqb_eq, _wcsicmp_folded. reflexivity. }
    rewrite Hkk. split; reflexivity.
  - destruct (bears k (fst e)) eqn:He.
    + exists 0%nat, (fst e). cbn [find_index fst]. rewrite Hb, He. split; reflexivity.
    + destruct IH as (j & n & Hj & Hn). exists (S j), n. cbn [find_index].
      rewrite Hb, He, Hj. split; [reflexivity|exact Hn].
Qed.

(** X7. What [IniAddKey] stores, [IniGetKey] finds: after a successful
    [IniAddKey] of a name and a value, each shorter than 2^32 - 1
    characters, in a section of a well-formed cache, [IniGetKey] on that
    section with the same name in any letter case returns STATUS_SUCCESS
    and that value (up to its first NUL). *)
Theorem IniAddKey_then_IniGetKey (h : heap) (Cache : positive)
    (D : list (positive * list positive)) (d : list (WSTR * list (WSTR * WSTR)))
    (i : nat) (s : positive) (Name Data Name2 : list Z) (KeyData : option WSTR) :
  store_rep h Cache D d → D.*1 !! i = Some s → allocations_succeed 3 h →
  is_empty Name = false → is_empty Data = false →
  wcslen_of Name < 2 ^ 32 - 1 → wcslen_of Data < 2 ^ 32 - 1 →
  folded Name2 = folded Name →
  ∃ h' Key,
    IniAddKey (Some s) (Some Name) (Some Data) h = Ok (Some Key, h') ∧
    IniGetKey (Some s) (Some Name2) (Some KeyData) h'
    = Ok ((STATUS_SUCCESS, Some (Some (cstring Data))), h').
Proof.
  intros Hrep Hs Hal HeN HeD HlN HlD Hfold.
  destruct (IniAddKey_rep h Cache D d i s Name Data Hrep Hs Hal HeN HeD HlN HlD)
    as (h' & D' & Key & Hcall & Hrep' & HD').
  exists h', Key. split; [exact Hcall|].
  rewrite <- HD', list_lookup_fmap in Hs.
  destruct (D' !! i) as [[s' ks']|] eqn:Hx; [|discriminate]. cbn in Hs. injection Hs as ->.
  destruct (Forall2_lookup_l _ _ _ _ _ (rep_contents _ _ _ _ Hrep') Hx)
    as ([n es'] & Hd' & Hn & He). cbn [fst snd] in Hn, He.
  pose proof (rep_sections _ _ _ _ Hrep' i _ Hx) as [Hkl _]. cbn [fst snd] in Hkl.
  assert (Hes' : ∃ es, es' = set_value es (cstring Name) (cstring Data)).
  { unfold set_key in Hd'. destruct (d !! i) as [[n0 es]|] eqn:Hd.
    - rewrite list_lookup_alter_eq, Hd in Hd'. cbn in Hd'. injection Hd' as _ <-. eauto.
    - rewrite list_lookup_alter_eq, Hd in Hd'. discriminate. }
  destruct Hes' as [es ->].
  destruct (set_value_first es (cstring Name) Name2 (cstring Data)) as (j & n' & Hj & Hn').
  { rewrite folded_cstring. exact Hfold. }
  pose proof (find_index_Forall2 _ (key_matches (keys h') Name2)
                (λ e : WSTR * WSTR, bears Name2 (fst e)) ks' _ He
                (λ k e, entry_matches h' Name2 k e)) as Hfind.
  rewrite Hj in Hfind. destruct Hfind as (a & b & Ha & Hb & _ & Hfound).
  rewrite Hn' in Hb. injection Hb as <-.
  pose proof (Forall2_lookup_lr _ _ _ _ _ _ He Ha Hn') as Hent. cbv beta in Hent.
  unfold entry_of in Hent. destruct (keys h' !! a) as [kr|] eqn:Hkr; [|discriminate].
  injection Hent as _ Hdata.
  unfold IniGetKey.
  erewrite bind_Ok by (apply (IniCacheFindKey_first h' s Name2 ks' Hkl)).
  rewrite Hfound.
  erewrite bind_Ok by (unfold read_key; rewrite Hkr; reflexivity).
  rewrite Hdata. reflexivity.
Qed.

(** X8. [IniCacheCreate] returns a new, well-formed, empty cache at an
    address that was free, and changes nothing else; destroying that
    cache gives back the keys, sections and caches of before. When the
    allocation fails it returns NULL and leaves the store as it was. *)
Theorem IniCacheCreate_then_Destroy (h : heap) :
  if hd true (allocs h) then
    ∃ Cache h',
      IniCacheCreate h = Ok (Some Cache, h') ∧
      caches h !! Cache = None ∧
      store_rep h' Cache [] [] ∧ contents h' Cache = Some [] ∧
      keys h' = keys h ∧ sections h' = sections h ∧
      (∀ c, c ≠ Cache → caches h' !! c = caches h !! c) ∧
      ∃ h'', IniCacheDestroy (Some Cache) h' = Ok (tt, h'') ∧ same_store h h''
  else
    ∃ h', IniCacheCreate h = Ok (None, h') ∧ same_store h h'.
Proof.
  unfold IniCacheCreate. erewrite bind_Ok by reflexivity.
  destruct (hd true (allocs h)); cbn [negb]; cbv iota.
  - set (Cache := fresh (dom (caches h))).
    assert (Hfree : caches h !! Cache = None) by apply not_elem_of_dom, is_fresh.
    pose proof (store_rep_new_cache h (tl (allocs h))) as Hrep. fold Cache in Hrep.
    eexists Cache, _. split; [reflexivity|]. split; [exact Hfree|].
    split; [exact Hrep|]. split; [exact (store_rep_contents _ _ _ _ Hrep)|].
    split; [reflexivity|]. split; [reflexivity|]. split.
    { intros c Hc. hsimpl. apply lookup_insert_ne. intros Heq. apply Hc. symmetry. exact Heq. }
    eexists. split.
    + apply (IniCacheDestroy_loop_frees _ Cache []); [|constructor].
      apply node_lists_intro; [apply Hrep|constructor].
    + unfold same_store, without. cbn [keys sections caches fmap list_fmap concat foldr].
      hsimpl. rewrite delete_insert_eq, (delete_id _ _ Hfree). auto.
  - eexists. split; [reflexivity|]. unfold same_store. hsimpl. auto.
Qed.

(** X9. [IniAddSection] with a non-empty name, shorter than 2^32 - 1
    characters, on a well-formed cache, when the allocations succeed: the
    cache stays well formed; when a section bears the name (case folded)
    the contents are unchanged and the first such section is returned,
    otherwise a section without keys, named as given up to the first NUL,
    is added after the others and returned. *)
Theorem IniAddSection_on_contents (h : heap) (Cache : positive)
    (D : list (positive * list positive)) (d : list (WSTR * list (WSTR * WSTR)))
    (Name : list Z) :
  store_rep h Cache D d → allocations_succeed 2 h →
  is_empty Name = false → wcslen_of Name < 2 ^ 32 - 1 →
  ∃ h' D' S',
    IniAddSection (Some Cache) (Some Name) h = Ok (Some S', h') ∧
    store_rep h' Cache D' (fst (add_section d (cstring Name))) ∧
    contents h' Cache = Some (fst (add_section d (cstring Name))) ∧
    D'.*1 !! snd (add_section d (cstring Name)) = Some S' ∧
    match find_index (λ s, bears (cstring Name) (fst s)) d with
    | Some i => add_section d (cstring Name) = (d, i)
    | None => add_section d (cstring Name) = (d ++ [(cstring Name, [])], length d)
    end.
Proof.
  intros Hrep Hal He Hl.
  destruct (IniCacheAddSectionAorW_rep h Cache D d (pointer_of Name) (ULONG (wcslen_of Name))
              true (cstring Name) Hrep Hal (ULONG_wcslen_of _ He Hl)
              (CopyAorW_pointer_of _ Hl))
    as (h' & D' & S' & Hcall & Hrep' & HS' & _).
  exists h', D', S'. unfold IniAddSection. rewrite He.
  repeat apply conj; auto.
  - apply (store_rep_contents _ _ _ _ Hrep').
  - unfold add_section. destruct (find_index _ d); reflexivity.
Qed.

End Mutators.

(** ** The place of a new key *)

Section Placement.

Lemma chain_of_links {R} (next : R → option positive) (m : gmap positive R) l :
  (∀ i k, l !! i = Some k → ∃ r, m !! k = Some r ∧ next r = l !! S i) →
  chain next m (head l) l.
Proof.
  induction l as [|a l IH]; intros Hl; [reflexivity|].
  cbn [head chain]. split; [reflexivity|].
  destruct (Hl 0%nat a eq_refl) as (r & Hr & Hn). exists r. split; [exact Hr|].
  assert (Hh : (a :: l) !! 1%nat = head l) by (destruct l; reflexivity).
  rewrite Hn, Hh. apply IH. intros i k Hk. apply (Hl (S i) k Hk).
Qed.

Lemma well_linked_sound h Section ks : well_linked h Section ks → sound_section h Section ks.
Proof.
  intros (_ & (sr & Hs & Hf & Hl) & Hk). split.
  - apply (chain_key_list h Section sr ks Hs). rewrite Hf. apply chain_of_links.
    intros i k Hi. destruct (Hk i k Hi) as (kr & Hkr & Hn & _). eauto.
  - rewrite Hs. cbn. rewrite Hl. reflexivity.
Qed.

Lemma lookup_splice {A} (l : list A) (p : nat) (a : A) (i : nat) :
  (p ≤ length l)%nat →
  (take p l ++ a :: drop p l) !! i
  = if decide (i < p)%nat then l !! i
    else if decide (i = p) then Some a else l !! (i - 1)%nat.
Proof.
  intros Hp. destruct (decide (i < p)%nat) as [Hlt|Hge].
  - rewrite lookup_app_l by (rewrite length_take; lia). apply lookup_take_lt. exact Hlt.
  - rewrite lookup_app_r by (rewrite length_take; lia). rewrite length_take.
    replace (i - p `min` length l)%nat with (i - p)%nat by lia.
    destruct (decide (i = p)) as [->|Hne].
    + rewrite Nat.sub_diag. reflexivity.
    + destruct (i - p)%nat as [|j] eqn:Hj; [lia|].
      change ((a :: drop p l) !! S j) with (drop p l !! j). rewrite lookup_drop. f_equal. lia.
Qed.

Lemma head_splice {A} (l : list A) (p : nat) (a : A) :
  (p ≤ length l)%nat →
  head (take p l ++ a :: drop p l) = match p with O => Some a | S _ => head l end.
Proof.
  intros Hp. destruct p as [|p]; [reflexivity|]. destruct l as [|b l]; [cbn in Hp; lia|].
  reflexivity.
Qed.

Lemma last_splice {A} (l : list A) (p : nat) (a : A) :
  (p ≤ length l)%nat →
  last (take p l ++ a :: drop p l) = if decide (p = length l) then Some a else last l.
Proof.
  intros Hp. destruct (decide (p = length l)) as [->|Hne].
  - rewrite drop_all. apply last_snoc.
  - rewrite last_app. destruct (drop p l) as [|b t] eqn:Hd.
    + apply (f_equal length) in Hd. rewrite length_drop in Hd. cbn in Hd. lia.
    + rewrite last_cons_cons. pose proof (f_equal last (take_drop p l)) as Hlast.
      rewrite Hd, last_app in Hlast. exact Hlast.
Qed.

(** The list with a new key spliced in at [p] is well linked when the new
    key points to its two neighbours, they point to it, and nothing else
    has changed. *)
Lemma well_linked_splice h h' Section ks p Key :
  well_linked h Section ks → (p ≤ length ks)%nat → Key ∉ ks →
  (∃ sr', sections h' !! Section = Some sr' ∧
          FirstKey sr' = match p with O => Some Key | S _ => head ks end ∧
          LastKey sr' = if decide (p = length ks) then Some Key else last ks) →
  (∃ kr', keys h' !! Key = Some kr' ∧ key_Next kr' = ks !! p ∧
          key_Prev kr' = match p with O => None | S j => ks !! j end) →
  (∀ j k kr, ks !! j = Some k → keys h !! k = Some kr →
             ∃ kr', keys h' !! k = Some kr' ∧
                    key_Next kr' = (if decide (S j = p) then Some Key else key_Next kr) ∧
                    key_Prev kr' = (if decide (j = p) then Some Key else key_Prev kr)) →
  well_linked h' Section (take p ks ++ Key :: drop p ks).
Proof.
  intros (Hnd & _ & Hk) Hp HKey Hsec Hnew Hold. split; [|split].
  - pose proof Hnd as Hnd'. rewrite <- (take_drop p ks) in Hnd'.
    apply NoDup_app in Hnd' as (Ht & Hd & Hdr).
    apply NoDup_app. repeat apply conj.
    + exact Ht.
    + intros x Hx Hx'. apply elem_of_cons in Hx' as [->|Hx'].
      * apply HKey. apply (subseteq_take p ks). exact Hx.
      * exact (Hd x Hx Hx').
    + apply NoDup_cons. split; [|exact Hdr].
      intros Hin. apply HKey. apply (subseteq_drop p ks). exact Hin.
  - destruct Hsec as (sr' & Hs & Hf & Hl). exists sr'. split; [exact Hs|].
    rewrite head_splice, last_splice by exact Hp. auto.
  - intros i k Hi. rewrite lookup_splice in Hi by exact Hp.
    rewrite lookup_splice by exact Hp.
    destruct (decide (i < p)%nat) as [Hlt|Hge].
    + destruct (Hk i k Hi) as (kr & Hkr & Hn & Hpv).
      destruct (Hold i k kr Hi Hkr) as (kr' & Hkr' & Hn' & Hpv').
      exists kr'. split; [exact Hkr'|]. rewrite Hn', Hpv'.
      destruct (decide (i = p)) as [->|_]; [lia|]. rewrite Hpv. split.
      * destruct (decide (S i = p)) as [<-|Hne].
        -- destruct (decide (S i < S i)%nat); [lia|]. destruct (decide (S i = S i)); [|lia].
           reflexivity.
        -- destruct (decide (S i < p)%nat); [exact Hn|lia].
      * destruct i as [|j]; [reflexivity|]. rewrite lookup_splice by exact Hp.
        destruct (decide (j < p)%nat); [reflexivity|lia].
    + destruct (decide (i = p)) as [->|Hne].
      * injection Hi as <-. destruct Hnew as (kr' & Hkr' & Hn' & Hpv').
        exists kr'. split; [exact Hkr'|]. rewrite Hn', Hpv'.
        destruct (decide (S p < p)%nat); [lia|]. destruct (decide (S p = p)); [lia|].
        replace (S p - 1)%nat with p by lia. split; [reflexivity|].
        destruct p as [|j]; [reflexivity|]. rewrite lookup_splice by exact Hp.
        destruct (decide (j < S j)%nat); [reflexivity|lia].
      * destruct i as [|i]; [lia|]. replace (S i - 1)%nat with i in Hi by lia.
        destruct (Hk i k Hi) as (kr & Hkr & Hn & Hpv).
        destruct (Hold i k kr Hi Hkr) as (kr' & Hkr' & Hn' & Hpv').
        exists kr'. split; [exact Hkr'|]. rewrite Hn', Hpv'.
        destruct (decide (S i = p)); [lia|].
        destruct (decide (S (S i) < p)%nat); [lia|].
        destruct (decide (S (S i) = p)); [lia|].
        replace (S (S i) - 1)%nat with (S i) by lia. split; [exact Hn|].
        rewrite lookup_splice by exact Hp.
        destruct (decide (i = p)) as [->|Hip].
        -- destruct (decide (p < p)%nat); [lia|]. destruct (decide (p = p)); [|lia].
           reflexivity.
        -- destruct (decide (i < p)%nat); [lia|]. destruct (decide (i = p)); [lia|].
           rewrite Hpv. destruct i as [|j]; [lia|]. f_equal. lia.
Qed.

Lemma write_key_Ok p f h k :
  keys h !! p = Some k → write_key p f h = Ok (tt, set_keys (<[p := f k]> (keys h)) h).
Proof. unfold write_key. intros ->. reflexivity. Qed.

Lemma write_section_Ok p f h s :
  sections h !! p = Some s →
  write_section p f h = Ok (tt, set_sections (<[p := f s]> (sections h)) h).
Proof. unfold write_section. intros ->. reflexivity. Qed.

Lemma entry_of_insert h (ks' : gmap positive INI_KEYWORD) k kr kr' :
  keys h !! k = Some kr → key_Name kr' = key_Name kr → key_Data kr' = key_Data kr →
  ∀ a, match <[k := kr']> ks' !! a with
       | Some x => Some (key_Name x, key_Data x)
       | None => None
       end
       = if decide (a = k) then entry_of h k
         else match ks' !! a with
              | Some x => Some (key_Name x, key_Data x)
              | None => None
              end.
Proof.
  intros Hk Hn Hd a. destruct (decide (a = k)) as [->|Hne].
  - rewrite lookup_insert_eq. unfold entry_of. rewrite Hk, Hn, Hd. reflexivity.
  - rewrite lookup_insert_ne by congruence. reflexivity.
Qed.

Lemma well_linked_lookup_inj h Section ks i j k :
  well_linked h Section ks → ks !! i = Some k → ks !! j = Some k → i = j.
Proof. intros (Hnd & _) Hi Hj. eapply NoDup_lookup; eassumption. Qed.

(** The first branch: the section has no key. *)
Lemma InsertKeyIntoSection_empty h Section sr Key knew AnchorKey InsertionType :
  well_linked h Section [] → sections h !! Section = Some sr →
  keys h !! Key = Some knew → key_Next knew = None → key_Prev knew = None →
  ∃ h', InsertKeyIntoSection Section sr Key AnchorKey InsertionType h = Ok (tt, h') ∧
        well_linked h' Section [Key] ∧ key_frame h h' Section [] Key.
Proof.
  intros (_ & (sr0 & Hs0 & Hf & Hl) & _) Hs HK HKn HKp.
  rewrite Hs in Hs0. injection Hs0 as <-. cbn [head last] in Hf, Hl.
  unfold InsertKeyIntoSection. rewrite Hf. cbn [ptr_eqb].
  rewrite (write_section_Ok _ _ _ _ Hs). eexists. split; [reflexivity|]. split.
  - split; [apply NoDup_singleton|]. split.
    + eexists. hsimpl. rewrite lookup_insert_eq. split; [reflexivity|]. split; reflexivity.
    + intros [|i] k Hi; [|discriminate]. injection Hi as <-. exists knew. hsimpl. auto.
  - unfold key_frame. hsimpl. repeat apply conj; try reflexivity.
    + intros s Hne. apply lookup_insert_ne. congruence.
    + intros sr1 Hs1. rewrite Hs in Hs1. injection Hs1 as <-. eexists.
      rewrite lookup_insert_eq. split; [reflexivity|]. auto.
Qed.

(** "Insert at the head of the list". *)
Lemma InsertKeyIntoSection_head h Section sr ks Key knew :
  well_linked h Section ks → ks ≠ [] → sections h !! Section = Some sr →
  keys h !! Key = Some knew → key_Next knew = None → key_Prev knew = None →
  Key ∉ ks →
  ∃ h', (First <~ nonnull (FirstKey sr) ;;
         _ <~ write_key First (with_key_Prev (Some Key)) ;;
         _ <~ write_key Key (with_key_Next (FirstKey sr)) ;;
         write_section Section (with_FirstKey (Some Key))) h = Ok (tt, h') ∧
        well_linked h' Section (take 0 ks ++ Key :: drop 0 ks) ∧
        key_frame h h' Section ks Key.
Proof.
  intros Hwl Hne Hs HK HKn HKp HKks.
  pose proof Hwl as (Hnd & (sr0 & Hs0 & Hf & Hl) & Hk).
  rewrite Hs in Hs0. injection Hs0 as <-.
  destruct ks as [|k0 ks0]; [congruence|]. cbn [head] in Hf.
  destruct (Hk 0%nat k0 eq_refl) as (kr0 & Hk0 & _ & Hp0).
  assert (HK0 : Key ≠ k0) by (intros ->; apply HKks; left).
  rewrite Hf. erewrite bind_Ok by reflexivity.
  erewrite bind_Ok by (apply write_key_Ok; exact Hk0).
  erewrite bind_Ok
    by (apply write_key_Ok; hsimpl; rewrite lookup_insert_ne by congruence; exact HK).
  rewrite (write_section_Ok _ _ _ sr) by (hsimpl; exact Hs).
  eexists. split; [reflexivity|]. split.
  - apply (well_linked_splice h _ Section (k0 :: ks0) 0 Key Hwl); [cbn; lia|exact HKks| | |].
    + eexists. hsimpl. rewrite lookup_insert_eq. split; [reflexivity|].
      cbn [FirstKey LastKey with_FirstKey]. split; [reflexivity|].
      destruct (decide (0%nat = length (k0 :: ks0))) as [Hz|_]; [discriminate Hz|exact Hl].
    + eexists. hsimpl. rewrite lookup_insert_eq. split; [reflexivity|].
      cbn [key_Next key_Prev with_key_Next]. auto.
    + intros j k kr Hj Hkr. hsimpl.
      assert (HkK : k ≠ Key).
      { intros ->. apply HKks. eapply list_elem_of_lookup_2. exact Hj. }
      rewrite lookup_insert_ne by congruence. destruct j as [|j].
      * injection Hj as <-. rewrite lookup_insert_eq. eexists. split; [reflexivity|].
        rewrite Hk0 in Hkr. injection Hkr as <-. cbn [key_Next key_Prev with_key_Prev].
        split; reflexivity.
      * assert (Hk0' : k ≠ k0).
        { intros ->. pose proof (well_linked_lookup_inj _ _ _ (S j) 0%nat _ Hwl Hj eq_refl). lia. }
        rewrite lookup_insert_ne by congruence. exists kr. split; [exact Hkr|].
        split; reflexivity.
  - unfold key_frame. hsimpl. repeat apply conj; try reflexivity.
    + intros s Hns. apply lookup_insert_ne. congruence.
    + intros sr1 Hs1. rewrite Hs in Hs1. injection Hs1 as <-. eexists.
      rewrite lookup_insert_eq. split; [reflexivity|]. auto.
    + intros k. unfold entry_of. hsimpl.
      rewrite (entry_of_insert h _ Key knew (with_key_Next (Some k0) knew) HK eq_refl eq_refl).
      destruct (decide (k = Key)) as [->|_]; [reflexivity|].
      rewrite (entry_of_insert h _ k0 kr0 (with_key_Prev (Some Key) kr0) Hk0 eq_refl eq_refl).
      destruct (decide (k = k0)) as [->|_]; reflexivity.
    + intros k Hk1 Hk2. rewrite !lookup_insert_ne; [reflexivity| |congruence].
      intros ->. apply Hk1. left.
Qed.

Lemma key_frame_keys h h' Section ks Key :
  sections h' = sections h → caches h' = caches h → allocs h' = allocs h →
  (∀ k, entry_of h' k = entry_of h k) →
  (∀ k, k ∉ ks → k ≠ Key → keys h' !! k = keys h !! k) →
  key_frame h h' Section ks Key.
Proof.
  intros Hsec Hc Ha He Hk. unfold key_frame. rewrite Hsec.
  repeat apply conj; auto. intros sr Hs. exists sr. auto.
Qed.

(** The branch of INSERT_LAST. *)
Lemma InsertKeyIntoSection_tail h Section sr ks Key knew :
  well_linked h Section ks → ks ≠ [] → sections h !! Section = Some sr →
  keys h !! Key = Some knew → key_Next knew = None → key_Prev knew = None →
  Key ∉ ks →
  ∃ h', (Last <~ nonnull (LastKey sr) ;;
         _ <~ write_key Last (with_key_Next (Some Key)) ;;
         _ <~ write_key Key (with_key_Prev (LastKey sr)) ;;
         write_section Section (with_LastKey (Some Key))) h = Ok (tt, h') ∧
        well_linked h' Section (take (length ks) ks ++ Key :: drop (length ks) ks) ∧
        key_frame h h' Section ks Key.
Proof.
  intros Hwl Hne Hs HK HKn HKp HKks.
  pose proof Hwl as (Hnd & (sr0 & Hs0 & Hf & Hl) & Hk).
  rewrite Hs in Hs0. injection Hs0 as <-.
  destruct (last ks) as [kl|] eqn:Hlast; [|apply last_None in Hlast; congruence].
  pose proof Hlast as Hil. rewrite last_lookup in Hil.
  assert (Hlen : (0 < length ks)%nat) by (destruct ks; [congruence|cbn; lia]).
  destruct (Hk _ kl Hil) as (krl & Hkl & Hnl & Hpl).
  assert (HKl : Key ≠ kl).
  { intros ->. apply HKks. eapply list_elem_of_lookup_2. exact Hil. }
  rewrite Hl. erewrite bind_Ok by reflexivity.
  erewrite bind_Ok by (apply write_key_Ok; exact Hkl).
  erewrite bind_Ok
    by (apply write_key_Ok; hsimpl; rewrite lookup_insert_ne by congruence; exact HK).
  rewrite (write_section_Ok _ _ _ sr) by (hsimpl; exact Hs).
  eexists. split; [reflexivity|]. split.
  - apply (well_linked_splice h _ Section ks (length ks) Key Hwl); [lia|exact HKks| | |].
    + eexists. hsimpl. rewrite lookup_insert_eq. split; [reflexivity|].
      cbn [FirstKey LastKey with_LastKey]. split.
      * destruct (length ks); [lia|exact Hf].
      * destruct (decide (length ks = length ks)); [reflexivity|congruence].
    + eexists. hsimpl. rewrite lookup_insert_eq. split; [reflexivity|].
      cbn [key_Next key_Prev with_key_Prev]. split.
      * rewrite HKn. symmetry. apply lookup_ge_None. lia.
      * destruct (length ks) as [|n] eqn:Hn; [lia|]. cbn [pred] in Hil. rewrite Hil.
        reflexivity.
    + intros j k kr Hj Hkr. hsimpl.
      assert (HkK : k ≠ Key).
      { intros ->. apply HKks. eapply list_elem_of_lookup_2. exact Hj. }
      assert (Hjlt : (j < length ks)%nat) by (eapply lookup_lt_Some; exact Hj).
      rewrite lookup_insert_ne by congruence.
      destruct (decide (j = length ks)) as [?|_]; [lia|].
      destruct (decide (S j = length ks)) as [Hj'|Hj'].
      * assert (k = kl) as ->.
        { replace (pred (length ks)) with j in Hil by lia. congruence. }
        rewrite lookup_insert_eq. eexists. split; [reflexivity|].
        rewrite Hkl in Hkr. injection Hkr as <-. split; reflexivity.
      * assert (Hkl' : k ≠ kl).
        { intros ->. pose proof (well_linked_lookup_inj _ _ _ _ _ _ Hwl Hj Hil). lia. }
        rewrite lookup_insert_ne by congruence. exists kr. auto.
  - unfold key_frame. hsimpl. repeat apply conj; try reflexivity.
    + intros s Hns. apply lookup_insert_ne. congruence.
    + intros sr1 Hs1. rewrite Hs in Hs1. injection Hs1 as <-. eexists.
      rewrite lookup_insert_eq. split; [reflexivity|]. auto.
    + intros k. unfold entry_of. hsimpl.
      rewrite (entry_of_insert h _ Key knew (with_key_Prev (Some kl) knew) HK eq_refl eq_refl).
      destruct (decide (k = Key)) as [->|_]; [reflexivity|].
      rewrite (entry_of_insert h _ kl krl (with_key_Next (Some Key) krl) Hkl eq_refl eq_refl).
      destruct (decide (k = kl)) as [->|_]; reflexivity.
    + intros k Hk1 Hk2. rewrite !lookup_insert_ne; [reflexivity| |congruence].
      intros ->. apply Hk1. eapply list_elem_of_lookup_2. exact Hil.
Qed.

(** "Insert before the anchor key", the anchor being a key of the list
    other than the first. *)
Lemma InsertKeyIntoSection_middle_before h Section sr ks Key knew an i :
  well_linked h Section ks → sections h !! Section = Some sr →
  keys h !! Key = Some knew → key_Next knew = None → key_Prev knew = None →
  Key ∉ ks → ks !! S i = Some an →
  ∃ h', (Anchor <~ nonnull (Some an) ;;
         _ <~ write_key Key (with_key_Next (Some an)) ;;
         a <~ read_key Anchor ;;
         _ <~ write_key Key (with_key_Prev (key_Prev a)) ;;
         Prev <~ nonnull (key_Prev a) ;;
         _ <~ write_key Prev (with_key_Next (Some Key)) ;;
         write_key Anchor (with_key_Prev (Some Key))) h = Ok (tt, h') ∧
        well_linked h' Section (take (S i) ks ++ Key :: drop (S i) ks) ∧
        key_frame h h' Section ks Key.
Proof.
  intros Hwl Hs HK HKn HKp HKks Ha. rename an into a.
  pose proof Hwl as (Hnd & (sr0 & Hs0 & Hf & Hl) & Hk).
  rewrite Hs in Hs0. injection Hs0 as <-.
  destruct (Hk _ a Ha) as (ar & Har & Hna & Hpa).
  assert (Hilt : (S i < length ks)%nat) by (eapply lookup_lt_Some; exact Ha).
  destruct (ks !! i) as [q|] eqn:Hq; [|apply lookup_ge_None in Hq; lia].
  destruct (Hk _ q Hq) as (qr & Hqr & Hnq & Hpq).
  assert (HKa : Key ≠ a).
  { intros ->. apply HKks. eapply list_elem_of_lookup_2. exact Ha. }
  assert (HKq : Key ≠ q).
  { intros ->. apply HKks. eapply list_elem_of_lookup_2. exact Hq. }
  assert (Haq : a ≠ q).
  { intros ->. pose proof (well_linked_lookup_inj _ _ _ _ _ _ Hwl Ha Hq). lia. }
  erewrite bind_Ok by reflexivity.
  erewrite bind_Ok by (apply write_key_Ok; exact HK).
  erewrite bind_Ok
    by (unfold read_key; hsimpl; rewrite lookup_insert_ne by congruence; rewrite Har;
        reflexivity).
  erewrite bind_Ok by (apply write_key_Ok; hsimpl; apply lookup_insert_eq).
  rewrite Hpa. erewrite bind_Ok by reflexivity.
  erewrite bind_Ok
    by (apply write_key_Ok; hsimpl; rewrite !lookup_insert_ne by congruence; exact Hqr).
  rewrite (write_key_Ok _ _ _ ar)
    by (hsimpl; rewrite !lookup_insert_ne by congruence; exact Har).
  hsimpl. rewrite insert_insert_eq.
  eexists. split; [reflexivity|]. split.
  - apply (well_linked_splice h _ Section ks (S i) Key Hwl); [lia|exact HKks| | |].
    + exists sr. hsimpl. split; [exact Hs|]. split; [exact Hf|].
      destruct (decide (S i = length ks)); [lia|exact Hl].
    + eexists. hsimpl. rewrite !lookup_insert_ne by congruence. rewrite lookup_insert_eq.
      split; [reflexivity|]. cbn [key_Next key_Prev with_key_Prev with_key_Next]. auto.
    + intros j k kr Hj Hkr. hsimpl.
      assert (HkK : k ≠ Key).
      { intros ->. apply HKks. eapply list_elem_of_lookup_2. exact Hj. }
      destruct (decide (j = S i)) as [->|Hja].
      * assert (k = a) as -> by congruence. rewrite lookup_insert_eq.
        eexists. split; [reflexivity|]. rewrite Har in Hkr. injection Hkr as <-.
        destruct (decide (S (S i) = S i)); [lia|]. split; reflexivity.
      * assert (Hka : k ≠ a).
        { intros ->. pose proof (well_linked_lookup_inj _ _ _ _ _ _ Hwl Hj Ha). lia. }
        rewrite lookup_insert_ne by congruence.
        destruct (decide (S j = S i)) as [Hji|Hji].
        -- assert (k = q) as -> by (injection Hji as ->; congruence).
           rewrite lookup_insert_eq. eexists. split; [reflexivity|].
           rewrite Hqr in Hkr. injection Hkr as <-. split; reflexivity.
        -- assert (Hkq : k ≠ q).
           { intros ->. pose proof (well_linked_lookup_inj _ _ _ _ _ _ Hwl Hj Hq). lia. }
           rewrite !lookup_insert_ne by congruence. exists kr. auto.
  - apply key_frame_keys; try reflexivity.
    + intros k. unfold entry_of at 1. hsimpl.
      rewrite (entry_of_insert h _ a ar (with_key_Prev (Some Key) ar) Har eq_refl eq_refl).
      destruct (decide (k = a)) as [->|_]; [reflexivity|].
      rewrite (entry_of_insert h _ q qr (with_key_Next (Some Key) qr) Hqr eq_refl eq_refl).
      destruct (decide (k = q)) as [->|_]; [reflexivity|].
      rewrite (entry_of_insert h _ Key knew
                 (with_key_Prev (Some q) (with_key_Next (Some a) knew)) HK eq_refl eq_refl).
      destruct (decide (k = Key)) as [->|_]; reflexivity.
    + intros k Hk1 Hk2. hsimpl. rewrite !lookup_insert_ne; [reflexivity|congruence| |].
      * intros ->. apply Hk1. eapply list_elem_of_lookup_2. exact Hq.
      * intros ->. apply Hk1. eapply list_elem_of_lookup_2. exact Ha.
Qed.

(** "Insert after the anchor key", the anchor being a key of the list
    other than the last. *)
Lemma InsertKeyIntoSection_middle_after h Section sr ks Key knew an i :
  well_linked h Section ks → sections h !! Section = Some sr →
  keys h !! Key = Some knew → key_Next knew = None → key_Prev knew = None →
  Key ∉ ks → ks !! i = Some an → (S i < length ks)%nat →
  ∃ h', (Anchor <~ nonnull (Some an) ;;
         a <~ read_key Anchor ;;
         _ <~ write_key Key (with_key_Next (key_Next a)) ;;
         _ <~ write_key Key (with_key_Prev (Some an)) ;;
         Next <~ nonnull (key_Next a) ;;
         _ <~ write_key Next (with_key_Prev (Some Key)) ;;
         write_key Anchor (with_key_Next (Some Key))) h = Ok (tt, h') ∧
        well_linked h' Section (take (S i) ks ++ Key :: drop (S i) ks) ∧
        key_frame h h' Section ks Key.
Proof.
  intros Hwl Hs HK HKn HKp HKks Ha Hilt. rename an into a.
  pose proof Hwl as (Hnd & (sr0 & Hs0 & Hf & Hl) & Hk).
  rewrite Hs in Hs0. injection Hs0 as <-.
  destruct (Hk _ a Ha) as (ar & Har & Hna & Hpa).
  destruct (ks !! S i) as [q|] eqn:Hq; [|apply lookup_ge_None in Hq; lia].
  destruct (Hk _ q Hq) as (qr & Hqr & Hnq & Hpq).
  assert (HKa : Key ≠ a).
  { intros ->. apply HKks. eapply list_elem_of_lookup_2. exact Ha. }
  assert (HKq : Key ≠ q).
  { intros ->. apply HKks. eapply list_elem_of_lookup_2. exact Hq. }
  assert (Haq : a ≠ q).
  { intros ->. pose proof (well_linked_lookup_inj _ _ _ _ _ _ Hwl Ha Hq). lia. }
  erewrite bind_Ok by reflexivity.
  erewrite bind_Ok by (unfold read_key; rewrite Har; reflexivity).
  erewrite bind_Ok by (apply write_key_Ok; exact HK).
  erewrite bind_Ok by (apply write_key_Ok; hsimpl; apply lookup_insert_eq).
  rewrite Hna. erewrite bind_Ok by reflexivity.
  erewrite bind_Ok
    by (apply write_key_Ok; hsimpl; rewrite !lookup_insert_ne by congruence; exact Hqr).
  rewrite (write_key_Ok _ _ _ ar)
    by (hsimpl; rewrite !lookup_insert_ne by congruence; exact Har).
  hsimpl. rewrite insert_insert_eq.
  eexists. split; [reflexivity|]. split.
  - apply (well_linked_splice h _ Section ks (S i) Key Hwl); [lia|exact HKks| | |].
    + exists sr. hsimpl. split; [exact Hs|]. split; [exact Hf|].
      destruct (decide (S i = length ks)); [lia|exact Hl].
    + eexists. hsimpl. rewrite !lookup_insert_ne by congruence. rewrite lookup_insert_eq.
      split; [reflexivity|]. cbn [key_Next key_Prev with_key_Prev with_key_Next]. auto.
    + intros j k kr Hj Hkr. hsimpl.
      assert (HkK : k ≠ Key).
      { intros ->. apply HKks. eapply list_elem_of_lookup_2. exact Hj. }
      destruct (decide (j = S i)) as [->|Hjq].
      * assert (k = q) as -> by congruence.
        rewrite lookup_insert_ne by congruence. rewrite lookup_insert_eq.
        eexists. split; [reflexivity|]. rewrite Hqr in Hkr. injection Hkr as <-.
        destruct (decide (S (S i) = S i)); [lia|]. split; reflexivity.
      * assert (Hkq : k ≠ q).
        { intros ->. pose proof (well_linked_lookup_inj _ _ _ _ _ _ Hwl Hj Hq). lia. }
        destruct (decide (S j = S i)) as [Hji|Hji].
        -- assert (k = a) as -> by (injection Hji as ->; congruence).
           rewrite lookup_insert_eq. eexists. split; [reflexivity|].
           rewrite Har in Hkr. injection Hkr as <-. split; reflexivity.
        -- assert (Hka : k ≠ a).
           { intros ->. pose proof (well_linked_lookup_inj _ _ _ _ _ _ Hwl Hj Ha). lia. }
           rewrite !lookup_insert_ne by congruence. exists kr. auto.
  - apply key_frame_keys; try reflexivity.
    + intros k. unfold entry_of at 1. hsimpl.
      rewrite (entry_of_insert h _ a ar (with_key_Next (Some Key) ar) Har eq_refl eq_refl).
      destruct (decide (k = a)) as [->|_]; [reflexivity|].
      rewrite (entry_of_insert h _ q qr (with_key_Prev (Some Key) qr) Hqr eq_refl eq_refl).
      destruct (decide (k = q)) as [->|_]; [reflexivity|].
      rewrite (entry_of_insert h _ Key knew
                 (with_key_Prev (Some a) (with_key_Next (Some q) knew)) HK eq_refl eq_refl).
      destruct (decide (k = Key)) as [->|_]; reflexivity.
    + intros k Hk1 Hk2. hsimpl. rewrite !lookup_insert_ne; [reflexivity|congruence| |].
      * intros ->. apply Hk1. eapply list_elem_of_lookup_2. exact Hq.
      * intros ->. apply Hk1. eapply list_elem_of_lookup_2. exact Ha.
Qed.

(** [InsertKeyIntoSection] on a well-linked list, the anchor being NULL or
    a key of the list: the new key is linked in at [insertion_point]. *)
Lemma InsertKeyIntoSection_places h Section sr ks Key knew AnchorKey InsertionType anchor :
  well_linked h Section ks → sections h !! Section = Some sr →
  keys h !! Key = Some knew → key_Next knew = None → key_Prev knew = None →
  Key ∉ ks → anchor_at ks AnchorKey anchor →
  ∃ h', InsertKeyIntoSection Section sr Key AnchorKey InsertionType h = Ok (tt, h') ∧
        well_linked h' Section
          (take (insertion_point InsertionType anchor (length ks)) ks
           ++ Key :: drop (insertion_point InsertionType anchor (length ks)) ks) ∧
        key_frame h h' Section ks Key.
Proof.
  intros Hwl Hs HK HKn HKp HKks Hanc.
  destruct (decide (ks = [])) as [->|Hne].
  { rewrite take_nil, drop_nil. cbn [app].
    apply (InsertKeyIntoSection_empty h Section sr Key knew); assumption. }
  pose proof Hwl as (Hnd & (sr0 & Hs0 & Hf & Hl) & Hk).
  rewrite Hs in Hs0. injection Hs0 as <-.
  destruct ks as [|k0 ks0] eqn:Eks; [congruence|]. rewrite <- Eks in *.
  assert (Hf' : FirstKey sr = Some k0) by (rewrite Hf, Eks; reflexivity).
  destruct (last ks) as [kl|] eqn:Hlast; [|apply last_None in Hlast; congruence].
  pose proof Hlast as Hil. rewrite last_lookup in Hil.
  assert (Hlen : (0 < length ks)%nat) by (rewrite Eks; cbn; lia).
  unfold InsertKeyIntoSection.
  replace (ptr_eqb (FirstKey sr) None) with false by (rewrite Hf'; reflexivity).
  destruct InsertionType; cbn [INSERTION_TYPE_eqb orb andb].
  - (* INSERT_FIRST *)
    apply (InsertKeyIntoSection_head h Section sr ks Key knew); assumption.
  - (* INSERT_BEFORE *)
    destruct AnchorKey as [a|], anchor as [i|]; cbn [anchor_at] in Hanc; try contradiction.
    + destruct i as [|i].
      * assert (a = k0) as -> by (rewrite Eks in Hanc; injection Hanc as <-; reflexivity).
        replace (ptr_eqb (Some k0) (FirstKey sr)) with true
          by (rewrite Hf'; cbn; symmetry; apply Pos.eqb_refl).
        rewrite orb_true_r. cbn [insertion_point].
        apply (InsertKeyIntoSection_head h Section sr ks Key knew); assumption.
      * assert (Ha0 : a ≠ k0).
        { intros ->. assert (Hk0 : ks !! 0%nat = Some k0) by (rewrite Eks; reflexivity).
          pose proof (well_linked_lookup_inj _ _ _ _ _ _ Hwl Hanc Hk0). lia. }
        replace (ptr_eqb (Some a) (FirstKey sr)) with false
          by (rewrite Hf'; cbn; symmetry; apply Pos.eqb_neq; exact Ha0).
        cbn [ptr_eqb orb negb]. cbn [insertion_point].
        apply (InsertKeyIntoSection_middle_before h Section sr ks Key knew a i); assumption.
    + cbn [ptr_eqb orb insertion_point].
      apply (InsertKeyIntoSection_head h Section sr ks Key knew); assumption.
  - (* INSERT_AFTER *)
    destruct AnchorKey as [a|], anchor as [i|]; cbn [anchor_at] in Hanc; try contradiction.
    + assert (Hilt : (i < length ks)%nat) by (eapply lookup_lt_Some; exact Hanc).
      destruct (decide (S i = length ks)) as [Hi|Hi].
      * assert (a = kl) as ->.
        { replace (pred (length ks)) with i in Hil by lia. congruence. }
        replace (ptr_eqb (Some kl) (LastKey sr)) with true
          by (rewrite Hl; cbn; symmetry; apply Pos.eqb_refl).
        rewrite orb_true_r. cbn [insertion_point]. rewrite Hi.
        apply (InsertKeyIntoSection_tail h Section sr ks Key knew); assumption.
      * assert (Hal : a ≠ kl).
        { intros ->. pose proof (well_linked_lookup_inj _ _ _ _ _ _ Hwl Hanc Hil). lia. }
        replace (ptr_eqb (Some a) (LastKey sr)) with false
          by (rewrite Hl; cbn; symmetry; apply Pos.eqb_neq; exact Hal).
        cbn [ptr_eqb orb negb]. cbn [insertion_point].
        apply (InsertKeyIntoSection_middle_after h Section sr ks Key knew a i);
          try assumption. lia.
    + cbn [ptr_eqb orb insertion_point].
      apply (InsertKeyIntoSection_tail h Section sr ks Key knew); assumption.
  - (* INSERT_LAST *)
    cbn [insertion_point].
    apply (InsertKeyIntoSection_tail h Section sr ks Key knew); assumption.
Qed.

Lemma well_linked_frame h h' Section ks :
  well_linked h Section ks →
  sections h' !! Section = sections h !! Section →
  (∀ k, k ∈ ks → keys h' !! k = keys h !! k) →
  well_linked h' Section ks.
Proof.
  intros (Hnd & Hs & Hk) Hsec Hkeys. split; [exact Hnd|]. split.
  - rewrite Hsec. exact Hs.
  - intros i k Hi. rewrite Hkeys by (eapply list_elem_of_lookup_2; exact Hi).
    exact (Hk i k Hi).
Qed.

End Placement.

Section PlacementAPI.
Context `{CodePage}.

(** X10. [IniInsertKey] with a new name (name and value non-empty and
    shorter than 2^32 - 1 characters, the allocations succeeding) puts the
    key where the insertion type says, in a well-linked list whose anchor
    is NULL or one of its keys: INSERT_FIRST at the head, INSERT_LAST at
    the tail, INSERT_BEFORE just before the anchor (at the head for a NULL
    anchor), INSERT_AFTER just after it (at the tail for a NULL anchor).
    The list stays well
    linked in both directions with [FirstKey] and [LastKey] right, the new
    key holds the name and the value up to their first NUL, every other
    key keeps its name and its value, and the keys outside the list, the
    other sections and the caches are untouched. *)
Theorem IniInsertKey_places_new_key (h : heap) (Section : positive) (ks : list positive)
    (AnchorKey : option positive) (anchor : option nat) (InsertionType : INSERTION_TYPE)
    (Name Data : list Z) :
  well_linked h Section ks → anchor_at ks AnchorKey anchor →
  is_empty Name = false → is_empty Data = false →
  wcslen_of Name < 2 ^ 32 - 1 → wcslen_of Data < 2 ^ 32 - 1 →
  List.find (key_matches (keys h) Name) ks = None →
  allocations_succeed 3 h →
  ∃ Key h',
    IniInsertKey (Some Section) AnchorKey InsertionType (Some Name) (Some Data) h
    = Ok (Some Key, h') ∧
    keys h !! Key = None ∧
    well_linked h' Section
      (take (insertion_point InsertionType anchor (length ks)) ks
       ++ Key :: drop (insertion_point InsertionType anchor (length ks)) ks) ∧
    entry_of h' Key = Some (cstring Name, cstring Data) ∧
    (∀ k, k ≠ Key → entry_of h' k = entry_of h k) ∧
    (∀ k, k ∉ ks → k ≠ Key → keys h' !! k = keys h !! k) ∧
    (∀ s, s ≠ Section → sections h' !! s = sections h !! s) ∧
    caches h' = caches h.
Proof.
  intros Hwl Hanc HeN HeD HlN HlD Hfind Hal.
  pose proof (well_linked_sound _ _ _ Hwl) as [Hkl _].
  pose proof Hwl as (_ & (sr & Hs & _) & _).
  rewrite (IniInsertKey_new h Section sr ks AnchorKey InsertionType Name Data); auto.
  cbv zeta. set (Key := fresh (dom (keys h))).
  set (new := {| key_Name := cstring Name; key_Data := cstring Data;
                 key_Next := None; key_Prev := None |}).
  set (h1 := set_keys (<[Key := new]> (keys h)) (set_allocs (tl (tl (tl (allocs h)))) h)).
  pose proof (fresh_key_not_in_use h) as HK. fold Key in HK.
  assert (HKks : Key ∉ ks).
  { intros Hin. destruct (key_list_in_use _ _ _ _ Hkl Hin) as [? Hu]. congruence. }
  assert (Hwl1 : well_linked h1 Section ks).
  { apply (well_linked_frame h); [exact Hwl|reflexivity|].
    intros k Hk. unfold h1. hsimpl. apply lookup_insert_ne. intros <-. contradiction. }
  destruct (InsertKeyIntoSection_places h1 Section sr ks Key new AnchorKey InsertionType
              anchor Hwl1 Hs) as (h' & Hrun & Hwl' & Hframe); auto.
  { unfold h1. hsimpl. apply lookup_insert_eq. }
  rewrite Hrun. exists Key, h'.
  destruct Hframe as (Hc & _ & Hsec & _ & Hent & Hkeys).
  split; [reflexivity|]. split; [exact HK|]. split; [exact Hwl'|].
  split; [|split; [|split; [|split; [exact Hsec|exact Hc]]]].
  - rewrite Hent. unfold entry_of, h1. hsimpl. rewrite lookup_insert_eq. reflexivity.
  - intros k Hk. rewrite Hent. unfold entry_of, h1. hsimpl.
    rewrite lookup_insert_ne by congruence. reflexivity.
  - intros k Hk1 Hk2. rewrite (Hkeys k Hk1 Hk2). unfold h1. hsimpl.
    apply lookup_insert_ne. congruence.
Qed.

End PlacementAPI.

(** The list of the section [A] of [two_sections] is well linked. *)
Lemma two_sections_linked : well_linked two_sections 1%positive [1%positive; 2%positive].
Proof.
  split; [compute_done|]. split.
  - eexists. split; [vm_compute; reflexivity|]. split; reflexivity.
  - intros [|[|i]] k Hk; try discriminate; injection Hk as <-; eexists;
      (split; [vm_compute; reflexivity|]); split; reflexivity.
Qed.

(** The cache of [two_sections] is well formed. *)
Lemma two_sections_rep :
  store_rep two_sections 1%positive
    [(1%positive, [1%positive; 2%positive]); (2%positive, [3%positive; 4%positive])]
    [(chars "A", [(chars "x", chars "1"); (chars "y", chars "2")]);
     (chars "B", [(chars "u", chars "3"); (chars "v", chars "4")])].
Proof.
  apply store_rep_intro.
  - apply conj; vm_compute; reflexivity.
  - repeat (apply Forall_cons; apply conj; [apply conj; vm_compute; reflexivity|]).
    constructor.
  - compute_done.
  - vm_compute. reflexivity.
Qed.

(** ** What the loader makes of the lines of a file *)

Section Lines.
Context `{CodePage}.

Lemma blank_not_key_name c :
  is_blank c = true → in_key_name c = false ∧ (c =? SEMICOLON) = false.
Proof.
  unfold is_blank, in_key_name. intros Hc. apply andb_prop in Hc as [_ Hs]. rewrite Hs.
  split; [rewrite andb_false_r; reflexivity|]. unfold isspace in Hs.
  destruct (c =? SEMICOLON) eqn:Hsc; [|reflexivity]. apply Z.eqb_eq in Hsc. subst c.
  discriminate Hs.
Qed.

Lemma blank_not_equals c : is_blank c = true → c ≠ NUL.
Proof. intros Hc. apply Z.eqb_neq. apply blank_no_NUL. exact Hc. Qed.

(** A section header: blanks, an opening bracket, blanks, the name, a
    closing bracket, anything up to the end of the line. *)
Lemma contents_loop_header_line t String d cur pre ws n junk R :
  Forall (λ c, is_blank c = true) pre →
  Forall (λ c, is_blank c = true) ws →
  section_name_ok n →
  Forall (λ c, in_line c = true) junk →
  Z.of_nat (length (print_S n)) < 2 ^ 32 - 1 →
  contents_loop (S t) String d cur
    (Some (pre ++ [LBRACKET] ++ ws ++ print_S n ++ [RBRACKET] ++ junk ++ [LF] ++ R))
  = contents_loop t String (fst (add_section d n)) (Some (snd (add_section d n))) (Some R).
Proof.
  intros Hpre Hws (Hf & Hne & Hin & Hhd) Hjunk Hlen.
  pose proof (CopyAorW_printed n ([RBRACKET] ++ junk ++ [LF] ++ R) Hlen Hf) as Hcopy.
  rewrite <- (print_S_faithful n Hf) in Hin, Hhd.
  assert (Hb : print_S n ≠ []).
  { rewrite (print_S_faithful n Hf). destruct n; [congruence|discriminate]. }
  destruct (print_S n) as [|c b] eqn:Hpr; [congruence|]. clear Hb.
  assert (Hnn : Forall (λ c, c ≠ NUL) (c :: b)).
  { eapply Forall_impl; [exact Hin|]. exact in_section_name_no_NUL. }
  specialize (Hcopy Hnn).
  assert (Hd : ∃ c0, deref (pre ++ [LBRACKET] ++ ws ++ (c :: b) ++ [RBRACKET] ++ junk
                              ++ [LF] ++ R) = Ok c0 ∧ (c0 =? NUL) = false).
  { destruct Hpre as [|c0 pre Hc0 _]; simpl; eexists; (split; [reflexivity|]);
      [reflexivity|apply blank_no_NUL, Hc0]. }
  destruct Hd as (c0 & Hd & Hc0).
  cbn [contents_loop]. rewrite Hd. cbn [rbind]. rewrite Hc0.
  unfold IniCacheSkipWhitespace. rewrite skip_while_app by exact Hpre.
  cbn [app]. rewrite skip_while_stop by reflexivity. cbn [rbind deref].
  change (LBRACKET =? NUL) with false. cbv iota. cbn [rbind deref].
  change (LBRACKET =? LBRACKET) with true. cbv iota.
  unfold IniCacheGetSectionName, incr. cbn [tl].
  rewrite skip_while_app by exact Hws.
  rewrite skip_while_stop by exact Hhd. cbn [rbind].
  change (c :: b ++ RBRACKET :: junk ++ LF :: R)
    with ((c :: b) ++ RBRACKET :: junk ++ LF :: R).
  rewrite count_while_app by (try exact Hin; lia).
  rewrite count_while_stop by reflexivity. cbn [rbind tl].
  rewrite skip_while_app by exact Hjunk. rewrite skip_while_stop by reflexivity.
  cbn [rbind tl].
  unfold contents_AddSection.
  replace (0 + Z.of_nat (length (c :: b)) =? 0) with false
    by (symmetry; apply Z.eqb_neq; cbn [length]; lia).
  rewrite Z.add_0_l.
  change ([RBRACKET] ++ junk ++ [LF] ++ R) with (RBRACKET :: junk ++ LF :: R) in Hcopy.
  rewrite Hcopy. cbn [rbind]. reflexivity.
Qed.

(** The line of a key: blanks, the name, blanks, an equals sign, blanks,
    the value, CR LF. *)
Lemma contents_loop_key_line t String d i pre k ws2 ws3 v R :
  Forall (λ c, is_blank c = true) pre →
  Forall (λ c, is_blank c = true) ws2 →
  Forall (λ c, is_blank c = true) ws3 →
  key_name_ok k → value_ok v →
  hd NUL (print_S k) ≠ LBRACKET →
  (String = true → hd NUL (print_S v) ≠ DQUOTE) →
  Z.of_nat (length (print_S k)) < 2 ^ 32 - 1 →
  Z.of_nat (length (print_S v)) < 2 ^ 32 - 1 →
  contents_loop (S t) String d (Some i)
    (Some (pre ++ print_S k ++ ws2 ++ [EQUALS] ++ ws3 ++ print_S v ++ [CR; LF] ++ R))
  = contents_loop t String (set_key d i k v) (Some i) (Some R).
Proof.
  intros Hpre Hws2 Hws3 (Hfk & Hnek & Hink) (Hfv & Hnev & Hinv & Hhdv) Hbr Hq Hlk Hlv.
  pose proof (CopyAorW_printed k (ws2 ++ [EQUALS] ++ ws3 ++ print_S v ++ [CR; LF] ++ R) Hlk Hfk)
    as Hck.
  pose proof (CopyAorW_printed v ([CR; LF] ++ R) Hlv Hfv) as Hcv.
  rewrite <- (print_S_faithful k Hfk) in Hink.
  rewrite <- (print_S_faithful v Hfv) in Hinv, Hhdv.
  assert (Hbk : print_S k ≠ []).
  { rewrite (print_S_faithful k Hfk). destruct k; [congruence|discriminate]. }
  assert (Hbv : print_S v ≠ []).
  { rewrite (print_S_faithful v Hfv). destruct v; [congruence|discriminate]. }
  destruct (print_S k) as [|a kb] eqn:Hpk; [congruence|]. clear Hbk.
  destruct (print_S v) as [|b vb] eqn:Hpv; [congruence|]. clear Hbv.
  assert (Hnk : Forall (λ c, c ≠ NUL) (a :: kb)).
  { eapply Forall_impl; [exact Hink|]. exact in_key_name_no_NUL. }
  assert (Hnv : Forall (λ c, c ≠ NUL) (b :: vb)).
  { eapply Forall_impl; [exact Hinv|]. exact in_value_no_NUL. }
  specialize (Hck Hnk). specialize (Hcv Hnv).
  pose proof (Forall_inv Hink) as Ha. pose proof (Forall_inv Hnk) as Ha0.
  pose proof (Forall_inv Hnv) as Hb0.
  destruct (in_key_name_not_blank a Ha) as [Hae Hab].
  apply Z.eqb_neq in Ha0, Hb0. cbn [hd] in Hbr, Hq, Hhdv. apply Z.eqb_neq in Hbr.
  set (rest := ws2 ++ [EQUALS] ++ ws3 ++ (b :: vb) ++ [CR; LF] ++ R) in *.
  assert (Hrest : ∃ c0 rest0, rest = c0 :: rest0 ∧ in_key_name c0 = false ∧
                              (c0 =? SEMICOLON) = false).
  { unfold rest. destruct Hws2 as [|c0 ws2 Hc0 _]; cbn [app].
    - eexists _, _. split; [reflexivity|]. split; reflexivity.
    - eexists _, _. split; [reflexivity|]. apply blank_not_key_name. exact Hc0. }
  destruct Hrest as (c0 & rest0 & Hrest & Hc0k & Hc0s).
  assert (Hd : ∃ c1, deref (pre ++ (a :: kb) ++ rest) = Ok c1 ∧ (c1 =? NUL) = false).
  { destruct Hpre as [|c1 pre Hc1 _]; simpl; eexists; (split; [reflexivity|]);
      [exact Ha0|apply blank_no_NUL, Hc1]. }
  destruct Hd as (c1 & Hd & Hc1).
  (* the head of the loop *)
  cbn [contents_loop]. rewrite Hd. cbn [rbind]. rewrite Hc1.
  unfold IniCacheSkipWhitespace. rewrite skip_while_app by exact Hpre.
  cbn [app]. rewrite skip_while_stop by exact Hab.
  cbn [rbind deref]. rewrite Ha0. cbv iota. cbn [rbind deref]. rewrite Hbr.
  (* the name *)
  unfold IniCacheGetKeyName. cbn [IniCacheGetKeyName_loop deref rbind]. rewrite Ha0.
  rewrite skip_while_stop by exact Hae. cbn [rbind deref]. rewrite Ha0.
  change (a :: kb ++ rest) with ((a :: kb) ++ rest).
  rewrite count_while_app by (try exact Hink; lia).
  rewrite Hrest. rewrite count_while_stop by exact Hc0k. cbn [rbind deref].
  rewrite Hc0s. cbn [rbind]. rewrite <- Hrest.
  (* the value *)
  unfold IniCacheGetKeyValue. unfold rest at 1. rewrite skip_while_app by exact Hws2.
  cbn [app]. rewrite skip_while_stop by reflexivity.
  cbn [rbind deref]. change (neq EQUALS EQUALS) with false. cbv iota.
  unfold incr. cbn [tl]. rewrite skip_while_app by exact Hws3.
  rewrite skip_while_stop by exact Hhdv. cbn [rbind deref].
  replace ((b =? DQUOTE) && String) with false.
  2:{ symmetry. destruct String; [|apply andb_false_r]. rewrite andb_true_r.
      apply Z.eqb_neq. apply Hq. reflexivity. }
  change (b :: vb ++ CR :: LF :: R) with ((b :: vb) ++ CR :: LF :: R).
  rewrite count_while_app by (try exact Hinv; lia).
  rewrite count_while_stop by reflexivity. cbn [rbind deref].
  change (CR =? CR) with true. cbv iota. cbn [tl rbind deref].
  change (LF =? LF) with true. cbv iota. cbn [tl rbind].
  (* the store *)
  unfold contents_AddKey. rewrite !Z.add_0_l.
  replace (Z.of_nat (length (a :: kb)) =? 0) with false
    by (symmetry; apply Z.eqb_neq; cbn [length]; lia).
  replace (Z.of_nat (length (b :: vb)) =? 0) with false
    by (symmetry; apply Z.eqb_neq; cbn [length]; lia).
  cbn [orb]. fold rest in Hck.
  change ([CR; LF] ++ R) with (CR :: LF :: R) in Hcv.
  change ((a :: kb) ++ rest) with (a :: kb ++ rest) in Hck.
  rewrite Hck. cbn [rbind]. rewrite Hcv. cbn [rbind]. reflexivity.
Qed.

Lemma contents_loop_keys_any String (es : list (WSTR * WSTR)) :
  ∀ t (d : list (WSTR * list (WSTR * WSTR))) i R,
  Forall (key_line_ok String) es →
  Z.of_nat (length (concat (map render_key es))) < 2 ^ 32 →
  contents_loop (length es + t) String d (Some i) (Some (concat (map render_key es) ++ R))
  = contents_loop t String (load_keys d i es) (Some i) (Some R).
Proof.
  induction es as [|[k v] es IH]; intros t d i R Hok Hlen; [reflexivity|].
  apply Forall_cons in Hok as [(Hk & Hv & Hbr & Hq) Hok].
  cbn [fst snd] in Hk, Hv, Hbr, Hq.
  cbn [map concat] in Hlen |- *. unfold render_key at 1 in Hlen. unfold render_key at 1.
  cbn [fst snd] in Hlen |- *. rewrite !length_app in Hlen. cbn [length] in Hlen.
  rewrite <- !app_assoc. cbn [length Nat.add].
  rewrite contents_loop_key by (try assumption; lia).
  rewrite IH by (try assumption; lia). reflexivity.
Qed.

Lemma contents_loop_section_any t String (d1 : list (WSTR * list (WSTR * WSTR))) cur pre
    (s : WSTR * list (WSTR * WSTR)) R :
  Forall (λ c, is_blank c = true) pre →
  section_name_ok (fst s) → Forall (key_line_ok String) (snd s) →
  Z.of_nat (length (render_section s)) < 2 ^ 32 →
  contents_loop (S (length (snd s) + t)) String d1 cur (Some (pre ++ render_section s ++ R))
  = contents_loop t String (load_section d1 s) (Some (snd (add_section d1 (fst s))))
      (Some R).
Proof.
  intros Hpre Hn Hks Hlen. destruct s as [n es]. cbn [fst snd] in *.
  unfold render_section in *. cbn [fst snd] in *. rewrite !length_app in Hlen.
  cbn [length] in Hlen.
  pose proof (contents_loop_header_line (length es + t) String d1 cur pre [] n [CR]
                (concat (map render_key es) ++ R) Hpre ltac:(constructor) Hn
                ltac:(repeat constructor) ltac:(lia)) as Hh.
  rewrite <- !app_assoc. cbn [app] in Hh |- *. rewrite Hh.
  apply contents_loop_keys_any; [exact Hks|lia].
Qed.

Lemma contents_loop_sections_any String (d2 : list (WSTR * list (WSTR * WSTR))) :
  ∀ t d1 cur,
  printable String d2 →
  Forall (λ s, Z.of_nat (length (render_section s)) < 2 ^ 32) d2 →
  contents_loop (lines d2 + t) String d1 cur (Some (tail_text d2))
  = Ok (fold_left load_section d2 d1).
Proof.
  induction d2 as [|s d2 IH]; intros t d1 cur Hok Hlen.
  - cbn [fold_left]. destruct (lines [] + t)%nat; reflexivity.
  - apply Forall_cons in Hlen as [Hs Hlen]. apply Forall_cons in Hok as [[Hn Hks] Hok].
    change (tail_text (s :: d2)) with ([CR; LF] ++ render (s :: d2) ++ [NUL]).
    rewrite render_tail.
    replace (lines (s :: d2) + t)%nat with (S (length (snd s) + (lines d2 + t)))
      by (unfold lines; cbn [length map concat]; rewrite length_app; lia).
    rewrite contents_loop_section_any by (try assumption; repeat constructor).
    cbn [fold_left]. apply IH; assumption.
Qed.

Lemma loaded_render_merged String (d : list (WSTR * list (WSTR * WSTR))) :
  printable String d → Z.of_nat (length (render d)) < 2 ^ 32 →
  loaded (render d ++ [NUL]) String = Ok (merged d).
Proof.
  intros Hc Hlen.
  assert (Hall : Forall (λ s, Z.of_nat (length (render_section s)) < 2 ^ 32) d).
  { apply Forall_forall. intros s Hs. pose proof (render_section_le d s Hs). lia. }
  destruct d as [|s d]; [reflexivity|].
  unfold loaded. rewrite render_tail.
  apply Forall_cons in Hall as [Hs Hall]. apply Forall_cons in Hc as [[Hn Hks] Hc].
  pose proof (lines_le_tail d) as Hl.
  pose proof (length_concat_render_key (snd s)) as Hk.
  assert (Hfuel : ∃ t, S (length (render_section s ++ tail_text d))
                       = S (length (snd s) + (lines d + t))).
  { exists (length (render_section s ++ tail_text d) - length (snd s) - lines d)%nat.
    rewrite length_app. unfold render_section. rewrite !length_app. cbn [length]. lia. }
  destruct Hfuel as [t ->].
  change (render_section s ++ tail_text d) with ([] ++ render_section s ++ tail_text d).
  rewrite contents_loop_section_any by (try assumption; constructor).
  unfold merged. cbn [fold_left]. apply contents_loop_sections_any; assumption.
Qed.

(** X11. A file in which names come more than once. The text of any list
    of sections (names and values as the scanner delivers them, names
    possibly repeated) is loaded as the merge of the list: a header whose
    name is already present, whatever the letter case, opens that section
    again instead of making a second one, and a key whose name is already
    present in the section gets the new value and keeps its place. *)
Theorem loader_merges_repeated_names (String : bool) (d : list (WSTR * list (WSTR * WSTR)))
    (FileLength : Z) (h : heap) :
  printable String d → Z.of_nat (length (render d)) < 2 ^ 32 →
  no_allocation_failure h →
  ∃ Cache h',
    IniCacheLoadFromMemory (render d ++ [NUL]) FileLength String h
    = Ok ((STATUS_SUCCESS, Some Cache), h') ∧
    contents h' Cache = Some (merged d).
Proof.
  intros Hp Hlen Hna.
  pose proof (IniCacheLoadFromMemory_loaded (render d ++ [NUL]) FileLength String h Hna)
    as Hsim.
  rewrite (loaded_render_merged String d Hp Hlen) in Hsim.
  destruct Hsim as (h' & D & Hload & Hrep & _).
  exists (fresh (dom (caches h))), h'. split; [exact Hload|].
  exact (store_rep_contents _ _ _ _ Hrep).
Qed.

(** X12. The syntax of the lines. A file that holds a section header and
    the line of a key is loaded as that section with that key, whatever
    the blanks before the bracket, between the bracket and the name, before
    the key name, around the equals sign, and whatever follows the closing
    bracket on its line. The value is taken as it stands up to the CR: a
    line feed alone does not end it. The names and the value are shorter
    than 2^32 - 1 characters and no allocation fails. *)
Theorem loader_line_syntax (String : bool) (pre ws junk pre2 ws2 ws3 : list Z)
    (n k v : WSTR) (FileLength : Z) (h : heap) :
  Forall (λ c, is_blank c = true) pre → Forall (λ c, is_blank c = true) ws →
  Forall (λ c, in_line c = true) junk →
  Forall (λ c, is_blank c = true) pre2 → Forall (λ c, is_blank c = true) ws2 →
  Forall (λ c, is_blank c = true) ws3 →
  section_name_ok n → key_line_ok String (k, v) →
  Z.of_nat (length (print_S n)) < 2 ^ 32 - 1 →
  Z.of_nat (length (print_S k)) < 2 ^ 32 - 1 → Z.of_nat (length (print_S v)) < 2 ^ 32 - 1 →
  no_allocation_failure h →
  ∃ Cache h',
    IniCacheLoadFromMemory
      (pre ++ [LBRACKET] ++ ws ++ print_S n ++ [RBRACKET] ++ junk ++ [LF]
       ++ pre2 ++ print_S k ++ ws2 ++ [EQUALS] ++ ws3 ++ print_S v ++ [CR; LF] ++ [NUL])
      FileLength String h
    = Ok ((STATUS_SUCCESS, Some Cache), h') ∧
    contents h' Cache = Some [(n, [(k, v)])].
Proof.
  intros Hpre Hws Hjunk Hpre2 Hws2 Hws3 Hn (Hk & Hv & Hbr & Hq) Hln Hlk Hlv Hna.
  cbn [fst snd] in Hk, Hv, Hbr, Hq.
  set (line2 := pre2 ++ print_S k ++ ws2 ++ [EQUALS] ++ ws3 ++ print_S v ++ [CR; LF]
                ++ [NUL]).
  set (buf := pre ++ [LBRACKET] ++ ws ++ print_S n ++ [RBRACKET] ++ junk ++ [LF] ++ line2).
  assert (Hl : loaded buf String = Ok [(n, [(k, v)])]).
  { unfold loaded.
    assert (Hfuel : ∃ t, S (length buf) = S (S (S t))).
    { exists (length buf - 2)%nat. unfold buf, line2. rewrite !length_app. cbn [length]. lia. }
    destruct Hfuel as [t ->]. unfold buf.
    rewrite contents_loop_header_line by assumption.
    unfold add_section. cbn [find_index fst snd app length]. unfold line2.
    rewrite contents_loop_key_line by assumption.
    destruct t; reflexivity. }
  pose proof (IniCacheLoadFromMemory_loaded buf FileLength String h Hna) as Hsim.
  rewrite Hl in Hsim. destruct Hsim as (h' & D & Hload & Hrep & _).
  exists (fresh (dom (caches h))), h'. split; [exact Hload|].
  exact (store_rep_contents _ _ _ _ Hrep).
Qed.

End Lines.

(** ** What every load gives, and what a save gives back *)

Section LoadSave.
Context `{CodePage}.

(** X13. The names in a loaded cache. In a cache that
    [IniCacheLoadFromMemory] builds when no allocation fails, from a buffer
    all of whose characters the code page converts to a wide character and
    back to themselves (to the wide NUL only for NUL), no two sections
    bear the same name up to letter case, no two keys of a section do, no
    name is empty, a section name holds no closing bracket and has no blank
    in front, a key name holds no blank, equals sign or semicolon, and every
    name and value is printed and read back as itself; outside the quoted
    mode no value is empty, holds a CR or a semicolon, or has a blank in
    front. *)
Theorem loader_names_are_distinct (FileBuffer : PCHAR) (FileLength : Z) (String : bool)
    (h h1 : heap) (Status : Z) (Cache : positive) :
  Forall convertible FileBuffer →
  no_allocation_failure h →
  IniCacheLoadFromMemory FileBuffer FileLength String h = Ok ((Status, Some Cache), h1) →
  ∃ d, contents h1 Cache = Some d ∧ names_ok d ∧ (String = false → values_ok d).
Proof.
  intros HQ Hna Hload.
  pose proof (IniCacheLoadFromMemory_loaded FileBuffer FileLength String h Hna) as Hsim.
  destruct (loaded FileBuffer String) as [d| |] eqn:Hl; [|congruence|congruence].
  destruct Hsim as (h' & D & Hload' & Hrep & _).
  rewrite Hload in Hload'. injection Hload' as _ -> ->.
  exists d. split; [exact (store_rep_contents _ _ _ _ Hrep)|].
  exact (loaded_ok _ _ _ HQ Hl).
Qed.

(** X14. What is saved is read back. For every well-formed cache whose
    contents are canonical (names and values as the scanner delivers them,
    names that differ within their list, no key name with an opening
    bracket in front and, in quoted mode, no value with a double quote in
    front), however it was built, [IniCacheSaveByHandle] followed by
    [IniCacheLoadFromMemory] of the written text gives a cache with the
    same contents, when no allocation fails and the text has fewer than
    2^32 - 1 characters. *)
Theorem save_then_load_gives_contents (h : heap) (Cache : positive)
    (D : list (positive * list positive)) (d : list (WSTR * list (WSTR * WSTR)))
    (String : bool) (FileHandle : IO) :
  store_rep h Cache D d → no_allocation_failure h →
  canonical String d →
  Z.of_nat (length (render d)) < 2 ^ 32 - 1 →
  ∃ Status Written h2 Cache' h3,
    IniCacheSaveByHandle (Some Cache) FileHandle h = Ok ((Status, Some Written), h2) ∧
    Written = render d ∧
    IniCacheLoadFromMemory (Written ++ [NUL]) (Z.of_nat (length Written)) String h2
    = Ok ((STATUS_SUCCESS, Some Cache'), h3) ∧
    contents h3 Cache' = Some d.
Proof.
  intros Hrep Hna Hcan Hlen.
  pose proof (store_rep_contents _ _ _ _ Hrep) as Hd.
  pose proof (loaded_render String d Hcan ltac:(lia)) as Hre.
  assert (Ha : hd true (allocs h) = true).
  { unfold no_allocation_failure in Hna. destruct Hna; [reflexivity|assumption]. }
  pose proof (IniCacheSaveByHandle_render h _ FileHandle d Hd Ha Hlen) as Hsave.
  set (h2 := set_allocs (tl (allocs h)) h) in *.
  assert (Hna2 : no_allocation_failure h2).
  { unfold no_allocation_failure in *. subst h2. cbn [allocs set_allocs].
    destruct Hna; [constructor|assumption]. }
  pose proof (IniCacheLoadFromMemory_loaded (render d ++ [NUL]) (Z.of_nat (length (render d)))
                String h2 Hna2) as Hsim2.
  rewrite Hre in Hsim2. destruct Hsim2 as (h3 & D3 & Hload3 & Hrep3 & _).
  eexists _, (render d), h2, _, h3. split; [exact Hsave|]. split; [reflexivity|].
  split; [exact Hload3|]. exact (store_rep_contents _ _ _ _ Hrep3).
Qed.

End LoadSave.

(** ** The loops of the loader end *)

Section Termination.
Context `{CodePage}.

Lemma rbind_not_Diverge {A B} (r : result A) (k : A → result B) :
  r ≠ Diverge → (∀ a, r = Ok a → k a ≠ Diverge) → rbind r k ≠ Diverge.
Proof. destruct r as [a| |]; simpl; auto. Qed.

Lemma skip_while_not_Diverge p Ptr : skip_while p Ptr ≠ Diverge.
Proof.
  induction Ptr as [|c Ptr IH]; simpl; [discriminate|].
  destruct (p c); [exact IH|discriminate].
Qed.

Lemma count_while_not_Diverge p Ptr : ∀ Size, count_while p Size Ptr ≠ Diverge.
Proof.
  induction Ptr as [|c Ptr IH]; intros Size; simpl; [discriminate|].
  destruct (p c); [apply IH|discriminate].
Qed.

Lemma deref_not_Diverge Ptr : deref Ptr ≠ Diverge.
Proof. destruct Ptr; discriminate. Qed.

Lemma wcsncpy_not_Diverge n : ∀ Src, wcsncpy n Src ≠ Diverge.
Proof.
  induction n as [|n IH]; intros Src; simpl; [discriminate|].
  destruct Src as [|c Src]; [discriminate|]. destruct (c =? NUL); [discriminate|].
  apply rbind_not_Diverge; [apply IH|discriminate].
Qed.

Lemma CopyAorW_not_Diverge Src L U : CopyAorW Src L U ≠ Diverge.
Proof.
  unfold CopyAorW. destruct (ULONG (L + 1) <? L + 1); [discriminate|].
  apply rbind_not_Diverge; [apply wcsncpy_not_Diverge|discriminate].
Qed.

Lemma skip_while_length p Ptr Ptr' :
  skip_while p Ptr = Ok Ptr' → (0 < length Ptr' ≤ length Ptr)%nat.
Proof.
  intros Hs. destruct (skip_while_spec _ _ _ Hs) as (pre & -> & _ & _ & Hne).
  rewrite length_app. destruct Ptr'; [congruence|]. cbn [length]. lia.
Qed.

Lemma skip_while_length_lt p c Ptr Ptr' :
  skip_while p (c :: Ptr) = Ok Ptr' → p c = true → (length Ptr' ≤ length Ptr)%nat.
Proof.
  simpl. intros Hs Hc. rewrite Hc in Hs. apply skip_while_length in Hs. lia.
Qed.

Lemma count_while_length p Ptr : ∀ Size0 Size Ptr',
  count_while p Size0 Ptr = Ok (Size, Ptr') → (0 < length Ptr' ≤ length Ptr)%nat.
Proof.
  induction Ptr as [|c Ptr IH]; intros Size0 Size Ptr'; simpl; [discriminate|].
  destruct (p c).
  - intros Hs. apply IH in Hs. lia.
  - intros Heq. injection Heq as <- <-. cbn [length]. lia.
Qed.

Lemma length_incr Ptr : (0 < length Ptr)%nat → (length (incr Ptr) < length Ptr)%nat.
Proof. destruct Ptr; cbn; lia. Qed.

Lemma length_incr_le Ptr : (length (incr Ptr) ≤ length Ptr)%nat.
Proof. destruct Ptr; cbn; lia. Qed.

Lemma IniCacheSkipWhitespace_length Ptr Ptr' :
  IniCacheSkipWhitespace Ptr = Ok (Some Ptr') →
  (0 < length Ptr' ≤ length Ptr)%nat ∧ ∃ c, deref Ptr' = Ok c ∧ (c =? NUL) = false.
Proof.
  unfold IniCacheSkipWhitespace. intros Hs.
  apply rbind_Ok in Hs as (P1 & H1 & Hs). apply rbind_Ok in Hs as (c & Hc & Hs).
  destruct (c =? NUL) eqn:Hz; [discriminate|]. injection Hs as <-.
  split; [eapply skip_while_length; exact H1|]. eauto.
Qed.

Lemma IniCacheSkipWhitespace_not_Diverge Ptr : IniCacheSkipWhitespace Ptr ≠ Diverge.
Proof.
  unfold IniCacheSkipWhitespace. apply rbind_not_Diverge; [apply skip_while_not_Diverge|].
  intros P1 _. apply rbind_not_Diverge; [apply deref_not_Diverge|]. discriminate.
Qed.

(** The loop of [IniCacheSkipToNextSection]: every turn skips a line. *)
Lemma IniCacheSkipToNextSection_loop_ends turns : ∀ Ptr,
  (length Ptr < turns)%nat →
  IniCacheSkipToNextSection_loop turns Ptr ≠ Diverge ∧
  ∀ Ptr', IniCacheSkipToNextSection_loop turns Ptr = Ok Ptr' →
          (length Ptr' ≤ length Ptr)%nat ∧
          (neq (hd NUL Ptr) NUL && neq (hd NUL Ptr) LBRACKET = true →
           (length Ptr' < length Ptr)%nat).
Proof.
  induction turns as [|turns IH]; intros Ptr Hlen; [lia|].
  cbn [IniCacheSkipToNextSection_loop]. destruct Ptr as [|c Ptr]; cbn [deref rbind hd].
  { split; [discriminate|]. discriminate. }
  destruct (neq c NUL && neq c LBRACKET) eqn:Hc.
  - destruct (skip_while in_line (c :: Ptr)) as [P1| |] eqn:H1; cbn [rbind];
      [|split; discriminate|exfalso; eapply skip_while_not_Diverge; exact H1].
    pose proof (skip_while_length _ _ _ H1) as Hl1.
    pose proof (length_incr P1 ltac:(lia)) as Hl2.
    destruct (IH (incr P1) ltac:(lia)) as [Hnd Hle]. split; [exact Hnd|].
    intros Ptr' Hr. destruct (Hle Ptr' Hr) as [Hle' _]. split; [lia|]. intros _. lia.
  - split; [discriminate|]. intros Ptr' Heq. injection Heq as <-. split; [lia|].
    discriminate.
Qed.

Lemma IniCacheSkipToNextSection_ends Ptr :
  IniCacheSkipToNextSection Ptr ≠ Diverge ∧
  ∀ Ptr', IniCacheSkipToNextSection Ptr = Ok (Some Ptr') →
          (length Ptr' ≤ length Ptr)%nat ∧
          (neq (hd NUL Ptr) NUL && neq (hd NUL Ptr) LBRACKET = true →
           (length Ptr' < length Ptr)%nat).
Proof.
  unfold IniCacheSkipToNextSection.
  destruct (IniCacheSkipToNextSection_loop_ends (S (length Ptr)) Ptr ltac:(lia)) as [Hnd Hle].
  split.
  - apply rbind_not_Diverge; [exact Hnd|]. intros P1 _.
    apply rbind_not_Diverge; [apply deref_not_Diverge|]. discriminate.
  - intros Ptr' Hs. apply rbind_Ok in Hs as (P1 & H1 & Hs).
    apply rbind_Ok in Hs as (c & _ & Hs). destruct (c =? NUL); [discriminate|].
    injection Hs as <-. exact (Hle _ H1).
Qed.

Lemma IniCacheGetSectionName_ends Ptr :
  IniCacheGetSectionName Ptr ≠ Diverge ∧
  ∀ Ptr' NamePtr Size, IniCacheGetSectionName Ptr = Ok (Ptr', NamePtr, Size) →
                       (length Ptr' ≤ length Ptr)%nat.
Proof.
  unfold IniCacheGetSectionName. split.
  - apply rbind_not_Diverge; [apply skip_while_not_Diverge|]. intros P1 _.
    apply rbind_not_Diverge; [apply count_while_not_Diverge|]. intros [Size P2] _.
    apply rbind_not_Diverge; [apply skip_while_not_Diverge|]. discriminate.
  - intros Ptr' NamePtr Size Hs.
    apply rbind_Ok in Hs as (P1 & H1 & Hs). apply rbind_Ok in Hs as ([Size1 P2] & H2 & Hs).
    cbn beta iota in Hs. apply rbind_Ok in Hs as (P3 & H3 & Hs). injection Hs as <- <- <-.
    apply skip_while_length in H1, H3. apply count_while_length in H2.
    pose proof (length_incr_le P2). pose proof (length_incr_le P3). lia.
Qed.

(** The loop of [IniCacheGetKeyName]: every turn that goes on has moved. *)
Lemma IniCacheGetKeyName_loop_ends turns : ∀ Ptr NP0 S0,
  (length Ptr < turns)%nat →
  IniCacheGetKeyName_loop turns Ptr NP0 S0 ≠ Diverge ∧
  ∀ Ptr' NamePtr Size, IniCacheGetKeyName_loop turns Ptr NP0 S0 = Ok (Ptr', NamePtr, Size) →
                       (0 < length Ptr' ≤ length Ptr)%nat.
Proof.
  induction turns as [|turns IH]; intros Ptr NP0 S0 Hlen; [lia|].
  cbn [IniCacheGetKeyName_loop]. destruct Ptr as [|c Ptr]; cbn [deref rbind].
  { split; discriminate. }
  destruct (c =? NUL) eqn:Hc.
  { split; [discriminate|]. intros Ptr' NamePtr Size Heq. injection Heq as <- <- <-.
    cbn [length]. lia. }
  destruct (skip_while is_blank_or_eol (c :: Ptr)) as [P1| |] eqn:H1; cbn [rbind];
    [|split; discriminate|exfalso; eapply skip_while_not_Diverge; exact H1].
  pose proof (skip_while_length _ _ _ H1) as Hl1.
  destruct P1 as [|c1 P1]; [cbn in Hl1; lia|]. cbn [deref rbind].
  destruct (c1 =? NUL) eqn:Hc1.
  - assert (Hlt : (length (c1 :: P1) < length (c :: Ptr))%nat).
    { destruct (skip_while_spec _ _ _ H1) as (pre & Heq & _).
      destruct pre as [|c0 pre].
      - cbn in Heq. injection Heq as -> _. congruence.
      - rewrite Heq, length_app. cbn [length]. lia. }
    destruct (IH (c1 :: P1) None 0 ltac:(lia)) as [Hnd Hle]. split; [exact Hnd|].
    intros Ptr' NamePtr Size Hr. specialize (Hle _ _ _ Hr). lia.
  - destruct (count_while in_key_name 0 (c1 :: P1)) as [[Size1 P2]| |] eqn:H2; cbn [rbind];
      [|split; discriminate|exfalso; eapply count_while_not_Diverge; exact H2].
    pose proof (count_while_length _ _ _ _ _ H2) as Hl2.
    destruct P2 as [|c2 P2]; [cbn in Hl2; lia|]. cbn [deref rbind].
    destruct (c2 =? SEMICOLON) eqn:Hc2.
    + destruct (skip_while in_comment (c2 :: P2)) as [P3| |] eqn:H3; cbn [rbind];
        [|split; discriminate|exfalso; eapply skip_while_not_Diverge; exact H3].
      assert (Hl3 : (length P3 ≤ length P2)%nat).
      { apply (skip_while_length_lt _ _ _ _ H3). apply Z.eqb_eq in Hc2. subst c2.
        reflexivity. }
      cbn [length] in *.
      destruct (IH P3 (Some (c1 :: P1)) 0 ltac:(lia)) as [Hnd Hle]. split; [exact Hnd|].
      intros Ptr' NamePtr Size Hr. specialize (Hle _ _ _ Hr). lia.
    + split; [discriminate|]. intros Ptr' NamePtr Size Heq. injection Heq as <- <- <-.
      cbn [length] in *. lia.
Qed.

Lemma IniCacheGetKeyName_ends Ptr :
  IniCacheGetKeyName (Some Ptr) ≠ Diverge ∧
  ∀ Ptr' NamePtr Size, IniCacheGetKeyName (Some Ptr) = Ok (Ptr', NamePtr, Size) →
                       ∃ p, Ptr' = Some p ∧ (length p ≤ length Ptr)%nat.
Proof.
  unfold IniCacheGetKeyName.
  destruct (IniCacheGetKeyName_loop_ends (S (length Ptr)) Ptr None 0 ltac:(lia)) as [Hnd Hle].
  split.
  - apply rbind_not_Diverge; [exact Hnd|]. intros [[P1 NP] Sz] _. discriminate.
  - intros Ptr' NamePtr Size Hs. apply rbind_Ok in Hs as ([[P1 NP] Sz] & H1 & Hs).
    cbn beta iota in Hs. injection Hs as <- <- <-. exists P1. split; [reflexivity|].
    specialize (Hle _ _ _ H1). lia.
Qed.

Lemma IniCacheGetKeyValue_ends Ptr String :
  IniCacheGetKeyValue (Some Ptr) String ≠ Diverge ∧
  ∀ Ptr' DataPtr Size, IniCacheGetKeyValue (Some Ptr) String = Ok (Some Ptr', DataPtr, Size) →
                       (length Ptr' < length Ptr)%nat.
Proof.
  unfold IniCacheGetKeyValue. split.
  - apply rbind_not_Diverge; [apply skip_while_not_Diverge|]. intros P1 _.
    apply rbind_not_Diverge; [apply deref_not_Diverge|]. intros c _.
    destruct (neq c EQUALS); [discriminate|].
    apply rbind_not_Diverge; [apply skip_while_not_Diverge|]. intros P2 _.
    apply rbind_not_Diverge; [apply deref_not_Diverge|]. intros c2 _.
    apply rbind_not_Diverge.
    + destruct ((c2 =? DQUOTE) && String).
      * apply rbind_not_Diverge; [apply count_while_not_Diverge|]. intros [Sz P3] _.
        apply rbind_not_Diverge; [apply skip_while_not_Diverge|]. discriminate.
      * apply rbind_not_Diverge; [apply count_while_not_Diverge|]. intros [Sz P3] _.
        discriminate.
    + intros [[DP Sz] P3] _. apply rbind_not_Diverge; [apply deref_not_Diverge|].
      intros c3 _. apply rbind_not_Diverge; [apply deref_not_Diverge|]. discriminate.
  - intros Ptr' DataPtr Size Hs.
    apply rbind_Ok in Hs as (P1 & H1 & Hs). apply rbind_Ok in Hs as (c & Hc & Hs).
    destruct (neq c EQUALS); [discriminate|].
    apply rbind_Ok in Hs as (P2 & H2 & Hs). apply rbind_Ok in Hs as (c2 & _ & Hs).
    apply rbind_Ok in Hs as ([[DP Sz] P3] & H3 & Hs). cbn beta iota in Hs.
    apply rbind_Ok in Hs as (c3 & _ & Hs). apply rbind_Ok in Hs as (c4 & _ & Hs).
    injection Hs as <- <- <-.
    pose proof (skip_while_length _ _ _ H1) as Hl1.
    pose proof (length_incr P1 ltac:(lia)) as Hli.
    pose proof (skip_while_length _ _ _ H2) as Hl2.
    assert (Hl3 : (length P3 ≤ length P2)%nat).
    { destruct ((c2 =? DQUOTE) && String).
      - apply rbind_Ok in H3 as ([Sz' P4] & H4 & H3). cbn beta iota in H3.
        apply rbind_Ok in H3 as (P5 & H5 & H3). injection H3 as <- <- <-.
        apply count_while_length in H4. apply skip_while_length in H5.
        pose proof (length_incr_le P2). pose proof (length_incr_le P4). lia.
      - apply rbind_Ok in H3 as ([Sz' P4] & H4 & H3). cbn beta iota in H3.
        injection H3 as <- <- <-. apply count_while_length in H4. lia. }
    pose proof (length_incr_le P3) as Hl4.
    destruct (c3 =? CR), (c4 =? LF);
      try pose proof (length_incr_le (incr P3)); try pose proof (length_incr_le P3); lia.
Qed.

Lemma contents_AddSection_not_Diverge d Name L : contents_AddSection d Name L ≠ Diverge.
Proof.
  unfold contents_AddSection. destruct Name; [|discriminate].
  destruct (L =? 0); [discriminate|].
  apply rbind_not_Diverge; [apply CopyAorW_not_Diverge|]. discriminate.
Qed.

Lemma contents_AddKey_not_Diverge d i Name NL Data DL :
  contents_AddKey d i Name NL Data DL ≠ Diverge.
Proof.
  unfold contents_AddKey. destruct Name; [|discriminate]. destruct Data; [|discriminate].
  destruct ((NL =? 0) || (DL =? 0)); [discriminate|].
  apply rbind_not_Diverge; [apply CopyAorW_not_Diverge|]. intros k _.
  apply rbind_not_Diverge; [apply CopyAorW_not_Diverge|]. discriminate.
Qed.

(** Every turn of the main loop moves [Ptr] or ends the loop. *)
Lemma contents_loop_ends String turns : ∀ d cur Ptr,
  (∀ p, Ptr = Some p → (length p < turns)%nat) →
  contents_loop turns String d cur Ptr ≠ Diverge.
Proof.
  induction turns as [|turns IH]; intros d cur Ptr Hlen.
  - destruct Ptr as [p|]; [specialize (Hlen p eq_refl); lia|discriminate].
  - destruct Ptr as [p|]; [|discriminate]. specialize (Hlen p eq_refl).
    cbn [contents_loop]. apply rbind_not_Diverge; [apply deref_not_Diverge|].
    intros c _. destruct (c =? NUL); [discriminate|].
    apply rbind_not_Diverge; [apply IniCacheSkipWhitespace_not_Diverge|].
    intros [P1|] H1; [|apply IH; discriminate].
    destruct (IniCacheSkipWhitespace_length _ _ H1) as [Hl1 (c1 & Hc1 & Hz1)].
    rewrite Hc1. cbn [rbind]. destruct (c1 =? LBRACKET) eqn:Hb.
    + destruct (IniCacheGetSectionName_ends (incr P1)) as [Hnd Hle].
      apply rbind_not_Diverge; [exact Hnd|]. intros [[P2 SN] SS] H2. cbn beta iota.
      specialize (Hle _ _ _ H2). pose proof (length_incr P1 ltac:(lia)) as Hli.
      apply rbind_not_Diverge; [apply contents_AddSection_not_Diverge|].
      intros [d1 [i|]] _; cbn beta iota.
      * apply IH. intros p0 Hp0. injection Hp0 as <-. lia.
      * destruct (IniCacheSkipToNextSection_ends P2) as [Hnd3 Hle3].
        apply rbind_not_Diverge; [exact Hnd3|]. intros [P3|] H3; [|apply IH; discriminate].
        apply IH. intros p0 Hp0. injection Hp0 as <-. destruct (Hle3 _ H3) as [Hle3' _]. lia.
    + destruct cur as [i|].
      * destruct (IniCacheGetKeyName_ends P1) as [Hnd Hle].
        apply rbind_not_Diverge; [exact Hnd|]. intros [[P2 KN] KS] H2. cbn beta iota.
        destruct (Hle _ _ _ H2) as (p2 & -> & Hl2).
        destruct (IniCacheGetKeyValue_ends p2 String) as [Hnd3 Hle3].
        apply rbind_not_Diverge; [exact Hnd3|]. intros [[P3 KV] VS] H3. cbn beta iota.
        apply rbind_not_Diverge; [apply contents_AddKey_not_Diverge|]. intros d1 _.
        apply IH. intros p0 Hp0. subst P3. specialize (Hle3 _ _ _ H3). lia.
      * destruct (IniCacheSkipToNextSection_ends P1) as [Hnd3 Hle3].
        apply rbind_not_Diverge; [exact Hnd3|]. intros [P3|] H3; [|apply IH; discriminate].
        apply IH. intros p0 Hp0. injection Hp0 as <-. destruct (Hle3 _ H3) as [_ Hlt].
        assert (Hhd : neq (hd NUL P1) NUL && neq (hd NUL P1) LBRACKET = true).
        { destruct P1 as [|c0 P1]; [discriminate|]. cbn in Hc1. injection Hc1 as ->.
          cbn [hd]. unfold neq. rewrite Hz1, Hb. reflexivity. }
        specialize (Hlt Hhd). lia.
Qed.

(** X15. The load ends. On every buffer and in every heap in which no
    allocation fails, [IniCacheLoadFromMemory] returns or leaves the
    buffer; it never runs for ever: every turn of its loop, and of the
    loops of the scanner, moves the pointer forward or ends the loop. *)
Theorem IniCacheLoadFromMemory_ends (FileBuffer : PCHAR) (FileLength : Z) (String : bool)
    (h : heap) :
  no_allocation_failure h →
  IniCacheLoadFromMemory FileBuffer FileLength String h ≠ Diverge ∧
  loaded FileBuffer String ≠ Diverge ∧
  (∀ Ptr, IniCacheSkipToNextSection Ptr ≠ Diverge) ∧
  (∀ Ptr, IniCacheGetKeyName (Some Ptr) ≠ Diverge).
Proof.
  intros Hna.
  assert (Hl : loaded FileBuffer String ≠ Diverge).
  { unfold loaded. apply contents_loop_ends. intros p Hp. injection Hp as <-. lia. }
  split; [|split; [exact Hl|split]].
  - pose proof (IniCacheLoadFromMemory_loaded FileBuffer FileLength String h Hna) as Hsim.
    destruct (loaded FileBuffer String) as [d| |]; [| |congruence].
    + destruct Hsim as (h' & D & -> & _). discriminate.
    + rewrite Hsim. discriminate.
  - intros Ptr. apply IniCacheSkipToNextSection_ends.
  - intros Ptr. apply IniCacheGetKeyName_ends.
Qed.

End Termination.

(** ** What a load allocates, and what it leaves alone *)

Section Footprint.
Context `{CodePage}.

(** [h0] is [h] without the nodes [ss], [ks] and the header [Cache]. *)
Lemma same_store_without h0 h Cache ss ks :
  same_store h0 (without h Cache ss ks) ↔
  (∀ k, keys h0 !! k = if decide (k ∈ ks) then None else keys h !! k) ∧
  (∀ s, sections h0 !! s = if decide (s ∈ ss) then None else sections h !! s) ∧
  (∀ c, caches h0 !! c = if decide (c = Cache) then None else caches h !! c).
Proof.
  unfold same_store, without. cbn [keys sections caches]. split.
  - intros (Hk & Hs & Hc). refine (conj _ (conj _ _)).
    + intros k. rewrite <- Hk. apply lookup_foldr_delete.
    + intros s. rewrite <- Hs. apply lookup_foldr_delete.
    + intros c. rewrite <- Hc. destruct (decide (c = Cache)) as [->|Hne];
        [apply lookup_delete_eq|apply lookup_delete_ne; congruence].
  - intros (Hk & Hs & Hc). refine (conj _ (conj _ _)); apply map_eq; intros a.
    + rewrite Hk. apply lookup_foldr_delete.
    + rewrite Hs. apply lookup_foldr_delete.
    + rewrite Hc. destruct (decide (a = Cache)) as [->|Hne];
        [apply lookup_delete_eq|apply lookup_delete_ne; congruence].
Qed.

(** A call that writes only to the nodes of the cache and to blocks that
    it has just obtained keeps the rest of the heap. *)
Lemma without_grows h0 h h' Cache ss ks ss' ks' :
  same_store h0 (without h Cache ss ks) →
  (∀ c, c ≠ Cache → caches h' !! c = caches h !! c) →
  (∀ s, s ∉ ss' → sections h' !! s = sections h !! s) →
  (∀ k, k ∉ ks' → keys h' !! k = keys h !! k) →
  (∀ s, s ∈ ss' → s ∈ ss ∨ sections h !! s = None) →
  (∀ k, k ∈ ks' → k ∈ ks ∨ keys h !! k = None) →
  (∀ s, s ∈ ss → s ∈ ss') → (∀ k, k ∈ ks → k ∈ ks') →
  same_store h0 (without h' Cache ss' ks').
Proof.
  rewrite !same_store_without.
  intros (Hk & Hs & Hc) Hc' Hs' Hk' Hsn Hkn Hsm Hkm. refine (conj _ (conj _ _)).
  - intros k. rewrite Hk. destruct (decide (k ∈ ks')) as [Hin|Hn].
    + destruct (decide (k ∈ ks)); [reflexivity|].
      destruct (Hkn k Hin); [contradiction|assumption].
    + rewrite (Hk' k Hn). destruct (decide (k ∈ ks)) as [Hin|_]; [|reflexivity].
      exfalso. apply Hn, Hkm, Hin.
  - intros s. rewrite Hs. destruct (decide (s ∈ ss')) as [Hin|Hn].
    + destruct (decide (s ∈ ss)); [reflexivity|].
      destruct (Hsn s Hin); [contradiction|assumption].
    + rewrite (Hs' s Hn). destruct (decide (s ∈ ss)) as [Hin|_]; [|reflexivity].
      exfalso. apply Hn, Hsm, Hin.
  - intros c. rewrite Hc. destruct (decide (c = Cache)); [reflexivity|].
    symmetry. apply Hc'. assumption.
Qed.

Lemma elem_of_concat_lookup (D : list (positive * list positive)) k :
  k ∈ concat (D.*2) ↔ ∃ j x, D !! j = Some x ∧ k ∈ x.2.
Proof.
  induction D as [|y D IH]; cbn [fmap list_fmap concat].
  - split; [intros Hin; inversion Hin|intros (j & x & Hx & _); discriminate].
  - rewrite elem_of_app, IH. split.
    + intros [Hin|(j & x & Hx & Hin)]; [exists 0%nat, y; auto|exists (S j), x; auto].
    + intros (j & x & Hx & Hin). destruct j as [|j].
      * injection Hx as <-. left. exact Hin.
      * right. eauto.
Qed.

Lemma elem_of_concat_insert (D : list (positive * list positive)) i s ks Key k :
  D !! i = Some (s, ks) →
  k ∈ concat ((<[i := (s, ks ++ [Key])]> D).*2) ↔ k ∈ concat (D.*2) ∨ k = Key.
Proof.
  intros Hi. rewrite !elem_of_concat_lookup. split.
  - intros (j & x & Hx & Hin). destruct (decide (j = i)) as [->|Hne].
    + rewrite list_lookup_insert_eq in Hx by (eapply lookup_lt_Some; exact Hi).
      injection Hx as <-. cbn [snd] in Hin. apply elem_of_app in Hin as [Hin|Hin].
      * left. exists i, (s, ks). auto.
      * right. apply list_elem_of_singleton in Hin. exact Hin.
    + rewrite list_lookup_insert_ne in Hx by congruence. left. eauto.
  - intros [(j & x & Hx & Hin)| ->].
    + destruct (decide (j = i)) as [->|Hne].
      * rewrite Hi in Hx. injection Hx as <-. exists i, (s, ks ++ [Key]).
        rewrite list_lookup_insert_eq by (eapply lookup_lt_Some; exact Hi).
        split; [reflexivity|]. cbn [snd] in *. apply elem_of_app. left. exact Hin.
      * exists j, x. rewrite list_lookup_insert_ne by congruence. auto.
    + exists i, (s, ks ++ [Key]).
      rewrite list_lookup_insert_eq by (eapply lookup_lt_Some; exact Hi).
      split; [reflexivity|]. cbn [snd]. apply elem_of_app. right. constructor.
Qed.

Lemma NoDup_concat_intro {A} (L : list (list A)) :
  (∀ i x, L !! i = Some x → NoDup x) →
  (∀ i j x y k, L !! i = Some x → L !! j = Some y → i ≠ j → k ∈ x → k ∉ y) →
  NoDup (concat L).
Proof.
  induction L as [|l L IH]; intros Hnd Hdis; cbn [concat]; [constructor|].
  apply NoDup_app. refine (conj _ (conj _ _)).
  - apply (Hnd 0%nat). reflexivity.
  - intros k Hk Hin.
    assert (Hex : ∃ j y, L !! j = Some y ∧ k ∈ y).
    { clear -Hin. induction L as [|y L IH]; cbn [concat] in Hin; [inversion Hin|].
      apply elem_of_app in Hin as [Hin|Hin]; [exists 0%nat, y; auto|].
      destruct (IH Hin) as (j & z & Hz & Hkz). exists (S j), z. auto. }
    destruct Hex as (j & y & Hy & Hky).
    apply (Hdis 0%nat (S j) l y k); auto.
  - apply IH.
    + intros i x Hx. apply (Hnd (S i)). exact Hx.
    + intros i j x y k Hx Hy Hij. apply (Hdis (S i) (S j)); auto.
Qed.

(** The lists of a well-formed cache are the lists of its nodes, and no
    key comes twice in them. *)
Lemma store_rep_node_lists h Cache D d :
  store_rep h Cache D d → node_lists h Cache = Some D ∧ NoDup (concat (D.*2)).
Proof.
  intros [Hcache Hsec Hdis Hcont]. split.
  - apply node_lists_intro; [apply Hcache|]. apply Forall_lookup_2. intros i x Hx.
    apply (Hsec i x Hx).
  - apply NoDup_concat_intro.
    + intros i ks Hks. rewrite list_lookup_fmap in Hks.
      destruct (D !! i) as [x|] eqn:Hx; [|discriminate]. injection Hks as <-.
      eapply sound_section_NoDup. apply (Hsec i x Hx).
    + intros i j ks ks' k Hks Hks' Hij. rewrite list_lookup_fmap in Hks, Hks'.
      destruct (D !! i) as [x|] eqn:Hx; [|discriminate]. injection Hks as <-.
      destruct (D !! j) as [y|] eqn:Hy; [|discriminate]. injection Hks' as <-.
      apply (Hdis i j x y k Hx Hy Hij).
Qed.

(** "Append the section" writes to the new section, to the last section
    of the list and to the header. *)
Lemma AppendSection_footprint Cache c S h h' :
  AppendSection Cache c S h = Ok (tt, h') →
  ∀ s, s ≠ S → Some s ≠ LastSection c → sections h' !! s = sections h !! s.
Proof.
  unfold AppendSection. intros Hrun s HsS Hsl.
  destruct (ptr_eqb (FirstSection c) None).
  - unfold write_cache in Hrun. destruct (caches h !! Cache); [|discriminate].
    injection Hrun as <-. reflexivity.
  - destruct (LastSection c) as [l|]; [|discriminate].
    unfold bind, nonnull, ret, write_section, write_cache in Hrun.
    destruct (sections h !! l) as [lr|]; [|discriminate]. hsimpl_in Hrun.
    destruct (<[l := with_sec_Next (Some S) lr]> (sections h) !! S); [|discriminate].
    hsimpl_in Hrun. destruct (caches h !! Cache); [|discriminate].
    injection Hrun as <-. hsimpl.
    rewrite !lookup_insert_ne by congruence. reflexivity.
Qed.

Lemma IniCacheAddSectionAorW_footprint h Cache ss Name NameLength IsUnicode NameU S h' :
  sound_cache h Cache ss →
  NameLength ≠ 0 →
  allocations_succeed 2 h →
  CopyAorW Name NameLength IsUnicode = Ok NameU →
  List.find (section_matches (sections h) NameU) ss = None →
  IniCacheAddSectionAorW (Some Cache) (Some Name) NameLength IsUnicode h = Ok (Some S, h') →
  ∀ s, s ∉ ss → s ≠ S → sections h' !! s = sections h !! s.
Proof.
  intros Hsound HN Hal Hcopy Hfind Hcall s Hs HsS. pose proof Hsound as [Hss Hlast].
  destruct (caches h !! Cache) as [cr|] eqn:Hcr; [|discriminate].
  rewrite (IniCacheAddSectionAorW_new h Cache cr Name NameLength IsUnicode ss NameU
             Hss Hcr HN Hal Hcopy Hfind) in Hcall.
  cbv zeta in Hcall.
  destruct (AppendSection Cache cr (fresh (dom (sections h))) _) as [[[] h1]| |] eqn:Happ;
    [|discriminate|discriminate].
  injection Hcall as <- <-.
  rewrite (AppendSection_footprint _ _ _ _ _ Happ s HsS).
  - hsimpl. apply lookup_insert_ne. congruence.
  - simpl in Hlast. injection Hlast as ->. intros Hl. symmetry in Hl.
    apply Hs. apply last_Some_elem_of. exact Hl.
Qed.

(** A list stays well linked when the section keeps its ends and the keys
    keep their links. *)
Lemma well_linked_links h h' Section ks :
  well_linked h Section ks →
  (∀ sr, sections h !! Section = Some sr →
         ∃ sr', sections h' !! Section = Some sr' ∧ FirstKey sr' = FirstKey sr ∧
                LastKey sr' = LastKey sr) →
  (∀ k kr, k ∈ ks → keys h !! k = Some kr →
           ∃ kr', keys h' !! k = Some kr' ∧ key_Next kr' = key_Next kr ∧
                  key_Prev kr' = key_Prev kr) →
  well_linked h' Section ks.
Proof.
  intros (Hnd & (sr & Hsr & Hf & Hl) & Hk) Hsec Hkeys. split; [exact Hnd|]. split.
  - destruct (Hsec sr Hsr) as (sr' & Hsr' & Hf' & Hl'). exists sr'.
    rewrite Hf', Hl'. auto.
  - intros i k Hi. destruct (Hk i k Hi) as (kr & Hkr & Hn & Hp).
    destruct (Hkeys k kr (list_elem_of_lookup_2 _ _ _ Hi) Hkr) as (kr' & Hkr' & Hn' & Hp').
    exists kr'. rewrite Hn', Hp'. auto.
Qed.

Lemma allocations_succeed_2 h :
  hd true (allocs h) = true → hd true (tl (allocs h)) = true → allocations_succeed 2 h.
Proof.
  unfold allocations_succeed. destruct (allocs h) as [|a [|b l]]; simpl; intros; subst;
    repeat constructor.
Qed.

Lemma allocations_succeed_3 h :
  hd true (allocs h) = true → hd true (tl (allocs h)) = true →
  hd true (tl (tl (allocs h))) = true → allocations_succeed 3 h.
Proof.
  unfold allocations_succeed. destruct (allocs h) as [|a [|b [|c l]]]; simpl; intros; subst;
    repeat constructor.
Qed.

(** A call that leaves the store as it is keeps what is known of it. *)
Lemma framed_same_store h0 h h' Cache D d :
  keys h' = keys h → sections h' = sections h → caches h' = caches h →
  store_rep h Cache D d →
  same_store h0 (without h Cache (D.*1) (concat (D.*2))) →
  Forall (λ x, well_linked h x.1 x.2) D →
  store_rep h' Cache D d ∧
  same_store h0 (without h' Cache (D.*1) (concat (D.*2))) ∧
  Forall (λ x, well_linked h' x.1 x.2) D.
Proof.
  intros Hk Hs Hc Hrep Hinv Hwl. refine (conj _ (conj _ _)).
  - apply (store_rep_same_store h); [repeat split; assumption|exact Hrep].
  - unfold same_store, without in *. cbn [keys sections caches] in *.
    rewrite Hk, Hs, Hc. exact Hinv.
  - eapply Forall_impl; [exact Hwl|]. intros x Hx. cbv beta in Hx |- *.
    apply (well_linked_frame h); [exact Hx|rewrite Hs; reflexivity|].
    intros k _. rewrite Hk. reflexivity.
Qed.

(** [IniCacheAddSectionAorW] in the loop of the loader, whatever the
    allocator answers: the cache stays well formed, the section returned
    is one of its sections, the heap without the nodes of the cache stays
    as it is, and the lists of keys stay linked in both directions. *)
Lemma AddSection_framed h0 h Cache D d Name NameLength S' h' :
  store_rep h Cache D d →
  same_store h0 (without h Cache (D.*1) (concat (D.*2))) →
  Forall (λ x, well_linked h x.1 x.2) D →
  IniCacheAddSectionAorW (Some Cache) Name NameLength false h = Ok (S', h') →
  ∃ D' d',
    store_rep h' Cache D' d' ∧ (∀ s, S' = Some s → s ∈ D'.*1) ∧
    same_store h0 (without h' Cache (D'.*1) (concat (D'.*2))) ∧
    Forall (λ x, well_linked h' x.1 x.2) D'.
Proof.
  intros Hrep Hinv Hwl Hcall.
  destruct S' as [S|].
  2:{ destruct (IniCacheAddSectionAorW_NULL _ _ _ _ _ _ Hcall) as (Hk & Hs & Hc).
      destruct (framed_same_store h0 h h' Cache D d Hk Hs Hc Hrep Hinv Hwl)
        as (Hrep' & Hinv' & Hwl').
      exists D, d. refine (conj Hrep' (conj _ (conj Hinv' Hwl'))). discriminate. }
  destruct Name as [Name|]; [|discriminate].
  destruct (NameLength =? 0) eqn:HN;
    [unfold IniCacheAddSectionAorW in Hcall; rewrite HN in Hcall; discriminate|].
  assert (HN' : NameLength ≠ 0) by (apply Z.eqb_neq; exact HN).
  destruct (hd true (allocs h)) eqn:Ha1.
  2:{ unfold IniCacheAddSectionAorW in Hcall. rewrite HN in Hcall.
      erewrite bind_Ok in Hcall by reflexivity. rewrite Ha1 in Hcall. discriminate. }
  destruct (CopyAorW Name NameLength false) as [NameU| |] eqn:Hcopy.
  2,3: unfold IniCacheAddSectionAorW in Hcall; rewrite HN in Hcall;
       erewrite bind_Ok in Hcall by reflexivity; rewrite Ha1 in Hcall;
       cbn [negb] in Hcall; cbv iota in Hcall; unfold bind in Hcall;
       rewrite Hcopy in Hcall; discriminate.
  pose proof Hrep as [Hcache Hsec Hdis Hcont].
  pose proof (find_index_Forall2 _
                (λ x : positive * list positive,
                   section_matches (sections h) NameU x.1)
                (λ s : WSTR * list (WSTR * WSTR), bears NameU (fst s)) D d Hcont) as Hfind.
  assert (Hfg : ∀ (a : positive * list positive) (b : WSTR * list (WSTR * WSTR)),
            sec_Name <$> sections h !! a.1 = Some b.1 ∧
            Forall2 (λ k e, entry_of h k = Some e) a.2 b.2 →
            section_matches (sections h) NameU a.1 = bears NameU (fst b)).
  { intros a b [Hn _]. unfold section_matches, bears.
    destruct (sections h !! a.1); [|discriminate]. simpl in Hn. injection Hn as ->.
    reflexivity. }
  specialize (Hfind Hfg).
  destruct (find_index (λ s, bears NameU (fst s)) d) as [i|] eqn:Hfi.
  - destruct Hfind as (x & y & Hx & Hy & _ & Hfound).
    rewrite (IniCacheAddSectionAorW_existing h Cache Name NameLength false (D.*1) NameU x.1
               (proj1 Hcache) HN' Ha1 Hcopy) in Hcall
      by (rewrite find_fmap, Hfound; reflexivity).
    injection Hcall as <- <-.
    destruct (framed_same_store h0 h (set_allocs (tl (allocs h)) h) Cache D d
                eq_refl eq_refl eq_refl Hrep Hinv Hwl) as (Hrep' & Hinv' & Hwl').
    exists D, d. refine (conj Hrep' (conj _ (conj Hinv' Hwl'))).
    intros s Hs. injection Hs as <-. apply list_elem_of_fmap. exists x.
    split; [reflexivity|]. eapply list_elem_of_lookup_2. exact Hx.
  - assert (Hnone : List.find (section_matches (sections h) NameU) (D.*1) = None)
      by (rewrite find_fmap, Hfind; reflexivity).
    destruct (hd true (tl (allocs h))) eqn:Ha2.
    2:{ unfold IniCacheAddSectionAorW in Hcall. rewrite HN in Hcall.
        erewrite bind_Ok in Hcall by reflexivity. rewrite Ha1 in Hcall.
        cbn [negb] in Hcall. cbv iota in Hcall.
        erewrite bind_Ok in Hcall by (rewrite Hcopy; reflexivity).
        erewrite bind_Ok in Hcall
          by exact (IniCacheFindSection_first (set_allocs (tl (allocs h)) h) Cache NameU
                      (D.*1) (proj1 Hcache)).
        hsimpl_in Hcall. rewrite Hnone in Hcall.
        erewrite bind_Ok in Hcall by reflexivity. hsimpl_in Hcall.
        rewrite Ha2 in Hcall. discriminate. }
    pose proof (allocations_succeed_2 h Ha1 Ha2) as Hal2.
    destruct (IniCacheAddSectionAorW_appends h Cache (D.*1) Name NameLength false NameU)
      as (S0 & h'' & Hcall' & HS & HSfree & Hsound' & (sr & Hsr & Hname & HF & HL) & Hkeys
          & Hallocs & Hold & Hcaches); auto.
    pose proof (IniCacheAddSectionAorW_footprint h Cache (D.*1) Name NameLength false NameU
                  S0 h'' Hcache HN' Hal2 Hcopy Hnone Hcall') as Hfoot.
    rewrite Hcall in Hcall'. injection Hcall' as <- <-.
    assert (Hold' : ∀ i x, D !! i = Some x →
              sound_section h' x.1 x.2 ∧ sections h !! x.1 ≠ None).
    { intros i x Hx. destruct (Hsec i x Hx) as [Hl Hlast]. split.
      - apply (sound_section_same h); auto; [|split; assumption].
        intros sr0 Hsr0. destruct (Hold _ _ Hsr0) as (sr' & ? & _ & ? & ?). eauto.
      - destruct (sections h !! x.1); [discriminate|]. discriminate. }
    exists (D ++ [(S, [])]), (d ++ [(NameU, [])]).
    refine (conj _ (conj _ (conj _ _))).
    + split.
      * rewrite fmap_app. exact Hsound'.
      * intros i x Hx. apply lookup_app_Some in Hx as [Hx|[_ Hx]].
        -- apply (Hold' i x Hx).
        -- apply list_lookup_singleton_Some in Hx as [_ <-]. simpl.
           split; [unfold key_list; rewrite Hsr, HF; reflexivity|].
           rewrite Hsr. simpl. rewrite HL. reflexivity.
      * intros i j x y k Hx Hy Hij Hk.
        apply lookup_app_Some in Hx as [Hx|[_ Hx]];
          apply lookup_app_Some in Hy as [Hy|[_ Hy]].
        -- apply (Hdis i j x y k); assumption.
        -- apply list_lookup_singleton_Some in Hy as [_ <-]. simpl. apply not_elem_of_nil.
        -- apply list_lookup_singleton_Some in Hx as [_ <-]. simpl in Hk. inversion Hk.
        -- apply list_lookup_singleton_Some in Hx as [_ <-]. simpl in Hk. inversion Hk.
      * apply Forall2_app.
        -- apply Forall2_same_length_lookup_2; [eapply Forall2_length; exact Hcont|].
           intros i x y Hx Hy.
           destruct (Forall2_lookup_lr _ _ _ _ _ _ Hcont Hx Hy) as [Hn He]. split.
           ++ destruct (sections h !! x.1) as [sr0|] eqn:Hsr0; [|discriminate].
              destruct (Hold _ _ Hsr0) as (sr' & -> & Hn' & _). simpl in *.
              rewrite Hn'. exact Hn.
           ++ eapply Forall2_impl; [exact He|]. intros k e Hke. unfold entry_of in *.
              rewrite Hkeys. exact Hke.
        -- constructor; [|constructor]. simpl. split; [|constructor].
           rewrite Hsr. simpl. rewrite Hname. reflexivity.
    + intros s Hs. injection Hs as <-. rewrite fmap_app. apply elem_of_app. right.
      constructor.
    + rewrite !fmap_app, concat_app. cbn [fmap list_fmap fst snd concat].
      rewrite !app_nil_r.
      apply (without_grows h0 h h' Cache (D.*1) (concat (D.*2))); auto.
      * intros s Hs. apply not_elem_of_app in Hs as [Hs1 Hs2]. apply Hfoot; [exact Hs1|].
        intros ->. apply Hs2. constructor.
      * intros k _. rewrite Hkeys. reflexivity.
      * intros s Hs. apply elem_of_app in Hs as [Hs|Hs]; [left; exact Hs|right].
        apply list_elem_of_singleton in Hs as ->. exact HSfree.
      * intros s Hs. apply elem_of_app. left. exact Hs.
    + apply Forall_app. split.
      * eapply Forall_impl; [exact Hwl|]. intros x Hx. cbv beta in Hx |- *.
        apply (well_linked_links h h' x.1 x.2 Hx).
        -- intros sr0 Hsr0. destruct (Hold _ _ Hsr0) as (sr' & ? & _ & ? & ?). eauto.
        -- intros k kr _ Hkr. exists kr. rewrite Hkeys. auto.
      * constructor; [|constructor]. cbn [fst snd]. split; [constructor|]. split.
        -- exists sr. rewrite HF, HL. auto.
        -- intros i k Hi. discriminate.
Qed.

(** [IniCacheAddKeyAorW] in the loop of the loader, likewise. *)
Lemma AddKey_framed h0 h Cache D d s i Name NameLength Data DataLength Key h' :
  store_rep h Cache D d →
  D.*1 !! i = Some s →
  same_store h0 (without h Cache (D.*1) (concat (D.*2))) →
  Forall (λ x, well_linked h x.1 x.2) D →
  IniCacheAddKeyAorW (Some s) None INSERT_LAST Name NameLength Data DataLength false h
  = Ok (Key, h') →
  ∃ D' d',
    store_rep h' Cache D' d' ∧ D'.*1 = D.*1 ∧
    same_store h0 (without h' Cache (D'.*1) (concat (D'.*2))) ∧
    Forall (λ x, well_linked h' x.1 x.2) D'.
Proof.
  intros Hrep Hs Hinv Hwl Hcall.
  destruct Key as [Key|].
  2:{ destruct (IniCacheAddKeyAorW_NULL _ _ _ _ _ _ _ _ _ _ Hcall) as (Hk & Hs' & Hc).
      destruct (framed_same_store h0 h h' Cache D d Hk Hs' Hc Hrep Hinv Hwl)
        as (Hrep' & Hinv' & Hwl').
      exists D, d. exact (conj Hrep' (conj eq_refl (conj Hinv' Hwl'))). }
  destruct Name as [Name|]; [|discriminate].
  destruct Data as [Data|]; [|discriminate].
  destruct ((NameLength =? 0) || (DataLength =? 0)) eqn:Hz;
    [unfold IniCacheAddKeyAorW in Hcall; rewrite Hz in Hcall; discriminate|].
  pose proof Hz as Hz'. apply orb_false_elim in Hz' as [HN HD].
  assert (HN' : NameLength ≠ 0) by (apply Z.eqb_neq; exact HN).
  assert (HD' : DataLength ≠ 0) by (apply Z.eqb_neq; exact HD).
  destruct (hd true (allocs h)) eqn:Ha1.
  2:{ unfold IniCacheAddKeyAorW in Hcall. rewrite Hz in Hcall.
      erewrite bind_Ok in Hcall by reflexivity. rewrite Ha1 in Hcall. discriminate. }
  destruct (CopyAorW Name NameLength false) as [NameU| |] eqn:Hcopy.
  2,3: unfold IniCacheAddKeyAorW in Hcall; rewrite Hz in Hcall;
       erewrite bind_Ok in Hcall by reflexivity; rewrite Ha1 in Hcall;
       cbn [negb] in Hcall; cbv iota in Hcall; unfold bind in Hcall;
       rewrite Hcopy in Hcall; discriminate.
  rewrite list_lookup_fmap in Hs.
  destruct (D !! i) as [[s' ks]|] eqn:Hi; [|discriminate]. simpl in Hs. injection Hs as ->.
  pose proof Hrep as [Hcache Hsec Hdis Hcont].
  destruct (Forall2_lookup_l _ _ _ _ _ Hcont Hi) as ([n es] & Hd & Hn & He). simpl in Hn, He.
  pose proof (Hsec i _ Hi) as Hsound. simpl in Hsound. pose proof Hsound as [Hkl Hlast].
  destruct (sections h !! s) as [sr|] eqn:Hsr; [|discriminate].
  assert (Hsin : s ∈ D.*1).
  { apply list_elem_of_fmap. exists (s, ks). split; [reflexivity|].
    eapply list_elem_of_lookup_2. exact Hi. }
  pose proof (find_index_Forall2 _ (key_matches (keys h) NameU)
                (λ e : WSTR * WSTR, bears NameU (fst e)) ks es He
                (λ k e, entry_matches h NameU k e)) as Hfind.
  destruct (find_index (λ e, bears NameU (fst e)) es) as [j|] eqn:Hfi.
  - destruct Hfind as (Key0 & e & Hj & Hej & _ & Hfound).
    rewrite (IniCacheAddKeyAorW_existing h s None INSERT_LAST Name NameLength Data
               DataLength false ks NameU Key0 Hkl HN' HD' Ha1 Hcopy Hfound) in Hcall.
    destruct (hd true (tl (allocs h))); [|discriminate].
    destruct (CopyAorW Data DataLength false) as [DataU| |]; try discriminate.
    destruct (find_key_in_use _ _ _ _ Hfound) as (kr & Hkr & _). rewrite Hkr in Hcall.
    injection Hcall as <- <-.
    exists D, (set_key d i NameU DataU).
    refine (conj _ (conj eq_refl (conj _ _))).
    + apply (store_rep_update h Cache D d i s ks j Key0 kr); auto.
      intros n' es' Hd'. rewrite Hd in Hd'. injection Hd' as <- <-. exact Hfi.
    + apply (without_grows h0 h _ Cache (D.*1) (concat (D.*2))); auto.
      intros k Hk. hsimpl. apply lookup_insert_ne. intros <-. apply Hk.
      apply elem_of_concat_lookup. exists i, (s, ks). split; [exact Hi|].
      eapply list_elem_of_lookup_2. exact Hj.
    + eapply Forall_impl; [exact Hwl|]. intros x Hx. cbv beta in Hx |- *.
      apply (well_linked_links h _ x.1 x.2 Hx).
      * intros sr0 Hsr0. exists sr0. auto.
      * intros k kr0 _ Hkr0. hsimpl. destruct (decide (k = Key0)) as [->|Hne].
        -- rewrite lookup_insert_eq. rewrite Hkr in Hkr0. injection Hkr0 as <-.
           eexists. split; [reflexivity|]. split; reflexivity.
        -- rewrite lookup_insert_ne by congruence. exists kr0. auto.
  - assert (Hal3 : allocations_succeed 3 h).
    { destruct (hd true (tl (allocs h))) eqn:Ha2;
        [destruct (hd true (tl (tl (allocs h)))) eqn:Ha3|];
        [apply allocations_succeed_3; assumption| |];
        exfalso; unfold IniCacheAddKeyAorW in Hcall; rewrite Hz in Hcall;
        erewrite bind_Ok in Hcall by reflexivity; rewrite Ha1 in Hcall;
        cbn [negb] in Hcall; cbv iota in Hcall;
        erewrite bind_Ok in Hcall by (rewrite Hcopy; reflexivity);
        erewrite bind_Ok in Hcall
          by exact (IniCacheFindKey_first (set_allocs (tl (allocs h)) h) s NameU ks Hkl);
        hsimpl_in Hcall; rewrite Hfind in Hcall;
        erewrite bind_Ok in Hcall by reflexivity; hsimpl_in Hcall; rewrite Ha2 in Hcall;
        cbn [negb] in Hcall; cbv iota in Hcall; try discriminate;
        erewrite bind_Ok in Hcall by reflexivity; hsimpl_in Hcall; rewrite Ha3 in Hcall;
        discriminate. }
    rewrite (IniCacheAddKeyAorW_new h s None INSERT_LAST Name NameLength Data DataLength
               false ks NameU sr Hkl Hsr HN' HD' Hal3 Hcopy Hfind) in Hcall.
    destruct (CopyAorW Data DataLength false) as [DataU| |]; try discriminate.
    cbv zeta in Hcall.
    set (Key1 := fresh (dom (keys h))) in *.
    set (new := {| key_Name := NameU; key_Data := DataU;
                   key_Next := None; key_Prev := None |}) in *.
    set (h1 := set_keys (<[Key1 := new]> (keys h)) (set_allocs (tl (tl (tl (allocs h)))) h))
      in *.
    pose proof (fresh_key_not_in_use h) as HK. fold Key1 in HK.
    assert (HKks : Key1 ∉ ks).
    { intros Hin. destruct (sound_section_in_use _ _ _ _ Hsound Hin) as [? Hu]. congruence. }
    assert (Hsound1 : sound_section h1 s ks).
    { apply (sound_section_frame h); [reflexivity| |exact Hsound].
      intros k Hk. unfold h1. hsimpl. rewrite lookup_insert_ne; [reflexivity|].
      intros <-. contradiction. }
    destruct (InsertKeyIntoSection_last h1 s sr ks Key1 new Hsound1 Hsr)
      as (h'' & Hrun & Hcaches & Hallocs & Hsound' & Hother & (sr' & Hsr' & Hname & Hnext)
          & Hentry & Hkeys' & _); auto.
    { apply lookup_insert_eq. }
    rewrite Hrun in Hcall. injection Hcall as <- <-.
    assert (HD1 : (<[i := (s, ks ++ [Key1])]> D).*1 = D.*1).
    { rewrite list_fmap_insert. simpl. apply list_insert_id.
      rewrite list_lookup_fmap, Hi. reflexivity. }
    assert (Hwl1 : well_linked h1 s ks).
    { apply (well_linked_frame h); [|reflexivity|].
      - exact (proj1 (Forall_forall _ _) Hwl (s, ks) (list_elem_of_lookup_2 _ _ _ Hi)).
      - intros k Hk. unfold h1. hsimpl. apply lookup_insert_ne. intros <-. contradiction. }
    destruct (InsertKeyIntoSection_places h1 s sr ks Key1 new None INSERT_LAST None Hwl1 Hsr)
      as (h3 & Hrun' & Hwl' & _); auto.
    { apply lookup_insert_eq. }
    { exact I. }
    rewrite Hrun in Hrun'. injection Hrun' as <-.
    cbn [insertion_point] in Hwl'. rewrite firstn_all, drop_all in Hwl'.
    exists (<[i := (s, ks ++ [Key1])]> D), (set_key d i NameU DataU).
    refine (conj _ (conj HD1 (conj _ _))).
    + apply (store_rep_append h h1 h'' Cache D d i s ks Key1 NameU DataU); auto.
      * exists sr, sr'. auto.
      * intros n' es' Hd'. rewrite Hd in Hd'. injection Hd' as <- <-. exact Hfi.
    + rewrite HD1.
      apply (without_grows h0 h h'' Cache (D.*1) (concat (D.*2))); auto.
      * intros c _. rewrite Hcaches. reflexivity.
      * intros s' Hs'. rewrite Hother; [reflexivity|]. intros ->. contradiction.
      * intros k Hk. rewrite (elem_of_concat_insert D i s ks Key1 k Hi) in Hk.
        rewrite Hkeys'.
        -- unfold h1. hsimpl. apply lookup_insert_ne. intros <-. apply Hk. right.
           reflexivity.
        -- intros Hin. apply Hk. left. apply elem_of_concat_lookup.
           exists i, (s, ks). auto.
        -- intros ->. apply Hk. right. reflexivity.
      * intros k Hk. apply (elem_of_concat_insert D i s ks Key1 k Hi) in Hk as [Hk| ->];
          [left; exact Hk|right; exact HK].
      * intros k Hk. apply (elem_of_concat_insert D i s ks Key1 k Hi). left. exact Hk.
    + apply Forall_lookup_2. intros j x Hx. destruct (decide (j = i)) as [->|Hne].
      * rewrite list_lookup_insert_eq in Hx by (eapply lookup_lt_Some; exact Hi).
        injection Hx as <-. exact Hwl'.
      * rewrite list_lookup_insert_ne in Hx by congruence.
        pose proof (proj1 (Forall_forall _ _) Hwl x (list_elem_of_lookup_2 _ _ _ Hx)) as Hwx.
        cbv beta in Hwx.
        assert (Hxs : x.1 ≠ s).
        { intros Heq. apply Hne.
          apply (NoDup_lookup (D.*1) j i s (store_rep_NoDup _ _ _ _ Hrep)).
          - rewrite list_lookup_fmap, Hx. cbn. rewrite Heq. reflexivity.
          - rewrite list_lookup_fmap, Hi. reflexivity. }
        apply (well_linked_frame h); [exact Hwx| |].
        -- rewrite Hother by exact Hxs. reflexivity.
        -- intros k Hk. rewrite Hkeys'.
           ++ unfold h1. hsimpl. apply lookup_insert_ne. intros <-.
              destruct (sound_section_in_use _ _ _ _ (Hsec j x Hx) Hk) as [? Hu]. congruence.
           ++ exact (Hdis j i x (s, ks) k Hx Hi Hne Hk).
           ++ intros ->.
              destruct (sound_section_in_use _ _ _ _ (Hsec j x Hx) Hk) as [? Hu]. congruence.
Qed.

(** The loop of the loader, when it returns, whatever the allocator
    answered: the cache stays well formed, the heap without its nodes
    stays as it was, and the lists of keys stay linked in both
    directions. *)
Lemma IniCacheLoadFromMemory_loop_framed h0 turns Cache String :
  ∀ h D d Section Ptr h',
    store_rep h Cache D d → (∀ s, Section = Some s → s ∈ D.*1) →
    same_store h0 (without h Cache (D.*1) (concat (D.*2))) →
    Forall (λ x, well_linked h x.1 x.2) D →
    IniCacheLoadFromMemory_loop turns Cache String Section Ptr h = Ok (tt, h') →
    ∃ D' d', store_rep h' Cache D' d' ∧
             same_store h0 (without h' Cache (D'.*1) (concat (D'.*2))) ∧
             Forall (λ x, well_linked h' x.1 x.2) D'.
Proof.
  induction turns as [|turns IH]; intros h D d Section Ptr h' Hrep Hcur Hinv Hwl Hrun.
  - destruct Ptr as [Ptr|]; cbn [IniCacheLoadFromMemory_loop] in Hrun;
      [|injection Hrun as <-; exists D, d; auto].
    rewrite bind_lift in Hrun. destruct (deref Ptr) as [c| |]; try discriminate.
    destruct (c =? NUL); [injection Hrun as <-; exists D, d; auto|discriminate].
  - destruct Ptr as [Ptr|]; cbn [IniCacheLoadFromMemory_loop] in Hrun;
      [|injection Hrun as <-; exists D, d; auto].
    rewrite bind_lift in Hrun. destruct (deref Ptr) as [c| |]; try discriminate.
    destruct (c =? NUL); [injection Hrun as <-; exists D, d; auto|].
    rewrite bind_lift in Hrun.
    destruct (IniCacheSkipWhitespace Ptr) as [[Ptr1|]| |]; try discriminate;
      [|apply (IH h D d Section None h'); assumption].
    rewrite bind_lift in Hrun. destruct (deref Ptr1) as [c1| |]; try discriminate.
    destruct (c1 =? LBRACKET).
    + rewrite bind_lift in Hrun.
      destruct (IniCacheGetSectionName (incr Ptr1)) as [[[Ptr2 SectionName] Size]| |];
        try discriminate.
      unfold bind at 1 in Hrun.
      destruct (IniCacheAddSectionAorW (Some Cache) SectionName Size false h)
        as [[S1 h1]| |] eqn:Hcall; try discriminate.
      destruct (AddSection_framed h0 h Cache D d SectionName Size S1 h1 Hrep Hinv Hwl Hcall)
        as (D1 & d1 & Hrep1 & Hcur1 & Hinv1 & Hwl1).
      destruct S1 as [S1|].
      * apply (IH h1 D1 d1 (Some S1) (Some Ptr2) h'); assumption.
      * rewrite bind_lift in Hrun.
        destruct (IniCacheSkipToNextSection Ptr2) as [Ptr3| |]; try discriminate.
        apply (IH h1 D1 d1 None Ptr3 h'); auto.
    + destruct Section as [s|].
      * rewrite bind_lift in Hrun.
        destruct (IniCacheGetKeyName (Some Ptr1)) as [[[Ptr2 KeyName] KeyNameSize]| |];
          try discriminate.
        rewrite bind_lift in Hrun.
        destruct (IniCacheGetKeyValue Ptr2 String) as [[[Ptr3 KeyValue] KeyValueSize]| |];
          try discriminate.
        unfold bind at 1 in Hrun.
        destruct (IniCacheAddKeyAorW (Some s) None INSERT_LAST KeyName KeyNameSize KeyValue
                    KeyValueSize false h) as [[K h1]| |] eqn:Hcall; try discriminate.
        pose proof (Hcur s eq_refl) as Hsin.
        apply list_elem_of_lookup_1 in Hsin as [i Hi].
        destruct (AddKey_framed h0 h Cache D d s i KeyName KeyNameSize KeyValue
                    KeyValueSize K h1 Hrep Hi Hinv Hwl Hcall)
          as (D1 & d1 & Hrep1 & Hfst & Hinv1 & Hwl1).
        apply (IH h1 D1 d1 (Some s) Ptr3 h'); auto.
        rewrite Hfst. exact Hcur.
      * rewrite bind_lift in Hrun.
        destruct (IniCacheSkipToNextSection Ptr1) as [Ptr3| |]; try discriminate.
        apply (IH h D d None Ptr3 h'); auto.
Qed.

(** A load that returns a cache has obtained the nodes of that cache and
    written to nothing else, whatever the allocator answered. *)
Lemma IniCacheLoadFromMemory_framed FileBuffer FileLength String h Status Cache h1 :
  IniCacheLoadFromMemory FileBuffer FileLength String h = Ok ((Status, Some Cache), h1) →
  Status = STATUS_SUCCESS ∧
  ∃ D d, store_rep h1 Cache D d ∧
         same_store h (without h1 Cache (D.*1) (concat (D.*2))) ∧
         Forall (λ x, well_linked h1 x.1 x.2) D.
Proof.
  intros Hload. unfold IniCacheLoadFromMemory in Hload.
  erewrite bind_Ok in Hload by reflexivity.
  destruct (hd true (allocs h)); cbn [negb] in Hload; cbv iota in Hload; [|discriminate].
  erewrite bind_Ok in Hload by reflexivity. hsimpl_in Hload.
  set (Cache0 := fresh (dom (caches h))) in *.
  assert (Hfree : caches h !! Cache0 = None) by apply not_elem_of_dom, is_fresh.
  unfold bind at 1 in Hload.
  destruct (IniCacheLoadFromMemory_loop (S (length FileBuffer)) Cache0 String None
              (Some FileBuffer)
              (set_caches (<[Cache0 := {| FirstSection := None; LastSection := None |}]>
                             (caches h)) (set_allocs (tl (allocs h)) h)))
    as [[[] h']| |] eqn:Hrun; try discriminate.
  injection Hload as <- <- <-. split; [reflexivity|].
  apply (IniCacheLoadFromMemory_loop_framed h _ _ _ _ [] [] None _ _) in Hrun; auto.
  - apply store_rep_new_cache.
  - discriminate.
  - unfold same_store, without. cbn [keys sections caches fmap list_fmap concat foldr].
    hsimpl. rewrite delete_insert_eq, (delete_id _ _ Hfree). auto.
Qed.

(** X16. A load followed by [IniCacheDestroy] leaves no block behind:
    whatever the buffer and whichever allocations fail, when the load
    returns a cache, that cache is at an address that was free, and
    destroying it gives back the keys, the sections and the caches of
    before the load. *)
Theorem IniCacheLoadFromMemory_then_Destroy (FileBuffer : PCHAR) (FileLength : Z)
    (String : bool) (h h1 : heap) (Status : Z) (Cache : positive) :
  IniCacheLoadFromMemory FileBuffer FileLength String h = Ok ((Status, Some Cache), h1) →
  caches h !! Cache = None ∧
  ∃ h2, IniCacheDestroy (Some Cache) h1 = Ok (tt, h2) ∧ same_store h h2.
Proof.
  intros Hload.
  destruct (IniCacheLoadFromMemory_framed _ _ _ _ _ _ _ Hload)
    as (_ & D & d & Hrep & Hinv & _).
  destruct (store_rep_node_lists _ _ _ _ Hrep) as [HD Hnd]. split.
  - apply same_store_without in Hinv as (_ & _ & Hc). rewrite Hc.
    destruct (decide (Cache = Cache)); [reflexivity|contradiction].
  - eexists. split; [apply (IniCacheDestroy_loop_frees h1 Cache D HD Hnd)|exact Hinv].
Qed.

(** X17. A load leaves what was there alone, whichever allocations
    fail: every key, section and cache header in use before the load holds
    the same record after it, so every cache that existed keeps its lists
    and its contents; the new cache is none of them. *)
Theorem IniCacheLoadFromMemory_keeps_other_caches (FileBuffer : PCHAR) (FileLength : Z)
    (String : bool) (h h1 : heap) (Status : Z) (Cache : positive) :
  IniCacheLoadFromMemory FileBuffer FileLength String h = Ok ((Status, Some Cache), h1) →
  (∀ k kr, keys h !! k = Some kr → keys h1 !! k = Some kr) ∧
  (∀ s sr, sections h !! s = Some sr → sections h1 !! s = Some sr) ∧
  (∀ c cr, caches h !! c = Some cr → caches h1 !! c = Some cr) ∧
  (∀ Cache2 D2, node_lists h Cache2 = Some D2 →
                Cache2 ≠ Cache ∧ node_lists h1 Cache2 = Some D2 ∧
                contents h1 Cache2 = contents h Cache2).
Proof.
  intros Hload.
  destruct (IniCacheLoadFromMemory_framed _ _ _ _ _ _ _ Hload)
    as (_ & D & d & Hrep & Hinv & _).
  apply same_store_without in Hinv as (Hk & Hs & Hc).
  assert (Hkeys : ∀ k kr, keys h !! k = Some kr → keys h1 !! k = Some kr).
  { intros k kr Hkr. rewrite Hk in Hkr. destruct (decide _); [discriminate|exact Hkr]. }
  assert (Hsecs : ∀ s sr, sections h !! s = Some sr → sections h1 !! s = Some sr).
  { intros s sr Hsr. rewrite Hs in Hsr. destruct (decide _); [discriminate|exact Hsr]. }
  assert (Hcaches : ∀ c cr, caches h !! c = Some cr → caches h1 !! c = Some cr).
  { intros c cr Hcr. rewrite Hc in Hcr. destruct (decide _); [discriminate|exact Hcr]. }
  refine (conj Hkeys (conj Hsecs (conj Hcaches _))).
  intros Cache2 D2 HD2. destruct (node_lists_inv _ _ _ HD2) as (c2 & Hc2 & Hss2 & Hks2).
  split.
  { intros ->. rewrite Hc in Hc2. destruct (decide (Cache = Cache)); [discriminate|].
    contradiction. }
  apply (views_frame h h1 Cache2 D2 HD2).
  - rewrite Hc2. apply Hcaches. exact Hc2.
  - intros s Hs2.
    destruct (chain_in_use _ _ _ _ _ (section_list_chain _ _ _ _ Hss2 Hc2) Hs2) as [sr Hsr].
    rewrite Hsr. apply Hsecs. exact Hsr.
  - intros k Hk2. apply elem_of_concat_lookup in Hk2 as (j & x & Hx & Hkx).
    pose proof (proj1 (Forall_forall _ _) Hks2 x (list_elem_of_lookup_2 _ _ _ Hx)) as Hkl.
    cbv beta in Hkl. destruct (key_list_in_use _ _ _ _ Hkl Hkx) as [kr Hkr].
    rewrite Hkr. apply Hkeys. exact Hkr.
Qed.

(** X24. A loaded cache is well formed, also when allocations fail in
    the middle of the load. Whatever the buffer and whatever the allocator
    answers, a cache that [IniCacheLoadFromMemory] returns comes with
    STATUS_SUCCESS and has a sound list of sections (following [Next] from
    [FirstSection] ends at NULL, [LastSection] is the last one), no key in
    two sections, and in every section a list of keys linked in both
    directions: [FirstKey] and [LastKey] are its ends, [Next] and [Prev]
    of every key are its neighbours. *)
Theorem loaded_cache_is_well_linked (FileBuffer : PCHAR) (FileLength : Z)
    (String : bool) (h h1 : heap) (Status : Z) (Cache : positive) :
  IniCacheLoadFromMemory FileBuffer FileLength String h = Ok ((Status, Some Cache), h1) →
  Status = STATUS_SUCCESS ∧
  ∃ D d, store_rep h1 Cache D d ∧ contents h1 Cache = Some d ∧
         NoDup (concat (D.*2)) ∧
         Forall (λ x, well_linked h1 x.1 x.2) D.
Proof.
  intros Hload.
  destruct (IniCacheLoadFromMemory_framed _ _ _ _ _ _ _ Hload)
    as (Hst & D & d & Hrep & _ & Hwl).
  split; [exact Hst|].
  exists D, d. split; [exact Hrep|]. split; [exact (store_rep_contents _ _ _ _ Hrep)|].
  split; [exact (proj2 (store_rep_node_lists _ _ _ _ Hrep))|exact Hwl].
Qed.

End Footprint.

(** ** Lookups on a well-formed cache *)

Section Lookups.
Context `{CodePage}.

Lemma find_Forall2 {A B} (R : A → B → Prop) (f : A → bool) (g : B → bool) l k :
  Forall2 R l k → (∀ a b, R a b → f a = g b) →
  match List.find g k with
  | Some b => ∃ a, List.find f l = Some a ∧ R a b
  | None => List.find f l = None
  end.
Proof.
  intros HR Hfg. induction HR as [|a b l k Hab HR IH]; simpl; [reflexivity|].
  rewrite (Hfg a b Hab). destruct (g b); [exists a; auto|exact IH].
Qed.

Lemma IniGetSection_rep h Cache D d Name :
  store_rep h Cache D d →
  IniGetSection (Some Cache) (Some Name) h
  = Ok (match find_index (λ s, bears Name (fst s)) d with
        | Some i => D.*1 !! i
        | None => None
        end, h).
Proof.
  intros [Hcache Hsec Hdis Hcont]. unfold IniGetSection.
  rewrite (IniCacheFindSection_first h Cache Name (D.*1) (proj1 Hcache)).
  pose proof (find_index_Forall2 _
                (λ x : positive * list positive, section_matches (sections h) Name x.1)
                (λ s : WSTR * list (WSTR * WSTR), bears Name (fst s)) D d Hcont) as Hfind.
  assert (Hfg : ∀ (a : positive * list positive) (b : WSTR * list (WSTR * WSTR)),
            sec_Name <$> sections h !! a.1 = Some b.1 ∧
            Forall2 (λ k e, entry_of h k = Some e) a.2 b.2 →
            section_matches (sections h) Name a.1 = bears Name (fst b)).
  { intros a b [Hn _]. unfold section_matches, bears.
    destruct (sections h !! a.1); [|discriminate]. simpl in Hn. injection Hn as ->.
    reflexivity. }
  specialize (Hfind Hfg). rewrite find_fmap.
  destruct (find_index (λ s, bears Name (fst s)) d) as [i|].
  - destruct Hfind as (x & y & Hx & _ & _ & Hfound). rewrite Hfound.
    rewrite list_lookup_fmap, Hx. reflexivity.
  - rewrite Hfind. reflexivity.
Qed.

Lemma IniGetKey_rep h Cache D d i s n es Name KeyData :
  store_rep h Cache D d → D.*1 !! i = Some s → d !! i = Some (n, es) →
  IniGetKey (Some s) (Some Name) (Some KeyData) h
  = Ok (match List.find (λ e, bears Name (fst e)) es with
        | Some e => (STATUS_SUCCESS, Some (Some (snd e)))
        | None => (STATUS_INVALID_PARAMETER, Some None)
        end, h).
Proof.
  intros Hrep Hs Hd. rewrite list_lookup_fmap in Hs.
  destruct (D !! i) as [[s' ks]|] eqn:Hx; [|discriminate]. cbn in Hs. injection Hs as ->.
  destruct (Forall2_lookup_lr _ _ _ _ _ _ (rep_contents _ _ _ _ Hrep) Hx Hd) as [_ He].
  cbn [fst snd] in He.
  pose proof (rep_sections _ _ _ _ Hrep i _ Hx) as [Hkl _]. cbn [fst snd] in Hkl.
  pose proof (find_Forall2 _ (key_matches (keys h) Name)
                (λ e : WSTR * WSTR, bears Name (fst e)) ks es He
                (λ k e, entry_matches h Name k e)) as Hfind.
  unfold IniGetKey.
  erewrite bind_Ok by (apply (IniCacheFindKey_first h s Name ks Hkl)).
  destruct (List.find (λ e, bears Name (fst e)) es) as [e|].
  - destruct Hfind as (a & -> & Hent). unfold entry_of in Hent.
    destruct (keys h !! a) as [kr|] eqn:Hkr; [|discriminate]. injection Hent as <-.
    erewrite bind_Ok by (unfold read_key; rewrite Hkr; reflexivity). reflexivity.
  - rewrite Hfind. reflexivity.
Qed.

(** X18. The lookups read the contents. On a well-formed cache,
    [IniGetSection] returns the first section of the contents that bears
    the name (case folded), or NULL when there is none, and [IniGetKey] on
    a section returns STATUS_SUCCESS with the value of the first key of
    that section that bears the name, or STATUS_INVALID_PARAMETER with the
    variable set to NULL when there is none; neither changes the heap. *)
Theorem lookups_read_the_contents (h : heap) (Cache : positive)
    (D : list (positive * list positive)) (d : list (WSTR * list (WSTR * WSTR)))
    (Name KeyName : list Z) (KeyData : option WSTR) :
  store_rep h Cache D d →
  IniGetSection (Some Cache) (Some Name) h
  = Ok (match find_index (λ s, bears Name (fst s)) d with
        | Some i => D.*1 !! i
        | None => None
        end, h) ∧
  ∀ i s n es,
    D.*1 !! i = Some s → d !! i = Some (n, es) →
    IniGetKey (Some s) (Some KeyName) (Some KeyData) h
    = Ok (match List.find (λ e, bears KeyName (fst e)) es with
          | Some e => (STATUS_SUCCESS, Some (Some (snd e)))
          | None => (STATUS_INVALID_PARAMETER, Some None)
          end, h).
Proof.
  intros Hrep. split; [apply IniGetSection_rep; exact Hrep|].
  intros i s n es Hs Hd. apply (IniGetKey_rep h Cache D d i s n es); assumption.
Qed.

Lemma bears_folded (Name n : WSTR) : bears Name n = true ↔ folded n = folded Name.
Proof. unfold bears. rewrite Z.eqb_eq. apply _wcsicmp_folded. Qed.

Lemma find_set_value_other (es : list (WSTR * WSTR)) (Name2 NameU DataU : WSTR) :
  folded Name2 ≠ folded NameU →
  List.find (λ e, bears Name2 (fst e)) (set_value es NameU DataU)
  = List.find (λ e, bears Name2 (fst e)) es.
Proof.
  intros Hne. induction es as [|e es IH]; cbn [set_value List.find fst].
  - destruct (bears Name2 NameU) eqn:Hb; [|reflexivity].
    apply bears_folded in Hb. exfalso. apply Hne. symmetry. exact Hb.
  - destruct (bears NameU (fst e)) eqn:Hb; cbn [List.find fst].
    + apply bears_folded in Hb. destruct (bears Name2 (fst e)) eqn:Hb2; [|reflexivity].
      apply bears_folded in Hb2. exfalso. apply Hne. rewrite <- Hb2, Hb. reflexivity.
    + rewrite IH. reflexivity.
Qed.

Lemma find_index_set_key (d : list (WSTR * list (WSTR * WSTR))) (i : nat)
    (NameU DataU Name : WSTR) :
  find_index (λ s, bears Name (fst s)) (set_key d i NameU DataU)
  = find_index (λ s, bears Name (fst s)) d.
Proof.
  unfold set_key. revert i. induction d as [|x d IH]; intros i; [reflexivity|].
  destruct i as [|i]; cbn [alter list_alter find_index fst]; [reflexivity|].
  change (list_alter ?f i d) with (alter f i d). rewrite IH. reflexivity.
Qed.

(** X19. [IniAddKey] touches one name of one section. After a successful
    [IniAddKey] of a name and a value, each shorter than 2^32 - 1
    characters, in a section of a well-formed cache, [IniGetKey]
    returns what it returned before for every other section of the cache
    and for every name that is not the added one up to letter case, and
    [IniGetSection] returns what it returned before for every name. *)
Theorem IniAddKey_keeps_other_lookups (h : heap) (Cache : positive)
    (D : list (positive * list positive)) (d : list (WSTR * list (WSTR * WSTR)))
    (i : nat) (s : positive) (Name Data : list Z)
    (i2 : nat) (s2 : positive) (Name2 : list Z) (KeyData : option WSTR) :
  store_rep h Cache D d → D.*1 !! i = Some s → allocations_succeed 3 h →
  is_empty Name = false → is_empty Data = false →
  wcslen_of Name < 2 ^ 32 - 1 → wcslen_of Data < 2 ^ 32 - 1 →
  D.*1 !! i2 = Some s2 →
  s2 ≠ s ∨ folded Name2 ≠ folded Name →
  ∃ h' Key,
    IniAddKey (Some s) (Some Name) (Some Data) h = Ok (Some Key, h') ∧
    returned (IniGetKey (Some s2) (Some Name2) (Some KeyData)) h'
    = returned (IniGetKey (Some s2) (Some Name2) (Some KeyData)) h ∧
    ∀ Name3, returned (IniGetSection (Some Cache) (Some Name3)) h'
             = returned (IniGetSection (Some Cache) (Some Name3)) h.
Proof.
  intros Hrep Hs Hal HeN HeD HlN HlD Hs2 Hother.
  destruct (IniAddKey_rep h Cache D d i s Name Data Hrep Hs Hal HeN HeD HlN HlD)
    as (h' & D' & Key & Hcall & Hrep' & HD').
  exists h', Key. split; [exact Hcall|]. split.
  - assert (Hd2 : ∃ n2 es2, d !! i2 = Some (n2, es2)).
    { rewrite list_lookup_fmap in Hs2. destruct (D !! i2) as [x|] eqn:Hx; [|discriminate].
      destruct (Forall2_lookup_l _ _ _ _ _ (rep_contents _ _ _ _ Hrep) Hx)
        as ([n2 es2] & Hd2 & _). eauto. }
    destruct Hd2 as (n2 & es2 & Hd2). unfold returned.
    rewrite (IniGetKey_rep h Cache D d i2 s2 n2 es2 Name2 KeyData Hrep Hs2 Hd2).
    destruct (decide (i2 = i)) as [->|Hne].
    + rewrite Hs in Hs2. injection Hs2 as <-.
      destruct Hother as [Hc|Hname]; [contradiction|].
      rewrite (IniGetKey_rep h' Cache D' _ i s n2
                 (set_value es2 (cstring Name) (cstring Data)) Name2 KeyData Hrep').
      * rewrite find_set_value_other; [reflexivity|]. rewrite folded_cstring. exact Hname.
      * rewrite HD'. exact Hs.
      * unfold set_key. rewrite list_lookup_alter_eq, Hd2. reflexivity.
    + rewrite (IniGetKey_rep h' Cache D' _ i2 s2 n2 es2 Name2 KeyData Hrep').
      * reflexivity.
      * rewrite HD'. exact Hs2.
      * unfold set_key. rewrite list_lookup_alter_ne by congruence. exact Hd2.
  - intros Name3. unfold returned.
    rewrite (IniGetSection_rep h' Cache D' _ Name3 Hrep'),
            (IniGetSection_rep h Cache D d Name3 Hrep), find_index_set_key, HD'.
    reflexivity.
Qed.

End Lookups.

(** ** The functions on files *)

Section Files.
Context `{CodePage}.

(** X20. A cache saved to a file and loaded from that file. For a
    well-formed cache with canonical contents, when the file can be
    created and written and no allocation fails, [IniCacheSave] returns
    STATUS_SUCCESS, and [IniCacheLoad] of a file that holds the bytes
    written returns STATUS_SUCCESS with a new cache that has the same
    contents; the saved cache still has them too. *)
Theorem IniCacheSave_then_IniCacheLoad (h : heap) (Cache : positive)
    (D : list (positive * list positive)) (d : list (WSTR * list (WSTR * WSTR)))
    (String : bool) (FileName : IO) :
  store_rep h Cache D d → no_allocation_failure h →
  canonical String d →
  Z.of_nat (length (render d)) < 2 ^ 32 - 1 →
  NT_SUCCESS (NtCreateFile_Status FileName) = true →
  NT_SUCCESS (NtWriteFile_Status FileName) = true →
  ∃ Written h2 Cache' h3,
    IniCacheSave (Some Cache) FileName h = Ok ((STATUS_SUCCESS, Some Written), h2) ∧
    IniCacheLoad (file_of Written) String h2 = Ok ((STATUS_SUCCESS, Some Cache'), h3) ∧
    Cache' ≠ Cache ∧
    contents h3 Cache' = Some d ∧
    contents h3 Cache = Some d.
Proof.
  intros Hrep Hna Hcan Hlen Hcreate Hwrite.
  pose proof (store_rep_contents _ _ _ _ Hrep) as Hd.
  pose proof (loaded_render String d Hcan ltac:(lia)) as Hre.
  assert (Ha : hd true (allocs h) = true).
  { unfold no_allocation_failure in Hna. destruct Hna; [reflexivity|assumption]. }
  pose proof (IniCacheSaveByHandle_render h _ FileName d Hd Ha Hlen) as Hsave.
  rewrite Hwrite in Hsave.
  set (h2 := set_allocs (tl (allocs h)) h) in *.
  assert (Hna2 : no_allocation_failure h2).
  { apply (no_allocation_failure_allocs h _ 1); [reflexivity|exact Hna]. }
  set (h2' := set_allocs (tl (allocs h2)) h2).
  assert (Hna2' : no_allocation_failure h2').
  { apply (no_allocation_failure_allocs h2 _ 1); [reflexivity|exact Hna2]. }
  assert (Ha2 : hd true (allocs h2) = true).
  { unfold no_allocation_failure in Hna2. destruct Hna2; [reflexivity|assumption]. }
  pose proof (IniCacheLoadFromMemory_loaded (render d ++ [NUL])
                (ULONG (Z.of_nat (length (render d)))) String h2' Hna2') as Hsim.
  rewrite Hre in Hsim. destruct Hsim as (h3 & D3 & Hload3 & Hrep3 & _).
  assert (Hrep2 : store_rep h2' Cache D d).
  { apply (store_rep_same_store h); [repeat split; reflexivity|exact Hrep]. }
  destruct (store_rep_node_lists _ _ _ _ Hrep2) as [HD2 _].
  destruct (IniCacheLoadFromMemory_framed _ _ _ _ _ _ _ Hload3)
    as (_ & D3' & d3 & _ & Hinv & _).
  apply same_store_without in Hinv as (Hk & Hs & Hc).
  assert (Hold : Cache ≠ fresh (dom (caches h2')) ∧
                 contents h3 Cache = contents h2' Cache).
  { destruct (node_lists_inv _ _ _ HD2) as (c2 & Hc2 & Hss2 & Hks2). split.
    - intros Heq. pose proof (Hc Cache) as HcC. rewrite Hc2 in HcC.
      destruct (decide (Cache = fresh (dom (caches h2')))); [discriminate|contradiction].
    - apply (views_frame h2' h3 Cache D HD2).
      + pose proof (Hc Cache) as HcC. rewrite Hc2 in HcC. rewrite Hc2.
        destruct (decide _); [discriminate|]. symmetry. exact HcC.
      + intros s Hs2.
        destruct (chain_in_use _ _ _ _ _ (section_list_chain _ _ _ _ Hss2 Hc2) Hs2)
          as [sr Hsr].
        pose proof (Hs s) as HsS. rewrite Hsr in HsS. rewrite Hsr.
        destruct (decide _); [discriminate|]. symmetry. exact HsS.
      + intros k Hk2. apply elem_of_concat_lookup in Hk2 as (j & x & Hx & Hkx).
        pose proof (proj1 (Forall_forall _ _) Hks2 x (list_elem_of_lookup_2 _ _ _ Hx))
          as Hkl.
        cbv beta in Hkl. destruct (key_list_in_use _ _ _ _ Hkl Hkx) as [kr Hkr].
        pose proof (Hk k) as HkK. rewrite Hkr in HkK. rewrite Hkr.
        destruct (decide _); [discriminate|]. symmetry. exact HkK. }
  destruct Hold as [Hnew Hold].
  exists (render d), h2, (fresh (dom (caches h2'))), h3.
  refine (conj _ (conj _ (conj _ (conj _ _)))).
  - unfold IniCacheSave. rewrite Hcreate. cbn [negb]. cbv iota. exact Hsave.
  - unfold IniCacheLoad, IniCacheLoadByHandle, file_of.
    cbn [NtOpenFile_Status NtQueryInformationFile_Status EndOfFile_LowPart
         NtReadFile_Status NtReadFile_Bytes].
    change (NT_SUCCESS STATUS_SUCCESS) with true. cbn [negb]. cbv iota.
    erewrite bind_Ok by reflexivity. rewrite Ha2. cbn [negb]. cbv iota.
    rewrite (ULONG_small (Z.of_nat (length (render d)))) by lia.
    rewrite (ULONG_small (Z.of_nat (length (render d)) + 1)) by lia.
    rewrite (proj2 (Z.ltb_ge _ _)) by lia.
    rewrite Nat2Z.id, firstn_all.
    rewrite (ULONG_small (Z.of_nat (length (render d)))) in Hload3 by lia.
    exact Hload3.
  - intros Heq. apply Hnew. symmetry. exact Heq.
  - exact (store_rep_contents _ _ _ _ Hrep3).
  - rewrite Hold. exact (store_rep_contents _ _ _ _ Hrep2).
Qed.

(** X21. Saving never changes the cache, and its status tells what
    happened. Whenever [IniCacheSave] returns, the keys, sections and
    caches are as before. When the file cannot be created it returns the
    status of [NtCreateFile] and hands nothing to [NtWriteFile]; when the
    buffer cannot be allocated it returns STATUS_INSUFFICIENT_RESOURCES and
    hands nothing to [NtWriteFile]; otherwise it returns the failing status
    of [NtWriteFile], or STATUS_SUCCESS for every successful one. So the
    status is STATUS_SUCCESS or a failure, and STATUS_SUCCESS means that
    the file was created and the text written. *)
Theorem IniCacheSave_statuses (Cache : option positive) (FileName : IO) (h h' : heap)
    (Status : Z) (Written : option (list Z)) :
  IniCacheSave Cache FileName h = Ok ((Status, Written), h') →
  same_store h h' ∧
  (NT_SUCCESS Status = true → Status = STATUS_SUCCESS) ∧
  (NT_SUCCESS (NtCreateFile_Status FileName) = false →
   Status = NtCreateFile_Status FileName ∧ Written = None ∧ h' = h) ∧
  (NT_SUCCESS (NtCreateFile_Status FileName) = true → hd true (allocs h) = false →
   Status = STATUS_INSUFFICIENT_RESOURCES ∧ Written = None) ∧
  (NT_SUCCESS (NtCreateFile_Status FileName) = true → hd true (allocs h) = true →
   Written ≠ None ∧
   Status = if NT_SUCCESS (NtWriteFile_Status FileName) then STATUS_SUCCESS
            else NtWriteFile_Status FileName) ∧
  (Status = STATUS_SUCCESS →
   NT_SUCCESS (NtCreateFile_Status FileName) = true ∧ hd true (allocs h) = true ∧
   NT_SUCCESS (NtWriteFile_Status FileName) = true ∧ Written ≠ None).
Proof.
  unfold IniCacheSave. intros Hrun.
  destruct (NT_SUCCESS (NtCreateFile_Status FileName)) eqn:Hcreate; cbn [negb] in Hrun;
    cbv iota in Hrun.
  2:{ injection Hrun as <- <- <-. unfold same_store.
      refine (conj _ (conj _ (conj _ (conj _ (conj _ _))))); auto;
        try solve [intros; congruence
                  |intros Hs; rewrite Hs in Hcreate; discriminate]. }
  unfold IniCacheSaveByHandle in Hrun.
  destruct Cache as [Cache|]; [|discriminate].
  erewrite bind_Ok in Hrun by reflexivity.
  unfold bind at 1 in Hrun. unfold read_cache in Hrun.
  destruct (caches h !! Cache) as [c|]; [|discriminate].
  unfold bind at 1 in Hrun. unfold lift at 1 in Hrun.
  destruct (size_sections _ h (FirstSection c) 0) as [BufferSize| |]; try discriminate.
  erewrite bind_Ok in Hrun by reflexivity.
  destruct (hd true (allocs h)) eqn:Ha; cbn [negb] in Hrun; cbv iota in Hrun.
  2:{ injection Hrun as <- <- <-. unfold same_store. hsimpl.
      refine (conj _ (conj _ (conj _ (conj _ (conj _ _))))); auto;
        try solve [intros; congruence|intros; discriminate]. }
  unfold bind at 1 in Hrun. unfold lift at 1 in Hrun.
  destruct (fill_sections _ _ (FirstSection c) []) as [Text| |]; try discriminate.
  destruct (ULONG (BufferSize + 1) <? Z.of_nat (length Text) + 1); [discriminate|].
  destruct (NT_SUCCESS (NtWriteFile_Status FileName)) eqn:Hwrite; cbn [negb] in Hrun;
    cbv iota in Hrun; injection Hrun as <- <- <-; unfold same_store; hsimpl;
    (refine (conj _ (conj _ (conj _ (conj _ (conj _ _))))); auto;
     try solve [intros; congruence
               |intros; split; [discriminate|reflexivity]
               |intros Hs; rewrite Hs in Hwrite; discriminate
               |intros; repeat apply conj; auto; discriminate]).
Qed.

End Files.

(** ** Comment lines, and what comes before the first section *)

Section Passed.
Context `{CodePage}.

Lemma eol_no_NUL c : is_blank_or_eol c = true → (c =? NUL) = false.
Proof.
  intros Hc. destruct (c =? NUL) eqn:Hz; [|reflexivity]. apply Z.eqb_eq in Hz. subst c.
  discriminate Hc.
Qed.

Lemma length_comment_lines cs : (length cs ≤ length (comment_lines cs))%nat.
Proof.
  unfold comment_lines. induction cs as [|c cs IH]; cbn [map concat length]; [lia|].
  rewrite !length_app. cbn [length]. lia.
Qed.

(** The loop of [IniCacheGetKeyName] passes the comment lines and stops
    behind the name that follows them. *)
Lemma IniCacheGetKeyName_loop_comments (cs : list (list Z)) (K rest : list Z) :
  Forall (Forall (λ c, in_comment c = true)) cs →
  K ≠ [] → Forall (λ c, in_key_name c = true) K → Z.of_nat (length K) < 2 ^ 32 →
  rest ≠ [] → in_key_name (hd NUL rest) = false → (hd NUL rest =? SEMICOLON) = false →
  ∀ t eol NP0 S0,
    Forall (λ c, is_blank_or_eol c = true) eol →
    IniCacheGetKeyName_loop (length cs + S t) (eol ++ comment_lines cs ++ K ++ rest) NP0 S0
    = Ok (rest, Some (K ++ rest), Z.of_nat (length K)).
Proof.
  intros Hcs HK Hin Hlen Hrest Hr1 Hr2.
  destruct K as [|a kb]; [congruence|]. destruct rest as [|c0 rest0]; [congruence|].
  cbn [hd] in Hr1, Hr2.
  pose proof (Forall_inv Hin) as Ha. destruct (in_key_name_not_blank a Ha) as [Hae _].
  pose proof (in_key_name_no_NUL a Ha) as Ha0. apply Z.eqb_neq in Ha0.
  induction Hcs as [|c cs Hc Hcs IH]; intros t eol NP0 S0 Heol.
  - cbn [length Nat.add comment_lines map concat app IniCacheGetKeyName_loop].
    assert (Hd : ∃ c1, deref (eol ++ a :: kb ++ c0 :: rest0) = Ok c1 ∧ (c1 =? NUL) = false).
    { destruct Heol as [|c1 eol Hc1 _]; simpl; eexists; (split; [reflexivity|]);
        [exact Ha0|apply eol_no_NUL, Hc1]. }
    destruct Hd as (c1 & Hd & Hc1). rewrite Hd. cbn [rbind]. rewrite Hc1.
    rewrite skip_while_app by exact Heol. cbn [app].
    rewrite skip_while_stop by exact Hae. cbn [rbind deref]. rewrite Ha0.
    change (a :: kb ++ c0 :: rest0) with ((a :: kb) ++ c0 :: rest0).
    rewrite count_while_app by (try exact Hin; lia).
    rewrite count_while_stop by exact Hr1. cbn [rbind deref]. rewrite Hr2.
    rewrite Z.add_0_l. reflexivity.
  - cbn [length Nat.add IniCacheGetKeyName_loop].
    unfold comment_lines. cbn [map concat]. fold (comment_lines cs).
    rewrite <- !app_assoc. cbn [app].
    assert (Hd : ∃ c1, deref (eol ++ SEMICOLON :: c ++ CR :: LF :: comment_lines cs
                                ++ a :: kb ++ c0 :: rest0) = Ok c1 ∧ (c1 =? NUL) = false).
    { destruct Heol as [|c1 eol Hc1 _]; simpl; eexists; (split; [reflexivity|]);
        [reflexivity|apply eol_no_NUL, Hc1]. }
    destruct Hd as (c1 & Hd & Hc1). rewrite Hd. cbn [rbind]. rewrite Hc1.
    rewrite skip_while_app by exact Heol.
    rewrite skip_while_stop by reflexivity. cbn [rbind deref].
    change (SEMICOLON =? NUL) with false. cbv iota.
    rewrite count_while_stop by reflexivity. cbn [rbind deref].
    change (SEMICOLON =? SEMICOLON) with true. cbv iota.
    change (SEMICOLON :: c ++ CR :: LF :: comment_lines cs ++ a :: kb ++ c0 :: rest0)
      with ((SEMICOLON :: c) ++ CR :: LF :: comment_lines cs ++ a :: kb ++ c0 :: rest0).
    rewrite skip_while_app by (constructor; [reflexivity|exact Hc]).
    rewrite skip_while_stop by reflexivity. cbn [rbind].
    apply (IH t [CR; LF]). repeat constructor.
Qed.

(** [IniCacheGetKeyValue] on the rest of the line of a key. *)
Lemma IniCacheGetKeyValue_line String (ws2 ws3 V tail tail' : list Z) :
  Forall (λ c, is_blank c = true) ws2 → Forall (λ c, is_blank c = true) ws3 →
  V ≠ [] → Forall (λ c, in_value c = true) V → is_blank (hd NUL V) = false →
  (String = true → hd NUL V ≠ DQUOTE) →
  Z.of_nat (length V) < 2 ^ 32 →
  line_end tail tail' →
  IniCacheGetKeyValue (@Some PCHAR (ws2 ++ [EQUALS] ++ ws3 ++ V ++ tail)) String
  = Ok (Some tail', Some (V ++ tail), Z.of_nat (length V)).
Proof.
  intros Hws2 Hws3 HV Hin Hhd Hq Hlen Hend.
  destruct V as [|b vb]; [congruence|]. cbn [hd] in Hhd, Hq.
  unfold IniCacheGetKeyValue. rewrite skip_while_app by exact Hws2.
  cbn [app]. rewrite skip_while_stop by reflexivity.
  cbn [rbind deref]. change (neq EQUALS EQUALS) with false. cbv iota.
  unfold incr. cbn [tl]. rewrite skip_while_app by exact Hws3.
  rewrite skip_while_stop by exact Hhd. cbn [rbind deref].
  replace ((b =? DQUOTE) && String) with false.
  2:{ symmetry. destruct String; [|apply andb_false_r]. rewrite andb_true_r.
      apply Z.eqb_neq. apply Hq. reflexivity. }
  change (b :: vb ++ tail) with ((b :: vb) ++ tail).
  rewrite count_while_app by (try exact Hin; lia). rewrite Z.add_0_l.
  destruct Hend as [->|(R & -> & ->)].
  - rewrite count_while_stop by reflexivity. cbn [rbind deref].
    change (CR =? CR) with true. cbv iota. cbn [tl rbind deref].
    change (LF =? LF) with true. cbv iota. cbn [tl rbind]. reflexivity.
  - rewrite count_while_stop by reflexivity. cbn [rbind deref].
    change (SEMICOLON =? CR) with false. cbv iota. cbn [rbind deref].
    change (SEMICOLON =? LF) with false. cbv iota. reflexivity.
Qed.

(** One turn of the loop of the loader on the line of a key that follows
    comment lines. *)
Lemma contents_loop_commented_key_line t String d i pre cs k ws2 ws3 v tail tail' :
  Forall (λ c, is_blank c = true) pre →
  Forall (Forall (λ c, in_comment c = true)) cs →
  Forall (λ c, is_blank c = true) ws2 →
  Forall (λ c, is_blank c = true) ws3 →
  key_name_ok k → value_ok v →
  hd NUL (print_S k) ≠ LBRACKET →
  (String = true → hd NUL (print_S v) ≠ DQUOTE) →
  Z.of_nat (length (print_S k)) < 2 ^ 32 - 1 →
  Z.of_nat (length (print_S v)) < 2 ^ 32 - 1 →
  line_end tail tail' →
  contents_loop (S t) String d (Some i)
    (Some (pre ++ comment_lines cs ++ print_S k ++ ws2 ++ [EQUALS] ++ ws3 ++ print_S v
           ++ tail))
  = contents_loop t String (set_key d i k v) (Some i) (Some tail').
Proof.
  intros Hpre Hcs Hws2 Hws3 (Hfk & Hnek & Hink) (Hfv & Hnev & Hinv & Hhdv) Hbr Hq Hlk Hlv
    Hend.
  pose proof (CopyAorW_printed k (ws2 ++ [EQUALS] ++ ws3 ++ print_S v ++ tail) Hlk Hfk)
    as Hck.
  pose proof (CopyAorW_printed v tail Hlv Hfv) as Hcv.
  rewrite <- (print_S_faithful k Hfk) in Hink.
  rewrite <- (print_S_faithful v Hfv) in Hinv, Hhdv.
  assert (Hbk : print_S k ≠ []).
  { rewrite (print_S_faithful k Hfk). destruct k; [congruence|discriminate]. }
  assert (Hbv : print_S v ≠ []).
  { rewrite (print_S_faithful v Hfv). destruct v; [congruence|discriminate]. }
  assert (Hnk : Forall (λ c, c ≠ NUL) (print_S k)).
  { eapply Forall_impl; [exact Hink|]. exact in_key_name_no_NUL. }
  assert (Hnv : Forall (λ c, c ≠ NUL) (print_S v)).
  { eapply Forall_impl; [exact Hinv|]. exact in_value_no_NUL. }
  specialize (Hck Hnk). specialize (Hcv Hnv).
  set (K := print_S k) in *. set (V := print_S v) in *.
  set (rest := ws2 ++ [EQUALS] ++ ws3 ++ V ++ tail) in *.
  assert (Hrest : rest ≠ [] ∧ in_key_name (hd NUL rest) = false ∧
                  (hd NUL rest =? SEMICOLON) = false).
  { unfold rest. destruct Hws2 as [|c0 ws2 Hc0 _]; cbn [app hd].
    - split; [discriminate|]. split; reflexivity.
    - split; [discriminate|]. apply blank_not_key_name. exact Hc0. }
  destruct Hrest as (Hrne & Hr1 & Hr2).
  set (X := comment_lines cs ++ K ++ rest).
  assert (HX : ∃ x X', X = x :: X' ∧ is_blank x = false ∧ (x =? NUL) = false ∧
                       (x =? LBRACKET) = false).
  { unfold X. destruct cs as [|c cs].
    - destruct K as [|a kb]; [congruence|]. cbn [comment_lines map concat app].
      exists a, (kb ++ rest). split; [reflexivity|].
      pose proof (Forall_inv Hink) as Ha. destruct (in_key_name_not_blank a Ha) as [_ Hab].
      pose proof (Forall_inv Hnk) as Ha0. cbn [hd] in Hbr.
      repeat apply conj; [exact Hab|apply Z.eqb_neq; exact Ha0|apply Z.eqb_neq; exact Hbr].
    - unfold comment_lines. cbn [map concat app]. eexists _, _. split; [reflexivity|].
      repeat apply conj; reflexivity. }
  destruct HX as (x & X' & HX & Hxb & Hx0 & Hxl).
  assert (Hd : ∃ c1, deref (pre ++ X) = Ok c1 ∧ (c1 =? NUL) = false).
  { rewrite HX. destruct Hpre as [|c1 pre Hc1 _]; simpl; eexists; (split; [reflexivity|]);
      [exact Hx0|apply blank_no_NUL, Hc1]. }
  destruct Hd as (c1 & Hd & Hc1).
  change (pre ++ comment_lines cs ++ K ++ ws2 ++ [EQUALS] ++ ws3 ++ V ++ tail)
    with (pre ++ X).
  cbn [contents_loop]. rewrite Hd. cbn [rbind]. rewrite Hc1.
  unfold IniCacheSkipWhitespace. rewrite skip_while_app by exact Hpre.
  rewrite HX. rewrite skip_while_stop by exact Hxb.
  cbn [rbind deref]. rewrite Hx0. cbv iota. cbn [rbind deref]. rewrite Hxl.
  rewrite <- HX. unfold IniCacheGetKeyName.
  assert (Hfuel : ∃ t', S (length X) = (length cs + S t')%nat).
  { exists (length X - length cs)%nat. unfold X. rewrite length_app.
    pose proof (length_comment_lines cs). lia. }
  destruct Hfuel as [t' ->].
  change X with ([] ++ comment_lines cs ++ K ++ rest).
  rewrite (IniCacheGetKeyName_loop_comments cs K rest Hcs Hbk Hink ltac:(lia) Hrne Hr1 Hr2
             t' [] None 0 ltac:(constructor)).
  cbn [rbind]. unfold rest at 1.
  rewrite (IniCacheGetKeyValue_line String ws2 ws3 V tail tail' Hws2 Hws3 Hbv Hinv Hhdv Hq
             ltac:(lia) Hend).
  cbn [rbind].
  unfold contents_AddKey.
  replace (Z.of_nat (length K) =? 0) with false
    by (symmetry; apply Z.eqb_neq; destruct K; [congruence|cbn [length]; lia]).
  replace (Z.of_nat (length V) =? 0) with false
    by (symmetry; apply Z.eqb_neq; destruct V; [congruence|cbn [length]; lia]).
  cbn [orb]. rewrite Hck. cbn [rbind]. rewrite Hcv. cbn [rbind]. reflexivity.
Qed.

(** X22. Comments. In a section, comment lines (a semicolon up to CR LF)
    before the line of a key are passed over, and so is a comment that
    follows a value on its line when the line of a key comes next: the
    value ends at the semicolon. The file of the statement (names and
    values shorter than 2^32 - 1 characters, no allocation failing) is
    loaded as one section with the two keys. *)
Theorem loader_passes_comments (String : bool) (n : WSTR) (cs : list (list Z))
    (k1 v1 : WSTR) (com : list Z) (k2 v2 : WSTR) (FileLength : Z) (h : heap) :
  section_name_ok n →
  Forall (Forall (λ c, in_comment c = true)) cs →
  Forall (λ c, in_comment c = true) com →
  key_line_ok String (k1, v1) → key_line_ok String (k2, v2) →
  Z.of_nat (length (print_S n)) < 2 ^ 32 - 1 →
  Z.of_nat (length (print_S k1)) < 2 ^ 32 - 1 → Z.of_nat (length (print_S v1)) < 2 ^ 32 - 1 →
  Z.of_nat (length (print_S k2)) < 2 ^ 32 - 1 → Z.of_nat (length (print_S v2)) < 2 ^ 32 - 1 →
  no_allocation_failure h →
  ∃ Cache h',
    IniCacheLoadFromMemory
      ([LBRACKET] ++ print_S n ++ [RBRACKET; CR; LF]
       ++ comment_lines cs
       ++ print_S k1 ++ [EQUALS] ++ print_S v1 ++ [SEMICOLON] ++ com ++ [CR; LF]
       ++ print_S k2 ++ [EQUALS] ++ print_S v2 ++ [CR; LF] ++ [NUL])
      FileLength String h
    = Ok ((STATUS_SUCCESS, Some Cache), h') ∧
    contents h' Cache = Some [(n, set_value [(k1, v1)] k2 v2)].
Proof.
  intros Hn Hcs Hcom (Hk1 & Hv1 & Hb1 & Hq1) (Hk2 & Hv2 & Hb2 & Hq2) Hln Hlk1 Hlv1 Hlk2 Hlv2
    Hna.
  cbn [fst snd] in *.
  remember (print_S k2 ++ [EQUALS] ++ print_S v2 ++ [CR; LF] ++ [NUL]) as T2 eqn:HT2.
  remember (comment_lines cs ++ print_S k1 ++ [EQUALS] ++ print_S v1 ++ [SEMICOLON] ++ com
            ++ [CR; LF] ++ T2) as T1 eqn:HT1.
  set (text := [LBRACKET] ++ print_S n ++ [RBRACKET; CR; LF] ++ T1).
  assert (Hl : loaded text String = Ok [(n, set_value [(k1, v1)] k2 v2)]).
  { unfold loaded.
    assert (Hfuel : ∃ t, S (length text) = S (S (S t))).
    { exists (length text - 2)%nat. unfold text. rewrite !length_app.
      cbn [length]. lia. }
    destruct Hfuel as [t ->]. unfold text, PCHAR.
    pose proof (contents_loop_header_line (S (S t)) String [] None [] [] n [CR] T1
                  ltac:(constructor) ltac:(constructor) Hn ltac:(repeat constructor) Hln)
      as Hh.
    cbn [app] in Hh |- *. rewrite Hh. clear Hh.
    rewrite HT1.
    pose proof (contents_loop_commented_key_line (S t) String
                  (fst (add_section [] n)) (snd (add_section [] n)) [] cs k1 [] [] v1
                  ([SEMICOLON] ++ com ++ [CR; LF] ++ T2) ([SEMICOLON] ++ com ++ [CR; LF] ++ T2)
                  ltac:(constructor) Hcs ltac:(constructor) ltac:(constructor) Hk1 Hv1 Hb1
                  Hq1 Hlk1 Hlv1) as Hl1.
    cbn [app] in Hl1 |- *. rewrite Hl1 by (right; eexists; split; reflexivity). clear Hl1.
    rewrite HT2.
    pose proof (contents_loop_commented_key_line t String
                  (set_key (fst (add_section [] n)) (snd (add_section [] n)) k1 v1)
                  (snd (add_section [] n)) [] [com] k2 [] [] v2
                  ([CR; LF] ++ [NUL]) [NUL]
                  ltac:(constructor) ltac:(repeat constructor; exact Hcom)
                  ltac:(constructor) ltac:(constructor) Hk2 Hv2 Hb2
                  Hq2 Hlk2 Hlv2 ltac:(left; reflexivity)) as Hl2.
    unfold comment_lines in Hl2. cbn [map concat app] in Hl2 |- *.
    rewrite <- !app_assoc in Hl2. cbn [app] in Hl2. rewrite Hl2. clear Hl2.
    destruct t; reflexivity. }
  pose proof (IniCacheLoadFromMemory_loaded text FileLength String h Hna) as Hsim.
  rewrite Hl in Hsim. destruct Hsim as (h' & D & Hload & Hrep & _).
  exists (fresh (dom (caches h))), h'. split; [exact Hload|].
  exact (store_rep_contents _ _ _ _ Hrep).
Qed.

Lemma IniCacheSkipToNextSection_loop_lines (ls : list (list Z)) (T : list Z) :
  Forall (λ l, Forall (λ c, in_line c = true) l ∧ hd NUL l ≠ LBRACKET) ls →
  ∀ t, IniCacheSkipToNextSection_loop (length ls + S t) (text_lines ls ++ LBRACKET :: T)
       = Ok (LBRACKET :: T).
Proof.
  induction 1 as [|l ls [Hl Hhd] _ IH]; intros t.
  - reflexivity.
  - cbn [length Nat.add IniCacheSkipToNextSection_loop].
    unfold text_lines. cbn [map concat]. fold (text_lines ls). rewrite <- !app_assoc.
    cbn [app].
    assert (Hd : ∃ c, deref (l ++ LF :: text_lines ls ++ LBRACKET :: T) = Ok c ∧
                      neq c NUL && neq c LBRACKET = true).
    { destruct l as [|x l]; cbn [app deref hd] in *; eexists; (split; [reflexivity|]);
        [reflexivity|].
      pose proof (Forall_inv Hl) as Hx. unfold in_line in Hx.
      apply andb_prop in Hx as [Hx _]. rewrite Hx. unfold neq.
      apply negb_true_iff, Z.eqb_neq. exact Hhd. }
    destruct Hd as (c & -> & Hc). cbn [rbind]. rewrite Hc.
    rewrite skip_while_app by exact Hl. rewrite skip_while_stop by reflexivity.
    cbn [rbind incr tl]. apply IH.
Qed.

(** More turns do not change what the loop returns. *)
Lemma contents_loop_mono String t :
  ∀ t' d cur Ptr d', (t ≤ t')%nat →
    contents_loop t String d cur Ptr = Ok d' → contents_loop t' String d cur Ptr = Ok d'.
Proof.
  induction t as [|t IH]; intros t' d cur Ptr d' Hle Hc.
  - destruct Ptr as [p|]; [|destruct t'; exact Hc]. cbn [contents_loop] in Hc.
    destruct (deref p) as [c| |] eqn:Hd; cbn [rbind] in Hc; try discriminate.
    destruct (c =? NUL) eqn:Hz; [|discriminate].
    destruct t'; cbn [contents_loop]; rewrite Hd; cbn [rbind]; rewrite Hz; exact Hc.
  - destruct t' as [|t']; [lia|]. destruct Ptr as [p|]; [|exact Hc].
    cbn [contents_loop] in Hc |- *.
    destruct (deref p) as [c| |]; cbn [rbind] in Hc |- *; try discriminate.
    destruct (c =? NUL); [exact Hc|].
    destruct (IniCacheSkipWhitespace p) as [[P1|]| |]; cbn [rbind] in Hc |- *;
      try discriminate; [|apply (IH t'); [lia|exact Hc]].
    destruct (deref P1) as [c1| |]; cbn [rbind] in Hc |- *; try discriminate.
    destruct (c1 =? LBRACKET).
    + destruct (IniCacheGetSectionName (incr P1)) as [[[P2 SN] SS]| |];
        cbn [rbind] in Hc |- *; try discriminate.
      destruct (contents_AddSection d SN SS) as [[d1 [i1|]]| |]; cbn [rbind] in Hc |- *;
        try discriminate; [apply (IH t'); [lia|exact Hc]|].
      destruct (IniCacheSkipToNextSection P2) as [P3| |]; cbn [rbind] in Hc |- *;
        try discriminate. apply (IH t'); [lia|exact Hc].
    + destruct cur as [i|].
      * destruct (IniCacheGetKeyName (Some P1)) as [[[P2 KN] KS]| |];
          cbn [rbind] in Hc |- *; try discriminate.
        destruct (IniCacheGetKeyValue P2 String) as [[[P3 KV] VS]| |];
          cbn [rbind] in Hc |- *; try discriminate.
        destruct (contents_AddKey d i KN KS KV VS) as [d1| |]; cbn [rbind] in Hc |- *;
          try discriminate. apply (IH t'); [lia|exact Hc].
      * destruct (IniCacheSkipToNextSection P1) as [P3| |]; cbn [rbind] in Hc |- *;
          try discriminate. apply (IH t'); [lia|exact Hc].
Qed.

(** X23. What comes before the first section. Lines that come before the
    first line that begins with an opening bracket are passed over: when
    the buffer from that bracket on is loaded, the buffer with such lines
    in front (the first one beginning with a character that is neither a
    blank nor a bracket, none of the others beginning with a bracket) is
    loaded with the same status and the same contents. *)
Theorem loader_passes_preamble (String : bool) (a : Z) (l0 : list Z) (ls : list (list Z))
    (T : list Z) (FileLength FileLength' : Z) (h h1 : heap) (Status : Z)
    (Cache : positive) :
  is_blank a = false → a ≠ LBRACKET →
  Forall (λ c, in_line c = true) (a :: l0) →
  Forall (λ l, Forall (λ c, in_line c = true) l ∧ hd NUL l ≠ LBRACKET) ls →
  no_allocation_failure h →
  IniCacheLoadFromMemory (LBRACKET :: T) FileLength String h
  = Ok ((Status, Some Cache), h1) →
  ∃ Cache' h1',
    IniCacheLoadFromMemory (text_lines ((a :: l0) :: ls) ++ LBRACKET :: T) FileLength'
      String h
    = Ok ((Status, Some Cache'), h1') ∧
    contents h1' Cache' = contents h1 Cache.
Proof.
  intros Hab Hal Hl0 Hls Hna Hload.
  pose proof (IniCacheLoadFromMemory_loaded (LBRACKET :: T) FileLength String h Hna) as Hsim.
  destruct (loaded (LBRACKET :: T) String) as [d| |] eqn:Hl; [|congruence|congruence].
  destruct Hsim as (h' & D & Hload' & Hrep & _). rewrite Hload in Hload'.
  injection Hload' as -> -> ->.
  set (text := text_lines ((a :: l0) :: ls) ++ LBRACKET :: T).
  assert (Hl2 : loaded text String = Ok d).
  { unfold loaded. cbn [contents_loop].
    assert (Htext : text = a :: (l0 ++ LF :: text_lines ls ++ LBRACKET :: T)).
    { unfold text, text_lines. cbn [map concat]. rewrite <- !app_assoc. reflexivity. }
    pose proof (Forall_inv Hl0) as Ha. unfold in_line in Ha.
    apply andb_prop in Ha as [Ha0 _]. apply negb_true_iff in Ha0.
    rewrite Htext at 1. cbn [deref rbind]. rewrite Ha0.
    unfold IniCacheSkipWhitespace. rewrite Htext at 1.
    rewrite skip_while_stop by exact Hab. cbn [rbind deref]. rewrite Ha0. cbv iota.
    cbn [rbind deref]. replace (a =? LBRACKET) with false
      by (symmetry; apply Z.eqb_neq; exact Hal).
    unfold IniCacheSkipToNextSection.
    assert (Hfuel : ∃ t, S (length (a :: l0 ++ LF :: text_lines ls ++ LBRACKET :: T))
                         = (length ((a :: l0) :: ls) + S t)%nat).
    { exists (length (a :: l0 ++ LF :: text_lines ls ++ LBRACKET :: T) - S (length ls))%nat.
      cbn [length]. rewrite !length_app. cbn [length]. rewrite !length_app.
      assert (Hlen : (length ls ≤ length (text_lines ls))%nat).
      { clear. unfold text_lines. induction ls as [|l ls IH]; cbn [map concat length]; [lia|].
        rewrite !length_app. cbn [length]. lia. }
      cbn [length]. lia. }
    destruct Hfuel as [t ->]. rewrite <- Htext. unfold text.
    rewrite (IniCacheSkipToNextSection_loop_lines ((a :: l0) :: ls) T
               ltac:(constructor; [split; [exact Hl0|exact Hal]|exact Hls]) t).
    cbn [rbind deref]. change (LBRACKET =? NUL) with false. cbv iota.
    apply (contents_loop_mono String (S (length (LBRACKET :: T)))); [|exact Hl].
    fold text. rewrite Htext. cbn [length]. rewrite !length_app. cbn [length].
    rewrite !length_app. cbn [length]. lia. }
  pose proof (IniCacheLoadFromMemory_loaded text FileLength' String h Hna) as Hsim2.
  rewrite Hl2 in Hsim2. destruct Hsim2 as (h2 & D2 & Hload2 & Hrep2 & _).
  exists (fresh (dom (caches h))), h2. split; [exact Hload2|].
  rewrite (store_rep_contents _ _ _ _ Hrep), (store_rep_contents _ _ _ _ Hrep2).
  reflexivity.
Qed.

End Passed.

(** ** The theorems at work on [two_sections] *)

Section Instances.

#[local] Existing Instance Latin1.

Lemma IniGetKey_statuses_witness :
  ∃ Status out,
    IniGetKey (Some 1%positive) (Some (chars "X")) (Some None) two_sections
    = Ok ((Status, out), two_sections) ∧ Status = STATUS_SUCCESS.
Proof.
  destruct (IniGetKey_statuses two_sections (Some 1%positive) (Some (chars "X")) (Some None))
    as (st & out & Hret & Hst & Hiff & _).
  - intros s Hs. injection Hs as <-. vm_compute. eauto.
  - exists st, out. split; [exact Hret|]. apply Hiff.
    exists 1%positive, (chars "X"), None, [1%positive; 2%positive], 1%positive.
    exists {| key_Name := chars "x"; key_Data := chars "1";
              key_Next := Some 2%positive; key_Prev := None |}.
    repeat apply conj; try (vm_compute; reflexivity). vm_compute. left.
Defined.

Lemma existing_key_is_updated_in_place_witness :
  ∃ h', updated_in_place two_sections h' 2%positive (chars "7") ∧
        IniAddKey (Some 1%positive) (Some (chars "Y")) (Some (chars "7")) two_sections
        = Ok (Some 2%positive, h').
Proof.
  destruct (proj2 (existing_key_is_updated_in_place two_sections 1%positive
                     [1%positive; 2%positive] 2%positive
                     ltac:(vm_compute; reflexivity)
                     ltac:(unfold allocations_succeed; vm_compute; constructor))
              (chars "Y") (chars "7"))
    as (h' & Hup & Hadd & _); try (vm_compute; reflexivity).
  exists h'. apply conj; assumption.
Defined.

Lemma failed_mutation_changes_nothing_witness :
  ∃ h', IniCacheAddKeyAorW (Some 1%positive) None INSERT_LAST
          (Some (pointer_of (chars "Y"))) 1 (Some (pointer_of (chars "7"))) 1 true
          (set_allocs [true; false] two_sections) = Ok (None, h') ∧
        same_store (set_allocs [true; false] two_sections) h' ∧
        entry_of h' 2%positive = Some (chars "y", chars "2").
Proof.
  destruct (proj2 (proj2 (proj2 (proj2 failed_mutation_changes_nothing)))
              (set_allocs [true; false] two_sections) 1%positive [1%positive; 2%positive]
              2%positive None INSERT_LAST (pointer_of (chars "Y")) 1
              (pointer_of (chars "7")) 1 true (chars "Y"))
    as (h' & Hcall & Hsame & Hentry); try (vm_compute; reflexivity);
    try (intros Hz; vm_compute in Hz; discriminate Hz).
  exists h'. apply conj; [exact Hcall|]. apply conj; [exact Hsame|]. rewrite Hentry.
  vm_compute. reflexivity.
Defined.

Lemma anchor_fallback_for_NULL_only_witness :
  (∃ Key h1 h2,
     IniInsertKey (Some 1%positive) None INSERT_BEFORE
       (Some (chars "z")) (Some (chars "9")) two_sections = Ok (Some Key, h1) ∧
     sound_section h1 1%positive [Key; 1%positive; 2%positive] ∧
     IniInsertKey (Some 1%positive) None INSERT_AFTER
       (Some (chars "z")) (Some (chars "9")) two_sections = Ok (Some Key, h2) ∧
     sound_section h2 1%positive [1%positive; 2%positive; Key]) ∧
  ∃ Key h',
    IniInsertKey (Some 1%positive) (Some 4%positive) INSERT_BEFORE
      (Some (chars "z")) (Some (chars "9")) two_sections = Ok (Some Key, h') ∧
    key_list h' 1%positive = Some [1%positive; 2%positive].
Proof.
  apply conj.
  { destruct (proj1 (proj2 anchor_fallback_for_NULL_only) two_sections 1%positive
                [1%positive; 2%positive] (chars "z") (chars "9"))
      as (Key & h1 & h2 & _ & Hbefore & _ & Hhead & _ & Hafter & _ & Htail & _).
    - apply conj; vm_compute; reflexivity.
    - vm_compute. reflexivity.
    - vm_compute. reflexivity.
    - vm_compute. reflexivity.
    - vm_compute. reflexivity.
    - vm_compute. reflexivity.
    - unfold allocations_succeed. vm_compute. constructor.
    - exists Key, h1, h2. apply conj; [exact Hbefore|]. apply conj; [exact Hhead|].
      apply conj; [exact Hafter|exact Htail]. }
  destruct (proj2 (proj2 anchor_fallback_for_NULL_only) two_sections 1%positive
              [1%positive; 2%positive] 4%positive key_v (chars "z") (chars "9"))
    as [Hbefore _].
  - apply conj; vm_compute; reflexivity.
  - intros Hnil. discriminate Hnil.
  - vm_compute. intros Hin. apply elem_of_cons in Hin as [Hin|Hin]; [discriminate Hin|].
    apply elem_of_cons in Hin as [Hin|Hin]; [discriminate Hin|]. inversion Hin.
  - vm_compute. reflexivity.
  - vm_compute. reflexivity.
  - vm_compute. reflexivity.
  - vm_compute. reflexivity.
  - vm_compute. reflexivity.
  - vm_compute. reflexivity.
  - unfold allocations_succeed. vm_compute. constructor.
  - cbn [key_v key_Prev] in Hbefore. destruct Hbefore as (Key & h' & Hcall & Hlist & _).
    + vm_compute. eauto.
    + vm_compute. intros Hin. apply elem_of_cons in Hin as [Hin|Hin]; [discriminate Hin|].
      apply elem_of_cons in Hin as [Hin|Hin]; [discriminate Hin|]. inversion Hin.
    + exists Key, h'. apply conj; assumption.
Defined.

(** The claim C3 as it was stated fails for an anchor of another section:
    asked to insert [z=9] in section A before the key [v] of section B,
    the code links the new key in B, between [u] and [v], and leaves A as
    it was; INSERT_FIRST puts it at the head of A. *)
Lemma foreign_anchor_is_no_fallback :
  let before := IniInsertKey (Some 1%positive) (Some 4%positive) INSERT_BEFORE
                  (Some (chars "z")) (Some (chars "9")) in
  let first := IniInsertKey (Some 1%positive) (Some 4%positive) INSERT_FIRST
                 (Some (chars "z")) (Some (chars "9")) in
  key_list two_sections 1%positive = Some [1%positive; 2%positive] ∧
  key_list two_sections 2%positive = Some [3%positive; 4%positive] ∧
  returned before two_sections = Some (Some 5%positive) ∧
  returned first two_sections = Some (Some 5%positive) ∧
  contents (heap_after before two_sections) 1%positive
  = Some [(chars "A", [(chars "x", chars "1"); (chars "y", chars "2")]);
          (chars "B", [(chars "u", chars "3"); (chars "z", chars "9");
                       (chars "v", chars "4")])] ∧
  contents (heap_after first two_sections) 1%positive
  = Some [(chars "A", [(chars "z", chars "9"); (chars "x", chars "1");
                       (chars "y", chars "2")]);
          (chars "B", [(chars "u", chars "3"); (chars "v", chars "4")])] ∧
  before two_sections ≠ first two_sections.
Proof. vm_compute. repeat apply conj; try reflexivity. discriminate. Qed.

Lemma sections_are_unique_by_folded_name_witness :
  ∃ S h',
    IniAddSection (Some 1%positive) (Some (chars "Foo")) two_sections = Ok (Some S, h') ∧
    IniGetSection (Some 1%positive) (Some (chars "FOO")) h' = Ok (Some S, h').
Proof.
  destruct (IniAddSection (Some 1%positive) (Some (chars "Foo")) two_sections)
    as [[[S|] h']| |] eqn:Hadd; try (vm_compute in Hadd; discriminate).
  exists S, h'. apply conj; [reflexivity|].
  apply (proj2 (proj2 sections_are_unique_by_folded_name) two_sections 1%positive
           [1%positive; 2%positive] (chars "Foo") (chars "FOO") S h').
  - apply conj; vm_compute; reflexivity.
  - unfold allocations_succeed. vm_compute. constructor.
  - vm_compute. reflexivity.
  - exact Hadd.
  - vm_compute. reflexivity.
Defined.

Lemma serializer_writes_render_witness :
  IniCacheSaveByHandle (Some 1%positive) (file_of []) two_sections
  = Ok ((STATUS_SUCCESS,
         Some (chars "[A]" ++ CRLF ++ chars "x=1" ++ CRLF ++ chars "y=2" ++ CRLF ++ CRLF
               ++ chars "[B]" ++ CRLF ++ chars "u=3" ++ CRLF ++ chars "v=4" ++ CRLF)),
        two_sections).
Proof.
  apply (proj1 (serializer_writes_render two_sections 1%positive (file_of [])
                  [(chars "A", [(chars "x", chars "1"); (chars "y", chars "2")]);
                   (chars "B", [(chars "u", chars "3"); (chars "v", chars "4")])]
                  ltac:(vm_compute; reflexivity) ltac:(reflexivity)
                  ltac:(vm_compute; reflexivity))).
Defined.

(** The value of [x] in [text_quoted] is read in quotes as [a;b], written
    without quotes, and read back as [a]. *)
Lemma quoted_value_is_not_read_back :
  ∃ first second,
    load_save_load text_quoted true (file_of []) = Ok (Some first, Some second) ∧
    first = [(chars "A", [(chars "x", chars "a;b")])] ∧
    second = [(chars "A", [(chars "x", chars "a")])] ∧
    first ≠ second.
Proof.
  exists [(chars "A", [(chars "x", chars "a;b")])], [(chars "A", [(chars "x", chars "a")])].
  apply conj; [vm_compute; reflexivity|]. apply conj; [reflexivity|].
  apply conj; [reflexivity|]. intros Heq. vm_compute in Heq. discriminate Heq.
Qed.

Lemma load_save_load_same_contents_witness :
  ∃ Status' Written h2 Cache' h3,
    IniCacheSaveByHandle (Some 1%positive) (file_of [])
      (heap_after (IniCacheLoadFromMemory (text_quoted_plain ++ [NUL])
                     (Z.of_nat (length text_quoted_plain)) true) empty_heap)
    = Ok ((Status', Some Written), h2) ∧
    Written = render [(chars "A", [(chars "x", chars "a b")]);
                      (chars "B", [(chars "y", chars "2")])] ∧
    IniCacheLoadFromMemory (Written ++ [NUL]) (Z.of_nat (length Written)) true h2
    = Ok ((STATUS_SUCCESS, Some Cache'), h3) ∧
    contents h3 Cache' = Some [(chars "A", [(chars "x", chars "a b")]);
                               (chars "B", [(chars "y", chars "2")])].
Proof.
  apply (load_save_load_same_contents (text_quoted_plain ++ [NUL])
           (Z.of_nat (length text_quoted_plain)) true (file_of []) empty_heap
           (heap_after (IniCacheLoadFromMemory (text_quoted_plain ++ [NUL])
                          (Z.of_nat (length text_quoted_plain)) true) empty_heap)
           STATUS_SUCCESS 1%positive
           [(chars "A", [(chars "x", chars "a b")]); (chars "B", [(chars "y", chars "2")])]).
  - apply Latin1_convertible. vm_compute. reflexivity.
  - constructor.
  - vm_compute. reflexivity.
  - vm_compute. reflexivity.
  - vm_compute. reflexivity.
  - vm_compute. reflexivity.
Defined.

End Instances.

(** ** Further instances *)

Section MoreInstances.

#[local] Existing Instance Latin1.

Lemma IniCacheDestroy_frees_every_node_witness :
  IniCacheDestroy (Some 1%positive) two_sections = Ok (tt, empty_heap).
Proof.
  exact (eq_trans
           (proj1 (IniCacheDestroy_frees_every_node two_sections 1%positive
                     [(1%positive, [1%positive; 2%positive]);
                      (2%positive, [3%positive; 4%positive])]
                     ltac:(vm_compute; reflexivity) ltac:(compute_done)))
           ltac:(vm_compute; reflexivity)).
Defined.

Lemma IniCacheDestroy_keeps_other_caches_witness :
  ∃ h', IniCacheDestroy (Some 1%positive) two_caches = Ok (tt, h') ∧
        node_lists h' 2%positive = Some [(3%positive, [5%positive])] ∧
        contents h' 2%positive = contents two_caches 2%positive ∧
        caches h' !! 1%positive = None.
Proof.
  apply (IniCacheDestroy_keeps_other_caches two_caches 1%positive 2%positive
           [(1%positive, [1%positive; 2%positive]); (2%positive, [3%positive; 4%positive])]
           [(3%positive, [5%positive])]).
  - vm_compute. reflexivity.
  - compute_done.
  - vm_compute. reflexivity.
  - discriminate.
  - compute_done.
  - compute_done.
Defined.

Lemma IniFindFirstValue_cases_witness :
  IniFindFirstValue (Some 1%positive) (Some None) (Some None) two_sections_i
  = Ok ((Some 1%positive, Some (Some (chars "x")), Some (Some (chars "1"))), iterating).
Proof.
  destruct (proj2 (IniFindFirstValue_cases two_sections_i 1%positive
                     [1%positive; 2%positive] None None ltac:(vm_compute; reflexivity)))
    as (kr & Hk & Heq).
  rewrite Heq. vm_compute in Hk. injection Hk as <-. vm_compute. reflexivity.
Defined.

Lemma IniFindNextValue_advances_witness :
  ∃ s, IniFindNextValue (Some 1%positive) (Some None) (Some None) iterating
       = Ok ((true, Some (Some (chars "y")), Some (Some (chars "2"))), s) ∧
       IniFindNextValue (Some 1%positive) (Some None) (Some None) s
       = Ok ((false, Some None, Some None), s).
Proof.
  destruct (IniFindNextValue_advances iterating 1%positive [1%positive; 2%positive]
              1%positive (Some 1%positive) 0 1%positive None None
              ltac:(vm_compute; reflexivity) ltac:(vm_compute; reflexivity)
              ltac:(reflexivity)) as (kr & Hk & Heq).
  eexists. apply conj.
  - rewrite Heq. vm_compute in Hk. injection Hk as <-. reflexivity.
  - apply (IniFindNextValue_advances _ 1%positive [1%positive; 2%positive]
             1%positive (Some 1%positive) 1 2%positive None None);
      vm_compute; reflexivity.
Defined.

Lemma IniFindClose_releases_witness :
  ∃ s2, IniFindClose (Some 1%positive) iterating = Ok (tt, s2) ∧
        iterators s2 = iterators two_sections_i ∧
        same_store (store two_sections_i) (store s2) ∧
        IniFindClose (Some 1%positive) s2 = Fault ∧
        IniFindClose None s2 = Ok (tt, s2).
Proof.
  apply (IniFindClose_releases two_sections_i iterating (Some 1%positive)
           (Some None) (Some None) (Some (Some (chars "x"))) (Some (Some (chars "1")))
           1%positive).
  vm_compute. reflexivity.
Defined.

Lemma IniAddKey_on_contents_witness :
  ∃ h' Key,
    IniAddKey (Some 1%positive) (Some (chars "Y")) (Some (chars "7")) two_sections
    = Ok (Some Key, h') ∧
    contents h' 1%positive
    = Some [(chars "A", [(chars "x", chars "1"); (chars "y", chars "7")]);
            (chars "B", [(chars "u", chars "3"); (chars "v", chars "4")])].
Proof.
  destruct (IniAddKey_on_contents two_sections 1%positive _ _ 0 1%positive
              (chars "Y") (chars "7") two_sections_rep ltac:(reflexivity)
              ltac:(unfold allocations_succeed; vm_compute; constructor)
              ltac:(reflexivity) ltac:(reflexivity)
              ltac:(vm_compute; reflexivity) ltac:(vm_compute; reflexivity))
    as (h' & D' & Key & n & es & Hcall & _ & Hcont & Hd & _).
  vm_compute in Hd. injection Hd as <- <-. exists h', Key.
  apply conj; [exact Hcall|]. rewrite Hcont. vm_compute. reflexivity.
Defined.

Lemma IniAddKey_then_IniGetKey_witness :
  ∃ h' Key,
    IniAddKey (Some 2%positive) (Some (chars "Path")) (Some (chars "C:")) two_sections
    = Ok (Some Key, h') ∧
    IniGetKey (Some 2%positive) (Some (chars "PATH")) (Some None) h'
    = Ok ((STATUS_SUCCESS, Some (Some (chars "C:"))), h').
Proof.
  apply (IniAddKey_then_IniGetKey two_sections 1%positive _ _ 1 2%positive
           (chars "Path") (chars "C:") (chars "PATH") None two_sections_rep).
  - reflexivity.
  - unfold allocations_succeed. vm_compute. constructor.
  - reflexivity.
  - reflexivity.
  - vm_compute. reflexivity.
  - vm_compute. reflexivity.
  - vm_compute. reflexivity.
Defined.

Lemma IniAddSection_on_contents_witness :
  ∃ h' S',
    IniAddSection (Some 1%positive) (Some (chars "Setup")) two_sections = Ok (Some S', h') ∧
    contents h' 1%positive
    = Some [(chars "A", [(chars "x", chars "1"); (chars "y", chars "2")]);
            (chars "B", [(chars "u", chars "3"); (chars "v", chars "4")]);
            (chars "Setup", [])].
Proof.
  destruct (IniAddSection_on_contents two_sections 1%positive _ _ (chars "Setup")
              two_sections_rep
              ltac:(unfold allocations_succeed; vm_compute; constructor)
              ltac:(reflexivity) ltac:(vm_compute; reflexivity))
    as (h' & D' & S' & Hcall & _ & Hcont & _).
  exists h', S'. apply conj; [exact Hcall|]. rewrite Hcont. vm_compute. reflexivity.
Defined.

Lemma IniInsertKey_places_new_key_witness :
  ∃ Key h',
    IniInsertKey (Some 1%positive) (Some 2%positive) INSERT_BEFORE
      (Some (chars "m")) (Some (chars "9")) two_sections = Ok (Some Key, h') ∧
    well_linked h' 1%positive [1%positive; Key; 2%positive] ∧
    entry_of h' Key = Some (chars "m", chars "9").
Proof.
  destruct (IniInsertKey_places_new_key two_sections 1%positive [1%positive; 2%positive]
              (Some 2%positive) (Some 1%nat) INSERT_BEFORE (chars "m") (chars "9")
              two_sections_linked ltac:(reflexivity) ltac:(reflexivity) ltac:(reflexivity)
              ltac:(vm_compute; reflexivity) ltac:(vm_compute; reflexivity)
              ltac:(vm_compute; reflexivity)
              ltac:(unfold allocations_succeed; vm_compute; constructor))
    as (Key & h' & Hcall & _ & Hwl & Hent & _).
  exists Key, h'. apply conj; [exact Hcall|]. apply conj; [exact Hwl|exact Hent].
Defined.

Ltac scanned :=
  repeat first
    [ apply conj
    | apply Forall_cons_2
    | apply Forall_nil_2
    | (vm_compute; reflexivity)
    | (let Hh := fresh in intros Hh; vm_compute in Hh; discriminate Hh) ].

Lemma loader_merges_repeated_names_witness :
  ∃ Cache h',
    IniCacheLoadFromMemory (render sections_A_B_a ++ [NUL]) 0 false empty_heap
    = Ok ((STATUS_SUCCESS, Some Cache), h') ∧
    contents h' Cache
    = Some [(chars "A", [(chars "x", chars "2"); (chars "y", chars "5")]);
            (chars "B", [(chars "u", chars "3")])].
Proof.
  destruct (loader_merges_repeated_names false sections_A_B_a 0 empty_heap)
    as (Cache & h' & Hload & Hcont).
  - unfold printable, sections_A_B_a, section_name_ok, key_line_ok, key_name_ok, value_ok,
      faithful. cbn [fst snd]. scanned.
  - vm_compute. reflexivity.
  - constructor.
  - exists Cache, h'. apply conj; [exact Hload|]. rewrite Hcont. vm_compute. reflexivity.
Defined.

Lemma loader_line_syntax_witness :
  ∃ Cache h',
    IniCacheLoadFromMemory
      (chars " [ A] junk" ++ [LF] ++ chars "x = 1" ++ [LF] ++ chars "y=2" ++ [CR; LF; NUL])
      0 false empty_heap
    = Ok ((STATUS_SUCCESS, Some Cache), h') ∧
    contents h' Cache = Some [(chars "A", [(chars "x", chars "1" ++ [LF] ++ chars "y=2")])].
Proof.
  destruct (loader_line_syntax false (chars " ") (chars " ") (chars " junk") [] (chars " ")
              (chars " ") (chars "A") (chars "x") (chars "1" ++ [LF] ++ chars "y=2") 0
              empty_heap) as (Cache & h' & Hload & Hcont);
    try (unfold section_name_ok, key_line_ok, key_name_ok, value_ok, faithful;
         cbn [fst snd]; scanned).
  exists Cache, h'. apply conj; [|exact Hcont].
  vm_compute in Hload. vm_compute. exact Hload.
Defined.

Lemma loader_names_are_distinct_witness :
  ∃ d, contents (heap_after (IniCacheLoadFromMemory (text_good_keys ++ [NUL]) 0 false)
                   empty_heap) 1%positive = Some d ∧
       d = [(chars "A", []); (chars "B", [(chars "y", chars "2")])] ∧
       names_ok d ∧ values_ok d.
Proof.
  destruct (loader_names_are_distinct (text_good_keys ++ [NUL]) 0 false empty_heap
              (heap_after (IniCacheLoadFromMemory (text_good_keys ++ [NUL]) 0 false)
                 empty_heap) STATUS_SUCCESS 1%positive)
    as (d & Hd & Hnames & Hvalues).
  - apply Latin1_convertible. vm_compute. reflexivity.
  - constructor.
  - vm_compute. reflexivity.
  - exists d. apply conj; [exact Hd|]. apply conj.
    + vm_compute in Hd. injection Hd as <-. reflexivity.
    + apply conj; [exact Hnames|exact (Hvalues eq_refl)].
Defined.

Lemma save_then_load_gives_contents_witness :
  ∃ Status Written h2 Cache' h3,
    IniCacheSaveByHandle (Some 1%positive) (file_of []) two_sections
    = Ok ((Status, Some Written), h2) ∧
    Written = render [(chars "A", [(chars "x", chars "1"); (chars "y", chars "2")]);
                      (chars "B", [(chars "u", chars "3"); (chars "v", chars "4")])] ∧
    IniCacheLoadFromMemory (Written ++ [NUL]) (Z.of_nat (length Written)) true h2
    = Ok ((STATUS_SUCCESS, Some Cache'), h3) ∧
    contents h3 Cache'
    = Some [(chars "A", [(chars "x", chars "1"); (chars "y", chars "2")]);
            (chars "B", [(chars "u", chars "3"); (chars "v", chars "4")])].
Proof.
  apply (save_then_load_gives_contents two_sections 1%positive _ _ true (file_of [])
           two_sections_rep).
  - constructor.
  - unfold canonical, section_ok, section_name_ok, key_line_ok, key_name_ok, value_ok,
      faithful. cbn [fst snd]. apply conj; [scanned; compute_done|compute_done].
  - vm_compute. reflexivity.
Defined.

Lemma IniCacheLoadFromMemory_ends_witness :
  IniCacheLoadFromMemory (text_bad_key ++ [NUL]) 0 true empty_heap ≠ Diverge ∧
  loaded (text_bad_key ++ [NUL]) true ≠ Diverge ∧
  (∀ Ptr, IniCacheSkipToNextSection Ptr ≠ Diverge) ∧
  (∀ Ptr, IniCacheGetKeyName (Some Ptr) ≠ Diverge).
Proof.
  apply (IniCacheLoadFromMemory_ends (text_bad_key ++ [NUL]) 0 true empty_heap).
  constructor.
Defined.

Lemma IniCacheLoadFromMemory_then_Destroy_witness :
  caches two_sections !! 2%positive = None ∧
  ∃ h2, IniCacheDestroy (Some 2%positive)
          (heap_after (IniCacheLoadFromMemory (text_good_keys ++ [NUL]) 0 true) two_sections)
        = Ok (tt, h2) ∧
        same_store two_sections h2.
Proof.
  apply (IniCacheLoadFromMemory_then_Destroy (text_good_keys ++ [NUL]) 0 true two_sections
           _ STATUS_SUCCESS 2%positive).
  vm_compute. reflexivity.
Defined.

Lemma IniCacheLoadFromMemory_keeps_other_caches_witness :
  contents (heap_after (IniCacheLoadFromMemory (text_good_keys ++ [NUL]) 0 true) two_sections)
    1%positive
  = contents two_sections 1%positive.
Proof.
  destruct (IniCacheLoadFromMemory_keeps_other_caches (text_good_keys ++ [NUL]) 0 true
              two_sections
              (heap_after (IniCacheLoadFromMemory (text_good_keys ++ [NUL]) 0 true)
                 two_sections)
              STATUS_SUCCESS 2%positive) as (_ & _ & _ & Hc).
  - vm_compute. reflexivity.
  - destruct (Hc 1%positive
                [(1%positive, [1%positive; 2%positive]);
                 (2%positive, [3%positive; 4%positive])]) as (_ & _ & Hcont);
      [vm_compute; reflexivity|exact Hcont].
Defined.

Lemma lookups_read_the_contents_witness :
  IniGetSection (Some 1%positive) (Some (chars "b")) two_sections
  = Ok (Some 2%positive, two_sections) ∧
  IniGetKey (Some 2%positive) (Some (chars "V")) (Some None) two_sections
  = Ok ((STATUS_SUCCESS, Some (Some (chars "4"))), two_sections) ∧
  IniGetKey (Some 2%positive) (Some (chars "x")) (Some (Some (chars "old"))) two_sections
  = Ok ((STATUS_INVALID_PARAMETER, Some None), two_sections).
Proof.
  destruct (lookups_read_the_contents two_sections 1%positive _ _ (chars "b") (chars "V")
              None two_sections_rep) as [Hsec Hkey].
  destruct (lookups_read_the_contents two_sections 1%positive _ _ (chars "b") (chars "x")
              (Some (chars "old")) two_sections_rep) as [_ Hkey2].
  apply conj; [exact Hsec|].
  apply conj.
  - exact (Hkey 1%nat 2%positive _ _ eq_refl eq_refl).
  - exact (Hkey2 1%nat 2%positive _ _ eq_refl eq_refl).
Defined.

Lemma IniAddKey_keeps_other_lookups_witness :
  ∃ h' Key,
    IniAddKey (Some 1%positive) (Some (chars "x")) (Some (chars "9")) two_sections
    = Ok (Some Key, h') ∧
    returned (IniGetKey (Some 1%positive) (Some (chars "Y")) (Some None)) h'
    = returned (IniGetKey (Some 1%positive) (Some (chars "Y")) (Some None)) two_sections ∧
    ∀ Name3, returned (IniGetSection (Some 1%positive) (Some Name3)) h'
             = returned (IniGetSection (Some 1%positive) (Some Name3)) two_sections.
Proof.
  apply (IniAddKey_keeps_other_lookups two_sections 1%positive _ _ 0 1%positive
           (chars "x") (chars "9") 0 1%positive (chars "Y") None two_sections_rep).
  - reflexivity.
  - unfold allocations_succeed. vm_compute. constructor.
  - reflexivity.
  - reflexivity.
  - vm_compute. reflexivity.
  - vm_compute. reflexivity.
  - reflexivity.
  - right. intros Hc. vm_compute in Hc. discriminate Hc.
Defined.

Lemma IniCacheSave_then_IniCacheLoad_witness :
  ∃ Written h2 Cache' h3,
    IniCacheSave (Some 1%positive) (file_of []) two_sections
    = Ok ((STATUS_SUCCESS, Some Written), h2) ∧
    IniCacheLoad (file_of Written) true h2 = Ok ((STATUS_SUCCESS, Some Cache'), h3) ∧
    Cache' ≠ 1%positive ∧
    contents h3 Cache'
    = Some [(chars "A", [(chars "x", chars "1"); (chars "y", chars "2")]);
            (chars "B", [(chars "u", chars "3"); (chars "v", chars "4")])] ∧
    contents h3 1%positive
    = Some [(chars "A", [(chars "x", chars "1"); (chars "y", chars "2")]);
            (chars "B", [(chars "u", chars "3"); (chars "v", chars "4")])].
Proof.
  apply (IniCacheSave_then_IniCacheLoad two_sections 1%positive _ _ true (file_of [])
           two_sections_rep).
  - constructor.
  - unfold canonical, section_ok, section_name_ok, key_line_ok, key_name_ok, value_ok,
      faithful. cbn [fst snd]. apply conj; [scanned; compute_done|compute_done].
  - vm_compute. reflexivity.
  - reflexivity.
  - reflexivity.
Defined.

Lemma IniCacheSave_statuses_witness :
  same_store two_sections (heap_after (IniCacheSave (Some 1%positive) (file_of [])) two_sections) ∧
  NT_SUCCESS (NtWriteFile_Status (file_of [])) = true.
Proof.
  destruct (IniCacheSave_statuses (Some 1%positive) (file_of []) two_sections
              (heap_after (IniCacheSave (Some 1%positive) (file_of [])) two_sections)
              STATUS_SUCCESS
              (Some (render [(chars "A", [(chars "x", chars "1"); (chars "y", chars "2")]);
                             (chars "B", [(chars "u", chars "3"); (chars "v", chars "4")])])))
    as (Hsame & _ & _ & _ & _ & Hs).
  - vm_compute. reflexivity.
  - apply conj; [exact Hsame|]. apply Hs. reflexivity.
Defined.

Lemma loader_passes_comments_witness :
  ∃ Cache h',
    IniCacheLoadFromMemory
      (chars "[A]" ++ CRLF ++ chars "; first" ++ CRLF ++ chars ";second" ++ CRLF
       ++ chars "x=1 ;note" ++ CRLF ++ chars "y=2" ++ CRLF ++ [NUL])
      0 false empty_heap
    = Ok ((STATUS_SUCCESS, Some Cache), h') ∧
    contents h' Cache = Some [(chars "A", [(chars "x", chars "1 "); (chars "y", chars "2")])].
Proof.
  destruct (loader_passes_comments false (chars "A") [chars " first"; chars "second"]
              (chars "x") (chars "1 ") (chars "note") (chars "y") (chars "2") 0 empty_heap)
    as (Cache & h' & Hload & Hcont);
    try (unfold section_name_ok, key_line_ok, key_name_ok, value_ok, faithful;
         cbn [fst snd]; scanned).
  exists Cache, h'. apply conj.
  - vm_compute in Hload. vm_compute. exact Hload.
  - rewrite Hcont. vm_compute. reflexivity.
Defined.

Lemma loader_passes_preamble_witness :
  ∃ Cache' h1',
    IniCacheLoadFromMemory
      (chars "junk" ++ [LF] ++ chars "x=1" ++ [LF] ++ [LF]
       ++ chars "[A]" ++ CRLF ++ chars "y=2" ++ CRLF ++ [NUL])
      0 false empty_heap
    = Ok ((STATUS_SUCCESS, Some Cache'), h1') ∧
    contents h1' Cache' = Some [(chars "A", [(chars "y", chars "2")])].
Proof.
  destruct (loader_passes_preamble false 106 (chars "unk") [chars "x=1"; []]
              (chars "A]" ++ CRLF ++ chars "y=2" ++ CRLF ++ [NUL]) 0 0 empty_heap
              (heap_after (IniCacheLoadFromMemory
                             (chars "[A]" ++ CRLF ++ chars "y=2" ++ CRLF ++ [NUL]) 0 false)
                 empty_heap)
              STATUS_SUCCESS 1%positive)
    as (Cache' & h1' & Hload & Hcont); try scanned.
  exists Cache', h1'. apply conj.
  - vm_compute in Hload. vm_compute. exact Hload.
  - rewrite Hcont. vm_compute. reflexivity.
Defined.

Lemma loaded_cache_is_well_linked_witness :
  STATUS_SUCCESS = STATUS_SUCCESS ∧
  ∃ D d,
    store_rep (heap_after (IniCacheLoadFromMemory (text_good_keys ++ [NUL]) 0 true)
                 (set_allocs [true; true; true; false] empty_heap))
      1%positive D d ∧
    contents (heap_after (IniCacheLoadFromMemory (text_good_keys ++ [NUL]) 0 true)
                (set_allocs [true; true; true; false] empty_heap))
      1%positive = Some d ∧
    NoDup (concat (D.*2)) ∧
    Forall (λ x, well_linked
                   (heap_after (IniCacheLoadFromMemory (text_good_keys ++ [NUL]) 0 true)
                      (set_allocs [true; true; true; false] empty_heap)) x.1 x.2) D.
Proof.
  apply (loaded_cache_is_well_linked (text_good_keys ++ [NUL]) 0 true
           (set_allocs [true; true; true; false] empty_heap) _ STATUS_SUCCESS 1%positive).
  vm_compute. reflexivity.
Defined.

End MoreInstances.
